(** * ChemBalance: the notation scanner, the validators, the compound
      simplifier, the linear-system builder, the least-squares solver and the
      stringifier of [parse.ts] and [solver.ts], embedded in Rocq.

    JavaScript strings are sequences of UTF-16 code units, JavaScript numbers
    are IEEE-754 binary64 values.  Both are modelled as such: a string is a
    list of code units, a number is a [spec_float] handled with the binary64
    operations of the standard library's [SpecFloat]. *)

From Stdlib Require Import ZArith NArith PArith List Bool String Ascii Lia.
From Stdlib Require Import QArith Qcanon Qcabs Field.
Local Close Scope Q_scope.
Local Close Scope Qc_scope.
From Stdlib Require Import Floats.SpecFloat.
Import List ListNotations.

Set Implicit Arguments.

(** ** Strings as UTF-16 code units *)

Module JsString.

Definition char := N.
Definition jsstring := list char.

(** Decoding of a UTF-8 literal of the development into code units of the
    basic multilingual plane, so that statements can quote the strings of
    the program as they are written in its source. *)
Fixpoint utf8 (bs : list N) : jsstring :=
  match bs with
  | [] => []
  | b0 :: r0 =>
      if (b0 <? 128)%N then b0 :: utf8 r0
      else match r0 with
           | [] => [b0]
           | b1 :: r1 =>
               if (b0 <? 224)%N
               then ((b0 - 192) * 64 + (b1 - 128))%N :: utf8 r1
               else match r1 with
                    | [] => [b0; b1]
                    | b2 :: r2 =>
                        ((b0 - 224) * 4096 + (b1 - 128) * 64 + (b2 - 128))%N
                          :: utf8 r2
                    end
           end
  end.

Definition js (s : string) : jsstring :=
  utf8 (map N_of_ascii (list_ascii_of_string s)).

Definition eqb (a b : jsstring) : bool :=
  if list_eq_dec N.eq_dec a b then true else false.

End JsString.
Import JsString.

(** ** Numbers: IEEE-754 binary64 *)

Module Double.

Definition prec : Z := 53.
Definition emax : Z := 1024.
Definition double := spec_float.

Definition add : double -> double -> double := SFadd prec emax.
Definition sub : double -> double -> double := SFsub prec emax.
Definition mul : double -> double -> double := SFmul prec emax.
Definition div : double -> double -> double := SFdiv prec emax.
Definition neg : double -> double := SFopp.
Definition abs : double -> double := SFabs.
Definition ltb : double -> double -> bool := SFltb.
Definition gtb (x y : double) : bool := SFltb y x.
Definition eqb : double -> double -> bool := SFeqb.

Definition of_Z (z : Z) : double := binary_normalize prec emax z 0 false.
Definition zero : double := S754_zero false.
Definition one : double := of_Z 1.
Definition nan : double := S754_nan.

(** The nearest binary64 value of the rational [p / q], [q > 0]
    (round to nearest, ties to even). *)
Definition of_ratio (s : bool) (p q : positive) : double :=
  div (S754_finite s p 0) (S754_finite false q 0).

(** ToBoolean of a number: [false] for [+0], [-0] and [NaN]. *)
Definition truthy (x : double) : bool :=
  match x with
  | S754_zero _ | S754_nan => false
  | _ => true
  end.

(** [x == 0] *)
Definition is_zero (x : double) : bool := eqb x zero.

Definition eq_dec (x y : double) : {x = y} + {x <> y}.
Proof.
  decide equality; try apply Bool.bool_dec;
    try apply Z.eq_dec; apply Pos.eq_dec.
Defined.

(** [Math.round]: the integer nearest to [x], ties towards +infinity;
    [-0] for [-0.5 <= x < 0]. *)
Definition round (x : double) : double :=
  match x with
  | S754_finite s m e =>
      match e with
      | Zneg p =>
          let d := Z.pow 2 (Zpos p) in
          let r := Z.div (2 * (if s then Zneg m else Zpos m) + d) (2 * d) in
          if Z.eqb r 0 then S754_zero s else of_Z r
      | _ => x
      end
  | _ => x
  end.

(** *** Number::toString, radix 10 *)

Fixpoint digits_aux (fuel : nat) (n : N) (acc : list N) : list N :=
  match fuel with
  | O => acc
  | S f =>
      if (n <? 10)%N then n :: acc
      else digits_aux f (n / 10)%N ((n mod 10)%N :: acc)
  end.

(** Decimal digits of [n], most significant first. *)
Definition digits (n : N) : list N :=
  digits_aux (S (N.to_nat (N.log2 n))) n [].

Definition digit_char (d : N) : char := (48 + d)%N.

Definition digit_chars (n : N) : jsstring := map digit_char (digits n).

(** The decimal exponent [n] of the positive rational [p / q]:
    [10^(n-1) <= p/q < 10^n]. *)
Fixpoint dec_exp_up (fuel : nat) (p q : Z) (n : Z) : Z :=
  match fuel with
  | O => n
  | S f => if (p <? q)%Z then n else dec_exp_up f p (10 * q)%Z (n + 1)%Z
  end.

Fixpoint dec_exp_down (fuel : nat) (p q : Z) (n : Z) : Z :=
  match fuel with
  | O => n
  | S f => if (q <=? 10 * p)%Z then n
           else dec_exp_down f (10 * p)%Z q (n - 1)%Z
  end.

Definition dec_exp (p q : Z) : Z :=
  if (q <=? p)%Z then dec_exp_up 400 p q 0 else dec_exp_down 400 p q 0.

(** [p/q] as a pair for [m * 2^e]. *)
Definition ratio_of (m : positive) (e : Z) : Z * Z :=
  match e with
  | Zneg k => (Zpos m, Z.pow 2 (Zpos k))
  | _ => (Zpos m * Z.pow 2 e, 1)%Z
  end.

(** [s * 10^t] as a correctly rounded double. *)
Definition of_decimal (s : Z) (t : Z) : double :=
  match s with
  | Zpos sp =>
      match t with
      | Zneg k => of_ratio false sp (Pos.pow 10 k)
      | _ => of_ratio false (Z.to_pos (s * Z.pow 10 t)) 1
      end
  | _ => zero
  end.

(** The candidates with [k] digits around [p/q]: the result, if one of them
    reads back as [x], is the digit string [s] (as a number) and the decimal
    exponent, the closest to [p/q] of the two, the even one on a tie. *)
Definition shortest_at (x : double) (p q n : Z) (k : Z) : option (Z * Z) :=
  let t := (n - k)%Z in
  let '(pn, qd) := match t with
                   | Zneg _ => (p * Z.pow 10 (- t), q)%Z
                   | _ => (p, q * Z.pow 10 t)%Z
                   end in
  let lo := Z.div pn qd in
  let hi := (lo + 1)%Z in
  let ok_lo := if eq_dec (of_decimal lo t) x then true else false in
  let ok_hi := if eq_dec (of_decimal hi t) x then true else false in
  let pick s := if (s =? Z.pow 10 k)%Z then Some (Z.pow 10 (k - 1), n + 1)%Z
                else Some (s, n) in
  match ok_lo, ok_hi with
  | true, false => pick lo
  | false, true => pick hi
  | false, false => None
  | true, true =>
      (* distance of the two from p/q, scaled by qd *)
      let dlo := (pn - lo * qd)%Z in
      let dhi := (hi * qd - pn)%Z in
      if (dlo <? dhi)%Z then pick lo
      else if (dhi <? dlo)%Z then pick hi
      else if Z.even lo then pick lo else pick hi
  end.

Fixpoint shortest_from (fuel : nat) (x : double) (p q n k : Z)
  : option (Z * Z * Z) :=
  match fuel with
  | O => None
  | S f =>
      match shortest_at x p q n k with
      | Some (s, n') => Some (s, n', k)
      | None => shortest_from f x p q n (k + 1)%Z
      end
  end.

Definition repeat_char (c : char) (n : Z) : jsstring :=
  repeat c (Z.to_nat n).

Definition c_minus : char := 45%N.
Definition c_plus : char := 43%N.
Definition c_dot : char := 46%N.
Definition c_e : char := 101%N.

Definition format (s n k : Z) : jsstring :=
  let ds := digit_chars (Z.to_N s) in
  if ((k <=? n) && (n <=? 21))%Z%bool then
    ds ++ repeat_char (digit_char 0) (n - k)
  else if ((0 <? n) && (n <=? 21))%Z%bool then
    firstn (Z.to_nat n) ds ++ [c_dot] ++ skipn (Z.to_nat n) ds
  else if ((-6 <? n) && (n <=? 0))%Z%bool then
    [digit_char 0; c_dot] ++ repeat_char (digit_char 0) (- n) ++ ds
  else
    let ex := (n - 1)%Z in
    let sign := if (ex <? 0)%Z then c_minus else c_plus in
    let exs := digit_chars (Z.to_N (Z.abs ex)) in
    match ds with
    | [] => []
    | d :: rest =>
        (d :: (match rest with [] => [] | _ => c_dot :: rest end))
          ++ [c_e; sign] ++ exs
    end.

Definition to_string_pos (m : positive) (e : Z) : jsstring :=
  let x := S754_finite false m e in
  let '(p, q) := ratio_of m e in
  let n := dec_exp p q in
  match shortest_from 18 x p q n 1 with
  | Some (s, n', k) => format s n' k
  | None => []
  end.

Definition to_string (x : double) : jsstring :=
  match x with
  | S754_nan => js "NaN"
  | S754_zero _ => js "0"
  | S754_infinity s => (if s then [c_minus] else []) ++ js "Infinity"
  | S754_finite s m e => (if s then [c_minus] else []) ++ to_string_pos m e
  end.

(** *** StringToNumber on the language of the scanner's number pattern
    once white space is removed: an optional sign, digits, an optional dot,
    digits. *)

Definition is_digit (c : char) : bool := ((48 <=? c) && (c <=? 57))%N.

Fixpoint read_digits (s : jsstring) (acc : N) (cnt : N)
  : N * N * jsstring :=
  match s with
  | c :: r => if is_digit c then read_digits r (10 * acc + (c - 48))%N (cnt + 1)%N
              else (acc, cnt, s)
  | [] => (acc, cnt, [])
  end.

Definition of_string (s : jsstring) : double :=
  let '(sg, body) :=
    match s with
    | c :: r => if (c =? c_minus)%N then (true, r)
                else if (c =? c_plus)%N then (false, r) else (false, s)
    | [] => (false, s)
    end in
  let '(ip, ic, rest) := read_digits body 0%N 0%N in
  let finish (mant : N) (fc : N) (total : N) :=
    if (total =? 0)%N then nan
    else match mant with
         | N0 => S754_zero sg
         | Npos mp => of_ratio sg mp (Z.to_pos (Z.pow 10 (Z.of_N fc)))
         end in
  match rest with
  | [] => finish ip 0%N ic
  | c :: r =>
      if (c =? c_dot)%N then
        let '(m, fc, rest') := read_digits r ip 0%N in
        match rest' with
        | [] => finish m fc (ic + fc)%N
        | _ => nan
        end
      else nan
  end.

End Double.

(** ** Results of fallible code *)

(** The exceptions thrown by [parse.ts] and [solver.ts]. *)
Inductive error : Type :=
| MissingYield          (* SyntaxError 'Equation must have one yield "⇒"' *)
| DuplicateYield        (* SyntaxError 'Equation must have only one yield "⇒"' *)
| ElementMismatch       (* SyntaxError "Elements on both sides must be the same" *)
| TooManyDefault        (* SyntaxError "Equation must have zero or one formula
                           with default coefficient." *)
| InputNot2D            (* Error "Input must be a 2D array" *)
| IncompatibleMultiply  (* Error "Incompatible matrices for multiplication" *)
| IncompatibleGauss     (* Error "Incompatible matrices for Gaussian elimination" *)
| IncompatibleAugment   (* Error "Incompatible dimensions for matrix augmentation" *)
| Singular.             (* throw "matrix is singular", after the event
                           "No solution were found." *)

Inductive result (A : Type) : Type :=
| Ok (a : A)
| Err (e : error).
Arguments Ok {A} a.
Arguments Err {A} e.

Definition bind {A B} (r : result A) (f : A -> result B) : result B :=
  match r with
  | Ok a => f a
  | Err e => Err e
  end.

Notation "'do' x <- r ; k" := (bind r (fun x => k))
  (at level 10, x pattern, r at level 100, k at level 200).

(** ** The arithmetic of numbers, as an interface

    The builder and the solver only use the operations below.  The program
    runs them on binary64 numbers; the same code is also read over the
    rationals to state what the algorithm computes when no rounding occurs. *)

Class JSNumber (R : Type) : Type := {
  zero : R;
  one : R;
  add : R -> R -> R;
  sub : R -> R -> R;
  mul : R -> R -> R;
  div : R -> R -> R;
  neg : R -> R;
  abs : R -> R;
  gtb : R -> R -> bool;      (* [x > y] *)
  is_zero : R -> bool;       (* [x == 0] *)
  truthy : R -> bool         (* ToBoolean *)
}.

#[export] Instance double_number : JSNumber Double.double := {
  zero := Double.zero;
  one := Double.one;
  add := Double.add;
  sub := Double.sub;
  mul := Double.mul;
  div := Double.div;
  neg := Double.neg;
  abs := Double.abs;
  gtb := Double.gtb;
  is_zero := Double.is_zero;
  truthy := Double.truthy
}.

(** Exact arithmetic: the canonical rationals. *)
Definition Qc_gtb (x y : Qc) : bool :=
  match Qccompare x y with Gt => true | _ => false end.

Definition Qc_is_zero (x : Qc) : bool :=
  if Qc_eq_dec x (Q2Qc 0) then true else false.

#[export] Instance exact_number : JSNumber Qc := {
  zero := Q2Qc 0;
  one := Q2Qc 1;
  add := Qcplus;
  sub := Qcminus;
  mul := Qcmult;
  div := Qcdiv;
  neg := Qcopp;
  abs := Qcabs;
  gtb := Qc_gtb;
  is_zero := Qc_is_zero;
  truthy := fun x => negb (Qc_is_zero x)
}.

(** ** The data model ([types.ts]) *)

(** [Match]: a token of the AST, an object whose fields are all optional.
    [BRACKET] holds the raw inner text or, once it is scanned, the tokens of
    the body. *)
#[warnings="-register-all"]
Inductive Match : Type := mkMatch {
  SUM : option jsstring;
  YIELD : option jsstring;
  ELEMENT : option jsstring;
  BRACKET : option (jsstring + list Match);
  COUNT : option Double.double;
  CHARGE : option Double.double;
  FREE_CHARGE : option Double.double
}.

Definition empty_match : Match :=
  mkMatch None None None None None None None.

Definition set_BRACKET (m : Match) (b : jsstring + list Match) : Match :=
  mkMatch (SUM m) (YIELD m) (ELEMENT m) (Some b) (COUNT m) (CHARGE m)
    (FREE_CHARGE m).

Definition set_COUNT (m : Match) (c : option Double.double) : Match :=
  mkMatch (SUM m) (YIELD m) (ELEMENT m) (BRACKET m) c (CHARGE m)
    (FREE_CHARGE m).

Definition set_FREE_CHARGE (m : Match) (c : Double.double) : Match :=
  mkMatch (SUM m) (YIELD m) (ELEMENT m) (BRACKET m) (COUNT m) (CHARGE m)
    (Some c).

(** [AbstractToken]: an object from property names to numbers, its keys in
    insertion order, and the slot of the private symbol [_default]. *)
Record AbstractToken (R : Type) : Type := mkAbstract {
  props : list (jsstring * R);
  dflt : option R
}.
Arguments mkAbstract {R} props dflt.
Arguments props {R} a.
Arguments dflt {R} a.

Section Objects.
Context {R : Type}.

(** [obj[key]], [None] for [undefined]. *)
Fixpoint prop_get (l : list (jsstring * R)) (key : jsstring) : option R :=
  match l with
  | [] => None
  | (k, v) :: r => if JsString.eqb k key then Some v else prop_get r key
  end.

(** [obj[key] = v]: an existing key keeps its place, a new one goes last. *)
Fixpoint prop_set (l : list (jsstring * R)) (key : jsstring) (v : R)
  : list (jsstring * R) :=
  match l with
  | [] => [(key, v)]
  | (k, w) :: r => if JsString.eqb k key then (k, v) :: r
                   else (k, w) :: prop_set r key v
  end.

(** [Object.keys(obj)] *)
Definition keys (l : list (jsstring * R)) : list jsstring := map fst l.

Definition get (t : AbstractToken R) (key : jsstring) : option R :=
  prop_get (props t) key.

Definition set (t : AbstractToken R) (key : jsstring) (v : R)
  : AbstractToken R :=
  mkAbstract (prop_set (props t) key v) (dflt t).
End Objects.

(** [Set]: its elements in insertion order, without repetition. *)
Definition set_has (s : list jsstring) (x : jsstring) : bool :=
  existsb (JsString.eqb x) s.

Definition set_add (s : list jsstring) (x : jsstring) : list jsstring :=
  if set_has s x then s else s ++ [x].

(** [Set.prototype.delete]: the set without [x], and whether it was there. *)
Definition set_delete (s : list jsstring) (x : jsstring)
  : list jsstring * bool :=
  (filter (fun y => negb (JsString.eqb x y)) s, set_has s x).

Definition CHARGE_key : jsstring := js "CHARGE".
Definition COEFF_key : jsstring := js "COEFF".
Definition undefined_key : jsstring := js "undefined".

(** ** Regular expressions

    The constructs used by the pattern of [scan]: classes, sequence, ordered
    alternation, the greedy optional group, the greedy star of a class and
    named groups, matched by backtracking as the ECMAScript matcher does: a
    continuation receives the rest of the input and the captures so far, and
    its failure makes the construct try its next choice. *)

Module Regex.

Inductive group : Type :=
| G_SUM | G_FRM_MULT_A | G_BRACKET | G_FRM_MULT_B | G_FRM_CHARGE
| G_ELM_MULT_A | G_ELEMENT | G_ELM_MULT_B | G_ELM_CHARGE
| G_FREE_CHARGE | G_YIELD.

Definition group_eq_dec (a b : group) : {a = b} + {a <> b}.
Proof. decide equality. Defined.

(** The named groups, each with its text, the latest capture first. *)
Definition caps := list (group * jsstring).

Fixpoint lookup (c : caps) (g : group) : option jsstring :=
  match c with
  | [] => None
  | (h, v) :: r => if group_eq_dec h g then Some v else lookup r g
  end.

Inductive regex : Type :=
| Chr (p : char -> bool)
| Seq (a b : regex)
| Alt (a b : regex)
| Opt (a : regex)
| Star (p : char -> bool)
| Group (g : group) (a : regex).

(** The outcome of a match attempt: the rest of the input, the number of
    characters consumed since the start of the attempt, the captures. *)
Definition outcome := (jsstring * nat * caps)%type.

(** [p*], greedy: the longest run first, then shorter ones. *)
Fixpoint star (p : char -> bool) (k : jsstring -> nat -> option outcome)
  (s : jsstring) (n : nat) : option outcome :=
  match s with
  | x :: xs =>
      if p x then
        match star p k xs (S n) with
        | Some o => Some o
        | None => k s n
        end
      else k s n
  | [] => k [] n
  end.

Fixpoint rmatch (r : regex) (s : jsstring) (n : nat) (c : caps)
  (k : jsstring -> nat -> caps -> option outcome) : option outcome :=
  match r with
  | Chr p =>
      match s with
      | x :: xs => if p x then k xs (S n) c else None
      | [] => None
      end
  | Seq a b => rmatch a s n c (fun s' n' c' => rmatch b s' n' c' k)
  | Alt a b =>
      match rmatch a s n c k with
      | Some o => Some o
      | None => rmatch b s n c k
      end
  | Opt a =>
      match rmatch a s n c k with
      | Some o => Some o
      | None => k s n c
      end
  | Star p => star p (fun s' n' => k s' n' c) s n
  | Group g a =>
      rmatch a s n c (fun s' n' c' => k s' n' ((g, firstn (n' - n) s) :: c'))
  end.

Definition accept (s : jsstring) (n : nat) (c : caps) : option outcome :=
  Some (s, n, c).

(** The first position at or after [idx] where [r] matches, with the end
    of the match and the captures; [s] is the input from [idx] on. *)
Fixpoint exec_from (r : regex) (s : jsstring) (idx : nat)
  : option (nat * nat * caps) :=
  match rmatch r s 0 [] accept with
  | Some (_, n, c) => Some (idx, idx + n, c)
  | None =>
      match s with
      | [] => None
      | _ :: t => exec_from r t (S idx)
      end
  end.

(** [regex.exec(str)] of a global expression whose [lastIndex] is
    [lastIndex]: [None] for [null]. *)
Definition exec (r : regex) (str : jsstring) (lastIndex : nat)
  : option (nat * nat * caps) :=
  if length str <? lastIndex then None
  else exec_from r (skipn lastIndex str) lastIndex.

End Regex.
Import Regex.

(** ** The scanner *)

Module Scanner.

(** Character classes; the expression has the flag [i], under which
    [[A-Z]], [[a-z]] and a literal letter match both cases. *)
Definition in_range (lo hi : N) (c : char) : bool :=
  ((lo <=? c) && (c <=? hi))%N.

Definition is_char c0 (c : char) : bool := (c =? c0)%N.

Definition cls_digit : char -> bool := in_range 48 57.        (* [0-9], \d *)
Definition cls_letter (c : char) : bool :=                    (* [A-Z], [a-z] *)
  in_range 65 90 c || in_range 97 122 c.
Definition cls_word (c : char) : bool :=                      (* \w *)
  cls_letter c || cls_digit c || is_char 95 c.
Definition cls_space (c : char) : bool :=                     (* \s *)
  in_range 9 13 c || is_char 32 c || is_char 160 c || is_char 5760 c
  || in_range 8192 8202 c || is_char 8232 c || is_char 8233 c || is_char 8239 c
  || is_char 8287 c || is_char 12288 c || is_char 65279 c.
Definition cls_plus : char -> bool := is_char 43.                  (* [\+] *)
Definition cls_sign (c : char) : bool := is_char 43 c || is_char 45 c.  (* [\+\-] *)
Definition cls_dot : char -> bool := is_char 46.                   (* [.] *)
Definition cls_star : char -> bool := is_char 42.                  (* a star *)
Definition cls_open : char -> bool := is_char 91.                  (* \[ *)
Definition cls_close : char -> bool := is_char 93.                 (* \] *)
Definition cls_caret : char -> bool := is_char 94.                 (* \^ *)
Definition cls_s (c : char) : bool := is_char 115 c || is_char 83 c.    (* s *)
Definition cls_yield : char -> bool := is_char 8658.               (* [⇒] *)
Definition cls_body (c : char) : bool :=            (* the class of a bracket body *)
  cls_word c || cls_space c || cls_digit c || cls_star c || cls_open c
  || cls_close c || cls_dot c.

Declare Scope regex_scope.
Delimit Scope regex_scope with re.
Notation "a ;; b" := (Seq a b) (at level 61, right associativity)
  : regex_scope.
Local Open Scope regex_scope.

Definition ws : regex := Star cls_space.                      (* white space *)

(** [NumberPattern]: [[\+\-]?\s*[0-9]*\s*[.]{0,1}\s*[0-9]+] *)
Definition NumberPattern : regex :=
  Opt (Chr cls_sign) ;; ws ;; Star cls_digit ;; ws ;; Opt (Chr cls_dot) ;;
  ws ;; Chr cls_digit ;; Star cls_digit.

(** The optional leading multiplier: optional white space, the number as
    group [g], white space, a star, white space. *)
Definition mult_a (g : group) : regex :=
  Opt (ws ;; Group g NumberPattern ;; ws ;; Chr cls_star ;; ws).

(** The optional trailing multiplier: white space, a star, white space,
    an optional plus, white space, the number as group [g] and a tail: a
    run of white space for an element and, the template literal having
    dropped a backslash there, a run of the letter s for a formula. *)
Definition mult_b (g : group) (tail : char -> bool) : regex :=
  Opt (ws ;; Chr cls_star ;; ws ;; Opt (Chr cls_plus) ;; ws ;;
       Group g NumberPattern ;; Star tail).

(** The optional charge: white space, a caret, white space, the number as
    group [g], white space.  For a formula the group is followed by [?];
    for an element the [?] is the first character of the next piece of
    the pattern's source, and makes the group optional all the same. *)
Definition charge (g : group) : regex :=
  Opt (ws ;; Chr cls_caret ;; ws ;; Group g NumberPattern ;; ws).

Definition alt_sum : regex := Group G_SUM (Chr cls_plus).

Definition alt_formula : regex :=
  mult_a G_FRM_MULT_A ;; Chr cls_open ;; Group G_BRACKET (Star cls_body) ;;
  Chr cls_close ;; mult_b G_FRM_MULT_B cls_s ;; charge G_FRM_CHARGE.

Definition alt_element : regex :=
  mult_a G_ELM_MULT_A ;;
  Group G_ELEMENT (Chr cls_letter ;; Opt (Chr cls_letter)) ;;
  mult_b G_ELM_MULT_B cls_space ;; charge G_ELM_CHARGE.

Definition alt_free_charge : regex := Group G_FREE_CHARGE NumberPattern.

Definition alt_yield : regex := Group G_YIELD (Chr cls_yield).

(** The expression of [scan]. *)
Definition pattern : regex :=
  Alt alt_sum
    (Alt alt_formula (Alt alt_element (Alt alt_free_charge alt_yield))).

(** The keys of a [Match]: a group name without its [ELM_] or [FRM_]
    prefix, [MULT_A] and [MULT_B] turned into [COUNT]. *)
Inductive key : Type :=
| K_SUM | K_YIELD | K_ELEMENT | K_BRACKET | K_COUNT | K_CHARGE
| K_FREE_CHARGE.

Definition key_of (g : group) : key :=
  match g with
  | G_SUM => K_SUM
  | G_FRM_MULT_A | G_FRM_MULT_B | G_ELM_MULT_A | G_ELM_MULT_B => K_COUNT
  | G_BRACKET => K_BRACKET
  | G_FRM_CHARGE | G_ELM_CHARGE => K_CHARGE
  | G_ELEMENT => K_ELEMENT
  | G_FREE_CHARGE => K_FREE_CHARGE
  | G_YIELD => K_YIELD
  end.

(** [Number(value.replace(/\s*/g, ""))] *)
Definition to_number (value : jsstring) : Double.double :=
  Double.of_string (filter (fun c => negb (cls_space c)) value).

(** A number read for a key that holds one already multiplies it. *)
Definition merge (pre : option Double.double) (value : jsstring)
  : option Double.double :=
  match pre with
  | Some p => Some (Double.mul p (to_number value))
  | None => Some (to_number value)
  end.

Definition keep (pre : option jsstring) (value : jsstring)
  : option jsstring :=
  match pre with
  | Some p => Some p
  | None => Some value
  end.

(** The body of the loop over [Object.entries(m.groups)] for one group
    whose value is a non-empty string. *)
Definition assign (m : Match) (g : group) (value : jsstring) : Match :=
  match key_of g with
  | K_SUM => mkMatch (keep (SUM m) value) (YIELD m) (ELEMENT m) (BRACKET m)
               (COUNT m) (CHARGE m) (FREE_CHARGE m)
  | K_YIELD => mkMatch (SUM m) (keep (YIELD m) value) (ELEMENT m)
                 (BRACKET m) (COUNT m) (CHARGE m) (FREE_CHARGE m)
  | K_ELEMENT => mkMatch (SUM m) (YIELD m) (keep (ELEMENT m) value)
                   (BRACKET m) (COUNT m) (CHARGE m) (FREE_CHARGE m)
  | K_BRACKET =>
      match BRACKET m with
      | Some _ => m
      | None => set_BRACKET m (inl value)
      end
  | K_COUNT => mkMatch (SUM m) (YIELD m) (ELEMENT m) (BRACKET m)
                 (merge (COUNT m) value) (CHARGE m) (FREE_CHARGE m)
  | K_CHARGE => mkMatch (SUM m) (YIELD m) (ELEMENT m) (BRACKET m)
                  (COUNT m) (merge (CHARGE m) value) (FREE_CHARGE m)
  | K_FREE_CHARGE => mkMatch (SUM m) (YIELD m) (ELEMENT m) (BRACKET m)
                       (COUNT m) (CHARGE m) (merge (FREE_CHARGE m) value)
  end.

(** The groups in the order of the pattern, the order of
    [Object.entries(m.groups)]. *)
Definition all_groups : list group :=
  [G_SUM; G_FRM_MULT_A; G_BRACKET; G_FRM_MULT_B; G_FRM_CHARGE;
   G_ELM_MULT_A; G_ELEMENT; G_ELM_MULT_B; G_ELM_CHARGE; G_FREE_CHARGE;
   G_YIELD].

(** One entry of [Object.entries(m.groups)]: an unset group and an empty
    capture are both falsy and leave the [match] object as it is. *)
Definition assign_group (c : caps) (m : Match) (g : group) : Match :=
  match lookup c g with
  | Some (x :: v) => assign m g (x :: v)
  | _ => m
  end.

(** The [match] object built from the groups. *)
Definition build_match (c : caps) : Match :=
  fold_left (assign_group c) all_groups empty_match.

(** The end of the loop body: a bracket body of more than two characters
    is scanned in its turn, by [scan_rec]. *)
Definition scan_bracket (scan_rec : jsstring -> option (list Match))
  (m : Match) : option Match :=
  match BRACKET m with
  | Some (inl raw) =>
      if 2 <? length raw then
        match scan_rec raw with
        | Some body => Some (set_BRACKET m (inr body))
        | None => None
        end
      else Some m
  | _ => Some m
  end.

(** [lastIndex] after a match: a zero-width match moves it by one. *)
Definition advance (index last : nat) : nat :=
  if index =? last then S last else last.

(** The loop of [scan]; [fuel] bounds the iterations and the depth of the
    calls on bracket bodies together, [None] when it runs out. *)
Fixpoint scan_loop (fuel : nat) (str : jsstring) (lastIndex : nat)
  (matches : list Match) {struct fuel} : option (list Match) :=
  match fuel with
  | O => None
  | S f =>
      match exec pattern str lastIndex with
      | None => Some matches
      | Some (index, last, groups) =>
          let lastIndex' := advance index last in
          let m := build_match groups in
          match scan_bracket (fun raw => scan_loop f raw 0 []) m with
          | Some m' => scan_loop f str lastIndex' (matches ++ [m'])
          | None => None
          end
      end
  end.

Definition scan_fuel (fuel : nat) (str : jsstring) : option (list Match) :=
  scan_loop fuel str 0 [].

(** [scan(str)]: the loop run with the fuel that always suffices. *)
Definition scan (str : jsstring) : option (list Match) :=
  scan_fuel (length str + 2) str.

End Scanner.

(** ** The validators, the simplifier and the builder ([parse.ts]) *)

Module Parse.

Import Scanner.

Definition AbstractTok := AbstractToken Double.double.

(** [x || d] on an optional number. *)
Definition or_else (x : option Double.double) (d : Double.double)
  : Double.double :=
  match x with
  | Some v => if Double.truthy v then v else d
  | None => d
  end.

Definition has {A} (x : option A) : bool :=
  match x with Some _ => true | None => false end.

(** [Array.prototype.findIndex] and [findLastIndex], [None] for [-1]. *)
Fixpoint findIndex {A} (p : A -> bool) (l : list A) : option nat :=
  match l with
  | [] => None
  | x :: r => if p x then Some 0
              else match findIndex p r with
                   | Some i => Some (S i)
                   | None => None
                   end
  end.

Fixpoint findLastIndex {A} (p : A -> bool) (l : list A) : option nat :=
  match l with
  | [] => None
  | x :: r => match findLastIndex p r with
              | Some i => Some (S i)
              | None => if p x then Some 0 else None
              end
  end.

Definition is_yield (e : Match) : bool := has (YIELD e).

Definition mustHaveOneYield (ast : list Match) : result unit :=
  match findIndex is_yield ast with
  | None => Err MissingYield
  | Some index =>
      match findLastIndex is_yield ast with
      | Some last => if last =? index then Ok tt else Err DuplicateYield
      | None => Err DuplicateYield
      end
  end.

Definition indexOfYield (ast : list Match) : option nat :=
  findIndex is_yield ast.

(** The loop [for (let elm in abs)] of [simplifyCompound]: the counts of
    [abs], times [count], set or added into [abstract]. *)
Definition merge_counts (count : Double.double)
  (abstract : list (jsstring * Double.double))
  (abs : list (jsstring * Double.double))
  : list (jsstring * Double.double) :=
  fold_left
    (fun acc '(elm, v) =>
       if JsString.eqb elm CHARGE_key then acc
       else match prop_get acc elm with
            | None => prop_set acc elm (Double.mul count v)
            | Some old => prop_set acc elm (Double.add old (Double.mul count v))
            end)
    abs abstract.

Fixpoint simplifyCompound (token : Match) (branch : bool)
  : option AbstractTok :=
  match token with
  | mkMatch _ _ elt brk cnt chg fch =>
      match elt with
      | Some element =>                       (* "ELEMENT" in token *)
          let a0 := [(CHARGE_key, Double.zero)] in
          let a1 := prop_set a0 element (or_else cnt Double.one) in
          let a2 := prop_set a1 CHARGE_key (or_else chg Double.zero) in
          Some (mkAbstract a2 None)
      | None =>
          match brk with
          | Some body =>                      (* "BRACKET" in token *)
              let a0 := [(CHARGE_key, Double.zero)] in
              let d := match cnt with
                       | Some c => if negb branch && Double.truthy c
                                   then Some c else None
                       | None => None
                       end in
              let count := if branch then or_else cnt Double.one
                           else Double.one in
              let a1 := prop_set a0 CHARGE_key (or_else chg Double.zero) in
              match body with
              | inr items =>                  (* Array.isArray *)
                  let a2 :=
                    (fix each (items : list Match) acc :=
                       match items with
                       | [] => acc
                       | item :: rest =>
                           match simplifyCompound item true with
                           | Some abs =>
                               each rest (merge_counts count acc (props abs))
                           | None => each rest acc
                           end
                       end) items a1 in
                  Some (mkAbstract a2 d)
              | inl _ => Some (mkAbstract a1 d)
              end
          | None =>
              match fch with
              | Some f =>                     (* "FREE_CHARGE" in token *)
                  Some (mkAbstract
                          (prop_set [(CHARGE_key, Double.zero)] CHARGE_key f)
                          None)
              | None => None
              end
          end
      end
  end.

(** The element names of one side: the keys of its compounds but
    ["CHARGE"], collected in a [Set]. *)
Definition side_elements {R} (side : list (AbstractToken R))
  : list jsstring :=
  fold_left
    (fun acc comp =>
       fold_left set_add
         (filter (fun k => negb (JsString.eqb k CHARGE_key))
            (keys (props comp)))
         acc)
    side [].

(** The loop that deletes the elements of the left set from the right
    one, stopped by the first that is not there; the result is the right
    set that is left and [mismatchFound]. *)
Fixpoint delete_all (elementsLeft elementsRight : list jsstring)
  : list jsstring * bool :=
  match elementsLeft with
  | [] => (elementsRight, false)
  | element :: rest =>
      let '(right', found) := set_delete elementsRight element in
      if negb found then (right', true)
      else delete_all rest right'
  end.

Definition mustHaveTheSameElements {R} (left right : list (AbstractToken R))
  : result unit :=
  let elementsLeft := side_elements left in
  let elementsRight := side_elements right in
  let '(remaining, mismatchFound) := delete_all elementsLeft elementsRight in
  let mismatchFound :=
    if 0 <? length remaining then true else mismatchFound in
  if mismatchFound then Err ElementMismatch else Ok tt.

Section Generic.
Context {R : Type} `{JSNumber R}.

(** [token[_default]] as a condition. *)
Definition has_default (token : AbstractToken R) : bool :=
  match dflt token with
  | Some v => truthy v
  | None => false
  end.

Definition mustHaveLessThanTwoCoefficient
  (left right : list (AbstractToken R)) : result unit :=
  let count := length (filter has_default (left ++ right)) in
  if 1 <? count then Err TooManyDefault else Ok tt.

(** [extractElementsAndDefault] run over [[...left, ...right]]: the set
    of keys, and the index and value of the default compound. *)
Definition extractElementsAndDefault
  (st : list jsstring * nat * R) (token : AbstractToken R) (i : nat)
  : list jsstring * nat * R :=
  let '(elementsSet, index, coeff) := st in
  let elementsSet := fold_left set_add (keys (props token)) elementsSet in
  match dflt token with
  | Some v => if truthy v then (elementsSet, i, v)
              else (elementsSet, index, coeff)
  | None => (elementsSet, index, coeff)
  end.

Fixpoint forEach_extract (tokens : list (AbstractToken R)) (i : nat)
  (st : list jsstring * nat * R) : list jsstring * nat * R :=
  match tokens with
  | [] => st
  | t :: rest => forEach_extract rest (S i) (extractElementsAndDefault st t i)
  end.

(** [v || 0] for an entry of the left side, [-v || 0] for the right
    side, [v] being [undefined] when the compound has no such key. *)
Definition left_entry (t : AbstractToken R) (key : jsstring) : R :=
  match get t key with
  | Some v => if truthy v then v else zero
  | None => zero
  end.

Definition right_entry (t : AbstractToken R) (key : jsstring) : R :=
  match get t key with
  | Some v => if truthy (neg v) then neg v else zero
  | None => zero
  end.

(** [a[i] = v] on an array for [i <= a.length]: the write at [a.length]
    makes the array one longer. *)
Definition array_set {A} (a : list A) (i : nat) (v : A) : list A :=
  firstn i a ++ [v] ++ skipn (S i) a.

Definition makeAandB (left right : list (AbstractToken R))
  : list (list R) * list (list R) :=
  let '(elementsSet, index, coeff) :=
    forEach_extract (left ++ right) 0 ([], 0, one) in
  let numEquations := length elementsSet in
  let elements := elementsSet in
  let row (i : nat) : list R :=
    (* [elements[i]] is [undefined] for the last row *)
    let key := nth i elements undefined_key in
    map (fun t => left_entry t key) left
      ++ map (fun t => right_entry t key) right in
  let A := map row (seq 0 (numEquations + 1)) in
  let A := array_set A numEquations
             (array_set (nth numEquations A []) index one) in
  let B := repeat [zero] numEquations ++ [[coeff]] in
  (A, B).

End Generic.

End Parse.

(** ** The solver ([solver.ts]) *)

Module Solver.

Section Generic.
Context {R : Type} `{JSNumber R}.

Definition TwoDimMat := list (list R).

(** [M[i][j]]; the indices the solver reads are within the matrix when
    the matrix is rectangular. *)
Definition mget (M : TwoDimMat) (i j : nat) : R :=
  nth j (nth i M []) zero.

(** [l[i] = v] within the array. *)
Fixpoint upd {A} (l : list A) (i : nat) (v : A) : list A :=
  match l, i with
  | [], _ => []
  | _ :: r, O => v :: r
  | x :: r, S i' => x :: upd r i' v
  end.

(** [M[i][j] = v] *)
Definition mset (M : TwoDimMat) (i j : nat) (v : R) : TwoDimMat :=
  upd M i (upd (nth i M []) j v).

Definition cols (M : TwoDimMat) : nat := length (nth 0 M []).

Definition transpose (matrix : TwoDimMat) : result TwoDimMat :=
  match matrix with
  | [] => Err InputNot2D
  | _ =>
      let rows := length matrix in
      let cols := cols matrix in
      Ok (map (fun j => map (fun i => mget matrix i j) (seq 0 rows))
            (seq 0 cols))
  end.

Definition multiply (A B : TwoDimMat) : result TwoDimMat :=
  if (length A =? 0) || (length B =? 0)
     || negb (cols A =? length B)
  then Err IncompatibleMultiply
  else
    let rowsA := length A in
    let colsA := cols A in
    let colsB := cols B in
    Ok (map (fun i =>
               map (fun j =>
                      fold_left
                        (fun sum k => add sum (mul (mget A i k) (mget B k j)))
                        (seq 0 colsA) zero)
                 (seq 0 colsB))
          (seq 0 rowsA)).

(** The row at or below [k] whose entry in column [k] is first found
    larger in absolute value than those before it. *)
Definition findPivot (M : TwoDimMat) (k : nat) : nat :=
  fold_left
    (fun i_max i =>
       if gtb (abs (mget M i k)) (abs (mget M i_max k)) then i else i_max)
    (seq (k + 1) (length M - (k + 1))) k.

Definition swap (M : TwoDimMat) (i_max k : nat) : TwoDimMat :=
  if i_max =? k then M
  else upd (upd M i_max (nth k M [])) k (nth i_max M []).

(** The body of the loop on [i] in [diagonalize]: row [i] minus [c]
    times row [k] from column [k + 1] on, and zero in column [k]. *)
Definition eliminate_row (A : TwoDimMat) (k n i : nat) : TwoDimMat :=
  let c := div (mget A i k) (mget A k k) in
  let A :=
    fold_left
      (fun A j => mset A i j (sub (mget A i j) (mul (mget A k j) c)))
      (seq (k + 1) (n - (k + 1))) A in
  mset A i k zero.

(** Swap and elimination for the pivot in column [k], once the pivot
    is known not to be zero; [m] and [n] are the dimensions read at the
    start of [diagonalize]. *)
Definition eliminate (A : TwoDimMat) (m n k i_max : nat) : TwoDimMat :=
  let A := swap A k i_max in
  fold_left (fun A i => eliminate_row A k n i)
    (seq (k + 1) (m - (k + 1))) A.

(** One iteration of the loop on [k] in [diagonalize]. *)
Definition diagonalize_step (A : TwoDimMat) (m n k : nat)
  : result TwoDimMat :=
  let i_max := findPivot A k in
  if is_zero (mget A i_max k) then Err Singular
  else Ok (eliminate A m n k i_max).

Fixpoint diagonalize_from (m n : nat) (ks : list nat) (A : TwoDimMat)
  : result TwoDimMat :=
  match ks with
  | [] => Ok A
  | k :: rest =>
      match diagonalize_step A m n k with
      | Ok A' => diagonalize_from m n rest A'
      | Err e => Err e
      end
  end.

Definition diagonalize (A : TwoDimMat) : result TwoDimMat :=
  let m := length A in
  let n := cols A in
  diagonalize_from m n (seq 0 (Nat.min m n)) A.

(** [makeM]: each row of [A] with the first entry of the same row of
    [b] pushed at its end. *)
Definition makeM (A b : TwoDimMat) : result TwoDimMat :=
  let n := length A in
  if negb (n =? cols A) || negb (n =? length b)
  then Err IncompatibleAugment
  else Ok (map (fun i => nth i A [] ++ [mget b i 0]) (seq 0 n)).

(** The body of the loop on [i] in [substitute]. *)
Definition substitute_row (M : TwoDimMat) (m i : nat) : TwoDimMat :=
  let x := div (mget M i m) (mget M i i) in
  let M :=
    fold_left
      (fun M j =>
         let M := mset M j m (sub (mget M j m) (mul x (mget M j i))) in
         mset M j i zero)
      (rev (seq 0 i)) M in
  let M := mset M i m x in
  mset M i i one.

Definition substitute (M : TwoDimMat) : TwoDimMat :=
  let m := length M in
  fold_left (fun M i => substitute_row M m i) (rev (seq 0 m)) M.

Definition extractX (M : TwoDimMat) : list R :=
  let m := length M in
  let n := cols M in
  map (fun i => mget M i (n - 1)) (seq 0 m).

Definition copy (M : TwoDimMat) : TwoDimMat :=
  let m := length M in
  let n := cols M in
  map (fun i => map (fun j => mget M i j) (seq 0 n)) (seq 0 m).

Definition gaussian_elimination_calc (A B : TwoDimMat) : result (list R) :=
  let newA := copy A in
  let newB := copy B in
  if negb (length A =? cols A) || negb (length A =? length B)
  then Err IncompatibleGauss
  else
    do M <- makeM newA newB;
    do M <- diagonalize M;
    Ok (extractX (substitute M)).

Definition solve (A B : TwoDimMat) : result (list R) :=
  do AT <- transpose A;
  do ATA <- multiply AT A;
  do ATB <- multiply AT B;
  gaussian_elimination_calc ATA ATB.

End Generic.

End Solver.

(** ** [compute] and [stringify] ([parse.ts]) *)

Module Render.

Import Scanner Parse.

(** The tables [subscript] and [superscript]; a character without an
    entry maps to [undefined], which [join] renders as nothing. *)
Definition subscript (d : char) : jsstring :=
  if Double.is_digit d then [(8320 + (d - 48))%N]
  else if (d =? 46)%N then [46%N] else [].

Definition superscript (d : char) : jsstring :=
  if (d =? 49)%N then [185%N]
  else if (d =? 50)%N then [178%N]
  else if (d =? 51)%N then [179%N]
  else if Double.is_digit d then [(8304 + (d - 48))%N]
  else if (d =? 46)%N then [183%N] else [].

(** [chargescript = "⁻⁺"] *)
Definition chargescript : jsstring := js "⁻⁺".

Definition num2super (n : Double.double) : jsstring :=
  let charge :=
    if Double.ltb n Double.zero then Some 0
    else if Double.gtb n Double.zero then Some 1 else None in
  (match charge with
   | Some i => match nth_error chargescript i with
               | Some c => [c]
               | None => []
               end
   | None => []
   end) ++ flat_map superscript (Double.to_string n).

Definition num2sub (n : Double.double) : jsstring :=
  flat_map subscript (Double.to_string n).

Definition not_one (c : Double.double) : bool :=
  negb (Double.eqb c Double.one).

Definition stringifyElement (ast : Match) : jsstring :=
  let charge := match CHARGE ast with Some c => c | None => Double.zero end in
  let count := match COUNT ast with Some c => c | None => Double.one end in
  match ELEMENT ast with
  | Some e => e
  | None => undefined_key
  end
    ++ (if not_one count then num2sub count else [])
    ++ (if Double.truthy charge then num2super charge else []).

Fixpoint stringifyFormula (ast : Match) (main : bool) : jsstring :=
  match ast with
  | mkMatch _ _ _ brk cnt chg _ =>
      let charge := match chg with Some c => c | None => Double.zero end in
      let count := match cnt with Some c => c | None => Double.one end in
      let str :=
        match brk with
        | Some (inr items) =>               (* typeof BRACKET === "object" *)
            (fix each (items : list Match) : jsstring :=
               match items with
               | [] => []
               | obj :: rest =>
                   (if has (ELEMENT obj) then stringifyElement obj else [])
                     ++ (if has (BRACKET obj) then
                           match COUNT obj with
                           | Some c =>
                               if Double.truthy c then
                                 js "(" ++ stringifyFormula obj false
                                   ++ js ")"
                                   ++ (if not_one c then num2sub c else [])
                               else []
                           | None => []
                           end
                         else [])
                     ++ each rest
               end) items
        | _ => []
        end in
      (if main && not_one count then Double.to_string count else [])
        ++ str
        ++ (if Double.truthy charge then num2super charge else [])
  end.

(** [Object.values(ast).pop()] on an operator token, which holds the one
    key [YIELD] or [SUM]. *)
Definition stringifyOperator (ast : Match) : jsstring :=
  match YIELD ast with
  | Some y => y
  | None => match SUM ast with
            | Some s => s
            | None => []
            end
  end.

Definition stringifyFreeCharge (ast : Match) : jsstring :=
  match FREE_CHARGE ast with
  | Some f => if Double.truthy f then js "+e" ++ num2super f else []
  | None => []
  end.

Definition stringify (ast : list Match) : jsstring :=
  fold_left
    (fun txt obj =>
       txt
         ++ (if has (BRACKET obj) then stringifyFormula obj true
             else if has (ELEMENT obj) then stringifyElement obj
             else if has (FREE_CHARGE obj) then stringifyFreeCharge obj
             else if has (YIELD obj) || has (SUM obj)
                  then stringifyOperator obj
             else [])
         ++ js " ")
    ast [].

(** [Math.round(c * 1e4) / 1e4] *)
Definition round4 (c : Double.double) : Double.double :=
  Double.div (Double.round (Double.mul c (Double.of_Z 10000)))
    (Double.of_Z 10000).

(** The tokens that [filter((t) => t)] keeps. *)
Fixpoint defined {A} (l : list (option A)) : list A :=
  match l with
  | [] => []
  | Some a :: r => a :: defined r
  | None :: r => defined r
  end.

(** Steps 10 and 11 of [compute].  The objects of [leftTokens] and
    [rightTokens] are those of [remap]: the token at position [idx] of the
    AST, when it has an abstract token, is the next of
    [[...leftTokens, ...rightTokens]] unless [idx] is the index of the
    yield, and receives the coefficient at that rank as [COEFF]. *)
Definition update_token (tok : Match) (COEFF : option Double.double)
  : Match :=
  match FREE_CHARGE tok with
  | Some f =>
      if Double.truthy f then
        set_FREE_CHARGE tok
          (Double.mul f (match COEFF with
                         | Some c => c
                         | None => Double.nan
                         end))
      else set_COUNT tok COEFF
  | None => set_COUNT tok COEFF
  end.

Fixpoint write_back (ast : list Match)
  (remap : list (option AbstractTok)) (idx index rank : nat)
  (coeffs : list Double.double) : list Match :=
  match ast, remap with
  | tok :: ast', Some _ :: remap' =>
      if idx =? index then
        update_token tok None :: write_back ast' remap' (S idx) index rank coeffs
      else
        update_token tok (nth_error coeffs rank)
          :: write_back ast' remap' (S idx) index (S rank) coeffs
  | tok :: ast', None :: remap' =>
      tok :: write_back ast' remap' (S idx) index rank coeffs
  | _, _ => ast
  end.

Record computed : Type := mkComputed {
  coeffs : list Double.double;     (* the rounded solution *)
  balanced : list Match;           (* the AST with its coefficients *)
  text : jsstring                  (* the detail of the "computation" event *)
}.

Definition compute (ast : list Match) : result computed :=
  do _ <- mustHaveOneYield ast;
  match indexOfYield ast with
  | None => Err MissingYield
  | Some index =>
      let mappedAST := map (fun tok => simplifyCompound tok false) ast in
      let leftTokens := defined (firstn index mappedAST) in
      let rightTokens := defined (skipn (index + 1) mappedAST) in
      do _ <- mustHaveTheSameElements leftTokens rightTokens;
      do _ <- mustHaveLessThanTwoCoefficient leftTokens rightTokens;
      let '(A, B) := makeAandB leftTokens rightTokens in
      do x <- Solver.solve A B;
      let coeffs := map round4 x in
      let ast' := write_back ast mappedAST 0 index 0 coeffs in
      Ok (mkComputed coeffs ast' (stringify ast'))
  end.

(** [compute(scan(str))], as the keyboard handlers call it. *)
Definition balance (str : jsstring) : option (result computed) :=
  match scan str with
  | Some ast => Some (compute ast)
  | None => None
  end.

End Render.


(** * The editor: the state of [state.ts], the keys of [table.ts] and the
      handlers of [main.ts] that change the state

    The state object is threaded through the code; every event given to
    [document.dispatchEvent] is recorded with the state its listeners see.
    The listeners that draw on the canvas do not change the state; those
    of [SHIFT+0] and [SHIFT+1], which do, are run where the event is
    dispatched. *)

Module Editor.

Import Scanner Parse Render.

(** [enum TYPE] of [types.ts] *)
Module TYPE.
Inductive t : Type := ELEMENT | KEY | OUTPUT | CONSOLE | SHIFT.

Definition eqb (a b : t) : bool :=
  match a, b with
  | ELEMENT, ELEMENT | KEY, KEY | OUTPUT, OUTPUT
  | CONSOLE, CONSOLE | SHIFT, SHIFT => true
  | _, _ => false
  end.
End TYPE.

(** The objects of the table: the union of [TableElement], [TableKey],
    [TableShift], [TableConsole] and [TableOutput], of which the first
    three have a [key].  The fields of [TableCell], which only the drawing
    code reads, are left out.  A [TableItem] may be [undefined]. *)
Inductive Item : Type :=
| TableElement (key : jsstring)
| TableKey (key : jsstring)
| TableShift (key : jsstring)
| TableConsole
| TableOutput.

Definition TableItem : Type := option Item.

Definition type (item : Item) : TYPE.t :=
  match item with
  | TableElement _ => TYPE.ELEMENT
  | TableKey _ => TYPE.KEY
  | TableShift _ => TYPE.SHIFT
  | TableConsole => TYPE.CONSOLE
  | TableOutput => TYPE.OUTPUT
  end.

Definition isElement (element : TableItem) : bool :=
  match element with
  | None => false
  | Some e => TYPE.eqb (type e) TYPE.ELEMENT
  end.

Definition isKey (key : TableItem) : bool :=
  match key with
  | None => false
  | Some k => TYPE.eqb (type k) TYPE.KEY
  end.

Definition isShift (key : TableItem) : bool :=
  match key with
  | None => false
  | Some k => TYPE.eqb (type k) TYPE.SHIFT
  end.

Definition isConsole (panel : TableItem) : bool :=
  match panel with
  | None => false
  | Some p => TYPE.eqb (type p) TYPE.CONSOLE
  end.

Definition isOutput (panel : TableItem) : bool :=
  match panel with
  | None => false
  | Some p => TYPE.eqb (type p) TYPE.OUTPUT
  end.

(** [a == b] on objects of the table.  JavaScript compares the objects by
    identity; no two cells of the table hold equal items, so that the
    comparison of their contents decides it. *)
Definition same_item (a b : Item) : bool :=
  match a, b with
  | TableElement x, TableElement y => JsString.eqb x y
  | TableKey x, TableKey y => JsString.eqb x y
  | TableShift x, TableShift y => JsString.eqb x y
  | TableConsole, TableConsole => true
  | TableOutput, TableOutput => true
  | _, _ => false
  end.

(** ** The table *)

Definition element (key : string) : TableItem := Some (TableElement (js key)).
Definition button (key : string) : TableItem := Some (TableKey (js key)).
Definition undefined : TableItem := None.
Arguments element key%_string.
Arguments button key%_string.

Local Abbreviation E := element.
Local Abbreviation K := button.
Local Abbreviation U := undefined.

Definition table : list (list TableItem) :=
  [ [E "H"; Some (TableShift (js "⇧")); Some TableConsole;
     U; U; U; U; U; U; U; U; U; U; U; U; U; U; E "He"];
    [E "Li"; E "Be"; Some TableOutput; U; U; U; U; U; U; U; U; U;
     E "B"; E "C"; E "N"; E "O"; E "F"; E "Ne"];
    [E "Na"; E "Mg"; U; U; U; U; U; U; U; U; U; U;
     E "Al"; E "Si"; E "P"; E "S"; E "Cl"; E "Ar"];
    [E "K"; E "Ca"; E "Sc"; E "Ti"; E "V"; E "Cr"; E "Mn"; E "Fe"; E "Co";
     E "Ni"; E "Cu"; E "Zn"; E "Ga"; E "Ge"; E "As"; E "Se"; E "Br"; E "Kr"];
    [E "Rb"; E "Sr"; E "Y"; E "Zr"; E "Nb"; E "Mo"; E "Tc"; E "Ru"; E "Rh";
     E "Pd"; E "Ag"; E "Cd"; E "In"; E "Sn"; E "Sb"; E "Te"; E "I"; E "Xe"];
    [E "Cs"; E "Ba"; E "La"; E "Hf"; E "Ta"; E "W"; E "Re"; E "Os"; E "Ir";
     E "Pt"; E "Au"; E "Hg"; E "Tl"; E "Pb"; E "Bi"; E "Po"; E "At"; E "Rn"];
    [E "Fr"; E "Ra"; E "Ac"; E "Rf"; E "Db"; E "Sg"; E "Bh"; E "Hs"; E "Mt";
     E "Ds"; E "Rg"; E "Cn"; E "Nh"; E "Fl"; E "Mc"; E "Lv"; E "Ts"; E "Og"];
    [K "["; K "]"; E "Ce"; E "Pr"; E "Nd"; E "Pm"; E "Sm"; E "Eu"; E "Gd";
     E "Tb"; E "Dy"; E "Ho"; E "Er"; E "Tm"; E "Yb"; E "Lu"; K "ENTER"; U];
    [K "*"; K "^"; E "Th"; E "Pa"; E "U"; E "Np"; E "Pu"; E "Am"; E "Cm";
     E "Bk"; E "Cf"; E "Es"; E "Fm"; E "Md"; E "No"; E "Lr"; K "↑"; K "DEL"];
    [K "-"; K "+"; K "."; K "0"; K "1"; K "2"; K "3"; K "4"; K "5"; K "6";
     K "7"; K "8"; K "9"; K "⇒"; K "[-]"; K "←"; K "↓"; K "→"] ].

(** [table[i]], [undefined] when [i] is not a key of the table *)
Definition row_at (i : Z) : option (list TableItem) :=
  if (i <? 0)%Z then None else nth_error table (Z.to_nat i).

(** [row[j]] *)
Definition cell_at (row : list TableItem) (j : Z) : TableItem :=
  if (j <? 0)%Z then None else nth (Z.to_nat j) row None.

(** [j in row] *)
Definition has_key (row : list TableItem) (j : Z) : bool :=
  ((0 <=? j) && (j <? Z.of_nat (length row)))%Z.

(** [table[i][j]] for the indices of a cell of [range] *)
Definition cell (i j : nat) : TableItem :=
  nth j (nth i table []) None.

(** ** The state ([state.ts]) *)

Record State : Type := mkState {
  command_ : list jsstring;       (* #command *)
  cursor_ : Z;                    (* #cursor *)
  currentElement_ : Item;         (* #currentElement *)
  focusArea_ : TYPE.t;            (* #focusArea *)
  shift_ : bool;                  (* #shift *)
  result_ : jsstring              (* #result *)
}.

(** The events given to [document.dispatchEvent] *)
Module Event.
Inductive t : Type :=
| cursormove
| command
| beforeelementchange (detail : Item)
| elementchange (detail : Item)
| focusareachange (detail : TYPE.t)
| shift (detail : bool)
| SHIFT (key : jsstring)              (* `SHIFT+${btn.key}` *)
| buttondown (detail : Item)
| buttonup (detail : Item)
| computation (detail : jsstring)
| syntaxerror (detail : error).
End Event.

(** The state object and the events dispatched so far, each with the state
    at its dispatch. *)
Record World : Type := mkWorld {
  state : State;
  dispatched : list (Event.t * State)
}.

Definition dispatchEvent (w : World) (ev : Event.t) : World :=
  mkWorld (state w) (dispatched w ++ [(ev, state w)]).

Definition initial_command : list jsstring :=
  map js
    ["["; "2"; "*"; "Al"; "["; "S"; " "; "O"; "*"; "3"; "]"; "*"; "3"; "]";
     "+"; "["; "Na"; " "; "O"; " "; "H"; "]"; "⇒"; "["; "Na"; "*"; "2"; " ";
     "S"; " "; "O"; "*"; "3"; "]"; "+"; "["; "Al"; " "; "["; "O"; " "; "H";
     "]"; "*"; "3"; "]"; " "]%string.

Definition initial : World :=
  mkWorld
    (mkState initial_command 0 (TableElement (js "Re")) TYPE.CONSOLE false [])
    [].

Definition cursor (w : World) : Z := cursor_ (state w).

Definition setCursor (w : World) (idx : Z) : World :=
  let s := state w in
  let idx := if (idx <=? 0)%Z then 0%Z else idx in
  let idx := if (idx >? Z.of_nat (length (command_ s)) - 1)%Z
             then (Z.of_nat (length (command_ s)) - 1)%Z else idx in
  dispatchEvent
    (mkWorld (mkState (command_ s) idx (currentElement_ s) (focusArea_ s)
                (shift_ s) (result_ s))
       (dispatched w))
    Event.cursormove.

Definition command (w : World) : list jsstring :=
  match command_ (state w) with
  | [] => [js " "]
  | cmd => cmd
  end.

Definition setCommand (w : World) (cmd : list jsstring) : World :=
  let s := state w in
  dispatchEvent
    (mkWorld (mkState cmd (cursor_ s) (currentElement_ s) (focusArea_ s)
                (shift_ s) [])
       (dispatched w))
    Event.command.

(** An object is truthy: the fall-back [|| table[5][6]] is never taken. *)
Definition currentElement (w : World) : Item := currentElement_ (state w).

Definition setCurrentElement (w : World) (key : TableItem) : World :=
  match key with
  | None => w
  | Some k =>
      let w := dispatchEvent w (Event.beforeelementchange (currentElement w)) in
      let w := dispatchEvent w (Event.elementchange k) in
      let s := state w in
      mkWorld (mkState (command_ s) (cursor_ s) k (focusArea_ s) (shift_ s)
                 (result_ s))
        (dispatched w)
  end.

Definition focusArea (w : World) : TYPE.t := focusArea_ (state w).

Definition setFocusArea (w : World) (type : TYPE.t) : World :=
  let s := state w in
  dispatchEvent
    (mkWorld (mkState (command_ s) (cursor_ s) (currentElement_ s) type
                (shift_ s) (result_ s))
       (dispatched w))
    (Event.focusareachange type).

Definition shift (w : World) : bool := shift_ (state w).

Definition setShift (w : World) (b : bool) : World :=
  let s := state w in
  dispatchEvent
    (mkWorld (mkState (command_ s) (cursor_ s) (currentElement_ s)
                (focusArea_ s) b (result_ s))
       (dispatched w))
    (Event.shift b).

Definition result (w : World) : jsstring := result_ (state w).

Definition setResult (w : World) (txt : jsstring) : World :=
  let s := state w in
  mkWorld (mkState (command_ s) (cursor_ s) (currentElement_ s)
             (focusArea_ s) (shift_ s) txt)
    (dispatched w).

(** ** Arrays *)

(** [Array.prototype.slice(start, end)]: a negative index counts from the
    end, and both are clamped to the array; without [end], up to the end
    of the array. *)
Definition slice {A} (l : list A) (start : Z) (stop : option Z) : list A :=
  let len := Z.of_nat (length l) in
  let relative i :=
    if (i <? 0)%Z then Z.max (len + i) 0 else Z.min i len in
  let k := relative start in
  let final := match stop with
               | Some e => relative e
               | None => len
               end in
  firstn (Z.to_nat (final - k)) (skipn (Z.to_nat k) l).

(** ** What a callback throws *)

Inductive thrown : Type :=
| TypeError                 (* a property read of [undefined] *)
| Raised (e : error).       (* an exception of [compute] *)

(** The world a callback leaves, and what it threw if it did. *)
Definition outcome : Type := (World * option thrown)%type.

Definition returned (w : World) : outcome := (w, None).

(** ** [compute(scan(state.command.join("")))]

    [compute] dispatches [syntaxerror] before it throws the errors of its
    validators and the singular matrix of [diagonalize]; when it returns it
    has stored its text with [setResult] and dispatched [computation].
    [scan] returns on every string. *)
Definition announced (e : error) : bool :=
  match e with
  | MissingYield | DuplicateYield | ElementMismatch | TooManyDefault
  | Singular => true
  | _ => false
  end.

Definition compute_command (w : World) : outcome :=
  match scan (concat (command w)) with
  | None => returned w
  | Some ast =>
      match compute ast with
      | Ok c =>
          let w := setResult w (text c) in
          returned (dispatchEvent w (Event.computation (text c)))
      | Err e =>
          ((if announced e then dispatchEvent w (Event.syntaxerror e) else w),
           Some (Raised e))
      end
  end.

(** ** The listeners of [main.ts] that change the state *)

Definition handleAllClear (w : World) : World :=
  let w := setCursor w 0 in
  setCommand w [js " "].

Definition handleCompution (w : World) : outcome := compute_command w.

(** The dispatch of [SHIFT+key]: the listeners of [SHIFT+0], [SHIFT+1] and
    [SHIFT+2] run, and what a listener throws does not reach the code that
    dispatched the event.  [handleCopyToClipboard] leaves the state as it
    is. *)
Definition dispatchShift (w : World) (key : jsstring) : World :=
  let w := dispatchEvent w (Event.SHIFT key) in
  if JsString.eqb key (js "0") then handleAllClear w
  else if JsString.eqb key (js "1") then fst (handleCompution w)
  else w.

(** ** [defaultCallbackFn] *)

Definition defaultCallbackFn (state : World) (btn : TableItem) : World :=
  if negb (isElement btn || isKey btn || isShift btn) then state
  else
    match btn with
    | Some (TableElement key) | Some (TableKey key)
    | Some (TableShift key) =>
        if shift state then
          let state := dispatchShift state key in
          setShift state false
        else if isElement btn then
          let state := setCurrentElement state btn in
          let state :=
            setCommand state
              (slice (command state) 0 (Some (cursor state))
                 ++ [key]
                 ++ slice (command state) (cursor state) None) in
          setCursor state (cursor state + 2)
        else
          let state :=
            setCommand state
              (slice (command state) 0 (Some (cursor state))
                 ++ [key]
                 ++ slice (command state) (cursor state) None) in
          setCursor state (cursor state + 1)
    | _ => state
    end.

(** ** [getElementIndex] *)

Fixpoint find_col (row : list TableItem) (j : nat) (currentElement : Item)
  : option nat :=
  match row with
  | [] => None
  | col :: rest =>
      if isElement col
         && match col with
            | Some c => same_item currentElement c
            | None => false
            end
      then Some j
      else find_col rest (S j) currentElement
  end.

Fixpoint find_row (rows : list (list TableItem)) (i : nat)
  (currentElement : Item) : option (nat * nat) :=
  match rows with
  | [] => None
  | row :: rest =>
      match find_col row 0 currentElement with
      | Some j => Some (i, j)
      | None => find_row rest (S i) currentElement
      end
  end.

Definition getElementIndex (currentElement : Item) : Z * Z :=
  match find_row table 0 currentElement with
  | Some (i, j) => (Z.of_nat i, Z.of_nat j)
  | None => (0%Z, 0%Z)
  end.

(** ** The callbacks of the keys *)

(** [⇧] *)
Definition cb_shift (w : World) : outcome :=
  returned (setShift w (negb (shift w))).

(** [ENTER] *)
Definition cb_enter (w : World) : outcome :=
  match focusArea w with
  | TYPE.ELEMENT => returned (defaultCallbackFn w (Some (currentElement w)))
  | TYPE.CONSOLE => compute_command w
  | _ => returned w
  end.

(** [↑]: [table[i - 1][j]] is read before [i] is tested. *)
Definition cb_up (w : World) : outcome :=
  let '(i, j) := getElementIndex (currentElement w) in
  match row_at (i - 1) with
  | None => (w, Some TypeError)
  | Some row =>
      let upperItem := cell_at row j in
      if negb (i =? 0)%Z
         && match cell_at row j with Some _ => true | None => false end
         && isElement upperItem
      then
        let w := setCurrentElement w upperItem in
        returned (setFocusArea w TYPE.ELEMENT)
      else returned w
  end.

(** [DEL] *)
Definition cb_del (w : World) : outcome :=
  if (length (command w) =? 1)%nat
     && JsString.eqb (nth 0 (command w) []) (js " ")
  then returned w
  else
    let w := if (cursor w >? 0)%Z then setCursor w (cursor w - 1) else w in
    let newCommand :=
      slice (command w) 0 (Some (cursor w))
        ++ slice (command w) (cursor w + 1) None in
    let w := if (cursor w >=? Z.of_nat (length newCommand))%Z
             then setCursor w (cursor w - 1) else w in
    returned (setCommand w newCommand).

(** [[-]] *)
Definition cb_space (w : World) : outcome :=
  let w :=
    setCommand w
      (slice (command w) 0 (Some (cursor w))
         ++ [js " "]
         ++ slice (command w) (cursor w) None) in
  returned (setCursor w (cursor w + 1)).

(** [←] *)
Definition cb_left (w : World) : outcome :=
  if TYPE.eqb (focusArea w) TYPE.CONSOLE then
    returned (setCursor w (cursor w - 1))
  else
    let '(i, j) := getElementIndex (currentElement w) in
    match row_at i with
    | None => (w, Some TypeError)
    | Some row =>
        let previousItem := cell_at row (j - 1) in
        if has_key row (j - 1) && isElement previousItem
        then returned (setCurrentElement w previousItem)
        else returned w
    end.

(** [↓]: [i + 1 in table] holds once [table[i + 1]] is read as an
    object. *)
Definition cb_down (w : World) : outcome :=
  let '(i, j) := getElementIndex (currentElement w) in
  match row_at (i + 1) with
  | None => (w, Some TypeError)
  | Some row =>
      let belowItem := cell_at row j in
      if isElement belowItem then
        let w := setFocusArea w TYPE.ELEMENT in
        returned (setCurrentElement w belowItem)
      else returned w
  end.

(** [→] *)
Definition cb_right (w : World) : outcome :=
  if TYPE.eqb (focusArea w) TYPE.CONSOLE then
    returned (setCursor w (cursor w + 1))
  else
    let '(i, j) := getElementIndex (currentElement w) in
    match row_at i with
    | None => (w, Some TypeError)
    | Some row =>
        let nextItem := cell_at row (j + 1) in
        if has_key row (j + 1) && isElement nextItem
        then returned (setCurrentElement w nextItem)
        else returned w
    end.

(** [btn.cbFn]: the callbacks are fields of the items of the table, each
    found here by the key of its item. *)
Definition cbFn (btn : Item) : option (World -> outcome) :=
  match btn with
  | TableShift _ => Some cb_shift
  | TableKey key =>
      if JsString.eqb key (js "ENTER") then Some cb_enter
      else if JsString.eqb key (js "↑") then Some cb_up
      else if JsString.eqb key (js "DEL") then Some cb_del
      else if JsString.eqb key (js "[-]") then Some cb_space
      else if JsString.eqb key (js "←") then Some cb_left
      else if JsString.eqb key (js "↓") then Some cb_down
      else if JsString.eqb key (js "→") then Some cb_right
      else None
  | _ => None
  end.

(** ** What reaches the state from the pointer ([main.ts])

    A pointer that goes down or up within the cell [(i, j)] of the table,
    and a frame in which [call], the function of [callbackIterator], runs
    the callback of the button of that cell. *)
Inductive input : Type :=
| PointerDown (i j : nat)
| PointerUp (i j : nat)
| Call (i j : nat).

Definition handlePointerDown (w : World) (i j : nat) : outcome :=
  let val := cell i j in
  match val with
  | None => returned w
  | Some v =>
      if isShift val then
        match cbFn v with
        | Some cb => cb w
        | None => (w, Some TypeError)
        end
      else if isKey val then returned (dispatchEvent w (Event.buttondown v))
      else if isElement val then
        returned (dispatchEvent w (Event.buttondown v))
      else if isConsole val then returned (setFocusArea w TYPE.CONSOLE)
      else returned w
  end.

Definition handlePointerUp (w : World) (i j : nat) : outcome :=
  let val := cell i j in
  match val with
  | None => returned w
  | Some v =>
      if isShift val then returned w
      else if isKey val then returned (dispatchEvent w (Event.buttonup v))
      else if isElement val then
        let w := setFocusArea w TYPE.ELEMENT in
        returned (dispatchEvent w (Event.buttonup v))
      else if isConsole val then returned (setFocusArea w TYPE.CONSOLE)
      else returned w
  end.

(** [call]: the detail of [buttondown] is a key or an element. *)
Definition call (w : World) (i j : nat) : outcome :=
  let val := cell i j in
  match val with
  | Some v =>
      if isKey val || isElement val then
        match cbFn v with
        | None => returned (defaultCallbackFn w val)
        | Some cb => cb w
        end
      else returned w
  | None => returned w
  end.

Definition handle (w : World) (i : input) : outcome :=
  match i with
  | PointerDown i j => handlePointerDown w i j
  | PointerUp i j => handlePointerUp w i j
  | Call i j => call w i j
  end.

(** The world after a sequence of inputs: what a handler throws ends the
    handler, not the page. *)
Definition run (w : World) (inputs : list input) : World :=
  fold_left (fun w i => fst (handle w i)) inputs w.

End Editor.

(** * The meshes of [main.ts] *)

Module Mesh.

(** [TwoDimUint8]: an array of rows, each a [Uint8Array]. *)
Definition TwoDimUint8 : Type := list (list N).

Inductive raised : Type :=
| TypeError      (* a property read of [undefined]; [set] given [undefined] *)
| RangeError.    (* [set] past the end of its typed array *)

Inductive outcome (A : Type) : Type :=
| Returned (a : A)
| Thrown (e : raised).
Arguments Returned {A} a.
Arguments Thrown {A} e.

(** [target.set(source, offset)] on typed arrays: the items of [source]
    written over those of [target] from [offset] on, a [RangeError]
    ([None]) when they do not fit. *)
Definition set_at (target source : list N) (offset : nat)
  : option (list N) :=
  if length target <? offset + length source then None
  else Some (firstn offset target ++ source
               ++ skipn (offset + length source) target).

(** [mat.map((m) => m[0].length)], [None] for the [TypeError] of a matrix
    without a first row. *)
Fixpoint widths (mat : list TwoDimUint8) : option (list nat) :=
  match mat with
  | [] => Some []
  | m :: rest =>
      match m with
      | [] => None
      | r :: _ =>
          match widths rest with
          | Some len => Some (length r :: len)
          | None => None
          end
      end
  end.

(** [for (let i = 0; i < rows; ++i) arr[i].set(mat[m][i], offset)], the
    rows of [arr] being the [rows] to go through. *)
Fixpoint set_rows (arr m : TwoDimUint8) (offset : nat)
  : outcome TwoDimUint8 :=
  match arr with
  | [] => Returned []
  | target :: arr' =>
      match m with
      | [] => Thrown TypeError
      | source :: m' =>
          match set_at target source offset with
          | None => Thrown RangeError
          | Some row =>
              match set_rows arr' m' offset with
              | Returned rest => Returned (row :: rest)
              | Thrown e => Thrown e
              end
          end
      end
  end.

(** The loop on [m]: [len] holds [len[m]] and what follows it. *)
Fixpoint concat_from (mat : list TwoDimUint8) (len : list nat)
  (offset : nat) (arr : TwoDimUint8) : outcome TwoDimUint8 :=
  match mat, len with
  | m :: mat', l :: len' =>
      let offset := offset + l in
      match set_rows arr m offset with
      | Returned arr' => concat_from mat' len' offset arr'
      | Thrown e => Thrown e
      end
  | _, _ => Returned arr
  end.

Definition horConcat (mat : list TwoDimUint8) : outcome TwoDimUint8 :=
  match mat with
  | [] => Returned []
  | first :: _ =>
      match widths mat with
      | None => Thrown TypeError
      | Some len =>
          let totalLen := fold_left Nat.add len 0 in
          let len := 0 :: len in
          let offset := 0 in
          let rows := length first in
          let arr := repeat (repeat 0%N totalLen) rows in
          concat_from mat len offset arr
      end
  end.

(** [mat.flat(1)] *)
Definition verConcat (mat : list TwoDimUint8) : TwoDimUint8 := concat mat.

(** [new Uint8Array(n)], a [RangeError] ([None]) for a negative length *)
Definition new_row (n : Z) : option (list N) :=
  if (n <? 0)%Z then None else Some (repeat 0%N (Z.to_nat n)).

(** The first loop of [addPadding]: each row becomes a row of [n] zeros
    with the old row written from [left] on. *)
Fixpoint pad_rows (mat : TwoDimUint8) (n left : Z)
  : outcome TwoDimUint8 :=
  match mat with
  | [] => Returned []
  | temp :: rest =>
      match new_row n with
      | None => Thrown RangeError
      | Some row =>
          if (left <? 0)%Z then Thrown RangeError
          else
            match set_at row temp (Z.to_nat left) with
            | None => Thrown RangeError
            | Some row' =>
                match pad_rows rest n left with
                | Returned rest' => Returned (row' :: rest')
                | Thrown e => Thrown e
                end
            end
      end
  end.

(** [for (let i = 0; i < count; i++) mat.unshift(createRow())], and the
    same with [push]: [createRow] runs when [0 < count] only. *)
Definition new_rows (n count : Z) : outcome TwoDimUint8 :=
  if (0 <? count)%Z then
    match new_row n with
    | None => Thrown RangeError
    | Some row => Returned (repeat row (Z.to_nat count))
    end
  else Returned [].

(** [addPadding(mat, { left, top, right, bottom })]: the matrix that
    [mat] is once it returns. *)
Definition addPadding (mat : TwoDimUint8) (left top right bottom : Z)
  : outcome TwoDimUint8 :=
  let n := match mat with
           | r :: _ => (Z.of_nat (length r) + left + right)%Z
           | [] => (left + right)%Z
           end in
  match pad_rows mat n left with
  | Thrown e => Thrown e
  | Returned rows =>
      match new_rows n top with
      | Thrown e => Thrown e
      | Returned above =>
          match new_rows n bottom with
          | Thrown e => Thrown e
          | Returned below => Returned (above ++ rows ++ below)
          end
      end
  end.

(** [makeRectangle(mat, h, w, src)], with [span] for [src.span] when [src]
    is given and has one: the matrix that [mat] is once it returns.
    [Math.floor(x / 2)] on integers is the quotient that rounds down. *)
Definition makeRectangle (mat : TwoDimUint8) (h w : Z) (span : option Z)
  : outcome TwoDimUint8 :=
  let nR := Z.of_nat (length mat) in
  let nC := match mat with
            | r :: _ => Z.of_nat (length r)
            | [] => 0%Z
            end in
  if ((h =? nR) && (w =? nC))%Z then Returned mat
  else
    let w := match span with
             | Some s => if (s =? 0)%Z then w else ((w + 1) * s - 1)%Z
             | None => w
             end in
    let h' := if ((h <? nR) || (w <? nC))%Z
              then if (h <? nR)%Z then (h * 2 + 1)%Z else h
              else h in
    let w' := if ((h <? nR) || (w <? nC))%Z
              then if (w <? nC)%Z then (w * 2 + 1)%Z else w
              else w in
    addPadding mat ((w' - nC) / 2)%Z ((h' - nR) / 2)%Z
      (- ((nC - w') / 2))%Z (- ((nR - h') / 2))%Z.

(** [invertColor(mat)]: the cells of the first [mat[0].length] columns of
    each row; a write past the end of a typed array does nothing. *)
Definition invert_row (n : nat) (row : list N) : list N :=
  map (fun c => if (c =? 0)%N then 1%N else 0%N) (firstn n row)
    ++ skipn n row.

Definition invertColor (mat : TwoDimUint8) : outcome TwoDimUint8 :=
  match mat with
  | [] => Thrown TypeError
  | first :: _ => Returned (map (invert_row (length first)) mat)
  end.

End Mesh.

(** * The lines of the console and of the output ([drawConsole],
      [drawOutput]) *)

Module Lines.

Import Parse Mesh.

Definition nmr : nat := 15.     (* number of rows in mesh *)
Definition nmc : nat := 20.     (* number of columns in mesh *)

(** [chunk.reduce((a, c) => a + meshSizes[c], 0)] *)
Definition currSize (meshSizes : list nat) (chunk : list nat) : nat :=
  fold_left (fun a c => a + nth c meshSizes 0) chunk 0.

(** The loop of [drawConsole] that splits the indices of the meshes into
    lines, with [todo] for [meshSizes.length - currIdx]: the loop ends
    when [currIdx == meshSizes.length]. *)
Fixpoint split_loop (meshSizes : list nat) (todo : nat)
  (chunks : list (list nat)) (chunk : list nat) (currIdx : nat)
  : list (list nat) :=
  match todo with
  | 0 => if length chunk =? 0 then chunks else chunks ++ [chunk]
  | S todo =>
      if currSize meshSizes chunk + nth currIdx meshSizes 0
         <? 15 * (nmc + 1) - 1 - 7
      then split_loop meshSizes todo chunks (chunk ++ [currIdx]) (S currIdx)
      else split_loop meshSizes todo (chunks ++ [chunk]) [currIdx]
             (S currIdx)
  end.

Definition chunks (meshSizes : list nat) : list (list nat) :=
  split_loop meshSizes (length meshSizes) [] [] 0.

(** [chunks.findIndex((c) => c.indexOf(state.cursor) != -1)], [None] for
    [-1]. *)
Definition chunkToView (chunks : list (list nat)) (cursor : Z)
  : option nat :=
  findIndex (fun c => existsb (fun idx => (Z.of_nat idx =? cursor)%Z) c)
    chunks.

(** The loop of [drawOutput] that splits the meshes of the words into
    lines: [segmented_lines] is [lines ++ [current]], [current] being
    [segmented_lines[line]]; [sizes] holds [sizes[i]] and what follows. *)
Fixpoint segment_loop {A} (meshes : list A) (sizes : list nat)
  (lines : list (list A)) (current : list A) (curSize : nat)
  : list (list A) :=
  match meshes, sizes with
  | mesh :: meshes', size :: sizes' =>
      if curSize + size <? 10 * (nmc + 1) - 1
      then segment_loop meshes' sizes' lines (current ++ [mesh])
             (curSize + size)
      else segment_loop meshes' sizes' (lines ++ [current]) [mesh] size
  | _, _ => lines ++ [current]
  end.

(** [sizes = meshes.map((mat) => mat[0].length)] and the lines, [None]
    for the [TypeError] of a mesh without a first row. *)
Definition segmented_lines (meshes : list TwoDimUint8)
  : option (list (list TwoDimUint8)) :=
  match widths meshes with
  | Some sizes => Some (segment_loop meshes sizes [] [] 0)
  | None => None
  end.

End Lines.
(** * Specification-level definitions *)

Import Scanner Parse Solver Render.

Definition water : jsstring := js "[H*2]+[O*2]⇒[H*2 O]".
Definition water_pinned : jsstring := js "[H*2]+1*[O*2]⇒[H*2 O]".

Definition half : Double.double := Double.of_string (js "0.5").

(** A bare element token, as [scan] builds it. *)
Definition element_token (e : jsstring) (charge : option Double.double)
  : Match :=
  mkMatch None None (Some e) None None charge None.

(** An element symbol: a letter, or two. *)
Definition is_symbol (e : jsstring) : Prop :=
  (exists c, e = [c] /\ cls_letter c = true)
  \/ (exists c d, e = [c; d] /\ cls_letter c = true /\ cls_letter d = true).

Definition letters : list char :=
  map N.of_nat (seq 65 26 ++ seq 97 26).

Definition symbols : list jsstring :=
  map (fun c => [c]) letters
    ++ flat_map (fun c => map (fun d => [c; d]) letters) letters.

Definition minus_one : Double.double := Double.of_string (js "-1").

(** What [scan] returns on a symbol alone, and on a symbol with the charge
    suffix [^-1], checked as a boolean. *)
Definition bare_symbol_scans (e : jsstring) : bool :=
  match scan e with
  | Some [mkMatch None None (Some e') None None None None] => JsString.eqb e' e
  | _ => false
  end.

Definition charged_symbol_scans (e : jsstring) : bool :=
  match scan (e ++ js "^-1") with
  | Some [mkMatch None None (Some e') None None (Some ch) None] =>
      JsString.eqb e' e && if Double.eq_dec ch minus_one then true else false
  | _ => false
  end.

(** ** What a match of a regular expression is

    The relation below gives every way an expression can match, whatever the
    order in which the backtracking matcher tries them:
    [matches r s n c s' n' c'] when [r] can consume a prefix of [s], leaving
    [s'], the count of consumed characters going from [n] to [n'] and the
    captures from [c] to [c']. *)

Inductive star_run (p : char -> bool)
  : jsstring -> nat -> jsstring -> nat -> Prop :=
| star_stop s n : star_run p s n s n
| star_more x xs n s' n' :
    p x = true -> star_run p xs (S n) s' n' -> star_run p (x :: xs) n s' n'.

Inductive matches
  : regex -> jsstring -> nat -> caps -> jsstring -> nat -> caps -> Prop :=
| m_chr p x xs n c :
    p x = true -> matches (Chr p) (x :: xs) n c xs (S n) c
| m_seq a b s n c s1 n1 c1 s2 n2 c2 :
    matches a s n c s1 n1 c1 -> matches b s1 n1 c1 s2 n2 c2 ->
    matches (Seq a b) s n c s2 n2 c2
| m_alt_l a b s n c s' n' c' :
    matches a s n c s' n' c' -> matches (Alt a b) s n c s' n' c'
| m_alt_r a b s n c s' n' c' :
    matches b s n c s' n' c' -> matches (Alt a b) s n c s' n' c'
| m_opt_some a s n c s' n' c' :
    matches a s n c s' n' c' -> matches (Opt a) s n c s' n' c'
| m_opt_none a s n c : matches (Opt a) s n c s n c
| m_star p s n c s' n' :
    star_run p s n s' n' -> matches (Star p) s n c s' n' c
| m_group g a s n c s' n' c' :
    matches a s n c s' n' c' ->
    matches (Group g a) s n c s' n' ((g, firstn (n' - n) s) :: c').

(** The groups an expression can set. *)
Fixpoint groups_of (r : regex) : list group :=
  match r with
  | Chr _ | Star _ => []
  | Seq a b | Alt a b => groups_of a ++ groups_of b
  | Opt a => groups_of a
  | Group g a => g :: groups_of a
  end.

(** ** The element sets of the two sides *)



(** The two sides of an AST whose yield is at [index], simplified. *)
Definition left_side (ast : list Match) (index : nat) : list AbstractTok :=
  defined (firstn index (map (fun tok => simplifyCompound tok false) ast)).

Definition right_side (ast : list Match) (index : nat) : list AbstractTok :=
  defined (skipn (index + 1) (map (fun tok => simplifyCompound tok false) ast)).



(** ** The linear system, as the specification words it *)

Section SystemSpec.
Context {R : Type} `{JSNumber R}.

(** The compound that declares a default coefficient, with its rank from
    [i] on and the value it declares: the last one when there are several,
    none when there is none. *)
Fixpoint pinned_from (tokens : list (AbstractToken R)) (i : nat)
  : option (nat * R) :=
  match tokens with
  | [] => None
  | t :: rest =>
      match pinned_from rest (S i) with
      | Some p => Some p
      | None =>
          match dflt t with
          | Some v => if truthy v then Some (i, v) else None
          | None => None
          end
      end
  end.

(** The pinned column and its coefficient: those of the compound that
    declares one, the first column and 1 by default. *)
Definition pinned (tokens : list (AbstractToken R)) : nat * R :=
  match pinned_from tokens 0 with
  | Some p => p
  | None => (0, one)
  end.

(** [x || 0] *)
Definition or_zero (x : R) : R := if truthy x then x else zero.

(** The entry of a compound in the row of [key]: its count, or 0 when the
    compound has no such key. *)
Definition entry_of (sign : R -> R) (t : AbstractToken R) (key : jsstring) : R :=
  match get t key with
  | Some v => or_zero (sign v)
  | None => zero
  end.



End SystemSpec.



(** ** The solver, as the specification words it *)

Section SolverSpec.
Context {R : Type} `{JSNumber R}.

(** A matrix of [m] rows of [n] entries each. *)
Definition rect (M : list (list R)) (m n : nat) : Prop :=
  length M = m /\ forall row, In row M -> length row = n.

(** The normal equations of [A x = B] as the augmented matrix that
    [gaussian_elimination_calc] hands to [diagonalize]. *)
Definition augmented_normal (A B : list (list R)) : result (list (list R)) :=
  do AT <- transpose A;
  do ATA <- multiply AT A;
  do ATB <- multiply AT B;
  makeM (copy ATA) (copy ATB).

(** The matrices Gaussian elimination goes through: [M0] at step 0, and
    after each step whose selected pivot is not zero the matrix with the
    pivot row swapped into place and the rows below it eliminated. *)
Inductive elimination_state (m n : nat) (M0 : list (list R))
  : nat -> list (list R) -> Prop :=
| es_start : elimination_state m n M0 0 M0
| es_step k M :
    elimination_state m n M0 k M ->
    is_zero (mget M (findPivot M k) k) = false ->
    elimination_state m n M0 (S k) (eliminate M m n k (findPivot M k)).

(** The pivot that partial pivoting selects at step [k] is zero. *)
Definition zero_pivot (M : list (list R)) (k : nat) : Prop :=
  is_zero (mget M (findPivot M k) k) = true.

End SolverSpec.

(** ** Rendering against scanning *)

(** The operator tokens, as [scan] builds them. *)
Definition sum_token : Match :=
  mkMatch (Some (js "+")) None None None None None None.

Definition yield_token : Match :=
  mkMatch None (Some (js "⇒")) None None None None None.

(** A top-level token that is an operator or a bare element symbol. *)
Definition plain_token (t : Match) : Prop :=
  t = sum_token \/ t = yield_token
  \/ exists e, is_symbol e /\ t = element_token e None.

(** The elements of an AST, those of the bodies of its formulas included,
    each with its count (1 when absent) and its charge (0 when absent). *)
Fixpoint atoms_of (t : Match) : list (jsstring * Double.double * Double.double) :=
  match t with
  | mkMatch _ _ elt brk cnt chg _ =>
      match elt with
      | Some e => [(e, match cnt with Some c => c | None => Double.one end,
                    match chg with Some c => c | None => Double.zero end)]
      | None => []
      end
        ++ match brk with
           | Some (inr items) =>
               (fix each (items : list Match) :=
                  match items with
                  | [] => []
                  | item :: rest => atoms_of item ++ each rest
                  end) items
           | _ => []
           end
  end.

Definition atoms (ast : list Match)
  : list (jsstring * Double.double * Double.double) :=
  flat_map atoms_of ast.

(** What [stringify] appends for one token, the space apart. *)
Definition render_token (obj : Match) : jsstring :=
  if has (BRACKET obj) then stringifyFormula obj true
  else if has (ELEMENT obj) then stringifyElement obj
  else if has (FREE_CHARGE obj) then stringifyFreeCharge obj
  else if has (YIELD obj) || has (SUM obj) then stringifyOperator obj
  else [].

(** The rest of a rendered text at the start of a token: nothing, or the
    first character of an operator or of a symbol. *)
Definition token_start (rest : jsstring) : Prop :=
  rest = []
  \/ exists x tl, rest = x :: tl /\ In x (43%N :: 8658%N :: letters).

(** The text [stringify] gives for a list of tokens. *)
Definition text_of (ts : list Match) : jsstring :=
  flat_map (fun obj => render_token obj ++ js " ") ts.

(** The element part of the element alternative. *)
Definition symbol_group : regex :=
  Group G_ELEMENT (Seq (Chr cls_letter) (Opt (Chr cls_letter))).

(** ** The entries of the matrices of Gaussian elimination *)

Section EntrySpec.
Context {R : Type} `{JSNumber R}.

(** Row [a] of [M] once the pivot row [k] has been used on it: zero in
    column [k], the entry minus the factor times the entry of the pivot row
    from column [k + 1] to column [n - 1], the entry as it was before. *)
Definition eliminated (M : list (list R)) (k n a b : nat) : R :=
  if b =? k then zero
  else if (k <? b) && (b <? n)
       then sub (mget M a b) (mul (mget M k b) (div (mget M a k) (mget M k k)))
       else mget M a b.

(** The matrix after the step of [substitute] for row [i]: the unknown
    [x = M[i][m] / M[i][i]] is moved to the right-hand side of the rows
    above, and row [i] is normalised. *)
Definition substituted (M : list (list R)) (m i a b : nat) : R :=
  let x := div (mget M i m) (mget M i i) in
  if a <? i then
    if b =? i then zero
    else if b =? m then sub (mget M a m) (mul x (mget M a i))
         else mget M a b
  else if a =? i then
         if b =? i then one else if b =? m then x else mget M a b
       else mget M a b.

End EntrySpec.

(** ** Exact arithmetic *)

(** [f 0 + ... + f (n - 1)] over the rationals. *)
Fixpoint big_sum (f : nat -> Qc) (n : nat) : Qc :=
  match n with
  | O => Q2Qc 0
  | S n' => Qcplus (big_sum f n') (f n')
  end.

(** [x] satisfies equation [i] of the augmented matrix [M] of [m]
    unknowns, and all of them. *)
Definition row_eq (M : list (list Qc)) (m : nat) (x : nat -> Qc) (i : nat)
  : Prop :=
  big_sum (fun j => Qcmult (mget M i j) (x j)) m = mget M i m.

Definition sat (M : list (list Qc)) (m : nat) (x : nat -> Qc) : Prop :=
  forall i, i < m -> row_eq M m x i.

(** A vector as a function of the index. *)
Definition vec (xs : list Qc) (j : nat) : Qc := nth j xs (Q2Qc 0).

(** [x] solves [A x = B], [A] of [r] rows and [c] columns, [B] a column. *)
Definition solves (A B : list (list Qc)) (r c : nat) (x : nat -> Qc) : Prop :=
  forall i, i < r ->
    big_sum (fun j => Qcmult (mget A i j) (x j)) c = mget B i 0.

(** The entries below the diagonal in the first [k] columns are zero. *)
Definition lower_zero (M : list (list Qc)) (c k : nat) : Prop :=
  forall a b, b < k -> b < a -> a < c -> mget M a b = Q2Qc 0.

(** ** Balance, as the specification words it *)

Section BalanceSpec.
Context {R : Type} `{JSNumber R}.





End BalanceSpec.








(** The two sides of a scanned equation, and whether no compound of
    them declares a default coefficient. *)
Definition sides_of (ast : list Match) (index : nat) : list AbstractTok :=
  left_side ast index ++ right_side ast index.




(** ** Tables and invariants of the proofs *)

Section KeySpec.
Context {R : Type} `{JSNumber R}.


(** The set of keys that [extractElementsAndDefault] collects over
    [tokens], from [acc]. *)
Definition all_keys (tokens : list (AbstractToken R)) (acc : list jsstring)
  : list jsstring :=
  fold_left (fun a t => fold_left set_add (keys (props t)) a) tokens acc.

End KeySpec.

Section TableSpec.
Context {R : Type} `{JSNumber R}.

(** The table of the transposed matrix. *)
Definition transposed (A : list (list R)) : list (list R) :=
  map (fun j => map (fun i => mget A i j) (seq 0 (length A)))
    (seq 0 (cols A)).

(** The table of a product. *)
Definition product (A B : list (list R)) : list (list R) :=
  map (fun i =>
         map (fun j =>
                fold_left
                  (fun sum k => add sum (mul (mget A i k) (mget B k j)))
                  (seq 0 (cols A)) zero)
           (seq 0 (cols B)))
    (seq 0 (length A)).

(** The augmented matrix of [makeM]. *)
Definition augmented (A b : list (list R)) : list (list R) :=
  map (fun i => nth i A [] ++ [mget b i 0]) (seq 0 (length A)).

(** The matrix that a well-formed system hands to [diagonalize]. *)
Definition normal_system (A B : list (list R)) : list (list R) :=
  augmented (copy (product (transposed A) A))
    (copy (product (transposed A) B)).

End TableSpec.

(** The invariant of the loop of [substitute] when the rows from [i] on
    are done: the matrix is upper triangular, the pivots of the rows
    before [i] are not zero, those of the rows from [i] on are 1 and alone
    in their column, and the solutions of the matrix are solutions of the
    matrix [Md] the loop started from. *)
Definition substituting (Md M : list (list Qc)) (c i : nat) : Prop :=
  rect M c (c + 1)
  /\ lower_zero M c c
  /\ (forall a, a < i -> mget M a a <> Q2Qc 0)
  /\ (forall a, i <= a < c -> mget M a a = Q2Qc 1)
  /\ (forall a b, i <= b < c -> a < c -> a <> b -> mget M a b = Q2Qc 0)
  /\ (forall x, sat M c x -> sat Md c x).

(** * Specification-level definitions for the further properties *)

(** A two by three matrix of binary64 numbers. *)
Definition two_by_three : list (list Double.double) :=
  [[Double.of_Z 1; Double.of_Z 2; Double.of_Z 3];
   [Double.of_Z 4; Double.of_Z 5; Double.of_Z 6]].



Section TriangularSpec.
Context {R : Type} `{JSNumber R}.

(** The entries below the diagonal in the first [k] columns of a matrix
    of [m] rows are the number 0. *)
Definition lower_zeros (M : list (list R)) (m k : nat) : Prop :=
  forall a b, b < k -> b < a -> a < m -> mget M a b = zero.

End TriangularSpec.

(** The same system in exact arithmetic. *)
Definition exact_square_two : list (list Qc) :=
  [[Q2Qc 1; Q2Qc 2]; [Q2Qc 3; Q2Qc 4]].

Definition exact_column_two : list (list Qc) := [[Q2Qc 5]; [Q2Qc 6]].

(** The residual of equation [i] of [A x = B] at [x], and the sum of the
    squares of the residuals. *)
Definition residual (A B : list (list Qc)) (c : nat) (x : nat -> Qc)
  (i : nat) : Qc :=
  Qcminus (big_sum (fun j => Qcmult (mget A i j) (x j)) c) (mget B i 0).

Definition sum_squares (A B : list (list Qc)) (r c : nat) (x : nat -> Qc)
  : Qc :=
  big_sum (fun i => Qcmult (residual A B c x i) (residual A B c x i)) r.

(** An overdetermined system: three equations, two unknowns. *)
Definition exact_tall : list (list Qc) :=
  [[Q2Qc 1; Q2Qc 0]; [Q2Qc 0; Q2Qc 1]; [Q2Qc 1; Q2Qc 1]].

Definition exact_tall_rhs : list (list Qc) := [[Q2Qc 1]; [Q2Qc 1]; [Q2Qc 1]].

(** [z] is in the kernel of the first [c] columns of [M]: each of the
    first [r] rows of [M] times [z] is 0. *)
Definition kernel (M : list (list Qc)) (r c : nat) (z : nat -> Qc) : Prop :=
  forall i, i < r ->
    big_sum (fun j => Qcmult (mget M i j) (z j)) c = Q2Qc 0.

(** The [c] columns of [A] are linearly dependent: a combination of them
    that is not trivial is the zero column. *)
Definition dependent (A : list (list Qc)) (r c : nat) : Prop :=
  exists z, kernel A r c z /\ exists j, j < c /\ z j <> Q2Qc 0.

(** A system whose second column is twice the first. *)
Definition exact_dependent : list (list Qc) :=
  [[Q2Qc 1; Q2Qc 2]; [Q2Qc 2; Q2Qc 4]].

(** ** The validators and [compute] *)

(** The number of yield tokens of an AST. *)
Definition count_yield (ast : list Match) : nat :=
  length (filter is_yield ast).

(** The errors that [compute] raises. *)
Definition compute_error (e : error) : Prop :=
  match e with
  | MissingYield | DuplicateYield | ElementMismatch | TooManyDefault
  | Singular => True
  | _ => False
  end.



(** ** Simplified compounds *)

(** The element symbols of a token: its own, or those of the tokens of
    its scanned body, at any depth. *)
Fixpoint symbols_in (tok : Match) : list jsstring :=
  match tok with
  | mkMatch _ _ elt brk _ _ _ =>
      match elt with
      | Some e => [e]
      | None =>
          match brk with
          | Some (inr items) =>
              (fix each (items : list Match) : list jsstring :=
                 match items with
                 | [] => []
                 | item :: rest => symbols_in item ++ each rest
                 end) items
          | _ => []
          end
      end
  end.

(** The loop over the tokens of a body in [simplifyCompound], as a fold. *)
Definition merge_items (count : Double.double) (items : list Match)
  (acc : list (jsstring * Double.double)) : list (jsstring * Double.double) :=
  fold_left
    (fun acc item =>
       match simplifyCompound item true with
       | Some abs => merge_counts count acc (props abs)
       | None => acc
       end)
    items acc.

(** Induction on a token and the tokens of its body. *)
Section MatchInduction.
Variable P : Match -> Prop.
Hypothesis Hrec :
  forall s y e b c ch f,
    match b with
    | Some (inr items) => Forall P items
    | _ => True
    end ->
    P (mkMatch s y e b c ch f).

Fixpoint Match_nested_ind (m : Match) : P m :=
  match m with
  | mkMatch s y e b c ch f =>
      Hrec s y e b c ch f
        (match b return match b with
                        | Some (inr items) => Forall P items
                        | _ => True
                        end with
         | Some (inr items) =>
             (fix all (l : list Match) : Forall P l :=
                match l with
                | [] => Forall_nil P
                | x :: r => Forall_cons x (Match_nested_ind x) (all r)
                end) items
         | _ => I
         end)
  end.

End MatchInduction.


(** ** The tokens of [scan] *)

(** The number of kinds a token has among sum, yield, element, bracket
    and free charge. *)
Definition kinds (m : Match) : nat :=
  (if has (SUM m) then 1 else 0) + (if has (YIELD m) then 1 else 0)
  + (if has (ELEMENT m) then 1 else 0) + (if has (BRACKET m) then 1 else 0)
  + (if has (FREE_CHARGE m) then 1 else 0).

(** What holds of a token of [scan], its body apart: it is of one kind at
    most; a sum is ["+"] and a yield ["⇒"]; an element is a symbol of one
    letter or two; a count or a charge comes with an element or a bracket
    only. *)
Definition token_ok (m : Match) : Prop :=
  kinds m <= 1
  /\ (forall x, SUM m = Some x -> x = js "+")
  /\ (forall x, YIELD m = Some x -> x = js "⇒")
  /\ (forall x, ELEMENT m = Some x -> is_symbol x)
  /\ (has (COUNT m) || has (CHARGE m) = true ->
      SUM m = None /\ YIELD m = None /\ FREE_CHARGE m = None).

(** A token of [scan] and the tokens of its body, at any depth: a body
    left as text is of one character or two, a longer one is scanned. *)
Fixpoint scanned_ok (m : Match) : Prop :=
  token_ok m
  /\ match m with
     | mkMatch _ _ _ brk _ _ _ =>
         match brk with
         | Some (inl raw) => 1 <= length raw <= 2
         | Some (inr body) =>
             (fix all (l : list Match) : Prop :=
                match l with
                | [] => True
                | t :: r => scanned_ok t /\ all r
                end) body
         | None => True
         end
     end.

(** ** The editor *)

Section EditorSpec.
Import Editor.

(** The cursor is on an item of the stored command, and the last item of
    the command is a blank. *)
Definition on_command (s : State) : Prop :=
  (0 <= cursor_ s < Z.of_nat (length (command_ s)))%Z
  /\ last (command_ s) [] = js " ".

(** An element of the table. *)
Definition element_cell (x : Item) : Prop :=
  exists i j, cell i j = Some x /\ isElement (Some x) = true.

(** The item of the table with the key [key], as a button. *)
Definition button_at (i j : nat) (key : string) : Prop :=
  cell i j = Some (TableKey (js key)).
Arguments button_at i j key%_string.

(** What a call of the callback of a cell writes at the cursor: the key of
    an element, the key of a button without a callback of its own, and a
    blank for [[-]]. *)
Definition typed (val : TableItem) : option jsstring :=
  match val with
  | Some (TableElement key) => Some key
  | Some (TableKey key) =>
      if JsString.eqb key (js "[-]") then Some (js " ")
      else match cbFn (TableKey key) with
           | None => Some key
           | Some _ => None
           end
  | _ => None
  end.

(** From [w] to [w']: every event dispatched since [w] saw the cursor in
    range, and so does the state of [w']. *)
Definition keeps (w w' : World) : Prop :=
  on_command (state w')
  /\ exists new, dispatched w' = dispatched w ++ new
                 /\ Forall (fun d => on_command (snd d)) new.

(** From [w] to [w']: the current element is the same, or an element of
    the table. *)
Definition moves (w w' : World) : Prop :=
  currentElement w' = currentElement w \/ element_cell (currentElement w').

(** A test that holds of every item of the table, with its place. *)
Definition all_cells (p : nat -> nat -> Item -> bool) : bool :=
  forallb
    (fun i =>
       forallb
         (fun j => match cell i j with
                   | Some x => p i j x
                   | None => true
                   end)
         (seq 0 18))
    (seq 0 10).

Definition calls (cells : list (nat * nat)) : list input :=
  map (fun c => Call (fst c) (snd c)) cells.

End EditorSpec.

(** ** The scripts of numbers *)

(** A subscript digit, or the dot that [subscript] keeps. *)
Definition is_subscript (c : char) : bool :=
  ((8320 <=? c) && (c <=? 8329) || (c =? 46))%N.

(** The superscript digits of the text of a number. *)
Definition super_digits (n : Double.double) : jsstring :=
  flat_map superscript (Double.to_string n).

(** A formula token of the given body. *)
Definition formula_of (body : list Match) (count charge : option Double.double)
  : Match :=
  mkMatch None None None (Some (inr body)) count charge None.

(** A nested bracket that [stringifyFormula] passes over: it has no
    element, and no count or a count that is not truthy. *)
Definition uncounted (obj : Match) : Prop :=
  BRACKET obj <> None /\ ELEMENT obj = None
  /\ match COUNT obj with
     | Some c => Double.truthy c = false
     | None => True
     end.

(** ** Meshes *)

Section MeshSpec.
Import Mesh.

(** A matrix with a first row, all of whose rows have the width of the
    first. *)
Definition uniform (m : TwoDimUint8) : Prop :=
  m <> [] /\ forall r, In r m -> length r = length (nth 0 m []).

(** The row [i] of each matrix, one after the other. *)
Definition joined_row (mat : list TwoDimUint8) (i : nat) : list N :=
  concat (map (fun m => nth i m []) mat).

(** The rows of the array in the loop on [m]: what is already written,
    [off] items, and zeros up to [T]. *)
Definition written (T off : nat) (arr : TwoDimUint8)
  (done : nat -> list N) : Prop :=
  (forall r, In r arr -> length r = T)
  /\ forall i, i < length arr ->
       firstn off (nth i arr []) = done i
       /\ skipn off (nth i arr []) = repeat 0%N (T - off).

Definition mesh_a : TwoDimUint8 := [[1; 2]; [3; 4]]%N.
Definition mesh_b : TwoDimUint8 := [[5; 6]; [7; 8]]%N.

End MeshSpec.

(** ** Lines *)

Section LinesSpec.
Import Lines.

(** A line that [drawConsole] has filled: more than one mesh only if they
    take less than the width of the console together. *)
Definition fits (meshSizes : list nat) (chunk : list nat) : Prop :=
  2 <= length chunk -> currSize meshSizes chunk < 307.

(** The columns of a mesh, and of a line of meshes. *)
Definition columns (mat : Mesh.TwoDimUint8) : nat := length (nth 0 mat []).

Definition line_columns (line : list Mesh.TwoDimUint8) : nat :=
  fold_left (fun a mat => a + columns mat) line 0.

(** A line of the output: more than one mesh only if they take less than
    209 columns together. *)
Definition fits_output (line : list Mesh.TwoDimUint8) : Prop :=
  2 <= length line -> line_columns line < 209.

End LinesSpec.

(** ** Padding *)

Section PaddingSpec.
Import Mesh.

(** The width that [makeRectangle] aims at, the span of the item taken
    into account. *)
Definition spanned (w : Z) (span : option Z) : Z :=
  match span with
  | Some s => if (s =? 0)%Z then w else ((w + 1) * s - 1)%Z
  | None => w
  end.

(** A matrix in the middle of [h] rows and [w] columns of zeros: half of
    the rows and of the columns to add, rounded down, go above it and on
    its left. *)
Definition centred (mat : TwoDimUint8) (h w : nat) : TwoDimUint8 :=
  let nR := length mat in
  let nC := length (nth 0 mat []) in
  let top := (h - nR) / 2 in
  let left := (w - nC) / 2 in
  repeat (repeat 0%N w) top
    ++ map (fun r => repeat 0%N left ++ r ++ repeat 0%N (w - nC - left)) mat
    ++ repeat (repeat 0%N w) (h - nR - top).

(** The rows of a matrix have the width of the first. *)
Definition one_width (mat : TwoDimUint8) : Prop :=
  forall r, In r mat -> length r = length (nth 0 mat []).

(** Cells that are 0 or 1. *)
Definition binary (mat : TwoDimUint8) : Prop :=
  forall r c, In r mat -> In c r -> c = 0%N \/ c = 1%N.

End PaddingSpec.

(** ** Arrows *)

Section ArrowSpec.
Import Editor.

(** The arrows that undo each other. *)
Definition opposite_arrows : list (string * string) :=
  [("←", "→"); ("→", "←"); ("↑", "↓"); ("↓", "↑")]%string.

(** The element that an arrow makes current from the cell [(i, j)] when
    the focus is not on the console: the item of the cell next to it in
    the direction of the arrow when that is an element, and no other. *)
Definition neighbour (arrow : string) (i j : nat) : TableItem :=
  let target :=
    if String.eqb arrow "←" then
      match j with 0 => None | S j' => cell i j' end
    else if String.eqb arrow "→" then cell i (S j)
    else if String.eqb arrow "↑" then
      match i with 0 => None | S i' => cell i' j end
    else if String.eqb arrow "↓" then cell (S i) j
    else None in
  if isElement target then target else None.

End ArrowSpec.
(** * Properties *)

(** ** Strings *)

Arguments JsString.eqb : simpl never.
Arguments js : simpl never.

Lemma eqb_eq a b : JsString.eqb a b = true <-> a = b.
Proof.
  unfold JsString.eqb. destruct (list_eq_dec N.eq_dec a b); split; congruence.
Qed.

Lemma eqb_refl a : JsString.eqb a a = true.
Proof. apply eqb_eq. reflexivity. Qed.

Lemma eqb_neq a b : JsString.eqb a b = false <-> a <> b.
Proof.
  unfold JsString.eqb. destruct (list_eq_dec N.eq_dec a b); split; congruence.
Qed.

(** ** The worked example of the specification *)

(** C2, as stated, fails: on ["[H*2]+[O*2]⇒[H*2 O]"] the computation
    succeeds, and its coefficients are not [2, 1, 2], nor is its text
    ["2H₂ + O₂ ⇒ 2H₂O "]. *)
Lemma C2_counterexample :
  exists c, balance water = Some (Ok c)
            /\ coeffs c <> [Double.of_Z 2; Double.of_Z 1; Double.of_Z 2]
            /\ text c <> js "2H₂ + O₂ ⇒ 2H₂O ".
Proof.
  eexists. split; [vm_compute; reflexivity | split; vm_compute; discriminate].
Qed.

(** C2, amended: no compound of ["[H*2]+[O*2]⇒[H*2 O]"] declares a default
    coefficient, so the first one is given 1: the coefficients are
    [1, 0.5, 1], one per compound from left to right, and the text is
    ["H₂ + 0.5O₂ ⇒ H₂O "].  The coefficients [2, 1, 2] and the text
    ["2H₂ + O₂ ⇒ 2H₂O "] are those of ["[H*2]+1*[O*2]⇒[H*2 O]"], where the
    second compound declares 1. *)
Theorem C2_water_coefficients :
  (exists c, balance water = Some (Ok c)
             /\ coeffs c = [Double.of_Z 1; half; Double.of_Z 1]
             /\ text c = js "H₂ + 0.5O₂ ⇒ H₂O ")
  /\ (exists c, balance water_pinned = Some (Ok c)
                /\ coeffs c = [Double.of_Z 2; Double.of_Z 1; Double.of_Z 2]
                /\ text c = js "2H₂ + O₂ ⇒ 2H₂O ").
Proof.
  split; eexists; (split; [vm_compute; reflexivity | split; reflexivity]).
Qed.

(** ** The element alternative of the scanner *)

Lemma in_range_In lo len c :
  in_range (N.of_nat lo) (N.of_nat (lo + len)) c = true ->
  In c (map N.of_nat (seq lo (S len))).
Proof.
  unfold in_range. intros H. apply andb_true_iff in H as [H1 H2].
  apply N.leb_le in H1, H2.
  apply in_map_iff. exists (N.to_nat c). split.
  - apply N2Nat.id.
  - apply in_seq. lia.
Qed.

Lemma letter_In c : cls_letter c = true -> In c letters.
Proof.
  unfold cls_letter, letters. intros H. apply orb_true_iff in H.
  rewrite map_app. apply in_or_app. destruct H as [H | H].
  - left. apply (in_range_In 65 25). exact H.
  - right. apply (in_range_In 97 25). exact H.
Qed.

Lemma symbol_In e : is_symbol e -> In e symbols.
Proof.
  unfold symbols. intros [[c [-> Hc]] | [c [d [-> [Hc Hd]]]]];
    apply in_or_app.
  - left. apply (in_map (fun c => [c])). apply letter_In. exact Hc.
  - right. apply in_flat_map. exists c. split.
    + apply letter_In. exact Hc.
    + apply (in_map (fun d => [c; d])). apply letter_In. exact Hd.
Qed.

Lemma symbols_scan :
  forallb (fun e => bare_symbol_scans e && charged_symbol_scans e) symbols
  = true.
Proof. vm_compute. reflexivity. Qed.

(** C5, as stated, fails: the charge is not mandatory in the element
    alternative.  On ["H O"] the scanner produces the element token of [H],
    which has no charge. *)
Lemma C5_counterexample :
  exists ast tok,
    scan (js "H O") = Some ast /\ In tok ast
    /\ ELEMENT tok = Some (js "H") /\ CHARGE tok = None.
Proof.
  exists [element_token (js "H") None; element_token (js "O") None],
    (element_token (js "H") None).
  split; [vm_compute; reflexivity | ].
  split; [left; reflexivity | split; reflexivity].
Qed.

(** C5, amended: in the element alternative the charge suffix is optional,
    like the two multipliers.  A symbol alone (one letter and an optional
    second one, of either case under the flag [i]) is scanned as an element
    token without count and without charge, and the same symbol followed by
    [^-1] as the element token with the charge -1. *)
Theorem C5_element_charge_optional (e : jsstring) :
  is_symbol e ->
  scan e = Some [element_token e None]
  /\ scan (e ++ js "^-1") = Some [element_token e (Some minus_one)].
Proof.
  intros He. apply symbol_In in He.
  pose proof symbols_scan as H.
  rewrite forallb_forall in H. specialize (H e He).
  apply andb_true_iff in H as [H1 H2].
  unfold bare_symbol_scans in H1. unfold charged_symbol_scans in H2.
  split.
  - destruct (scan e) as [[|[[s|] [y|] [e'|] [b|] [c|] [ch|] [f|]] [|? ?]]|];
      try discriminate H1.
    apply eqb_eq in H1. subst e'. reflexivity.
  - destruct (scan (e ++ js "^-1"))
      as [[|[[s|] [y|] [e'|] [b|] [c|] [ch|] [f|]] [|? ?]]|];
      try discriminate H2.
    apply andb_true_iff in H2 as [H2 H3]. apply eqb_eq in H2. subst e'.
    destruct (Double.eq_dec ch minus_one); [subst ch | discriminate H3].
    reflexivity.
Qed.

Lemma C5_element_charge_optional_witness :
  is_symbol (js "He")
  /\ scan (js "He") = Some [element_token (js "He") None]
  /\ scan (js "He" ++ js "^-1")
     = Some [element_token (js "He") (Some minus_one)].
Proof.
  assert (H : is_symbol (js "He")).
  { right. exists 72%N, 101%N. repeat split; reflexivity. }
  split; [exact H | apply (C5_element_charge_optional H)].
Defined.

(** ** The matcher against the relation *)

Lemma star_sound p k : forall s n o,
  star p k s n = Some o ->
  exists s' n', star_run p s n s' n' /\ k s' n' = Some o.
Proof.
  induction s as [|x xs IH]; intros n o H; simpl in H.
  - exists [], n. split; [constructor | exact H].
  - destruct (p x) eqn:Hp.
    + destruct (star p k xs (S n)) as [o'|] eqn:Hs.
      * injection H as <-. apply IH in Hs as [s' [n' [Hr Hk]]].
        exists s', n'. split; [econstructor; eassumption | exact Hk].
      * exists (x :: xs), n. split; [constructor | exact H].
    + exists (x :: xs), n. split; [constructor | exact H].
Qed.

Lemma rmatch_sound r : forall s n c k o,
  rmatch r s n c k = Some o ->
  exists s' n' c', matches r s n c s' n' c' /\ k s' n' c' = Some o.
Proof.
  induction r as [p | a IHa b IHb | a IHa b IHb | a IHa | p | g a IHa];
    intros s n c k o H; simpl in H.
  - destruct s as [|x xs]; [discriminate|].
    destruct (p x) eqn:Hp; [|discriminate].
    exists xs, (S n), c. split; [constructor; exact Hp | exact H].
  - apply IHa in H as [s1 [n1 [c1 [Ha H]]]].
    apply IHb in H as [s2 [n2 [c2 [Hb H]]]].
    exists s2, n2, c2. split; [econstructor; eassumption | exact H].
  - destruct (rmatch a s n c k) as [o'|] eqn:Ha.
    + injection H as <-. apply IHa in Ha as [s' [n' [c' [Ha H]]]].
      exists s', n', c'. split; [apply m_alt_l; exact Ha | exact H].
    + apply IHb in H as [s' [n' [c' [Hb H]]]].
      exists s', n', c'. split; [apply m_alt_r; exact Hb | exact H].
  - destruct (rmatch a s n c k) as [o'|] eqn:Ha.
    + injection H as <-. apply IHa in Ha as [s' [n' [c' [Ha H]]]].
      exists s', n', c'. split; [apply m_opt_some; exact Ha | exact H].
    + exists s, n, c. split; [apply m_opt_none | exact H].
  - apply star_sound in H as [s' [n' [Hr H]]].
    exists s', n', c. split; [constructor; exact Hr | exact H].
  - apply IHa in H as [s' [n' [c' [Ha H]]]].
    exists s', n', ((g, firstn (n' - n) s) :: c').
    split; [constructor; exact Ha | exact H].
Qed.

Lemma star_run_suffix p s n s' n' :
  star_run p s n s' n' -> exists pre, s = pre ++ s' /\ n' = n + length pre.
Proof.
  induction 1 as [s n | x xs n s' n' Hp Hr [pre [-> ->]]].
  - exists []. split; [reflexivity | simpl; lia].
  - exists (x :: pre). split; [reflexivity | simpl; lia].
Qed.

(** A match consumes a prefix of its input, and counts it. *)
Lemma matches_suffix r s n c s' n' c' :
  matches r s n c s' n' c' ->
  exists pre, s = pre ++ s' /\ n' = n + length pre.
Proof.
  induction 1.
  - exists [x]. split; [reflexivity | simpl; lia].
  - destruct IHmatches1 as [p1 [-> ->]]. destruct IHmatches2 as [p2 [-> ->]].
    exists (p1 ++ p2). rewrite <- app_assoc, length_app.
    split; [reflexivity | lia].
  - assumption.
  - assumption.
  - assumption.
  - exists []. split; [reflexivity | simpl; lia].
  - eapply star_run_suffix; eassumption.
  - assumption.
Qed.

(** A match adds captures of its own groups in front of those it had. *)
Lemma matches_caps r s n c s' n' c' :
  matches r s n c s' n' c' ->
  exists new, c' = new ++ c
              /\ forall g v, In (g, v) new -> In g (groups_of r).
Proof.
  induction 1; simpl.
  - exists []. split; [reflexivity | intros ? ? []].
  - destruct IHmatches1 as [n1' [-> H1]]. destruct IHmatches2 as [n2' [-> H2]].
    exists (n2' ++ n1'). rewrite <- app_assoc. split; [reflexivity|].
    intros g v Hin. apply in_app_or in Hin as [Hin | Hin]; apply in_or_app.
    + right. eapply H2; eassumption.
    + left. eapply H1; eassumption.
  - destruct IHmatches as [new [-> Hn]]. exists new. split; [reflexivity|].
    intros g v Hin. apply in_or_app. left. eapply Hn; eassumption.
  - destruct IHmatches as [new [-> Hn]]. exists new. split; [reflexivity|].
    intros g v Hin. apply in_or_app. right. eapply Hn; eassumption.
  - assumption.
  - exists []. split; [reflexivity | intros ? ? []].
  - exists []. split; [reflexivity | intros ? ? []].
  - destruct IHmatches as [new [-> Hn]].
    exists ((g, firstn (n' - n) s) :: new). split; [reflexivity|].
    intros g0 v [Heq | Hin].
    + injection Heq as <- _. left. reflexivity.
    + right. eapply Hn; eassumption.
Qed.

Lemma lookup_app_skip new c g :
  (forall v, ~ In (g, v) new) -> lookup (new ++ c) g = lookup c g.
Proof.
  induction new as [|[h v] new IH]; intros Hn; simpl; [reflexivity|].
  destruct (group_eq_dec h g) as [-> | Hne].
  - exfalso. apply (Hn v). left. reflexivity.
  - apply IH. intros w Hin. apply (Hn w). right. exact Hin.
Qed.

(** A group the expression cannot set stays as it was. *)
Lemma matches_lookup_other r s n c s' n' c' g :
  matches r s n c s' n' c' -> ~ In g (groups_of r) ->
  lookup c' g = lookup c g.
Proof.
  intros Hm Hg. apply matches_caps in Hm as [new [-> Hn]].
  apply lookup_app_skip. intros v Hin. apply Hg. eapply Hn; eassumption.
Qed.

(** ** [exec] *)

Lemma exec_from_inv r : forall s idx index last c,
  exec_from r s idx = Some (index, last, c) ->
  exists s0 s',
    matches r s0 0 [] s' (last - index) c
    /\ idx <= index /\ index <= last
    /\ last - index <= length s0
    /\ index + length s0 = idx + length s.
Proof.
  induction s as [|x xs IH]; intros idx index last c H; simpl in H.
  - destruct (rmatch r [] 0 [] accept) as [[[s' n] c']|] eqn:Hm;
      [|discriminate].
    injection H as <- <- <-.
    apply rmatch_sound in Hm as [s1 [n1 [c1 [Hr Hk]]]].
    injection Hk as -> -> ->.
    pose proof (matches_suffix Hr) as [pre [Hs Hn]].
    exists [], s'. replace (idx + n - idx) with n by lia.
    split; [exact Hr|]. simpl in *.
    destruct pre; [|discriminate]. simpl in *. lia.
  - destruct (rmatch r (x :: xs) 0 [] accept) as [[[s' n] c']|] eqn:Hm.
    + injection H as <- <- <-.
      apply rmatch_sound in Hm as [s1 [n1 [c1 [Hr Hk]]]].
      injection Hk as -> -> ->.
      pose proof (matches_suffix Hr) as [pre [Hs Hn]].
      exists (x :: xs), s'. replace (idx + n - idx) with n by lia.
      split; [exact Hr|].
      assert (length (x :: xs) = length pre + length s')
        by (rewrite Hs, length_app; reflexivity).
      lia.
    + apply IH in H as [s0 [s' [Hr [H1 [H2 [H3 H4]]]]]].
      exists s0, s'. split; [exact Hr|]. simpl. lia.
Qed.

(** What a successful [exec] gives: a match of the expression that starts
    at [index], at or after [lastIndex], and ends at [last], within the
    input. *)
Lemma exec_inv r str lastIndex index last c :
  exec r str lastIndex = Some (index, last, c) ->
  exists s0 s',
    matches r s0 0 [] s' (last - index) c
    /\ lastIndex <= index /\ index <= last /\ last <= length str
    /\ last - index <= length s0.
Proof.
  unfold exec. intros H.
  destruct (length str <? lastIndex) eqn:Hl; [discriminate|].
  apply Nat.ltb_ge in Hl.
  apply exec_from_inv in H as [s0 [s' [Hm [H1 [H2 [H3 H4]]]]]].
  exists s0, s'. split; [exact Hm|].
  rewrite length_skipn in H4. lia.
Qed.

(** Forward progress: after a match, zero-width or not, [lastIndex] is
    larger than before. *)
Lemma exec_progress r str lastIndex index last c :
  exec r str lastIndex = Some (index, last, c) ->
  lastIndex < advance index last /\ advance index last <= length str + 1.
Proof.
  intros H. apply exec_inv in H as [s0 [s' [_ [H1 [H2 [H3 _]]]]]].
  unfold advance. destruct (index =? last) eqn:He.
  - apply Nat.eqb_eq in He. lia.
  - apply Nat.eqb_neq in He. lia.
Qed.

(** ** The pattern of [scan] *)

Lemma seq_inv a b s n c s2 n2 c2 :
  matches (Seq a b) s n c s2 n2 c2 ->
  exists s1 n1 c1, matches a s n c s1 n1 c1 /\ matches b s1 n1 c1 s2 n2 c2.
Proof. inversion 1; subst. eauto. Qed.

Lemma chr_inv p s n c s' n' c' :
  matches (Chr p) s n c s' n' c' ->
  exists x, s = x :: s' /\ n' = S n /\ c' = c /\ p x = true.
Proof. inversion 1; subst. eauto. Qed.

Lemma group_inv g a s n c s' n' c' :
  matches (Group g a) s n c s' n' c' ->
  exists c1, matches a s n c s' n' c1 /\ c' = (g, firstn (n' - n) s) :: c1.
Proof. inversion 1; subst. eauto. Qed.

Lemma alt_inv a b s n c s' n' c' :
  matches (Alt a b) s n c s' n' c' ->
  matches a s n c s' n' c' \/ matches b s n c s' n' c'.
Proof. inversion 1; subst; auto. Qed.

Lemma not_in_groups (g : group) (l : list group) :
  (if in_dec group_eq_dec g l then true else false) = false -> ~ In g l.
Proof. destruct (in_dec group_eq_dec g l); [discriminate | auto]. Qed.

Ltac other_group := apply not_in_groups; vm_compute; reflexivity.

(** A bracket capture comes from the formula alternative, whose match is
    at least two characters longer. *)
Lemma formula_bracket s n c s' n' c' raw :
  matches alt_formula s n c s' n' c' ->
  lookup c' G_BRACKET = Some raw ->
  length raw + 2 <= n' - n.
Proof.
  unfold alt_formula. intros Hm Hl.
  apply seq_inv in Hm as [s1 [n1 [c1 [Hma Hm]]]].
  apply seq_inv in Hm as [s2 [n2 [c2 [Hopen Hm]]]].
  apply seq_inv in Hm as [s3 [n3 [c3 [Hgrp Hm]]]].
  apply seq_inv in Hm as [s4 [n4 [c4 [Hclose Hm]]]].
  apply seq_inv in Hm as [s5 [n5 [c5 [Hmb Hch]]]].
  apply chr_inv in Hopen as [x [-> [-> [-> _]]]].
  apply chr_inv in Hclose as [y [-> [-> [-> _]]]].
  apply group_inv in Hgrp as [c0 [Hbody ->]].
  rewrite (@matches_lookup_other _ _ _ _ _ _ _ G_BRACKET Hch) in Hl by other_group.
  rewrite (@matches_lookup_other _ _ _ _ _ _ _ G_BRACKET Hmb) in Hl by other_group.
  simpl in Hl. injection Hl as <-.
  pose proof (matches_suffix Hma) as [p1 [E1 N1]].
  pose proof (matches_suffix Hbody) as [p2 [E2 N2]].
  pose proof (matches_suffix Hmb) as [p3 [E3 N3]].
  pose proof (matches_suffix Hch) as [p4 [E4 N4]].
  rewrite length_firstn. lia.
Qed.

(** The groups a match of the pattern sets are those of one alternative. *)
Lemma pattern_bracket s s' n' c' raw :
  matches pattern s 0 [] s' n' c' ->
  lookup c' G_BRACKET = Some raw ->
  matches alt_formula s 0 [] s' n' c'.
Proof.
  unfold pattern. intros Hm Hl.
  apply alt_inv in Hm as [Hm | Hm].
  { rewrite (@matches_lookup_other _ _ _ _ _ _ _ G_BRACKET Hm) in Hl by other_group.
    discriminate Hl. }
  apply alt_inv in Hm as [Hm | Hm]; [exact Hm|].
  apply alt_inv in Hm as [Hm | Hm].
  { rewrite (@matches_lookup_other _ _ _ _ _ _ _ G_BRACKET Hm) in Hl by other_group.
    discriminate Hl. }
  apply alt_inv in Hm as [Hm | Hm];
    rewrite (@matches_lookup_other _ _ _ _ _ _ _ G_BRACKET Hm) in Hl by other_group;
    discriminate Hl.
Qed.

(** ** The token built from the groups *)

Lemma BRACKET_assign_group c m g :
  BRACKET (assign_group c m g)
  = match g with
    | G_BRACKET =>
        match BRACKET m with
        | Some b => Some b
        | None => match lookup c G_BRACKET with
                  | Some (x :: v) => Some (inl (x :: v))
                  | _ => None
                  end
        end
    | _ => BRACKET m
    end.
Proof.
  unfold assign_group. destruct m as [s y e [b|] cn ch fc];
    destruct g; destruct (lookup c _) as [[|x v]|]; reflexivity.
Qed.

Lemma ELEMENT_assign_group c m g :
  ELEMENT (assign_group c m g)
  = match g with
    | G_ELEMENT =>
        match ELEMENT m with
        | Some b => Some b
        | None => match lookup c G_ELEMENT with
                  | Some (x :: v) => Some (x :: v)
                  | _ => None
                  end
        end
    | _ => ELEMENT m
    end.
Proof.
  unfold assign_group. destruct m as [s y [e|] [b|] cn ch fc];
    destruct g; destruct (lookup c _) as [[|x v]|]; reflexivity.
Qed.

Lemma BRACKET_build_match c :
  BRACKET (build_match c)
  = match lookup c G_BRACKET with
    | Some (x :: v) => Some (inl (x :: v))
    | _ => None
    end.
Proof.
  unfold build_match, all_groups. simpl fold_left.
  repeat rewrite BRACKET_assign_group. reflexivity.
Qed.

Lemma ELEMENT_build_match c :
  ELEMENT (build_match c)
  = match lookup c G_ELEMENT with
    | Some (x :: v) => Some (x :: v)
    | _ => None
    end.
Proof.
  unfold build_match, all_groups. simpl fold_left.
  repeat rewrite ELEMENT_assign_group. reflexivity.
Qed.

Lemma BRACKET_build_match_raw c raw :
  BRACKET (build_match c) = Some (inl raw) -> lookup c G_BRACKET = Some raw.
Proof.
  rewrite BRACKET_build_match.
  destruct (lookup c G_BRACKET) as [[|x v]|]; congruence.
Qed.

(** ** [scan] terminates *)

Lemma scan_loop_total : forall fuel str lastIndex acc,
  length str + 1 - lastIndex < fuel ->
  exists ast, scan_loop fuel str lastIndex acc = Some ast.
Proof.
  induction fuel as [|f IH]; intros str li acc Hf; [lia|].
  simpl.
  destruct (exec pattern str li) as [[[index last] groups]|] eqn:He;
    [|eexists; reflexivity].
  pose proof (exec_progress _ _ _ He) as [Hp1 Hp2].
  pose proof (exec_inv _ _ _ He) as [s0 [s' [Hm [H1 [H2 [H3 H4]]]]]].
  assert (Hnext : forall acc', exists ast,
             scan_loop f str (advance index last) acc' = Some ast).
  { intros acc'. apply IH. lia. }
  unfold scan_bracket.
  destruct (BRACKET (build_match groups)) as [[raw|body]|] eqn:Hb;
    try apply Hnext.
  destruct (2 <? length raw) eqn:Hlen; [|apply Hnext].
  apply BRACKET_build_match_raw in Hb.
  pose proof (formula_bracket (pattern_bracket Hm Hb) Hb) as Hraw.
  destruct (IH raw 0 []) as [body Hbody]; [lia|].
  rewrite Hbody. apply Hnext.
Qed.

Lemma scan_bracket_ext f g m m' :
  (forall raw body, f raw = Some body -> g raw = Some body) ->
  scan_bracket f m = Some m' -> scan_bracket g m = Some m'.
Proof.
  unfold scan_bracket. intros Hfg.
  destruct (BRACKET m) as [[raw|body]|]; auto.
  destruct (2 <? length raw); auto.
  destruct (f raw) as [body|] eqn:Hf; [|discriminate].
  rewrite (Hfg _ _ Hf). auto.
Qed.

(** More fuel does not change a result. *)
Lemma scan_loop_mono : forall f str lastIndex acc ast,
  scan_loop f str lastIndex acc = Some ast ->
  forall f', f <= f' -> scan_loop f' str lastIndex acc = Some ast.
Proof.
  induction f as [|f IH]; intros str li acc ast H f' Hle; [discriminate|].
  destruct f' as [|f']; [lia|]. simpl in *.
  destruct (exec pattern str li) as [[[index last] groups]|]; [|exact H].
  destruct (scan_bracket (fun raw => scan_loop f raw 0 []) (build_match groups))
    as [m'|] eqn:Hb; [|discriminate].
  rewrite (@scan_bracket_ext _ (fun raw => scan_loop f' raw 0 []) _ _
             (fun raw body Hr => IH raw 0 [] body Hr f' ltac:(lia)) Hb).
  apply IH with (f' := f') in H; [exact H | lia].
Qed.

(** C9: [scan] is total.  Run with the fuel [length str + 2], or any larger
    one, the loop ends and returns an AST; no amount of fuel gives another
    result; and each iteration moves [lastIndex] forward, the bump after a
    zero-width match included, so no match can make the loop stall. *)
Theorem C9_scan_total (str : jsstring) :
  (exists ast, scan str = Some ast)
  /\ (forall fuel, length str + 2 <= fuel -> scan_fuel fuel str = scan str)
  /\ (forall fuel ast, scan_fuel fuel str = Some ast -> scan str = Some ast)
  /\ (forall lastIndex index last groups,
        exec pattern str lastIndex = Some (index, last, groups) ->
        lastIndex < advance index last).
Proof.
  destruct (@scan_loop_total (length str + 2) str 0 []) as [ast Hast]; [lia|].
  assert (Hbig : forall fuel, length str + 2 <= fuel ->
                              scan_fuel fuel str = scan str).
  { intros fuel Hf. unfold scan, scan_fuel. rewrite Hast.
    eapply scan_loop_mono; eassumption. }
  split; [exists ast; exact Hast|].
  split; [exact Hbig|].
  split.
  - intros fuel ast' H.
    destruct (Nat.le_ge_cases fuel (length str + 2)) as [Hle | Hge].
    + unfold scan, scan_fuel in *. eapply scan_loop_mono; eassumption.
    + rewrite <- (Hbig fuel Hge). exact H.
  - intros li index last groups He.
    apply (exec_progress _ _ _ He).
Qed.

(** ** Short bracket bodies *)

Lemma formula_no_element s n c s' n' c' :
  matches alt_formula s n c s' n' c' ->
  lookup c' G_ELEMENT = lookup c G_ELEMENT.
Proof.
  intros Hm. apply (@matches_lookup_other _ _ _ _ _ _ _ G_ELEMENT Hm).
  other_group.
Qed.

(** The abstract token of a formula whose body is still a string. *)
Lemma simplify_raw_formula tok raw branch :
  ELEMENT tok = None -> BRACKET tok = Some (inl raw) ->
  simplifyCompound tok branch
  = Some (mkAbstract
            [(CHARGE_key, or_else (CHARGE tok) Double.zero)]
            (match COUNT tok with
             | Some c => if negb branch && Double.truthy c then Some c
                         else None
             | None => None
             end)).
Proof.
  destruct tok as [s y e b cn ch fc]. simpl. intros -> ->. reflexivity.
Qed.

(** C10, as stated, fails for the bracket group whose inner text is empty:
    on ["[]"] the expression matches with an empty [BRACKET] group, the
    token has no [BRACKET] key at all, and simplifying it yields no
    compound. *)
Lemma C10_counterexample :
  exists groups,
    exec pattern (js "[]") 0 = Some (0, 2, groups)
    /\ lookup groups G_BRACKET = Some []
    /\ BRACKET (build_match groups) = None
    /\ simplifyCompound (build_match groups) false = None
    /\ scan (js "[]") = Some [empty_match].
Proof.
  eexists. split; [vm_compute; reflexivity|].
  repeat split; vm_compute; reflexivity.
Qed.

(** C10, amended: for every match of the scanner's expression whose bracket
    group has an inner text of one or two characters, the token keeps that
    text as its [BRACKET] (no scan of the body takes place), and
    simplifying it yields a compound whose only key is ["CHARGE"], with the
    charge of the token, and whose default-coefficient slot is the leading
    multiplier when the token is not nested: the compound brings no element
    to the element sets of the validator and only zeros to the rows of the
    linear system other than the charge row. *)
Theorem C10_short_bracket str lastIndex index last groups raw scan_rec :
  exec pattern str lastIndex = Some (index, last, groups) ->
  lookup groups G_BRACKET = Some raw ->
  1 <= length raw <= 2 ->
  scan_bracket scan_rec (build_match groups) = Some (build_match groups)
  /\ BRACKET (build_match groups) = Some (inl raw)
  /\ forall branch, exists a,
       simplifyCompound (build_match groups) branch = Some a
       /\ props a
          = [(CHARGE_key, or_else (CHARGE (build_match groups)) Double.zero)]
       /\ dflt a
          = match COUNT (build_match groups) with
            | Some c => if negb branch && Double.truthy c then Some c else None
            | None => None
            end
       /\ side_elements [a] = []
       /\ forall key, key <> CHARGE_key ->
            left_entry a key = zero /\ right_entry a key = zero.
Proof.
  intros He Hl Hlen.
  pose proof (exec_inv _ _ _ He) as [s0 [s' [Hm _]]].
  pose proof (pattern_bracket Hm Hl) as Hf.
  assert (Hb : BRACKET (build_match groups) = Some (inl raw)).
  { rewrite BRACKET_build_match, Hl. destruct raw; [simpl in Hlen; lia|].
    reflexivity. }
  assert (Hel : ELEMENT (build_match groups) = None).
  { rewrite ELEMENT_build_match, (formula_no_element Hf). reflexivity. }
  split.
  { unfold scan_bracket. rewrite Hb.
    destruct (2 <? length raw) eqn:H2; [|reflexivity].
    apply Nat.ltb_lt in H2. lia. }
  split; [exact Hb|].
  intros branch. eexists.
  split; [apply (@simplify_raw_formula _ raw); assumption|].
  split; [reflexivity|]. split; [reflexivity|]. split.
  - reflexivity.
  - intros key Hk. unfold left_entry, right_entry, get. simpl.
    destruct (JsString.eqb CHARGE_key key) eqn:E.
    + apply eqb_eq in E. congruence.
    + split; reflexivity.
Qed.

Lemma C10_short_bracket_witness :
  exec pattern (js "2*[He]^-1") 0
  = Some (0, 9, [(G_FRM_CHARGE, js "-1"); (G_BRACKET, js "He");
                 (G_FRM_MULT_A, js "2")])
  /\ BRACKET (build_match [(G_FRM_CHARGE, js "-1"); (G_BRACKET, js "He");
                           (G_FRM_MULT_A, js "2")])
     = Some (inl (js "He")).
Proof.
  split; [vm_compute; reflexivity|].
  apply (@C10_short_bracket (js "2*[He]^-1") 0 0 9
           [(G_FRM_CHARGE, js "-1"); (G_BRACKET, js "He");
            (G_FRM_MULT_A, js "2")]
           (js "He") (fun _ => None)).
  - vm_compute. reflexivity.
  - reflexivity.
  - simpl. lia.
Defined.

(** ** The validator of the element sets *)






Section SideElements.
Context {R : Type}.






End SideElements.



(** ** The errors of the solver *)

Section SolverErrors.
Context {R : Type} `{JSNumber R}.

Lemma diagonalize_from_error m n ks : forall (A : list (list R)) e,
  diagonalize_from m n ks A = Err e -> e = Singular.
Proof.
  induction ks as [|k ks IH]; intros A e He; simpl in He; [discriminate|].
  unfold diagonalize_step in He.
  destruct (is_zero (mget A (findPivot A k) k)).
  - injection He as <-. reflexivity.
  - eapply IH; eassumption.
Qed.






End SolverErrors.

(** ** C6 *)



(** ** The builder *)

Section Builder.
Context {R : Type} `{JSNumber R}.

Lemma forEach_extract_spec (tokens : list (AbstractToken R)) :
  forall i acc idx cf,
    forEach_extract tokens i (acc, idx, cf)
    = (all_keys tokens acc,
       fst (match pinned_from tokens i with Some p => p | None => (idx, cf) end),
       snd (match pinned_from tokens i with Some p => p | None => (idx, cf) end)).
Proof.
  induction tokens as [|t rest IH]; intros i acc idx cf; simpl; [reflexivity|].
  destruct (dflt t) as [v|] eqn:Hd; [destruct (truthy v) eqn:Ht|];
    rewrite IH; unfold all_keys; simpl;
    destruct (pinned_from rest (S i)) as [[j w]|]; reflexivity.
Qed.



Lemma pinned_from_bound (tokens : list (AbstractToken R)) : forall i j v,
  pinned_from tokens i = Some (j, v) -> i <= j < i + length tokens.
Proof.
  induction tokens as [|t rest IH]; intros i j v Hp; simpl in Hp;
    [discriminate|].
  destruct (pinned_from rest (S i)) as [[j' v']|] eqn:Hr.
  - injection Hp as <- <-. apply IH in Hr. simpl. lia.
  - destruct (dflt t) as [w|]; [|discriminate].
    destruct (truthy w); [|discriminate].
    injection Hp as <- <-. simpl. lia.
Qed.

Lemma pinned_bound (tokens : list (AbstractToken R)) :
  tokens <> [] -> fst (pinned tokens) < length tokens.
Proof.
  intros Hne. unfold pinned.
  destruct (pinned_from tokens 0) as [[j v]|] eqn:Hp.
  - apply pinned_from_bound in Hp. simpl. lia.
  - destruct tokens; [congruence | simpl; lia].
Qed.

Lemma length_array_set {A} (a : list A) i v :
  i < length a -> length (array_set a i v) = length a.
Proof.
  intros Hi. unfold array_set.
  rewrite !length_app, length_firstn, length_skipn. simpl. lia.
Qed.

Lemma nth_array_set {A} (a : list A) i j v d :
  i < length a ->
  nth j (array_set a i v) d = if j =? i then v else nth j a d.
Proof.
  intros Hi. unfold array_set.
  destruct (Nat.eqb_spec j i) as [-> | Hne].
  - rewrite app_nth2; rewrite length_firstn; [|lia].
    replace (i - Nat.min i (length a)) with 0 by lia. reflexivity.
  - destruct (Nat.lt_ge_cases j i) as [Hlt | Hge].
    + rewrite app_nth1 by (rewrite length_firstn; lia).
      rewrite nth_firstn.
      destruct (Nat.ltb_spec j i); [reflexivity | lia].
    + rewrite app_nth2; rewrite length_firstn; [|lia].
      replace (Nat.min i (length a)) with i by lia.
      destruct (j - i) as [|k] eqn:Hk; [lia|].
      change (nth (S k) ([v] ++ skipn (S i) a) d)
        with (nth k (skipn (S i) a) d).
      rewrite nth_skipn. f_equal. lia.
Qed.

End Builder.

Lemma nth_map_seq {A} (f : nat -> A) m i d :
  i < m -> nth i (map f (seq 0 m)) d = f i.
Proof.
  intros Hi.
  rewrite (nth_indep _ d (f 0)) by (rewrite length_map, length_seq; lia).
  rewrite map_nth, seq_nth by lia. reflexivity.
Qed.

Section BuilderShape.
Context {R : Type} `{JSNumber R}.

Lemma left_entry_spec (t : AbstractToken R) key :
  left_entry t key = entry_of (fun v => v) t key.
Proof. reflexivity. Qed.

Lemma right_entry_spec (t : AbstractToken R) key :
  right_entry t key = entry_of neg t key.
Proof. reflexivity. Qed.




End BuilderShape.



(** ** The shape of the matrices of the solver *)

Section SolverShape.
Context {R : Type} `{JSNumber R}.

Lemma length_upd {A} (l : list A) : forall i v, length (upd l i v) = length l.
Proof.
  induction l as [|x l IH]; intros [|i] v; simpl; try reflexivity.
  rewrite IH. reflexivity.
Qed.

Lemma nth_upd {A} (l : list A) : forall i j v d,
  nth j (upd l i v) d
  = if (j =? i) && (i <? length l) then v else nth j l d.
Proof.
  induction l as [|x l IH]; intros i j v d.
  - simpl. rewrite andb_false_r. destruct i, j; reflexivity.
  - destruct i as [|i], j as [|j]; simpl; try reflexivity.
    rewrite IH. reflexivity.
Qed.

Lemma In_upd {A} (l : list A) i v x :
  In x (upd l i v) -> x = v \/ In x l.
Proof.
  revert i. induction l as [|y l IH]; intros [|i]; simpl; try tauto.
  - intros [-> | Hx]; auto.
  - intros [-> | Hx]; auto. apply IH in Hx. tauto.
Qed.

Lemma rect_nth (M : list (list R)) m n i :
  rect M m n -> i < m -> length (nth i M []) = n.
Proof.
  intros [Hm Hr] Hi. apply Hr. apply nth_In. lia.
Qed.

Lemma rect_upd (M : list (list R)) m n i row :
  rect M m n -> length row = n -> rect (upd M i row) m n.
Proof.
  intros [Hm Hr] Hrow. split.
  - rewrite length_upd. exact Hm.
  - intros r Hin. apply In_upd in Hin as [-> | Hin]; auto.
Qed.

Lemma rect_mset (M : list (list R)) m n i j v :
  rect M m n -> i < m -> rect (mset M i j v) m n.
Proof.
  intros HM Hi. unfold mset. apply rect_upd; [exact HM|].
  rewrite length_upd. eapply rect_nth; eassumption.
Qed.

Lemma mget_mset (M : list (list R)) m n i j v i' j' :
  rect M m n -> i < m -> j < n ->
  mget (mset M i j v) i' j'
  = if (i' =? i) && (j' =? j) then v else mget M i' j'.
Proof.
  intros HM Hi Hj. unfold mget, mset.
  rewrite nth_upd. destruct HM as [Hm Hr].
  destruct (Nat.eqb_spec i' i) as [-> | Hne]; simpl.
  - destruct (Nat.ltb_spec i (length M)); [|lia].
    rewrite nth_upd.
    rewrite (Hr (nth i M [])) by (apply nth_In; lia).
    destruct (Nat.ltb_spec j n); [|lia].
    rewrite andb_true_r. reflexivity.
  - reflexivity.
Qed.

Lemma length_mset (M : list (list R)) i j v : length (mset M i j v) = length M.
Proof. unfold mset. apply length_upd. Qed.

Lemma rect_swap (M : list (list R)) m n i k :
  rect M m n -> i < m -> k < m -> rect (swap M i k) m n.
Proof.
  intros HM Hi Hk. unfold swap. destruct (i =? k); [exact HM|].
  apply rect_upd; [apply rect_upd; [exact HM|]|];
    eapply rect_nth; eassumption.
Qed.

Lemma mget_swap (M : list (list R)) m n i k i' j' :
  rect M m n -> i < m -> k < m ->
  mget (swap M i k) i' j'
  = mget M (if i' =? i then k else if i' =? k then i else i') j'.
Proof.
  intros [Hm Hr] Hi Hk. unfold swap, mget.
  destruct (Nat.eqb_spec i k) as [-> | Hne].
  - destruct (Nat.eqb_spec i' k) as [-> | _]; reflexivity.
  - rewrite !nth_upd, !length_upd.
    destruct (Nat.ltb_spec k (length M)); [|lia].
    destruct (Nat.ltb_spec i (length M)); [|lia].
    rewrite !andb_true_r.
    destruct (Nat.eqb_spec i' k) as [Hk' | Hk'];
      destruct (Nat.eqb_spec i' i) as [Hi' | Hi']; subst; reflexivity.
Qed.

Lemma fold_rect {A} (f : list (list R) -> A -> list (list R)) m n l :
  (forall M a, In a l -> rect M m n -> rect (f M a) m n) ->
  forall M, rect M m n -> rect (fold_left f l M) m n.
Proof.
  induction l as [|a l IH]; intros Hf M HM; simpl; [exact HM|].
  apply IH.
  - intros M' a' Ha. apply Hf. right. exact Ha.
  - apply Hf; [left; reflexivity | exact HM].
Qed.

Lemma rect_eliminate_row (M : list (list R)) m n k n' i :
  rect M m n -> i < m -> rect (eliminate_row M k n' i) m n.
Proof.
  intros HM Hi. unfold eliminate_row. apply rect_mset; [|exact Hi].
  apply fold_rect; [|exact HM].
  intros M' j _ HM'. apply rect_mset; assumption.
Qed.

Lemma rect_eliminate (M : list (list R)) m n n' k i_max :
  rect M m n -> k < m -> i_max < m -> rect (eliminate M m n' k i_max) m n.
Proof.
  intros HM Hk Hi. unfold eliminate. apply fold_rect.
  - intros M' i Hin HM'. apply in_seq in Hin.
    apply rect_eliminate_row; [exact HM' | lia].
  - apply rect_swap; assumption.
Qed.

Lemma findPivot_range (M : list (list R)) k :
  k <= findPivot M k /\ (findPivot M k < length M \/ findPivot M k = k).
Proof.
  unfold findPivot.
  assert (Hgen : forall l i0,
            (forall i, In i l -> k < i < length M) ->
            k <= i0 /\ (i0 < length M \/ i0 = k) ->
            let r := fold_left
                       (fun i_max i =>
                          if gtb (abs (mget M i k)) (abs (mget M i_max k))
                          then i else i_max) l i0 in
            k <= r /\ (r < length M \/ r = k)).
  { induction l as [|i l IH]; intros i0 Hl H0; simpl; [exact H0|].
    apply IH.
    - intros i' Hi'. apply Hl. right. exact Hi'.
    - destruct (gtb _ _); [|exact H0].
      specialize (Hl i (or_introl eq_refl)). lia. }
  apply Hgen.
  - intros i Hi. apply in_seq in Hi. lia.
  - lia.
Qed.

Lemma findPivot_lt (M : list (list R)) k :
  k < length M -> k <= findPivot M k < length M.
Proof.
  intros Hk. destruct (findPivot_range M k) as [H1 [H2 | H2]]; lia.
Qed.

End SolverShape.

Section SolverFront.
Context {R : Type} `{JSNumber R}.

Lemma rect_table (f : nat -> nat -> R) m n :
  rect (map (fun i => map (fun j => f i j) (seq 0 n)) (seq 0 m)) m n.
Proof.
  split.
  - rewrite length_map, length_seq. reflexivity.
  - intros row Hin. apply in_map_iff in Hin as [i [<- _]].
    rewrite length_map, length_seq. reflexivity.
Qed.

Lemma mget_table (f : nat -> nat -> R) m n i j :
  i < m -> j < n ->
  mget (map (fun i => map (fun j => f i j) (seq 0 n)) (seq 0 m)) i j = f i j.
Proof.
  intros Hi Hj. unfold mget.
  rewrite (nth_map_seq (fun i => map (fun j => f i j) (seq 0 n))) by exact Hi.
  apply nth_map_seq. exact Hj.
Qed.

Lemma rect_cols (M : list (list R)) m n :
  rect M m n -> 0 < m -> cols M = n.
Proof. intros HM Hm. unfold cols. eapply rect_nth; eassumption. Qed.

Lemma transpose_ok (A : list (list R)) :
  A <> [] -> transpose A = Ok (transposed A).
Proof. destruct A; [congruence | reflexivity]. Qed.

Lemma multiply_ok (A B : list (list R)) :
  0 < length A -> 0 < length B -> cols A = length B ->
  multiply A B = Ok (product A B).
Proof.
  intros HA HB Hc. unfold multiply.
  destruct (Nat.eqb_spec (length A) 0); [lia|].
  destruct (Nat.eqb_spec (length B) 0); [lia|].
  destruct (Nat.eqb_spec (cols A) (length B)); [|lia].
  reflexivity.
Qed.

Lemma rect_copy (M : list (list R)) : rect (copy M) (length M) (cols M).
Proof. unfold copy. apply rect_table. Qed.

Lemma makeM_ok (A b : list (list R)) :
  cols A = length A -> length b = length A ->
  makeM A b = Ok (augmented A b).
Proof.
  intros Hc Hb. unfold makeM.
  destruct (Nat.eqb_spec (length A) (cols A)); [|lia].
  destruct (Nat.eqb_spec (length A) (length b)); [|lia].
  reflexivity.
Qed.

Lemma rect_augmented (A b : list (list R)) n :
  rect A n n -> rect (augmented A b) n (n + 1).
Proof.
  intros [Hn Hr]. unfold augmented. split.
  - rewrite length_map, length_seq. exact Hn.
  - intros row Hin. apply in_map_iff in Hin as [i [<- Hi]].
    apply in_seq in Hi. rewrite length_app. simpl.
    rewrite Hr; [reflexivity | apply nth_In; lia].
Qed.

Lemma solve_front (A B : list (list R)) r c :
  rect A r c -> 0 < r -> 0 < c -> length B = r ->
  augmented_normal A B = Ok (normal_system A B)
  /\ rect (normal_system A B) c (c + 1)
  /\ solve A B
     = (do M <- diagonalize (normal_system A B);
        Ok (extractX (substitute M))).
Proof.
  intros HA Hr Hc HB.
  assert (Hne : A <> []) by (destruct HA as [Hl _]; destruct A; simpl in *;
                             [lia | congruence]).
  assert (HlenA : length A = r) by apply HA.
  assert (HcolsA : cols A = c) by (eapply rect_cols; eassumption).
  assert (HT : rect (transposed A) c r).
  { unfold transposed. rewrite HlenA, HcolsA. apply rect_table. }
  assert (HlenT : length (transposed A) = c) by apply HT.
  assert (HcolsT : cols (transposed A) = r) by (eapply rect_cols; eassumption).
  assert (HP : rect (product (transposed A) A) c c).
  { unfold product. rewrite HlenT, HcolsA. apply rect_table. }
  assert (HlenP : length (product (transposed A) A) = c) by apply HP.
  assert (HcolsP : cols (product (transposed A) A) = c)
    by (eapply rect_cols; eassumption).
  assert (HlenQ : length (product (transposed A) B) = c).
  { unfold product. rewrite length_map, length_seq. exact HlenT. }
  assert (HC : rect (copy (product (transposed A) A)) c c).
  { pose proof (rect_copy (product (transposed A) A)) as Hcp.
    rewrite HlenP, HcolsP in Hcp. exact Hcp. }
  assert (HlenC : length (copy (product (transposed A) A)) = c) by apply HC.
  assert (Hm1 : multiply (transposed A) A = Ok (product (transposed A) A))
    by (apply multiply_ok; lia).
  assert (Hm2 : multiply (transposed A) B = Ok (product (transposed A) B))
    by (apply multiply_ok; lia).
  assert (HM : makeM (copy (product (transposed A) A))
                 (copy (product (transposed A) B))
               = Ok (normal_system A B)).
  { apply makeM_ok.
    - rewrite HlenC. eapply rect_cols; eassumption.
    - pose proof (rect_copy (product (transposed A) B)) as [Hl _].
      rewrite Hl, HlenQ, HlenC. reflexivity. }
  split; [|split].
  - unfold augmented_normal. rewrite (transpose_ok Hne). simpl.
    rewrite Hm1. simpl. rewrite Hm2. simpl. exact HM.
  - unfold normal_system. apply rect_augmented. exact HC.
  - unfold solve. rewrite (transpose_ok Hne). simpl.
    rewrite Hm1. simpl. rewrite Hm2. simpl.
    unfold gaussian_elimination_calc.
    destruct (Nat.eqb_spec (length (product (transposed A) A))
                (cols (product (transposed A) A))); [|lia].
    destruct (Nat.eqb_spec (length (product (transposed A) A))
                (length (product (transposed A) B))); [|lia].
    simpl. rewrite HM. reflexivity.
Qed.

End SolverFront.

(** ** Gaussian elimination and its zero pivots *)

Section Elimination.
Context {R : Type} `{JSNumber R}.

Lemma elimination_state_det m n (M0 : list (list R)) k M :
  elimination_state m n M0 k M ->
  forall M', elimination_state m n M0 k M' -> M = M'.
Proof.
  induction 1 as [|k M Hs IH Hz]; intros M' Hs'.
  - inversion Hs'. reflexivity.
  - inversion Hs' as [|k' M1 Hs1 Hz1]; subst.
    rewrite (IH _ Hs1). reflexivity.
Qed.

(** The loop of [diagonalize] from step [k] on, against the states of the
    elimination. *)
Lemma diagonalize_from_states m n (M0 : list (list R)) : forall len k M,
  elimination_state m n M0 k M ->
  (diagonalize_from m n (seq k len) M = Err Singular
   <-> exists k' M', k <= k' < k + len
                     /\ elimination_state m n M0 k' M' /\ zero_pivot M' k')
  /\ (forall M', diagonalize_from m n (seq k len) M = Ok M' ->
                 elimination_state m n M0 (k + len) M')
  /\ ((forall k' M', k <= k' < k + len ->
                     elimination_state m n M0 k' M' -> ~ zero_pivot M' k') ->
      exists M', diagonalize_from m n (seq k len) M = Ok M').
Proof.
  induction len as [|len IH]; intros k M Hs; simpl.
  - split; [|split].
    + split; [discriminate | intros [k' [M' [Hk _]]]; lia].
    + intros M' HM. injection HM as <-. rewrite Nat.add_0_r. exact Hs.
    + intros _. exists M. reflexivity.
  - unfold diagonalize_step.
    destruct (is_zero (mget M (findPivot M k) k)) eqn:Hz.
    + split; [|split].
      * split; [intros _ | reflexivity].
        exists k, M. split; [lia|]. split; [exact Hs | exact Hz].
      * discriminate.
      * intros Hno. exfalso. apply (Hno k M); [lia | exact Hs | exact Hz].
    + pose proof (es_step Hs Hz) as Hs1.
      destruct (IH (S k) _ Hs1) as [IH1 [IH2 IH3]].
      split; [|split].
      * rewrite IH1. split.
        -- intros [k' [M' [Hk H']]]. exists k', M'. split; [lia | exact H'].
        -- intros [k' [M' [Hk [Hs' Hz']]]].
           destruct (Nat.eq_dec k' k) as [-> | Hne].
           ++ rewrite (elimination_state_det Hs' Hs) in Hz'.
              unfold zero_pivot in Hz'. congruence.
           ++ exists k', M'. split; [lia|]. split; assumption.
      * intros M' HM. replace (k + S len) with (S k + len) by lia.
        apply IH2. exact HM.
      * intros Hno. apply IH3. intros k' M' Hk. apply Hno. lia.
Qed.


Lemma length_fold {A} (f : list (list R) -> A -> list (list R)) l :
  (forall M a, length (f M a) = length M) ->
  forall M, length (fold_left f l M) = length M.
Proof.
  intros Hf. induction l as [|a l IH]; intros M; simpl; [reflexivity|].
  rewrite IH. apply Hf.
Qed.

Lemma length_substitute_row (M : list (list R)) m i :
  length (substitute_row M m i) = length M.
Proof.
  unfold substitute_row. rewrite !length_mset.
  apply length_fold. intros M' j. rewrite !length_mset. reflexivity.
Qed.

Lemma length_substitute (M : list (list R)) :
  length (substitute M) = length M.
Proof.
  unfold substitute. apply length_fold.
  intros M' i. apply length_substitute_row.
Qed.

Lemma length_extractX (M : list (list R)) : length (extractX M) = length M.
Proof. unfold extractX. rewrite length_map, length_seq. reflexivity. Qed.

End Elimination.

(** ** The choice of the pivot *)

Section PivotChoice.
Context {R : Type} `{JSNumber R}.
Hypothesis gtb_irrefl : forall x : R, gtb x x = false.
Hypothesis gtb_trans :
  forall x y z : R, gtb x y = true -> gtb y z = true -> gtb x z = true.

Lemma findPivot_fold_max (M : list (list R)) k : forall len start i_max,
  (forall i, k <= i < start ->
             gtb (abs (mget M i k)) (abs (mget M i_max k)) = false) ->
  forall i, k <= i < start + len ->
    gtb (abs (mget M i k))
      (abs (mget M
              (fold_left
                 (fun i_max i =>
                    if gtb (abs (mget M i k)) (abs (mget M i_max k))
                    then i else i_max)
                 (seq start len) i_max) k)) = false.
Proof.
  induction len as [|len IH]; intros start i_max Hinv i Hi; simpl.
  - apply Hinv. lia.
  - apply IH; [|lia].
    intros j Hj.
    destruct (gtb (abs (mget M start k)) (abs (mget M i_max k))) eqn:Hg.
    + destruct (Nat.eq_dec j start) as [-> | Hne]; [apply gtb_irrefl|].
      destruct (gtb (abs (mget M j k)) (abs (mget M start k))) eqn:Hj';
        [|reflexivity].
      rewrite <- (Hinv j ltac:(lia)). symmetry.
      eapply gtb_trans; eassumption.
    + destruct (Nat.eq_dec j start) as [-> | Hne]; [exact Hg|].
      apply Hinv. lia.
Qed.

(** No entry of column [k] at or below row [k] is larger in absolute
    value than the selected pivot. *)
Lemma findPivot_max (M : list (list R)) k i :
  k <= i < length M ->
  gtb (abs (mget M i k)) (abs (mget M (findPivot M k) k)) = false.
Proof.
  intros Hi. unfold findPivot. apply findPivot_fold_max.
  - intros j Hj. replace j with k by lia. apply gtb_irrefl.
  - lia.
Qed.

End PivotChoice.





(** ** C7 *)



(** ** Rendering, then scanning again *)

(** C4, as stated, fails: the AST of ["[H*2]"] renders as ["H₂ "], and the
    scan of that text is a bare element [H]: the formula is gone and the
    count 2 of the element with it. *)
Lemma C4_counterexample :
  exists ast ast',
    scan (js "[H*2]") = Some ast
    /\ stringify ast = js "H₂ "
    /\ scan (stringify ast) = Some ast'
    /\ atoms ast = [(js "H", Double.of_Z 2, Double.zero)]
    /\ atoms ast' = [(js "H", Double.one, Double.zero)].
Proof.
  do 2 eexists.
  split; [vm_compute; reflexivity|].
  split; [vm_compute; reflexivity|].
  split; [vm_compute; reflexivity|].
  split; vm_compute; reflexivity.
Qed.

Lemma fold_left_app_flat {A} (f : A -> jsstring) l : forall acc,
  fold_left (fun txt obj => txt ++ f obj) l acc = acc ++ flat_map f l.
Proof.
  induction l as [|x l IH]; intros acc; simpl.
  - rewrite app_nil_r. reflexivity.
  - rewrite IH, app_assoc. reflexivity.
Qed.

Lemma stringify_flat ast :
  stringify ast = flat_map (fun obj => render_token obj ++ js " ") ast.
Proof.
  unfold stringify.
  rewrite (fold_left_app_flat (fun obj => render_token obj ++ js " ")).
  reflexivity.
Qed.

Ltac each_char Hx :=
  repeat (destruct Hx as [<- | Hx]; [vm_compute; reflexivity|]); destruct Hx.

Ltac each_start Hr :=
  let x := fresh "x" in
  let tl := fresh "tl" in
  let Hx := fresh "Hx" in
  destruct Hr as [-> | [x [tl [-> Hx]]]];
  [vm_compute; reflexivity
  | unfold letters in Hx; simpl in Hx; each_char Hx].

Ltac each_letter Hx :=
  apply letter_In in Hx; unfold letters in Hx; simpl in Hx; each_char Hx.

Lemma sum_at tl :
  rmatch pattern (43%N :: tl) 0 [] accept = Some (tl, 1, [(G_SUM, [43%N])]).
Proof. vm_compute. reflexivity. Qed.

Lemma yield_at tl :
  rmatch pattern (8658%N :: tl) 0 [] accept
  = Some (tl, 1, [(G_YIELD, [8658%N])]).
Proof. vm_compute. reflexivity. Qed.

Lemma nothing_at_end : rmatch pattern [] 0 [] accept = None.
Proof. vm_compute. reflexivity. Qed.

Lemma sum_fails_letter x tl n c k :
  cls_letter x = true -> rmatch alt_sum (x :: tl) n c k = None.
Proof. intros Hx. each_letter Hx. Qed.

Lemma formula_fails_letter x tl n c k :
  cls_letter x = true -> rmatch alt_formula (x :: tl) n c k = None.
Proof. intros Hx. each_letter Hx. Qed.

Lemma mult_a_letter g x tl n c k :
  cls_letter x = true -> rmatch (mult_a g) (x :: tl) n c k = k (x :: tl) n c.
Proof. intros Hx. each_letter Hx. Qed.

Lemma mult_b_space g rest n c k :
  token_start rest ->
  rmatch (mult_b g cls_space) (32%N :: rest) n c k = k (32%N :: rest) n c.
Proof. intros Hr. each_start Hr. Qed.

Lemma charge_space g rest n c k :
  token_start rest ->
  rmatch (charge g) (32%N :: rest) n c k = k (32%N :: rest) n c.
Proof. intros Hr. each_start Hr. Qed.

Lemma symbol_two c1 c2 s k :
  cls_letter c1 = true -> cls_letter c2 = true ->
  rmatch symbol_group (c1 :: c2 :: s) 0 [] k
  = match k s 2 [(G_ELEMENT, [c1; c2])] with
    | Some o => Some o
    | None => k (c2 :: s) 1 [(G_ELEMENT, [c1])]
    end.
Proof.
  intros H1 H2. unfold symbol_group. cbn [rmatch]. rewrite H1, H2.
  reflexivity.
Qed.

Lemma symbol_one c1 s k :
  cls_letter c1 = true ->
  rmatch symbol_group (c1 :: 32%N :: s) 0 [] k
  = k (32%N :: s) 1 [(G_ELEMENT, [c1])].
Proof.
  intros H1. unfold symbol_group. cbn [rmatch]. rewrite H1. reflexivity.
Qed.

Lemma pattern_at_letter x tl :
  cls_letter x = true ->
  rmatch pattern (x :: tl) 0 [] accept
  = match
      rmatch symbol_group (x :: tl) 0 []
        (fun s2 n2 k2 =>
           rmatch (mult_b G_ELM_MULT_B cls_space) s2 n2 k2
             (fun s3 n3 k3 => rmatch (charge G_ELM_CHARGE) s3 n3 k3 accept))
    with
    | Some o => Some o
    | None => rmatch (Alt alt_free_charge alt_yield) (x :: tl) 0 [] accept
    end.
Proof.
  intros Hx.
  change (rmatch pattern (x :: tl) 0 [] accept)
    with (match rmatch alt_sum (x :: tl) 0 [] accept with
          | Some o => Some o
          | None =>
              match rmatch alt_formula (x :: tl) 0 [] accept with
              | Some o => Some o
              | None =>
                  match rmatch alt_element (x :: tl) 0 [] accept with
                  | Some o => Some o
                  | None =>
                      rmatch (Alt alt_free_charge alt_yield) (x :: tl) 0 []
                        accept
                  end
              end
          end).
  rewrite sum_fails_letter, formula_fails_letter by exact Hx.
  change (rmatch alt_element (x :: tl) 0 [] accept)
    with (rmatch (mult_a G_ELM_MULT_A) (x :: tl) 0 []
            (fun s1 n1 k1 =>
               rmatch symbol_group s1 n1 k1
                 (fun s2 n2 k2 =>
                    rmatch (mult_b G_ELM_MULT_B cls_space) s2 n2 k2
                      (fun s3 n3 k3 =>
                         rmatch (charge G_ELM_CHARGE) s3 n3 k3 accept)))).
  rewrite mult_a_letter by exact Hx. reflexivity.
Qed.

Lemma element_two_at c1 c2 rest :
  cls_letter c1 = true -> cls_letter c2 = true -> token_start rest ->
  rmatch pattern (c1 :: c2 :: 32%N :: rest) 0 [] accept
  = Some (32%N :: rest, 2, [(G_ELEMENT, [c1; c2])]).
Proof.
  intros H1 H2 Hr. rewrite pattern_at_letter by exact H1.
  rewrite symbol_two by assumption.
  rewrite mult_b_space, charge_space by exact Hr. reflexivity.
Qed.

Lemma element_one_at c1 rest :
  cls_letter c1 = true -> token_start rest ->
  rmatch pattern (c1 :: 32%N :: rest) 0 [] accept
  = Some (32%N :: rest, 1, [(G_ELEMENT, [c1])]).
Proof.
  intros H1 Hr. rewrite pattern_at_letter by exact H1.
  rewrite symbol_one by assumption.
  rewrite mult_b_space, charge_space by exact Hr. reflexivity.
Qed.

(** Nothing matches at the space that follows a token. *)
Lemma space_end : rmatch pattern [32%N] 0 [] accept = None.
Proof. vm_compute. reflexivity. Qed.

Lemma space_yield tl :
  rmatch pattern (32%N :: 8658%N :: tl) 0 [] accept = None.
Proof. vm_compute. reflexivity. Qed.

Lemma space_letter x tl :
  cls_letter x = true -> rmatch pattern (32%N :: x :: tl) 0 [] accept = None.
Proof. intros Hx. each_letter Hx. Qed.

Lemma space_plus rest :
  token_start rest ->
  rmatch pattern (32%N :: 43%N :: 32%N :: rest) 0 [] accept = None.
Proof. intros Hr. each_start Hr. Qed.

Lemma render_element e :
  render_token (element_token e None) = e.
Proof.
  unfold render_token, element_token, stringifyElement. cbn.
  rewrite app_nil_r. reflexivity.
Qed.

Lemma text_of_cons t ts :
  text_of (t :: ts) = render_token t ++ 32%N :: text_of ts.
Proof. unfold text_of. simpl. rewrite <- app_assoc. reflexivity. Qed.

Lemma token_start_text ts :
  Forall plain_token ts -> token_start (text_of ts).
Proof.
  intros Hp. destruct Hp as [|t ts Ht Hts]; [left; reflexivity|].
  right. rewrite text_of_cons.
  destruct Ht as [-> | [-> | [e [He ->]]]].
  - exists 43%N, (32%N :: text_of ts). split; [reflexivity | simpl; auto].
  - exists 8658%N, (32%N :: text_of ts). split; [reflexivity | simpl; auto].
  - rewrite render_element.
    destruct He as [[c [-> Hc]] | [c [d [-> [Hc Hd]]]]].
    + exists c, (32%N :: text_of ts). split; [reflexivity|].
      right. right. apply letter_In. exact Hc.
    + exists c, (d :: 32%N :: text_of ts). split; [reflexivity|].
      right. right. apply letter_In. exact Hc.
Qed.

(** The match at the start of the text of plain tokens is the first of
    them, whole. *)
Lemma first_token_at t ts :
  plain_token t -> Forall plain_token ts ->
  exists c,
    rmatch pattern (text_of (t :: ts)) 0 [] accept
    = Some (32%N :: text_of ts, length (render_token t), c)
    /\ build_match c = t /\ 0 < length (render_token t).
Proof.
  intros Ht Hts. rewrite text_of_cons.
  pose proof (token_start_text Hts) as Hstart.
  destruct Ht as [-> | [-> | [e [He ->]]]].
  - eexists. split; [apply sum_at|]. split; [reflexivity | simpl; lia].
  - eexists. split; [apply yield_at|]. split; [reflexivity | simpl; lia].
  - rewrite render_element.
    destruct He as [[c [-> Hc]] | [c [d [-> [Hc Hd]]]]].
    + eexists. split; [apply element_one_at; assumption|].
      split; [reflexivity | simpl; lia].
    + eexists. split; [apply element_two_at; assumption|].
      split; [reflexivity | simpl; lia].
Qed.

Lemma space_fails ts :
  Forall plain_token ts ->
  rmatch pattern (32%N :: text_of ts) 0 [] accept = None.
Proof.
  intros Hp. destruct Hp as [|t ts Ht Hts]; [apply space_end|].
  rewrite text_of_cons.
  destruct Ht as [-> | [-> | [e [He ->]]]].
  - apply space_plus. apply token_start_text. exact Hts.
  - apply space_yield.
  - rewrite render_element.
    destruct He as [[c [-> Hc]] | [c [d [-> [Hc Hd]]]]];
      apply space_letter; exact Hc.
Qed.

Lemma exec_at pre s :
  exec pattern (pre ++ s) (length pre) = exec_from pattern s (length pre).
Proof.
  unfold exec. rewrite length_app.
  destruct (Nat.ltb_spec (length pre + length s) (length pre)); [lia|].
  rewrite skipn_app, skipn_all, Nat.sub_diag. reflexivity.
Qed.

Lemma exec_from_hit r s idx s' n c :
  rmatch r s 0 [] accept = Some (s', n, c) ->
  exec_from r s idx = Some (idx, idx + n, c).
Proof. intros Hm. destruct s; cbn [exec_from]; rewrite Hm; reflexivity. Qed.

Lemma exec_from_miss r x s idx :
  rmatch r (x :: s) 0 [] accept = None ->
  exec_from r (x :: s) idx = exec_from r s (S idx).
Proof. intros Hm. cbn [exec_from]. rewrite Hm. reflexivity. Qed.

Lemma exec_from_end idx : exec_from pattern [] idx = None.
Proof. cbn [exec_from]. rewrite nothing_at_end. reflexivity. Qed.

Lemma scan_loop_exec fuel str li li' acc :
  exec pattern str li = exec pattern str li' ->
  scan_loop fuel str li acc = scan_loop fuel str li' acc.
Proof.
  intros He. destruct fuel as [|f]; [reflexivity|]. simpl. rewrite He.
  reflexivity.
Qed.

Lemma scan_plain ts :
  Forall plain_token ts ->
  forall pre acc fuel,
    length ts < fuel ->
    scan_loop fuel (pre ++ text_of ts) (length pre) acc = Some (acc ++ ts).
Proof.
  induction 1 as [|t ts Ht Hts IH]; intros pre acc fuel Hf.
  - destruct fuel as [|f]; [simpl in Hf; lia|]. cbn [scan_loop].
    rewrite exec_at. change (text_of []) with (@nil char).
    rewrite exec_from_end, app_nil_r. reflexivity.
  - destruct fuel as [|f]; [simpl in Hf; lia|]. cbn [scan_loop].
    rewrite exec_at.
    destruct (first_token_at Ht Hts) as [c [Hm [Hb Hlen]]].
    rewrite (@exec_from_hit _ _ (length pre) _ _ _ Hm), Hb.
    assert (Hsb : forall rec, scan_bracket rec t = Some t).
    { intros rec. unfold scan_bracket.
      destruct Ht as [-> | [-> | [e [_ ->]]]]; reflexivity. }
    rewrite Hsb.
    assert (Hadv : advance (length pre) (length pre + length (render_token t))
                   = length (pre ++ render_token t)).
    { unfold advance. rewrite length_app.
      destruct (Nat.eqb_spec (length pre)
                  (length pre + length (render_token t))); [lia|].
      reflexivity. }
    rewrite Hadv, text_of_cons.
    replace (pre ++ render_token t ++ 32%N :: text_of ts)
      with ((pre ++ render_token t) ++ 32%N :: text_of ts)
      by (rewrite <- app_assoc; reflexivity).
    rewrite (@scan_loop_exec f _ (length (pre ++ render_token t))
               (length ((pre ++ render_token t) ++ [32%N]))).
    + replace ((pre ++ render_token t) ++ 32%N :: text_of ts)
        with (((pre ++ render_token t) ++ [32%N]) ++ text_of ts)
        by (rewrite <- (app_assoc _ [32%N]); reflexivity).
      rewrite IH by (simpl in Hf; lia).
      rewrite <- app_assoc. reflexivity.
    + rewrite exec_at.
      replace ((pre ++ render_token t) ++ 32%N :: text_of ts)
        with (((pre ++ render_token t) ++ [32%N]) ++ text_of ts)
        by (rewrite <- (app_assoc _ [32%N]); reflexivity).
      rewrite exec_at.
      rewrite (@exec_from_miss _ _ _ _ (space_fails Hts)).
      rewrite (length_app _ [32%N]). cbn [length].
      rewrite Nat.add_1_r. reflexivity.
Qed.

(** C4, amended: rendering is not an inverse of scanning in general (the
    brackets are not rendered, counts and charges become subscript and
    superscript glyphs that the scanner does not read, and the symbols of a
    formula are joined).  For an AST made of top-level operators and bare
    element symbols only (no count, no charge), [stringify] followed by
    [scan] gives the same AST back. *)
Theorem C4_plain_round_trip (ast : list Match) :
  Forall plain_token ast -> scan (stringify ast) = Some ast.
Proof.
  intros Hp. unfold scan, scan_fuel. rewrite stringify_flat.
  fold (text_of ast).
  apply (scan_plain Hp [] []).
  assert (Hlen : forall ts, Forall plain_token ts ->
                            length ts <= length (text_of ts)).
  { induction 1 as [|t ts Ht Hts IH]; [simpl; lia|].
    rewrite text_of_cons, length_app. simpl. lia. }
  specialize (Hlen ast Hp). lia.
Qed.

Lemma C4_plain_round_trip_witness :
  Forall plain_token
    [element_token (js "H") None; sum_token; element_token (js "Cl") None;
     yield_token; element_token (js "H") None]
  /\ scan (stringify
             [element_token (js "H") None; sum_token;
              element_token (js "Cl") None; yield_token;
              element_token (js "H") None])
     = Some [element_token (js "H") None; sum_token;
             element_token (js "Cl") None; yield_token;
             element_token (js "H") None].
Proof.
  assert (HH : is_symbol (js "H")).
  { left. exists 72%N. split; reflexivity. }
  assert (HCl : is_symbol (js "Cl")).
  { right. exists 67%N, 108%N. repeat split; reflexivity. }
  assert (Hp : Forall plain_token
                 [element_token (js "H") None; sum_token;
                  element_token (js "Cl") None; yield_token;
                  element_token (js "H") None]).
  { apply Forall_cons.
    { right. right. exists (js "H"). split; [exact HH | reflexivity]. }
    apply Forall_cons; [left; reflexivity|].
    apply Forall_cons.
    { right. right. exists (js "Cl"). split; [exact HCl | reflexivity]. }
    apply Forall_cons; [right; left; reflexivity|].
    apply Forall_cons; [|apply Forall_nil].
    right. right. exists (js "H"). split; [exact HH | reflexivity]. }
  split; [exact Hp | apply (C4_plain_round_trip Hp)].
Defined.

(** ** The entries of the matrices of Gaussian elimination *)

Ltac nat_cases :=
  repeat match goal with
         | |- context [?a =? ?b] => destruct (Nat.eqb_spec a b)
         | |- context [?a <? ?b] => destruct (Nat.ltb_spec a b)
         end;
  simpl; subst; try lia; try reflexivity.

Lemma existsb_seq b s len :
  existsb (Nat.eqb b) (seq s len) = (s <=? b) && (b <? s + len).
Proof.
  revert s. induction len as [|len IH]; intros s; simpl.
  - destruct (Nat.leb_spec s b); destruct (Nat.ltb_spec b (s + 0));
      simpl; try reflexivity; lia.
  - rewrite IH.
    destruct (Nat.eqb_spec b s); destruct (Nat.leb_spec s b);
      destruct (Nat.leb_spec (S s) b); destruct (Nat.ltb_spec b (S s + len));
      destruct (Nat.ltb_spec b (s + S len)); simpl; try reflexivity; lia.
Qed.

Lemma existsb_rev b l : existsb (Nat.eqb b) (rev l) = existsb (Nat.eqb b) l.
Proof.
  induction l as [|x l IH]; simpl; [reflexivity|].
  rewrite existsb_app, IH. simpl. rewrite orb_false_r. apply orb_comm.
Qed.

Lemma existsb_eqb_In b l : existsb (Nat.eqb b) l = true <-> In b l.
Proof.
  rewrite existsb_exists. split.
  - intros [x [Hx He]]. apply Nat.eqb_eq in He. subst. exact Hx.
  - intros Hb. exists b. split; [exact Hb | apply Nat.eqb_refl].
Qed.

Lemma existsb_eqb_notIn b l : ~ In b l -> existsb (Nat.eqb b) l = false.
Proof.
  intros Hn. destruct (existsb (Nat.eqb b) l) eqn:E; [|reflexivity].
  apply existsb_eqb_In in E. contradiction.
Qed.

Section EliminationEntries.
Context {R : Type} `{JSNumber R}.

Lemma fold_columns m n i k (c : R) : forall l (M : list (list R)),
  rect M m n -> NoDup l -> (forall j, In j l -> j < n) -> i < m -> k <> i ->
  forall a b,
    mget (fold_left
            (fun A j => mset A i j (sub (mget A i j) (mul (mget A k j) c)))
            l M) a b
    = if (a =? i) && existsb (Nat.eqb b) l
      then sub (mget M i b) (mul (mget M k b) c)
      else mget M a b.
Proof.
  induction l as [|j0 l IH]; intros M HM Hnd Hl Hi Hk a b; simpl.
  - rewrite andb_false_r. reflexivity.
  - inversion Hnd as [|? ? Hnot Hnd']; subst.
    assert (Hj0 : j0 < n) by (apply Hl; left; reflexivity).
    rewrite IH; [|apply rect_mset; assumption | exact Hnd'
                 | intros j Hj; apply Hl; right; exact Hj | exact Hi | exact Hk].
    rewrite !mget_mset with (m := m) (n := n) by assumption.
    destruct (Nat.eqb_spec k i) as [Hki | _]; [congruence|].
    destruct (Nat.eqb_spec a i) as [-> | Hai]; simpl; [|reflexivity].
    rewrite Nat.eqb_refl. simpl.
    destruct (existsb (Nat.eqb b) l) eqn:Hb.
    + apply existsb_eqb_In in Hb.
      destruct (Nat.eqb_spec b j0) as [-> | Hbj]; [contradiction|].
      reflexivity.
    + destruct (Nat.eqb_spec b j0); subst; simpl; reflexivity.
Qed.

Lemma eliminate_row_spec (M : list (list R)) m n k i a b :
  rect M m n -> i < m -> k < n -> k <> i ->
  mget (eliminate_row M k n i) a b
  = if a =? i then eliminated M k n i b else mget M a b.
Proof.
  intros HM Hi Hk Hki. unfold eliminate_row.
  assert (Hfold : rect
            (fold_left
               (fun A j =>
                  mset A i j
                    (sub (mget A i j)
                       (mul (mget A k j) (div (mget M i k) (mget M k k)))))
               (seq (k + 1) (n - (k + 1))) M) m n).
  { apply fold_rect; [|exact HM]. intros M' j _ HM'.
    apply rect_mset; assumption. }
  rewrite mget_mset with (m := m) (n := n) by assumption.
  rewrite fold_columns with (m := m) (n := n); try assumption.
  - rewrite existsb_seq. unfold eliminated.
    destruct (Nat.eqb_spec a i) as [-> | Hai]; simpl; [|reflexivity].
    destruct (Nat.eqb_spec b k) as [-> | Hbk]; simpl; [reflexivity|].
    destruct (Nat.leb_spec (k + 1) b); destruct (Nat.ltb_spec k b);
      try lia; simpl;
      destruct (Nat.ltb_spec b (k + 1 + (n - (k + 1))));
      destruct (Nat.ltb_spec b n); try lia; reflexivity.
  - apply seq_NoDup.
  - intros j Hj. apply in_seq in Hj. lia.
Qed.

Lemma eliminate_rows_spec (k m n : nat) : forall l (M : list (list R)),
  rect M m n -> NoDup l -> (forall i, In i l -> i < m /\ i <> k) -> k < n ->
  forall a b,
    mget (fold_left (fun A i => eliminate_row A k n i) l M) a b
    = if existsb (Nat.eqb a) l then eliminated M k n a b else mget M a b.
Proof.
  induction l as [|i0 l IH]; intros M HM Hnd Hl Hk a b; simpl; [reflexivity|].
  inversion Hnd as [|? ? Hnot Hnd']; subst.
  destruct (Hl i0 (or_introl eq_refl)) as [Hi0 Hi0k].
  assert (HM1 : rect (eliminate_row M k n i0) m n)
    by (apply rect_eliminate_row; assumption).
  rewrite IH; [|exact HM1 | exact Hnd'
               | intros i Hi; apply Hl; right; exact Hi | exact Hk].
  assert (Hrow : forall a' b', a' <> i0 ->
            mget (eliminate_row M k n i0) a' b' = mget M a' b').
  { intros a' b' Hne.
    rewrite eliminate_row_spec with (m := m) by auto.
    destruct (Nat.eqb_spec a' i0); [contradiction | reflexivity]. }
  destruct (existsb (Nat.eqb a) l) eqn:Ha.
  - apply existsb_eqb_In in Ha.
    assert (Hne : a <> i0) by (intros ->; contradiction).
    rewrite orb_true_r. unfold eliminated.
    rewrite !Hrow by (try exact Hne; apply not_eq_sym; exact Hi0k).
    reflexivity.
  - rewrite orb_false_r.
    rewrite eliminate_row_spec with (m := m) by auto.
    destruct (Nat.eqb_spec a i0); subst; reflexivity.
Qed.

Lemma eliminate_spec (M : list (list R)) m n k i_max a b :
  rect M m n -> k < m -> i_max < m -> k < n ->
  mget (eliminate M m n k i_max) a b
  = if (k <? a) && (a <? m) then eliminated (swap M k i_max) k n a b
    else mget (swap M k i_max) a b.
Proof.
  intros HM Hk Hi Hkn. unfold eliminate.
  rewrite eliminate_rows_spec with (m := m).
  - rewrite existsb_seq.
    destruct (Nat.leb_spec (k + 1) a); destruct (Nat.ltb_spec k a);
      try lia; simpl; [|reflexivity].
    destruct (Nat.ltb_spec a (k + 1 + (m - (k + 1))));
      destruct (Nat.ltb_spec a m); try lia; reflexivity.
  - apply rect_swap; assumption.
  - apply seq_NoDup.
  - intros i Hin. apply in_seq in Hin. lia.
  - exact Hkn.
Qed.

End EliminationEntries.

Section SubstitutionEntries.
Context {R : Type} `{JSNumber R}.

Lemma fold_rows_above m i (x : R) : forall l (M : list (list R)),
  rect M m (m + 1) -> NoDup l -> (forall j, In j l -> j < m) -> i < m ->
  forall a b,
    mget (fold_left
            (fun M j =>
               let M := mset M j m (sub (mget M j m) (mul x (mget M j i))) in
               mset M j i zero)
            l M) a b
    = if existsb (Nat.eqb a) l then
        if b =? i then zero
        else if b =? m then sub (mget M a m) (mul x (mget M a i))
             else mget M a b
      else mget M a b.
Proof.
  induction l as [|j0 l IH]; intros M HM Hnd Hl Hi a b; simpl; [reflexivity|].
  inversion Hnd as [|? ? Hnot Hnd']; subst.
  assert (Hj0 : j0 < m) by (apply Hl; left; reflexivity).
  assert (HM1 : rect (mset M j0 m (sub (mget M j0 m) (mul x (mget M j0 i))))
                  m (m + 1)) by (apply rect_mset; assumption).
  assert (HM2 : rect (mset (mset M j0 m
                              (sub (mget M j0 m) (mul x (mget M j0 i))))
                        j0 i zero) m (m + 1))
    by (apply rect_mset; assumption).
  assert (Hget : forall a' b',
            mget (mset (mset M j0 m
                          (sub (mget M j0 m) (mul x (mget M j0 i))))
                    j0 i zero) a' b'
            = if (a' =? j0) && (b' =? i) then zero
              else if (a' =? j0) && (b' =? m)
                   then sub (mget M j0 m) (mul x (mget M j0 i))
                   else mget M a' b').
  { intros a' b'.
    rewrite mget_mset with (m := m) (n := m + 1) by (try assumption; lia).
    rewrite mget_mset with (m := m) (n := m + 1) by (try assumption; lia).
    reflexivity. }
  rewrite IH; [|exact HM2 | exact Hnd'
               | intros j Hj; apply Hl; right; exact Hj | exact Hi].
  rewrite !Hget.
  destruct (existsb (Nat.eqb a) l) eqn:Ha.
  - apply existsb_eqb_In in Ha.
    assert (Hne : a <> j0) by (intros ->; contradiction).
    rewrite orb_true_r.
    destruct (Nat.eqb_spec a j0); [contradiction|]. simpl. reflexivity.
  - rewrite orb_false_r.
    destruct (Nat.eqb_spec a j0) as [-> | Hne]; simpl; [|reflexivity].
    destruct (Nat.eqb_spec b i); [reflexivity|].
    destruct (Nat.eqb_spec b m); reflexivity.
Qed.

Lemma rect_substitute_row (M : list (list R)) m i :
  rect M m (m + 1) -> i < m -> rect (substitute_row M m i) m (m + 1).
Proof.
  intros HM Hi. unfold substitute_row.
  apply rect_mset; [|exact Hi]. apply rect_mset; [|exact Hi].
  apply fold_rect; [|exact HM].
  intros M' j Hj HM'. apply in_rev, in_seq in Hj.
  apply rect_mset; [|lia]. apply rect_mset; [exact HM' | lia].
Qed.

Lemma substitute_row_spec (M : list (list R)) m i a b :
  rect M m (m + 1) -> i < m ->
  mget (substitute_row M m i) a b = substituted M m i a b.
Proof.
  intros HM Hi. unfold substitute_row, substituted.
  set (x := div (mget M i m) (mget M i i)).
  assert (Hfold : rect
            (fold_left
               (fun M j =>
                  let M := mset M j m (sub (mget M j m) (mul x (mget M j i))) in
                  mset M j i zero)
               (rev (seq 0 i)) M) m (m + 1)).
  { apply fold_rect; [|exact HM].
    intros M' j Hj HM'. apply in_rev, in_seq in Hj.
    apply rect_mset; [|lia]. apply rect_mset; [exact HM' | lia]. }
  rewrite mget_mset with (m := m) (n := m + 1);
    [|apply rect_mset; assumption | exact Hi | lia].
  rewrite mget_mset with (m := m) (n := m + 1) by (try assumption; lia).
  rewrite fold_rows_above with (m := m);
    [|exact HM | apply NoDup_rev, seq_NoDup
     | intros j Hj; apply in_rev, in_seq in Hj; lia | exact Hi].
  rewrite existsb_rev, existsb_seq. simpl.
  destruct (Nat.ltb_spec a i); destruct (Nat.eqb_spec a i); try lia; simpl;
    destruct (Nat.eqb_spec b i); destruct (Nat.eqb_spec b m); try lia;
    reflexivity.
Qed.

End SubstitutionEntries.

(** ** Sums of rationals *)

Section Sums.
Local Open Scope Qc_scope.

Lemma big_sum_ext f g n :
  (forall j, (j < n)%nat -> f j = g j) -> big_sum f n = big_sum g n.
Proof.
  induction n as [|n IH]; intros Hfg; simpl; [reflexivity|].
  rewrite IH, Hfg by (intros; try apply Hfg; lia). reflexivity.
Qed.

Lemma big_sum_lin (alpha beta : Qc) f g n :
  big_sum (fun j => alpha * f j + beta * g j) n
  = alpha * big_sum f n + beta * big_sum g n.
Proof.
  induction n as [|n IH]; simpl; [ring|]. rewrite IH. ring.
Qed.

Lemma big_sum_zero n : big_sum (fun _ => 0) n = 0.
Proof. induction n as [|n IH]; simpl; [reflexivity|]. rewrite IH. ring. Qed.

Lemma big_sum_plus f g n :
  big_sum (fun j => f j + g j) n = big_sum f n + big_sum g n.
Proof. induction n as [|n IH]; simpl; [ring|]. rewrite IH. ring. Qed.

Lemma big_sum_scale (alpha : Qc) f n :
  big_sum (fun j => alpha * f j) n = alpha * big_sum f n.
Proof. induction n as [|n IH]; simpl; [ring|]. rewrite IH. ring. Qed.

Lemma big_sum_exchange (f : nat -> nat -> Qc) n m :
  big_sum (fun i => big_sum (fun j => f i j) m) n
  = big_sum (fun j => big_sum (fun i => f i j) n) m.
Proof.
  induction n as [|n IH]; simpl.
  - rewrite big_sum_zero. reflexivity.
  - rewrite IH, <- big_sum_plus. reflexivity.
Qed.


Lemma big_sum_delta (x : nat -> Qc) (d : nat -> Qc) i n :
  (i < n)%nat -> d i = 1 -> (forall j, (j < n)%nat -> j <> i -> d j = 0) ->
  big_sum (fun j => d j * x j) n = x i.
Proof.
  intros Hi H1 H0. induction n as [|n IH]; [lia|]. simpl.
  destruct (Nat.eq_dec i n) as [-> | Hne].
  - rewrite H1.
    rewrite (@big_sum_ext _ (fun _ => 0)).
    + rewrite big_sum_zero. ring.
    + intros j Hj. rewrite H0 by lia. ring.
  - rewrite IH by (try lia; intros; apply H0; lia).
    rewrite (H0 n) by lia. ring.
Qed.

Lemma Qc_square_nonneg (x : Qc) : 0 <= x * x.
Proof.
  unfold Qcle. change (this (x * x)) with (Qred (this x * this x)).
  change (this 0) with 0%Q.
  apply Qle_trans with (this x * this x)%Q.
  - destruct x as [[p q] Hc]. unfold Qle, Qmult. simpl. nia.
  - apply Qle_lteq. right. symmetry. apply Qred_correct.
Qed.

Lemma Qc_sum_zero (a b : Qc) : 0 <= a -> 0 <= b -> a + b = 0 -> a = 0 /\ b = 0.
Proof.
  intros Ha Hb Hab.
  assert (Ea : a = - b) by (rewrite <- (Qcplus_0_r a), <- (Qcplus_opp_r b),
                            Qcplus_assoc, Hab; ring).
  assert (Hb0 : b = 0).
  { apply Qcle_antisym; [|exact Hb].
    apply Qcopp_le_compat in Ha. rewrite Ea, Qcopp_involutive in Ha.
    exact Ha. }
  split; [rewrite Ea, Hb0; reflexivity | exact Hb0].
Qed.

Lemma big_sum_squares_nonneg f n : 0 <= big_sum (fun k => f k * f k) n.
Proof.
  induction n as [|n IH]; simpl; [apply Qcle_refl|].
  replace 0 with (0 + 0) by ring.
  apply Qcplus_le_compat; [exact IH | apply Qc_square_nonneg].
Qed.

Lemma big_sum_squares_zero f n :
  big_sum (fun k => f k * f k) n = 0 -> forall k, (k < n)%nat -> f k = 0.
Proof.
  induction n as [|n IH]; intros Hs k Hk; [lia|]. simpl in Hs.
  apply Qc_sum_zero in Hs as [Hs Hn];
    [|apply big_sum_squares_nonneg | apply Qc_square_nonneg].
  destruct (Nat.eq_dec k n) as [-> | Hne].
  - apply Qcmult_integral in Hn. tauto.
  - apply IH; [exact Hs | lia].
Qed.

End Sums.

(** ** Gaussian elimination in exact arithmetic *)

Ltac exact_ops :=
  cbn [add sub mul div neg zero one exact_number] in *.

Section ExactElimination.
Local Open Scope Qc_scope.

Lemma Qc_is_zero_false (x : Qc) : is_zero x = false <-> x <> 0.
Proof.
  cbn [is_zero exact_number]. unfold Qc_is_zero.
  destruct (Qc_eq_dec x (Q2Qc 0)) as [E | E]; split; intros; try discriminate;
    try reflexivity; auto.
  contradiction.
Qed.

(** An equation that is a combination of two equations that hold. *)
Lemma row_comb (M M' : list (list Qc)) m x j i (alpha beta : Qc) :
  (forall b, (b <= m)%nat ->
             mget M j b = alpha * mget M' j b + beta * mget M' i b) ->
  row_eq M' m x j -> row_eq M' m x i -> row_eq M m x j.
Proof.
  unfold row_eq. intros Hc Hj Hi.
  rewrite (@big_sum_ext _
             (fun b => alpha * (mget M' j b * x b)
                       + beta * (mget M' i b * x b))).
  - rewrite big_sum_lin, Hj, Hi, (Hc m) by lia. reflexivity.
  - intros b Hb. rewrite (Hc b) by lia. ring.
Qed.

Lemma row_same (M M' : list (list Qc)) m x j j' :
  (forall b, (b <= m)%nat -> mget M j b = mget M' j' b) ->
  row_eq M' m x j' -> row_eq M m x j.
Proof.
  unfold row_eq. intros Hc Hj.
  rewrite (@big_sum_ext _ (fun b => mget M' j' b * x b)).
  - rewrite Hj, (Hc m) by lia. reflexivity.
  - intros b Hb. rewrite (Hc b) by lia. reflexivity.
Qed.

Lemma eliminate_exact (M : list (list Qc)) c k p :
  rect M c (c + 1) -> (k < c)%nat -> (k <= p < c)%nat ->
  mget M p k <> 0 -> lower_zero M c k ->
  lower_zero (eliminate M c (c + 1) k p) c (S k)
  /\ (forall a, (a < k)%nat ->
                mget (eliminate M c (c + 1) k p) a a = mget M a a)
  /\ mget (eliminate M c (c + 1) k p) k k = mget M p k
  /\ (forall x, sat (eliminate M c (c + 1) k p) c x -> sat M c x).
Proof.
  intros HM Hk Hp Hpiv HZ.
  assert (H1 : forall a b,
            mget (swap M k p) a b
            = mget M (if a =? k then p else if a =? p then k else a) b).
  { intros a b. apply mget_swap with (m := c) (n := (c + 1)%nat);
      [exact HM | lia | lia]. }
  assert (HM' : forall a b,
            mget (eliminate M c (c + 1) k p) a b
            = if (k <? a) && (a <? c)
              then eliminated (swap M k p) k (c + 1) a b
              else mget (swap M k p) a b).
  { intros a b. apply eliminate_spec; [exact HM | lia | lia | lia]. }
  assert (HZ1 : lower_zero (swap M k p) c k).
  { intros a b Hb Hba Ha. rewrite H1.
    destruct (Nat.eqb_spec a k); [apply HZ; lia|].
    destruct (Nat.eqb_spec a p); apply HZ; lia. }
  assert (Hkk : mget (swap M k p) k k = mget M p k).
  { rewrite H1, Nat.eqb_refl. reflexivity. }
  split; [|split; [|split]].
  - intros a b Hb Hba Ha. rewrite HM'.
    destruct (Nat.ltb_spec k a); destruct (Nat.ltb_spec a c); try lia; simpl.
    + unfold eliminated.
      destruct (Nat.eqb_spec b k); [reflexivity|].
      destruct (Nat.ltb_spec k b); [lia|]. simpl. apply HZ1; lia.
    + apply HZ1; lia.
  - intros a Ha. rewrite HM'.
    destruct (Nat.ltb_spec k a); [lia|]. simpl. rewrite H1.
    destruct (Nat.eqb_spec a k); [lia|].
    destruct (Nat.eqb_spec a p); [lia|]. reflexivity.
  - rewrite HM'. destruct (Nat.ltb_spec k k); [lia|]. simpl. exact Hkk.
  - intros x Hsat.
    assert (Hsat1 : sat (swap M k p) c x).
    { intros a Ha.
      destruct (Nat.lt_ge_cases k a) as [Hka | Hka].
      - apply row_comb
          with (M' := eliminate M c (c + 1) k p) (i := k) (alpha := 1)
               (beta := mget (swap M k p) a k / mget (swap M k p) k k);
          [|apply Hsat; lia | apply Hsat; lia].
        intros b Hb. rewrite !HM'.
        destruct (Nat.ltb_spec k a); destruct (Nat.ltb_spec a c); try lia.
        destruct (Nat.ltb_spec k k); [lia|]. simpl.
        unfold eliminated.
        destruct (Nat.eqb_spec b k) as [-> | Hbk].
        + exact_ops. field. rewrite Hkk. exact Hpiv.
        + destruct (Nat.ltb_spec k b); destruct (Nat.ltb_spec b (c + 1));
            try lia; simpl.
          * exact_ops. field. rewrite Hkk. exact Hpiv.
          * rewrite (HZ1 k b) by lia. field. rewrite Hkk. exact Hpiv.
      - apply row_same with (M' := eliminate M c (c + 1) k p) (j' := a);
          [|apply Hsat; lia].
        intros b Hb. rewrite HM'.
        destruct (Nat.ltb_spec k a); [lia|]. reflexivity. }
    intros a Ha.
    apply row_same
      with (M' := swap M k p)
           (j' := if a =? k then p else if a =? p then k else a).
    + intros b Hb. rewrite H1.
      destruct (Nat.eqb_spec a k) as [-> | Hak].
      * destruct (Nat.eqb_spec p k) as [-> | Hpk]; [reflexivity|].
        rewrite Nat.eqb_refl. reflexivity.
      * destruct (Nat.eqb_spec a p) as [-> | Hap].
        -- rewrite Nat.eqb_refl. reflexivity.
        -- destruct (Nat.eqb_spec a k); [contradiction|].
           destruct (Nat.eqb_spec a p); [contradiction|]. reflexivity.
    + apply Hsat1.
      destruct (Nat.eqb_spec a k); [lia|].
      destruct (Nat.eqb_spec a p); lia.
Qed.

End ExactElimination.

Section ExactSolve.
Local Open Scope Qc_scope.

(** The states of the elimination keep the solutions of the system, and
    are triangular with non-zero pivots as far as they went. *)
Lemma elimination_state_exact (M0 : list (list Qc)) c k M :
  rect M0 c (c + 1) ->
  elimination_state c (c + 1) M0 k M -> (k <= c)%nat ->
  rect M c (c + 1)
  /\ lower_zero M c k
  /\ (forall a, (a < k)%nat -> mget M a a <> 0)
  /\ (forall x, sat M c x -> sat M0 c x).
Proof.
  intros H0 Hs. induction Hs as [|k M Hs IH Hz]; intros Hk.
  - split; [exact H0|]. split; [intros a b Hb; lia|].
    split; [intros a Ha; lia | auto].
  - destruct IH as [HM [HZ [HD Hsat]]]; [lia|].
    assert (Hlen : length M = c) by apply HM.
    assert (Hp : (k <= findPivot M k < c)%nat)
      by (rewrite <- Hlen; apply findPivot_lt; lia).
    apply Qc_is_zero_false in Hz.
    destruct (@eliminate_exact M c k (findPivot M k) HM ltac:(lia) Hp Hz HZ)
      as [HZ' [Hdiag [Hkk Hsat']]].
    split; [apply rect_eliminate; [exact HM | lia | lia]|].
    split; [exact HZ'|]. split.
    + intros a Ha. destruct (Nat.eq_dec a k) as [-> | Hne].
      * rewrite Hkk. exact Hz.
      * rewrite Hdiag by lia. apply HD. lia.
    + intros x Hx. apply Hsat, Hsat', Hx.
Qed.

Lemma substitute_row_exact (Md M : list (list Qc)) c r :
  (r < c)%nat -> substituting Md M c (S r) ->
  substituting Md (substitute_row M c r) c r.
Proof.
  intros Hr [HM [HU [HD1 [HD2 [HC HS]]]]].
  assert (Hget : forall a b,
            mget (substitute_row M c r) a b = substituted M c r a b).
  { intros a b. apply substitute_row_spec; assumption. }
  assert (Hrr : mget M r r <> 0) by (apply HD1; lia).
  assert (Hrow : forall b, (b < c)%nat -> b <> r -> mget M r b = 0).
  { intros b Hb Hne. destruct (Nat.lt_ge_cases b r).
    - apply HU; lia.
    - apply HC; lia. }
  split; [apply rect_substitute_row; assumption|].
  split.
  { intros a b Hb Hba Ha. rewrite Hget. unfold substituted.
    destruct (Nat.ltb_spec a r).
    - destruct (Nat.eqb_spec b r); [lia|].
      destruct (Nat.eqb_spec b c); [lia|]. apply HU; lia.
    - destruct (Nat.eqb_spec a r).
      + destruct (Nat.eqb_spec b r); [lia|].
        destruct (Nat.eqb_spec b c); [lia|]. apply HU; lia.
      + apply HU; lia. }
  split.
  { intros a Ha. rewrite Hget. unfold substituted.
    destruct (Nat.ltb_spec a r); [|lia].
    destruct (Nat.eqb_spec a r); [lia|].
    destruct (Nat.eqb_spec a c); [lia|]. apply HD1. lia. }
  split.
  { intros a Ha. rewrite Hget. unfold substituted.
    destruct (Nat.ltb_spec a r); [lia|].
    destruct (Nat.eqb_spec a r) as [-> | Hne].
    - reflexivity.
    - apply HD2. lia. }
  split.
  { intros a b Hb Ha Hab. rewrite Hget. unfold substituted.
    destruct (Nat.ltb_spec a r).
    - destruct (Nat.eqb_spec b r); [reflexivity|].
      destruct (Nat.eqb_spec b c); [lia|]. apply HC; lia.
    - destruct (Nat.eqb_spec a r) as [-> | Hne].
      + destruct (Nat.eqb_spec b r); [lia|].
        destruct (Nat.eqb_spec b c); [lia|]. apply HC; lia.
      + destruct (Nat.eq_dec b r) as [-> | Hbr].
        * apply HU; lia.
        * apply HC; lia. }
  intros x Hx. apply HS. intros a Ha.
  destruct (Nat.lt_ge_cases a r) as [Har | Har].
  - apply row_comb with (M' := substitute_row M c r) (i := r) (alpha := 1)
                        (beta := mget M a r);
      [|apply Hx; lia | apply Hx; lia].
    intros b Hb. rewrite !Hget. unfold substituted.
    destruct (Nat.ltb_spec a r); [|lia].
    destruct (Nat.ltb_spec r r); [lia|]. rewrite Nat.eqb_refl.
    destruct (Nat.eqb_spec b r) as [-> | Hbr].
    + exact_ops. ring.
    + destruct (Nat.eqb_spec b c) as [-> | Hbc].
      * exact_ops. field. exact Hrr.
      * rewrite (Hrow b) by lia. ring.
  - destruct (Nat.eq_dec a r) as [-> | Hne].
    + apply row_comb with (M' := substitute_row M c r) (i := r)
                          (alpha := mget M r r) (beta := 0);
        [|apply Hx; lia | apply Hx; lia].
      intros b Hb. rewrite !Hget. unfold substituted.
      destruct (Nat.ltb_spec r r); [lia|]. rewrite Nat.eqb_refl.
      destruct (Nat.eqb_spec b r) as [-> | Hbr].
      * exact_ops. ring.
      * destruct (Nat.eqb_spec b c) as [-> | Hbc].
        -- exact_ops. field. exact Hrr.
        -- rewrite (Hrow b) by lia. ring.
    + apply row_same with (M' := substitute_row M c r) (j' := a);
        [|apply Hx; lia].
      intros b Hb. rewrite Hget. unfold substituted.
      destruct (Nat.ltb_spec a r); [lia|].
      destruct (Nat.eqb_spec a r); [lia|]. reflexivity.
Qed.

Lemma substitute_fold_exact (Md : list (list Qc)) c : forall i M,
  (i <= c)%nat -> substituting Md M c i ->
  substituting Md
    (fold_left (fun M i => substitute_row M c i) (rev (seq 0 i)) M) c 0.
Proof.
  induction i as [|i IH]; intros M Hi HI; [exact HI|].
  rewrite seq_S, rev_app_distr. simpl.
  apply IH; [lia|]. apply substitute_row_exact; [lia | exact HI].
Qed.

End ExactSolve.

Section ExactSolution.
Local Open Scope Qc_scope.

Lemma vec_extractX (M : list (list Qc)) c i :
  rect M c (c + 1) -> (i < c)%nat -> vec (extractX M) i = mget M i c.
Proof.
  intros HM Hi. unfold vec, extractX.
  assert (Hlen : length M = c) by apply HM.
  rewrite (rect_cols HM) by lia.
  rewrite Hlen, (nth_map_seq (fun i => mget M i (c + 1 - 1))) by exact Hi.
  f_equal. lia.
Qed.

(** In exact arithmetic the list that [solve] returns satisfies the
    normal equations it was computed from. *)
Lemma solve_normal (A B : list (list Qc)) r c xs :
  rect A r c -> (0 < r)%nat -> (0 < c)%nat -> length B = r ->
  solve A B = Ok xs ->
  length xs = c /\ sat (normal_system A B) c (vec xs).
Proof.
  intros HA Hr Hc HB Hs.
  destruct (solve_front B HA Hr Hc HB) as [_ [H0 Hsolve]].
  rewrite Hsolve in Hs. clear Hsolve.
  set (M0 := normal_system A B) in *.
  destruct (diagonalize M0) as [Md | e] eqn:Hd; [|discriminate].
  cbn [bind] in Hs. injection Hs as <-.
  assert (Hlen0 : length M0 = c) by apply H0.
  unfold diagonalize in Hd.
  rewrite (rect_cols H0) in Hd by lia.
  rewrite Hlen0, Nat.min_l in Hd by lia.
  destruct (diagonalize_from_states (m := c) (n := (c + 1)%nat) c
              (es_start c (c + 1)%nat M0)) as [_ [Hok _]].
  apply Hok in Hd. simpl in Hd.
  destruct (@elimination_state_exact M0 c c Md H0 Hd (le_n c))
    as [HMd [HZ [HD Hsat]]].
  assert (Hlend : length Md = c) by apply HMd.
  assert (HI : substituting Md (substitute Md) c 0).
  { unfold substitute. rewrite Hlend. apply substitute_fold_exact; [lia|].
    split; [exact HMd|]. split; [exact HZ|]. split; [exact HD|].
    split; [intros a Ha; lia|]. split; [intros a b Hb; lia | auto]. }
  destruct HI as [HMs [_ [_ [HD2 [HC HS]]]]].
  split.
  - rewrite length_extractX, length_substitute. exact Hlend.
  - apply Hsat, HS. intros i Hi. unfold row_eq.
    rewrite (@big_sum_delta (vec (extractX (substitute Md)))
               (fun j => mget (substitute Md) i j) i c).
    + apply vec_extractX; assumption.
    + exact Hi.
    + apply HD2. lia.
    + intros j Hj Hne. apply HC; lia.
Qed.

End ExactSolution.

(** ** The normal equations, entry by entry *)

Section NormalEntries.
Local Open Scope Qc_scope.

Lemma fold_big_sum (f : nat -> Qc) n :
  fold_left (fun s k => s + f k) (seq 0 n) 0 = big_sum f n.
Proof.
  induction n as [|n IH]; [reflexivity|].
  rewrite seq_S, fold_left_app, IH. reflexivity.
Qed.

Lemma mget_transposed (A : list (list Qc)) r c i k :
  rect A r c -> (0 < r)%nat -> (i < c)%nat -> (k < r)%nat ->
  mget (transposed A) i k = mget A k i.
Proof.
  intros HA Hr Hi Hk. unfold transposed.
  assert (Hlen : length A = r) by apply HA.
  rewrite (rect_cols HA) by lia. rewrite Hlen.
  apply (mget_table (fun j i => mget A i j)); assumption.
Qed.

Lemma rect_transposed (A : list (list Qc)) r c :
  rect A r c -> (0 < r)%nat -> rect (transposed A) c r.
Proof.
  intros HA Hr. unfold transposed.
  assert (Hlen : length A = r) by apply HA.
  rewrite (rect_cols HA) by lia. rewrite Hlen.
  apply (rect_table (fun j i => mget A i j)).
Qed.

Lemma mget_product (P Q : list (list Qc)) m n p i j :
  rect P m n -> rect Q n p -> (0 < m)%nat -> (0 < n)%nat ->
  (i < m)%nat -> (j < p)%nat ->
  mget (product P Q) i j = big_sum (fun k => mget P i k * mget Q k j) n.
Proof.
  intros HP HQ Hm Hn Hi Hj. unfold product.
  assert (HlenP : length P = m) by apply HP.
  rewrite (rect_cols HP), (rect_cols HQ), HlenP by lia.
  rewrite (mget_table
             (fun i j =>
                fold_left (fun sum k => add sum (mul (mget P i k) (mget Q k j)))
                  (seq 0 n) zero)) by assumption.
  exact_ops. apply (fold_big_sum (fun k => mget P i k * mget Q k j)).
Qed.

Lemma rect_product (P Q : list (list Qc)) m n p :
  rect P m n -> rect Q n p -> (0 < m)%nat -> (0 < n)%nat ->
  rect (product P Q) m p.
Proof.
  intros HP HQ Hm Hn. unfold product.
  assert (HlenP : length P = m) by apply HP.
  rewrite (rect_cols HQ), HlenP by lia.
  apply (rect_table
           (fun i j =>
              fold_left (fun sum k => add sum (mul (mget P i k) (mget Q k j)))
                (seq 0 (cols P)) zero)).
Qed.

Lemma mget_copy (M : list (list Qc)) m n i j :
  rect M m n -> (i < m)%nat -> (j < n)%nat -> mget (copy M) i j = mget M i j.
Proof.
  intros HM Hi Hj. unfold copy.
  assert (Hlen : length M = m) by apply HM.
  rewrite (rect_cols HM), Hlen by lia.
  apply (mget_table (fun i j => mget M i j)); assumption.
Qed.

Lemma rect_copy_of (M : list (list Qc)) m n :
  rect M m n -> (0 < m)%nat -> rect (copy M) m n.
Proof.
  intros HM Hm. unfold copy.
  assert (Hlen : length M = m) by apply HM.
  rewrite (rect_cols HM), Hlen by lia.
  apply (rect_table (fun i j => mget M i j)).
Qed.

Lemma mget_augmented (P b : list (list Qc)) n i j :
  rect P n n -> (i < n)%nat ->
  mget (augmented P b) i j
  = if (j <? n)%nat then mget P i j
    else if (j =? n)%nat then mget b i 0 else 0.
Proof.
  intros HP Hi. unfold augmented.
  assert (Hlen : length P = n) by apply HP.
  unfold mget at 1.
  rewrite Hlen, (nth_map_seq (fun i => nth i P [] ++ [mget b i 0]))
    by exact Hi.
  assert (Hrow : length (nth i P []) = n)
    by (apply HP, nth_In; lia).
  destruct (Nat.ltb_spec j n) as [Hj | Hj].
  - rewrite app_nth1 by lia. reflexivity.
  - rewrite app_nth2 by lia. rewrite Hrow.
    destruct (Nat.eqb_spec j n) as [-> | Hne].
    + rewrite Nat.sub_diag. reflexivity.
    + destruct (j - n)%nat as [|[|d]] eqn:E; [lia | reflexivity | reflexivity].
Qed.

(** The entries of the matrix handed to [diagonalize] are those of the
    normal equations [A^T A | A^T B]. *)
Lemma normal_system_entries (A B : list (list Qc)) r c i :
  rect A r c -> rect B r 1 -> (0 < r)%nat -> (0 < c)%nat -> (i < c)%nat ->
  (forall j, (j < c)%nat ->
     mget (normal_system A B) i j
     = big_sum (fun k => mget A k i * mget A k j) r)
  /\ mget (normal_system A B) i c
     = big_sum (fun k => mget A k i * mget B k 0) r.
Proof.
  intros HA HB Hr Hc Hi. unfold normal_system.
  pose proof (rect_transposed HA Hr) as HT.
  pose proof (rect_product HT HA Hc Hr) as HP.
  pose proof (rect_product HT HB Hc Hr) as HQ.
  pose proof (rect_copy_of HP Hc) as HCP.
  split.
  - intros j Hj.
    rewrite (mget_augmented _ j HCP Hi).
    destruct (Nat.ltb_spec j c); [|lia].
    rewrite (mget_copy HP Hi Hj), (mget_product HT HA Hc Hr Hi Hj).
    apply big_sum_ext. intros k Hk.
    rewrite (mget_transposed HA Hr Hi Hk). reflexivity.
  - rewrite (mget_augmented _ c HCP Hi).
    destruct (Nat.ltb_spec c c); [lia|]. rewrite Nat.eqb_refl.
    rewrite (mget_copy HQ Hi Nat.lt_0_1),
      (mget_product HT HB Hc Hr Hi Nat.lt_0_1).
    apply big_sum_ext. intros k Hk.
    rewrite (mget_transposed HA Hr Hi Hk). reflexivity.
Qed.

Lemma big_sum_diff (f x y : nat -> Qc) n :
  big_sum (fun j => f j * (x j - y j)) n
  = big_sum (fun j => f j * x j) n - big_sum (fun j => f j * y j) n.
Proof.
  rewrite (@big_sum_ext _ (fun j => 1 * (f j * x j) + (-(1)) * (f j * y j))).
  - rewrite big_sum_lin. ring.
  - intros j _. ring.
Qed.

Lemma big_sum_scale_l (a : Qc) (f x : nat -> Qc) n :
  big_sum (fun j => a * f j * x j) n = a * big_sum (fun j => f j * x j) n.
Proof.
  rewrite <- big_sum_scale. apply big_sum_ext. intros j _. ring.
Qed.


End NormalEntries.

(** ** The system of [makeAandB] and the balance of the equation *)

Section ExactBalance.
Local Open Scope Qc_scope.









End ExactBalance.

(** ** The pinned compound *)

Section Pinned.
Context {R : Type} `{JSNumber R}.






End Pinned.

(** ** Balance in exact arithmetic *)

Section ExactCompute.
Local Open Scope Qc_scope.


End ExactCompute.

(** ** Water in exact arithmetic *)

Section ExactWater.
Local Open Scope Qc_scope.






End ExactWater.

(** ** Conservation and pinning *)

(** The coefficients of [compute] are those that [solve] returns on the
    system of the two sides, each rounded to four decimals. *)
Lemma compute_solution (ast : list Match) (c : computed) :
  compute ast = Ok c ->
  exists index x,
    indexOfYield ast = Some index
    /\ solve (fst (makeAandB (left_side ast index) (right_side ast index)))
         (snd (makeAandB (left_side ast index) (right_side ast index)))
       = Ok x
    /\ coeffs c = map round4 x.
Proof.
  unfold compute. intros Hc.
  destruct (mustHaveOneYield ast) as [[]|e]; [|discriminate].
  cbn [bind] in Hc.
  destruct (indexOfYield ast) as [index|]; [|discriminate].
  cbv zeta in Hc.
  change (defined (firstn index (map (fun tok => simplifyCompound tok false) ast)))
    with (left_side ast index) in Hc.
  change (defined (skipn (index + 1)
                     (map (fun tok => simplifyCompound tok false) ast)))
    with (right_side ast index) in Hc.
  destruct (mustHaveTheSameElements (left_side ast index)
              (right_side ast index)) as [[]|e] eqn:E1; [|discriminate].
  cbn [bind] in Hc.
  destruct (mustHaveLessThanTwoCoefficient (left_side ast index)
              (right_side ast index)) as [[]|e] eqn:E2; [|discriminate].
  cbn [bind] in Hc.
  destruct (makeAandB (left_side ast index) (right_side ast index))
    as [A B] eqn:E3.
  destruct (solve A B) as [x|e] eqn:E4; [|discriminate].
  cbn [bind] in Hc. injection Hc as <-.
  exists index, x. split; [reflexivity|]. rewrite E3.
  split; [exact E4 | reflexivity].
Qed.



Section ExactResults.
Local Open Scope Qc_scope.





End ExactResults.

(** * Further properties of the solver *)

Section MatrixTables.
Context {R : Type} `{JSNumber R}.

(** Two matrices of the same shape with the same entries are equal. *)
Lemma table_ext (M M' : list (list R)) m n :
  rect M m n -> rect M' m n ->
  (forall i j, i < m -> j < n -> mget M i j = mget M' i j) -> M = M'.
Proof.
  intros [Hl Hr] [Hl' Hr'] He.
  apply nth_ext with (d := []) (d' := []); [congruence|].
  intros i Hi. rewrite Hl in Hi.
  apply nth_ext with (d := zero) (d' := zero).
  - rewrite Hr, Hr'; [reflexivity | apply nth_In; lia | apply nth_In; lia].
  - intros j Hj. rewrite Hr in Hj by (apply nth_In; lia).
    apply He; assumption.
Qed.

Lemma transposed_table (A : list (list R)) m n :
  rect A m n -> 0 < m ->
  rect (transposed A) n m
  /\ forall i j, i < m -> j < n -> mget (transposed A) j i = mget A i j.
Proof.
  intros HA Hm. unfold transposed.
  assert (Hlen : length A = m) by apply HA.
  rewrite (rect_cols HA) by lia. rewrite Hlen. split.
  - apply (rect_table (fun j i => mget A i j)).
  - intros i j Hi Hj. apply (mget_table (fun j i => mget A i j)); assumption.
Qed.

Lemma rect_nonempty (A : list (list R)) m n : rect A m n -> 0 < m -> A <> [].
Proof. intros [Hl _] Hm ->. simpl in Hl. lia. Qed.

(** X1: [transpose] of a matrix of [m] rows and [n] columns, none of them
    zero, is the matrix of [n] rows and [m] columns with the entries
    mirrored, and transposing it gives the matrix back. *)
Theorem X1_transpose_round_trip (A : list (list R)) m n :
  rect A m n -> 0 < m -> 0 < n ->
  exists T,
    transpose A = Ok T /\ rect T n m
    /\ (forall i j, i < m -> j < n -> mget T j i = mget A i j)
    /\ transpose T = Ok A.
Proof.
  intros HA Hm Hn.
  destruct (transposed_table HA Hm) as [HT He].
  exists (transposed A). split; [apply transpose_ok, (rect_nonempty HA Hm)|].
  split; [exact HT|]. split; [exact He|].
  rewrite (transpose_ok (rect_nonempty HT Hn)). f_equal.
  destruct (transposed_table HT Hn) as [HTT Hee].
  apply (table_ext HTT HA). intros i j Hi Hj.
  rewrite Hee by assumption. apply He; assumption.
Qed.

(** [copy] gives back a matrix equal to its argument. *)
Lemma copy_id (M : list (list R)) m n : rect M m n -> 0 < m -> copy M = M.
Proof.
  intros HM Hm.
  assert (Hlen : length M = m) by apply HM.
  assert (HC : rect (copy M) m n).
  { pose proof (rect_copy M) as HC. rewrite Hlen, (rect_cols HM) in HC by lia.
    exact HC. }
  apply (table_ext HC HM). intros i j Hi Hj. unfold copy.
  rewrite Hlen, (rect_cols HM) by lia.
  apply (mget_table (fun i j => mget M i j)); assumption.
Qed.

End MatrixTables.

Lemma X1_transpose_round_trip_witness :
  exists T,
    transpose two_by_three = Ok T /\ rect T 3 2
    /\ (forall i j, i < 2 -> j < 3 -> mget T j i = mget two_by_three i j)
    /\ transpose T = Ok two_by_three.
Proof.
  apply X1_transpose_round_trip; [|lia|lia].
  split; [reflexivity|].
  intros row [<- | [<- | []]]; reflexivity.
Defined.

(** ** Gaussian elimination *)

Section Gaussian.
Context {R : Type} `{JSNumber R}.





Lemma cols_copy (M : list (list R)) : M <> [] -> cols (copy M) = cols M.
Proof.
  intros Hne. destruct M as [|row M]; [congruence|].
  unfold copy, cols. cbn [length seq map nth].
  rewrite length_map, length_seq. reflexivity.
Qed.

Lemma length_copy (M : list (list R)) : length (copy M) = length M.
Proof. unfold copy. rewrite length_map, length_seq. reflexivity. Qed.

(** Past its own check, [gaussian_elimination_calc] is the elimination
    and the substitution on the augmented matrix: the check of [makeM]
    is the same one on the copies. *)
Lemma gaussian_steps (A B : list (list R)) :
  A <> [] -> length A = cols A -> length A = length B ->
  gaussian_elimination_calc A B
  = (do M <- diagonalize (augmented (copy A) (copy B));
     Ok (extractX (substitute M))).
Proof.
  intros Hne Hc Hb. unfold gaussian_elimination_calc.
  rewrite Hc at 1. rewrite Nat.eqb_refl. rewrite Hb at 1.
  rewrite Nat.eqb_refl. simpl.
  rewrite makeM_ok; [reflexivity | |].
  - rewrite cols_copy, length_copy by exact Hne. congruence.
  - rewrite !length_copy. congruence.
Qed.



End Gaussian.


Section Triangular.
Context {R : Type} `{JSNumber R}.

Lemma eliminate_triangular (M : list (list R)) m n k p :
  rect M m n -> k < m -> k < n -> k <= p < m -> lower_zeros M m k ->
  lower_zeros (eliminate M m n k p) m (S k)
  /\ (forall a b, a < k -> mget (eliminate M m n k p) a b = mget M a b)
  /\ (forall b, mget (eliminate M m n k p) k b = mget M p b).
Proof.
  intros HM Hk Hkn Hp HZ.
  assert (H1 : forall a b,
            mget (swap M k p) a b
            = mget M (if a =? k then p else if a =? p then k else a) b).
  { intros a b. apply mget_swap with (m := m) (n := n); [exact HM | lia | lia]. }
  assert (HM' : forall a b,
            mget (eliminate M m n k p) a b
            = if (k <? a) && (a <? m)
              then eliminated (swap M k p) k n a b
              else mget (swap M k p) a b).
  { intros a b. apply eliminate_spec; [exact HM | lia | lia | lia]. }
  assert (HZ1 : lower_zeros (swap M k p) m k).
  { intros a b Hb Hba Ha. rewrite H1.
    destruct (Nat.eqb_spec a k); [apply HZ; lia|].
    destruct (Nat.eqb_spec a p); apply HZ; lia. }
  split; [|split].
  - intros a b Hb Hba Ha. rewrite HM'.
    destruct (Nat.ltb_spec k a); destruct (Nat.ltb_spec a m); try lia; simpl.
    + unfold eliminated.
      destruct (Nat.eqb_spec b k); [reflexivity|].
      destruct (Nat.ltb_spec k b); [lia|]. simpl. apply HZ1; lia.
    + apply HZ1; lia.
  - intros a b Ha. rewrite HM'.
    destruct (Nat.ltb_spec k a); [lia|]. simpl. rewrite H1.
    destruct (Nat.eqb_spec a k); [lia|].
    destruct (Nat.eqb_spec a p); [lia|]. reflexivity.
  - intros b. rewrite HM'. destruct (Nat.ltb_spec k k); [lia|]. simpl.
    rewrite H1, Nat.eqb_refl. reflexivity.
Qed.

Lemma elimination_state_triangular (M0 : list (list R)) m n k M :
  rect M0 m n -> elimination_state m n M0 k M -> k <= m -> k <= n ->
  rect M m n
  /\ lower_zeros M m k
  /\ (forall a, a < k -> is_zero (mget M a a) = false).
Proof.
  intros H0 Hs. induction Hs as [|k M Hs IH Hz]; intros Hkm Hkn.
  - split; [exact H0|]. split; [intros a b Hb; lia | intros a Ha; lia].
  - destruct IH as [HM [HZ HD]]; [lia | lia|].
    assert (Hlen : length M = m) by apply HM.
    assert (Hp : k <= findPivot M k < m)
      by (rewrite <- Hlen; apply findPivot_lt; lia).
    destruct (@eliminate_triangular M m n k (findPivot M k) HM
                ltac:(lia) ltac:(lia) Hp HZ) as [HZ' [Hrows Hrow]].
    split; [apply rect_eliminate; [exact HM | lia | lia]|].
    split; [exact HZ'|].
    intros a Ha. destruct (Nat.eq_dec a k) as [-> | Hne].
    + rewrite Hrow. exact Hz.
    + rewrite Hrows by lia. apply HD. lia.
Qed.

(** X3: when [diagonalize] returns, on a matrix of [m] rows and [n]
    columns, the matrix is upper triangular: every entry below the
    diagonal in the columns it went through is the number 0, and no
    entry of the diagonal in the rows it went through is [== 0]. *)
Theorem X3_diagonalize_triangular (M0 M : list (list R)) m n :
  rect M0 m n -> 0 < m -> diagonalize M0 = Ok M ->
  rect M m n
  /\ lower_zeros M m (Nat.min m n)
  /\ (forall a, a < Nat.min m n -> is_zero (mget M a a) = false).
Proof.
  intros H0 Hm Hd. unfold diagonalize in Hd.
  assert (Hlen : length M0 = m) by apply H0.
  rewrite (rect_cols H0 Hm), Hlen in Hd.
  destruct (diagonalize_from_states (m := m) (n := n) (Nat.min m n)
              (es_start m n M0)) as [_ [Hok _]].
  apply Hok in Hd. simpl in Hd.
  apply (elimination_state_triangular H0 Hd); lia.
Qed.

End Triangular.

Lemma X3_diagonalize_triangular_witness :
  exists M,
    diagonalize two_by_three = Ok M
    /\ rect M 2 3
    /\ lower_zeros M 2 (Nat.min 2 3)
    /\ (forall a, a < Nat.min 2 3 -> is_zero (mget M a a) = false).
Proof.
  eexists. split; [vm_compute; reflexivity|].
  apply (@X3_diagonalize_triangular _ _ two_by_three); [|lia|].
  - split; [reflexivity|]. intros row [<- | [<- | []]]; reflexivity.
  - vm_compute. reflexivity.
Defined.

(** ** The solver in exact arithmetic *)

Section ExactForward.
Local Open Scope Qc_scope.

(** A step of the elimination keeps the solutions of the system. *)
Lemma eliminate_forward (M : list (list Qc)) c k p :
  rect M c (c + 1) -> (k < c)%nat -> (k <= p < c)%nat ->
  mget M p k <> 0 -> lower_zero M c k ->
  forall x, sat M c x -> sat (eliminate M c (c + 1) k p) c x.
Proof.
  intros HM Hk Hp Hpiv HZ x Hsat.
  assert (H1 : forall a b,
            mget (swap M k p) a b
            = mget M (if a =? k then p else if a =? p then k else a) b).
  { intros a b. apply mget_swap with (m := c) (n := (c + 1)%nat);
      [exact HM | lia | lia]. }
  assert (HM' : forall a b,
            mget (eliminate M c (c + 1) k p) a b
            = if (k <? a) && (a <? c)
              then eliminated (swap M k p) k (c + 1) a b
              else mget (swap M k p) a b).
  { intros a b. apply eliminate_spec; [exact HM | lia | lia | lia]. }
  assert (HZ1 : lower_zero (swap M k p) c k).
  { intros a b Hb Hba Ha. rewrite H1.
    destruct (Nat.eqb_spec a k); [apply HZ; lia|].
    destruct (Nat.eqb_spec a p); apply HZ; lia. }
  assert (Hkk : mget (swap M k p) k k = mget M p k).
  { rewrite H1, Nat.eqb_refl. reflexivity. }
  assert (Hsat1 : sat (swap M k p) c x).
  { intros a Ha.
    apply row_same
      with (M' := M) (j' := if a =? k then p else if a =? p then k else a).
    - intros b Hb. apply H1.
    - apply Hsat.
      destruct (Nat.eqb_spec a k); [lia|].
      destruct (Nat.eqb_spec a p); lia. }
  intros a Ha.
  destruct (Nat.lt_ge_cases k a) as [Hka | Hka].
  - apply row_comb
      with (M' := swap M k p) (i := k) (alpha := 1)
           (beta := - (mget (swap M k p) a k / mget (swap M k p) k k));
      [|apply Hsat1; lia | apply Hsat1; lia].
    intros b Hb. rewrite HM'.
    destruct (Nat.ltb_spec k a); destruct (Nat.ltb_spec a c); try lia.
    simpl. unfold eliminated.
    destruct (Nat.eqb_spec b k) as [-> | Hbk].
    + exact_ops. field. rewrite Hkk. exact Hpiv.
    + destruct (Nat.ltb_spec k b); destruct (Nat.ltb_spec b (c + 1));
        try lia; simpl.
      * exact_ops. field. rewrite Hkk. exact Hpiv.
      * rewrite (HZ1 k b) by lia. field. rewrite Hkk. exact Hpiv.
  - apply row_same with (M' := swap M k p) (j' := a); [|apply Hsat1; lia].
    intros b Hb. rewrite HM'.
    destruct (Nat.ltb_spec k a); [lia|]. reflexivity.
Qed.

Lemma elimination_state_forward (M0 : list (list Qc)) c k M :
  rect M0 c (c + 1) ->
  elimination_state c (c + 1) M0 k M -> (k <= c)%nat ->
  forall x, sat M0 c x -> sat M c x.
Proof.
  intros H0 Hs. induction Hs as [|k M Hs IH Hz]; intros Hk x Hx;
    [exact Hx|].
  destruct (@elimination_state_exact M0 c k M H0 Hs ltac:(lia))
    as [HM [HZ _]].
  assert (Hlen : length M = c) by apply HM.
  assert (Hp : (k <= findPivot M k < c)%nat)
    by (rewrite <- Hlen; apply findPivot_lt; lia).
  apply Qc_is_zero_false in Hz.
  apply eliminate_forward; [exact HM | lia | exact Hp | exact Hz | exact HZ|].
  apply IH; [lia | exact Hx].
Qed.

(** A step of the substitution keeps the solutions of the system. *)
Lemma substitute_row_forward (Md M : list (list Qc)) c r :
  (r < c)%nat -> substituting Md M c (S r) ->
  forall x, sat M c x -> sat (substitute_row M c r) c x.
Proof.
  intros Hr [HM [HU [HD1 [HD2 [HC HS]]]]] x Hx.
  assert (Hget : forall a b,
            mget (substitute_row M c r) a b = substituted M c r a b).
  { intros a b. apply substitute_row_spec; assumption. }
  assert (Hrr : mget M r r <> 0) by (apply HD1; lia).
  assert (Hrow : forall b, (b < c)%nat -> b <> r -> mget M r b = 0).
  { intros b Hb Hne. destruct (Nat.lt_ge_cases b r).
    - apply HU; lia.
    - apply HC; lia. }
  intros a Ha.
  destruct (Nat.lt_ge_cases a r) as [Har | Har].
  - apply row_comb with (M' := M) (i := r) (alpha := 1)
                        (beta := - (mget M a r / mget M r r));
      [|apply Hx; lia | apply Hx; lia].
    intros b Hb. rewrite Hget. unfold substituted.
    destruct (Nat.ltb_spec a r); [|lia].
    destruct (Nat.eqb_spec b r) as [-> | Hbr].
    + exact_ops. field. exact Hrr.
    + destruct (Nat.eqb_spec b c) as [-> | Hbc].
      * exact_ops. field. exact Hrr.
      * rewrite (Hrow b) by lia. field. exact Hrr.
  - destruct (Nat.eq_dec a r) as [-> | Hne].
    + apply row_comb with (M' := M) (i := r) (alpha := / mget M r r)
                          (beta := 0);
        [|apply Hx; lia | apply Hx; lia].
      intros b Hb. rewrite Hget. unfold substituted.
      destruct (Nat.ltb_spec r r); [lia|]. rewrite Nat.eqb_refl.
      destruct (Nat.eqb_spec b r) as [-> | Hbr].
      * exact_ops. field. exact Hrr.
      * destruct (Nat.eqb_spec b c) as [-> | Hbc].
        -- exact_ops. field. exact Hrr.
        -- rewrite (Hrow b) by lia. ring.
    + apply row_same with (M' := M) (j' := a); [|apply Hx; lia].
      intros b Hb. rewrite Hget. unfold substituted.
      destruct (Nat.ltb_spec a r); [lia|].
      destruct (Nat.eqb_spec a r); [lia|]. reflexivity.
Qed.

Lemma substitute_fold_forward (Md : list (list Qc)) c : forall i M,
  (i <= c)%nat -> substituting Md M c i ->
  forall x, sat M c x ->
    sat (fold_left (fun M i => substitute_row M c i) (rev (seq 0 i)) M) c x.
Proof.
  induction i as [|i IH]; intros M Hi HI x Hx; [exact Hx|].
  rewrite seq_S, rev_app_distr. simpl.
  apply IH; [lia | apply substitute_row_exact; [lia | exact HI]|].
  apply (substitute_row_forward (Md := Md)); [lia | exact HI | exact Hx].
Qed.

(** Elimination and substitution together: what they return solves the
    system, and every solution of the system is what they return. *)
Lemma diagonalize_substitute_exact (M0 Md : list (list Qc)) c :
  rect M0 c (c + 1) -> (0 < c)%nat -> diagonalize M0 = Ok Md ->
  length (extractX (substitute Md)) = c
  /\ sat M0 c (vec (extractX (substitute Md)))
  /\ (forall y, sat M0 c y ->
        forall i, (i < c)%nat -> y i = vec (extractX (substitute Md)) i).
Proof.
  intros H0 Hc Hd.
  assert (Hlen0 : length M0 = c) by apply H0.
  unfold diagonalize in Hd.
  rewrite (rect_cols H0) in Hd by lia.
  rewrite Hlen0, Nat.min_l in Hd by lia.
  destruct (diagonalize_from_states (m := c) (n := (c + 1)%nat) c
              (es_start c (c + 1)%nat M0)) as [_ [Hok _]].
  apply Hok in Hd. simpl in Hd.
  destruct (@elimination_state_exact M0 c c Md H0 Hd (le_n c))
    as [HMd [HZ [HD Hsat]]].
  assert (Hlend : length Md = c) by apply HMd.
  assert (HIc : substituting Md Md c c).
  { split; [exact HMd|]. split; [exact HZ|]. split; [exact HD|].
    split; [intros a Ha; lia|]. split; [intros a b Hb; lia | auto]. }
  assert (HI : substituting Md (substitute Md) c 0).
  { unfold substitute. rewrite Hlend.
    apply substitute_fold_exact; [lia | exact HIc]. }
  assert (Hfw : forall y, sat Md c y -> sat (substitute Md) c y).
  { intros y Hy. unfold substitute. rewrite Hlend.
    apply (substitute_fold_forward (Md := Md)); [lia | exact HIc | exact Hy]. }
  destruct HI as [HMs [_ [_ [HD2 [HC HS]]]]].
  assert (Hone : forall (y : nat -> Qc) i, (i < c)%nat ->
            big_sum (fun j => mget (substitute Md) i j * y j) c = y i).
  { intros y i Hi.
    apply (@big_sum_delta y (fun j => mget (substitute Md) i j) i c).
    - exact Hi.
    - apply HD2. lia.
    - intros j Hj Hne. apply HC; lia. }
  split; [|split].
  - rewrite length_extractX, length_substitute. exact Hlend.
  - apply Hsat, HS. intros i Hi. unfold row_eq.
    rewrite Hone by exact Hi. apply vec_extractX; assumption.
  - intros y Hy i Hi.
    pose proof (Hfw y (elimination_state_forward H0 Hd (le_n c) Hy) i Hi)
      as Hrow.
    unfold row_eq in Hrow. rewrite Hone in Hrow by exact Hi.
    rewrite Hrow. symmetry. apply vec_extractX; assumption.
Qed.

End ExactForward.

Section ExactGaussian.
Local Open Scope Qc_scope.

Lemma sat_augmented (A B : list (list Qc)) n x :
  rect A n n -> sat (augmented A B) n x <-> solves A B n n x.
Proof.
  intros HA. unfold sat, solves, row_eq.
  split; intros Hs i Hi; specialize (Hs i Hi).
  - rewrite (mget_augmented B n HA Hi) in Hs.
    destruct (Nat.ltb_spec n n); [lia|]. rewrite Nat.eqb_refl in Hs.
    rewrite <- Hs. apply big_sum_ext. intros j Hj.
    rewrite (mget_augmented B j HA Hi).
    destruct (Nat.ltb_spec j n); [reflexivity | lia].
  - rewrite (mget_augmented B n HA Hi).
    destruct (Nat.ltb_spec n n); [lia|]. rewrite Nat.eqb_refl.
    rewrite <- Hs. apply big_sum_ext. intros j Hj.
    rewrite (mget_augmented B j HA Hi).
    destruct (Nat.ltb_spec j n); [reflexivity | lia].
Qed.

Lemma gaussian_exact (A B : list (list Qc)) n :
  rect A n n -> rect B n 1 -> (0 < n)%nat ->
  rect (augmented A B) n (n + 1)
  /\ gaussian_elimination_calc A B
     = (do M <- diagonalize (augmented A B); Ok (extractX (substitute M))).
Proof.
  intros HA HB Hn. split; [apply rect_augmented; exact HA|].
  assert (HlA : length A = n) by apply HA.
  assert (HlB : length B = n) by apply HB.
  rewrite gaussian_steps.
  - rewrite (copy_id HA Hn), (copy_id HB Hn). reflexivity.
  - apply (rect_nonempty HA Hn).
  - rewrite (rect_cols HA Hn). exact HlA.
  - congruence.
Qed.

(** X4: in exact arithmetic (the rationals in place of binary64), when
    [gaussian_elimination_calc] returns on a square system [A x = B] of
    [n] equations, what it returns has [n] entries and solves the system,
    and every solution of the system is what it returns. *)
Theorem X4_gaussian_unique_solution (A B : list (list Qc)) n xs :
  rect A n n -> rect B n 1 -> (0 < n)%nat ->
  gaussian_elimination_calc A B = Ok xs ->
  length xs = n
  /\ solves A B n n (vec xs)
  /\ (forall y, solves A B n n y ->
        forall i, (i < n)%nat -> y i = vec xs i).
Proof.
  intros HA HB Hn Hg.
  destruct (gaussian_exact HA HB Hn) as [HM Hsteps].
  rewrite Hsteps in Hg.
  destruct (diagonalize (augmented A B)) as [Md | e] eqn:Hd; [|discriminate].
  cbn [bind] in Hg. injection Hg as <-.
  destruct (diagonalize_substitute_exact HM Hn Hd) as [Hlen [Hsat Huniq]].
  split; [exact Hlen|]. split.
  - apply (sat_augmented B _ HA). exact Hsat.
  - intros y Hy. apply Huniq. apply (sat_augmented B _ HA). exact Hy.
Qed.

Lemma X4_gaussian_unique_solution_witness :
  exists xs,
    gaussian_elimination_calc exact_square_two exact_column_two = Ok xs
    /\ length xs = 2%nat
    /\ solves exact_square_two exact_column_two 2 2 (vec xs)
    /\ (forall y, solves exact_square_two exact_column_two 2 2 y ->
          forall i, (i < 2)%nat -> y i = vec xs i).
Proof.
  eexists. split; [vm_compute; reflexivity|].
  apply X4_gaussian_unique_solution; [| |lia|vm_compute; reflexivity].
  - split; [reflexivity|]. intros row [<- | [<- | []]]; reflexivity.
  - split; [reflexivity|]. intros row [<- | [<- | []]]; reflexivity.
Defined.

End ExactGaussian.

Section LeastSquares.
Local Open Scope Qc_scope.

(** A solution of the normal equations leaves residuals orthogonal to
    the columns of [A]. *)
Lemma normal_orthogonal (A B : list (list Qc)) r c x :
  rect A r c -> rect B r 1 -> (0 < r)%nat -> (0 < c)%nat ->
  sat (normal_system A B) c x ->
  forall j, (j < c)%nat ->
    big_sum (fun k => mget A k j * residual A B c x k) r = 0.
Proof.
  intros HA HB Hr Hc Hx j Hj.
  destruct (normal_system_entries HA HB Hr Hc Hj) as [Hij Hic].
  specialize (Hx j Hj). unfold row_eq in Hx. rewrite Hic in Hx.
  rewrite (@big_sum_ext _
             (fun j' => big_sum (fun k => mget A k j * mget A k j' * x j') r))
    in Hx.
  2:{ intros j' Hj'. rewrite (Hij j' Hj').
      rewrite Qcmult_comm, <- big_sum_scale.
      apply big_sum_ext. intros k _. ring. }
  rewrite big_sum_exchange in Hx.
  rewrite (@big_sum_ext _
             (fun k => 1 * (big_sum
                              (fun j' => mget A k j * mget A k j' * x j') c)
                       + (-(1)) * (mget A k j * mget B k 0))).
  - rewrite big_sum_lin, Hx. ring.
  - intros k Hk. unfold residual. rewrite big_sum_scale_l. ring.
Qed.

Lemma Qcle_add_nonneg (a b : Qc) : 0 <= b -> a <= a + b.
Proof.
  intros Hb. rewrite <- (Qcplus_0_r a) at 1.
  apply Qcplus_le_compat; [apply Qcle_refl | exact Hb].
Qed.

(** The sum of squares at [y] is the one at a solution [x] of the normal
    equations plus the squares of [A (y - x)]. *)
Lemma sum_squares_split (A B : list (list Qc)) r c x y :
  rect A r c -> rect B r 1 -> (0 < r)%nat -> (0 < c)%nat ->
  sat (normal_system A B) c x ->
  sum_squares A B r c y
  = sum_squares A B r c x
    + big_sum (fun k =>
                 big_sum (fun j => mget A k j * (y j - x j)) c
                 * big_sum (fun j => mget A k j * (y j - x j)) c) r.
Proof.
  intros HA HB Hr Hc Hx.
  set (d := fun k => big_sum (fun j => mget A k j * (y j - x j)) c).
  assert (Hcross : big_sum (fun k => residual A B c x k * d k) r = 0).
  { rewrite (@big_sum_ext _
               (fun k => big_sum
                           (fun j => (y j - x j)
                                     * (mget A k j * residual A B c x k)) c)).
    - rewrite big_sum_exchange.
      rewrite (@big_sum_ext _ (fun _ => 0)); [apply big_sum_zero|].
      intros j Hj. rewrite big_sum_scale.
      rewrite (normal_orthogonal HA HB Hr Hc Hx Hj). ring.
    - intros k Hk. unfold d. rewrite <- big_sum_scale.
      apply big_sum_ext. intros j _. ring. }
  unfold sum_squares.
  rewrite (@big_sum_ext _
             (fun k => 1 * (residual A B c x k * residual A B c x k
                            + d k * d k)
                       + (1 + 1) * (residual A B c x k * d k))).
  - rewrite big_sum_lin, Hcross, big_sum_plus. subst d. cbv beta. ring.
  - intros k Hk. unfold residual, d. rewrite big_sum_diff. ring.
Qed.

(** X5: in exact arithmetic, what [solve] returns on a system [A x = B]
    of [r] equations and [c] unknowns has [c] entries and is a
    least-squares solution: no coefficients give a smaller sum of squared
    residuals. *)
Theorem X5_solve_least_squares (A B : list (list Qc)) r c xs :
  rect A r c -> rect B r 1 -> (0 < r)%nat -> (0 < c)%nat ->
  solve A B = Ok xs ->
  length xs = c
  /\ forall y, sum_squares A B r c (vec xs) <= sum_squares A B r c y.
Proof.
  intros HA HB Hr Hc Hs.
  destruct (solve_normal _ HA Hr Hc (proj1 HB) Hs) as [Hlen Hsat].
  split; [exact Hlen|]. intros y.
  rewrite (sum_squares_split y HA HB Hr Hc Hsat).
  apply Qcle_add_nonneg.
  apply (big_sum_squares_nonneg
           (fun k => big_sum (fun j => mget A k j * (y j - vec xs j)) c)).
Qed.

Lemma X5_solve_least_squares_witness :
  exists xs,
    solve exact_tall exact_tall_rhs = Ok xs
    /\ length xs = 2%nat
    /\ forall y, sum_squares exact_tall exact_tall_rhs 3 2 (vec xs)
                 <= sum_squares exact_tall exact_tall_rhs 3 2 y.
Proof.
  eexists. split; [vm_compute; reflexivity|].
  apply X5_solve_least_squares; [| |lia|lia|vm_compute; reflexivity].
  - split; [reflexivity|]. intros row [<- | [<- | [<- | []]]]; reflexivity.
  - split; [reflexivity|]. intros row [<- | [<- | [<- | []]]]; reflexivity.
Defined.

End LeastSquares.

Section ExactSingular.
Local Open Scope Qc_scope.

Lemma Qc_gtb_lt (x y : Qc) : gtb x y = true <-> y < x.
Proof.
  cbn [gtb exact_number]. unfold Qc_gtb.
  change (y < x) with (x > y). rewrite Qcgt_alt.
  destruct (x ?= y); split; congruence.
Qed.

Lemma Qc_gtb_irrefl (x : Qc) : gtb x x = false.
Proof.
  destruct (gtb x x) eqn:E; [|reflexivity].
  apply Qc_gtb_lt in E. exfalso. apply (Qclt_not_eq _ _ E). reflexivity.
Qed.

Lemma Qc_gtb_trans (x y z : Qc) :
  gtb x y = true -> gtb y z = true -> gtb x z = true.
Proof.
  rewrite !Qc_gtb_lt. intros H1 H2. exact (Qclt_trans _ _ _ H2 H1).
Qed.

(** A zero pivot: the whole column is zero from the diagonal down. *)
Lemma zero_pivot_column (M : list (list Qc)) k i :
  zero_pivot M k -> (k <= i < length M)%nat -> mget M i k = 0.
Proof.
  intros Hz Hi. unfold zero_pivot in Hz.
  cbn [is_zero exact_number] in Hz. unfold Qc_is_zero in Hz.
  destruct (Qc_eq_dec (mget M (findPivot M k) k) (Q2Qc 0)) as [E|];
    [|discriminate].
  pose proof (@findPivot_max _ _ Qc_gtb_irrefl Qc_gtb_trans M k i Hi) as Hmax.
  rewrite E in Hmax. cbn [abs exact_number] in Hmax.
  apply Qcabs_null. apply Qcle_antisym; [|apply Qcabs_nonneg].
  apply Qcnot_lt_le. intros Hlt.
  apply Qc_gtb_lt in Hlt.
  rewrite (Qcabs_pos (Q2Qc 0)) in Hmax by apply Qcle_refl. congruence.
Qed.

Lemma kernel_row_comb (M M' : list (list Qc)) m z j i (alpha beta : Qc) :
  (forall b, (b < m)%nat ->
             mget M j b = alpha * mget M' j b + beta * mget M' i b) ->
  big_sum (fun b => mget M' j b * z b) m = 0 ->
  big_sum (fun b => mget M' i b * z b) m = 0 ->
  big_sum (fun b => mget M j b * z b) m = 0.
Proof.
  intros Hc Hj Hi.
  rewrite (@big_sum_ext _
             (fun b => alpha * (mget M' j b * z b)
                       + beta * (mget M' i b * z b))).
  - rewrite big_sum_lin, Hj, Hi. ring.
  - intros b Hb. rewrite (Hc b) by lia. ring.
Qed.

Lemma kernel_row_same (M M' : list (list Qc)) m z j j' :
  (forall b, (b < m)%nat -> mget M j b = mget M' j' b) ->
  big_sum (fun b => mget M' j' b * z b) m = 0 ->
  big_sum (fun b => mget M j b * z b) m = 0.
Proof.
  intros Hc Hj. rewrite <- Hj. apply big_sum_ext.
  intros b Hb. rewrite (Hc b) by lia. reflexivity.
Qed.

(** The kernel of the matrix after a step of the elimination is in the
    kernel of the matrix before it. *)
Lemma eliminate_kernel_back (M : list (list Qc)) c k p :
  rect M c (c + 1) -> (k < c)%nat -> (k <= p < c)%nat ->
  mget M p k <> 0 -> lower_zero M c k ->
  forall z, kernel (eliminate M c (c + 1) k p) c c z -> kernel M c c z.
Proof.
  intros HM Hk Hp Hpiv HZ z Hker.
  assert (H1 : forall a b,
            mget (swap M k p) a b
            = mget M (if a =? k then p else if a =? p then k else a) b).
  { intros a b. apply mget_swap with (m := c) (n := (c + 1)%nat);
      [exact HM | lia | lia]. }
  assert (HM' : forall a b,
            mget (eliminate M c (c + 1) k p) a b
            = if (k <? a) && (a <? c)
              then eliminated (swap M k p) k (c + 1) a b
              else mget (swap M k p) a b).
  { intros a b. apply eliminate_spec; [exact HM | lia | lia | lia]. }
  assert (HZ1 : lower_zero (swap M k p) c k).
  { intros a b Hb Hba Ha. rewrite H1.
    destruct (Nat.eqb_spec a k); [apply HZ; lia|].
    destruct (Nat.eqb_spec a p); apply HZ; lia. }
  assert (Hkk : mget (swap M k p) k k = mget M p k).
  { rewrite H1, Nat.eqb_refl. reflexivity. }
  assert (Hker1 : kernel (swap M k p) c c z).
  { intros a Ha.
    destruct (Nat.lt_ge_cases k a) as [Hka | Hka].
    - apply kernel_row_comb
        with (M' := eliminate M c (c + 1) k p) (i := k) (alpha := 1)
             (beta := mget (swap M k p) a k / mget (swap M k p) k k);
        [|apply Hker; lia | apply Hker; lia].
      intros b Hb. rewrite !HM'.
      destruct (Nat.ltb_spec k a); destruct (Nat.ltb_spec a c); try lia.
      destruct (Nat.ltb_spec k k); [lia|]. simpl.
      unfold eliminated.
      destruct (Nat.eqb_spec b k) as [-> | Hbk].
      + exact_ops. field. rewrite Hkk. exact Hpiv.
      + destruct (Nat.ltb_spec k b); destruct (Nat.ltb_spec b (c + 1));
          try lia; simpl.
        * exact_ops. field. rewrite Hkk. exact Hpiv.
        * rewrite (HZ1 k b) by lia. field. rewrite Hkk. exact Hpiv.
    - apply kernel_row_same with (M' := eliminate M c (c + 1) k p) (j' := a);
        [|apply Hker; lia].
      intros b Hb. rewrite HM'.
      destruct (Nat.ltb_spec k a); [lia|]. reflexivity. }
  intros a Ha.
  apply kernel_row_same
    with (M' := swap M k p)
         (j' := if a =? k then p else if a =? p then k else a).
  - intros b Hb. rewrite H1.
    destruct (Nat.eqb_spec a k) as [-> | Hak].
    + destruct (Nat.eqb_spec p k) as [-> | Hpk]; [reflexivity|].
      rewrite Nat.eqb_refl. reflexivity.
    + destruct (Nat.eqb_spec a p) as [-> | Hap].
      * rewrite Nat.eqb_refl. reflexivity.
      * destruct (Nat.eqb_spec a k); [contradiction|].
        destruct (Nat.eqb_spec a p); [contradiction|]. reflexivity.
  - apply Hker1.
    destruct (Nat.eqb_spec a k); [lia|].
    destruct (Nat.eqb_spec a p); lia.
Qed.

Lemma elimination_state_kernel_back (M0 : list (list Qc)) c k M :
  rect M0 c (c + 1) ->
  elimination_state c (c + 1) M0 k M -> (k <= c)%nat ->
  forall z, kernel M c c z -> kernel M0 c c z.
Proof.
  intros H0 Hs. induction Hs as [|k M Hs IH Hz]; intros Hk z Hker;
    [exact Hker|].
  destruct (@elimination_state_exact M0 c k M H0 Hs ltac:(lia))
    as [HM [HZ _]].
  assert (Hlen : length M = c) by apply HM.
  assert (Hp : (k <= findPivot M k < c)%nat)
    by (rewrite <- Hlen; apply findPivot_lt; lia).
  apply Qc_is_zero_false in Hz.
  assert (Hkc : (k < c)%nat) by lia.
  apply IH; [lia|].
  exact (eliminate_kernel_back HM Hkc Hp Hz HZ Hker).
Qed.

End ExactSingular.

Section ExactDependent.
Local Open Scope Qc_scope.

Lemma big_sum_update (f z : nat -> Qc) a v c :
  (a < c)%nat ->
  big_sum (fun j => f j * (if j =? a then v else z j)) c
  = big_sum (fun j => f j * z j) c + f a * (v - z a).
Proof.
  intros Ha. induction c as [|c IH]; [lia|]. simpl.
  destruct (Nat.eq_dec a c) as [-> | Hne].
  - rewrite Nat.eqb_refl.
    rewrite (@big_sum_ext
               (fun j => f j * (if j =? c then v else z j))
               (fun j => f j * z j)).
    + ring.
    + intros j Hj. destruct (Nat.eqb_spec j c); [lia | reflexivity].
  - rewrite IH by lia.
    destruct (Nat.eqb_spec c a); [congruence|]. ring.
Qed.

Lemma big_sum_pick (f : nat -> Qc) k c :
  (k < c)%nat ->
  big_sum (fun j => f j * (if j =? k then 1 else 0)) c = f k.
Proof.
  intros Hk.
  rewrite (@big_sum_ext _ (fun j => (if j =? k then 1 else 0) * f j))
    by (intros j _; ring).
  apply (@big_sum_delta f (fun j => if j =? k then 1 else 0) k c).
  - exact Hk.
  - rewrite Nat.eqb_refl. reflexivity.
  - intros j Hj Hne. destruct (Nat.eqb_spec j k); [contradiction|].
    reflexivity.
Qed.

(** A triangular matrix whose column [k] is zero from the diagonal down
    has a vector of its kernel whose entry [k] is 1: the entries above
    [k] by substitution from row [k - 1] up. *)
Lemma kernel_vector (M : list (list Qc)) c k :
  (k < c)%nat -> lower_zero M c k ->
  (forall a, (a < k)%nat -> mget M a a <> 0) ->
  (forall i, (k <= i < c)%nat -> mget M i k = 0) ->
  exists z, z k = 1 /\ kernel M c c z.
Proof.
  intros Hk HZ HD Hcol.
  assert (Hn : forall n, (n <= k)%nat ->
            exists z, z k = 1
                      /\ (forall j, (j < k - n)%nat -> z j = 0)
                      /\ (forall i, (k - n <= i < c)%nat ->
                            big_sum (fun j => mget M i j * z j) c = 0)).
  { induction n as [|n IH]; intros Hle.
    - exists (fun j => if j =? k then 1 else 0).
      split; [rewrite Nat.eqb_refl; reflexivity|]. split.
      + intros j Hj. destruct (Nat.eqb_spec j k); [lia | reflexivity].
      + intros i Hi. rewrite big_sum_pick by exact Hk.
        apply Hcol. lia.
    - destruct IH as [z [Hzk [Hz0 Hrows]]]; [lia|].
      set (a := (k - S n)%nat).
      set (v := - big_sum (fun j => mget M a j * z j) c / mget M a a).
      assert (Ha : (a < k)%nat) by (unfold a; lia).
      assert (Hza : z a = 0) by (apply Hz0; unfold a; lia).
      exists (fun j => if j =? a then v else z j).
      split; [|split].
      + destruct (Nat.eqb_spec k a); [lia | exact Hzk].
      + intros j Hj. destruct (Nat.eqb_spec j a); [lia|].
        apply Hz0. lia.
      + intros i Hi. rewrite big_sum_update by lia. rewrite Hza.
        destruct (Nat.eq_dec i a) as [-> | Hne].
        * unfold v. field. apply HD. exact Ha.
        * rewrite Hrows by (unfold a in *; lia).
          rewrite (HZ i a) by (unfold a in *; lia). ring. }
  destruct (Hn k (le_n k)) as [z [Hzk [_ Hrows]]].
  exists z. split; [exact Hzk|].
  intros i Hi. apply Hrows. lia.
Qed.

(** The kernel of the matrix of the normal equations is the kernel of
    [A]. *)
Lemma normal_kernel (A B : list (list Qc)) r c z :
  rect A r c -> rect B r 1 -> (0 < r)%nat -> (0 < c)%nat ->
  kernel (normal_system A B) c c z <-> kernel A r c z.
Proof.
  intros HA HB Hr Hc.
  set (e := fun k => big_sum (fun j => mget A k j * z j) c).
  assert (Hrow : forall i, (i < c)%nat ->
            big_sum (fun j => mget (normal_system A B) i j * z j) c
            = big_sum (fun k => mget A k i * e k) r).
  { intros i Hi.
    destruct (normal_system_entries HA HB Hr Hc Hi) as [Hij _].
    rewrite (@big_sum_ext _
               (fun j => big_sum (fun k => mget A k i * (mget A k j * z j)) r)).
    - rewrite big_sum_exchange. apply big_sum_ext. intros k _.
      unfold e. rewrite big_sum_scale. reflexivity.
    - intros j Hj. rewrite (Hij j Hj).
      rewrite Qcmult_comm, <- big_sum_scale.
      apply big_sum_ext. intros k _. ring. }
  split; intros Hker.
  - assert (Hsq : big_sum (fun k => e k * e k) r = 0).
    { rewrite (@big_sum_ext _
                 (fun k => big_sum (fun i => z i * (mget A k i * e k)) c)).
      - rewrite big_sum_exchange.
        rewrite (@big_sum_ext _ (fun _ => 0)); [apply big_sum_zero|].
        intros i Hi. rewrite big_sum_scale, <- (Hrow i Hi), (Hker i Hi). ring.
      - intros k Hk. unfold e at 1. rewrite Qcmult_comm, <- big_sum_scale.
        apply big_sum_ext. intros i _. ring. }
    intros k Hk. exact (big_sum_squares_zero e Hsq Hk).
  - intros i Hi. rewrite (Hrow i Hi).
    rewrite (@big_sum_ext _ (fun _ => 0)); [apply big_sum_zero|].
    intros k Hk. unfold e. rewrite (Hker k Hk). ring.
Qed.

(** On a well-formed system, [solve] returns or fails with the singular
    matrix. *)
Lemma solve_outcomes (A B : list (list Qc)) r c :
  rect A r c -> (0 < r)%nat -> (0 < c)%nat -> length B = r ->
  solve A B = Err Singular \/ exists xs, solve A B = Ok xs.
Proof.
  intros HA Hr Hc HB.
  destruct (solve A B) as [xs | e] eqn:Hs; [right; exists xs; reflexivity|].
  left. destruct (solve_front B HA Hr Hc HB) as [_ [_ Hsolve]].
  rewrite Hsolve in Hs. unfold diagonalize in Hs.
  destruct (diagonalize_from _ _ _ _) as [M | e'] eqn:Hd; [discriminate|].
  apply diagonalize_from_error in Hd. simpl in Hs. congruence.
Qed.

(** X6: in exact arithmetic, on a system [A x = B] of [r] equations and
    [c] unknowns, [solve] fails with the singular matrix exactly when the
    columns of [A] are linearly dependent. *)
Theorem X6_solve_singular_iff_dependent (A B : list (list Qc)) r c :
  rect A r c -> rect B r 1 -> (0 < r)%nat -> (0 < c)%nat ->
  solve A B = Err Singular <-> dependent A r c.
Proof.
  intros HA HB Hr Hc.
  destruct (solve_front B HA Hr Hc (proj1 HB)) as [_ [H0 Hsolve]].
  assert (Hlen0 : length (normal_system A B) = c) by apply H0.
  split.
  - intros Hs. rewrite Hsolve in Hs.
    destruct (diagonalize (normal_system A B)) as [Md | e] eqn:Hd;
      [discriminate|].
    unfold diagonalize in Hd.
    rewrite (rect_cols H0) in Hd by lia.
    rewrite Hlen0, Nat.min_l in Hd by lia.
    assert (He : e = Singular) by (apply (diagonalize_from_error _ _ _ _ Hd)).
    subst e.
    destruct (diagonalize_from_states (m := c) (n := (c + 1)%nat) c
                (es_start c (c + 1)%nat (normal_system A B)))
      as [[Hsing _] _].
    destruct (Hsing Hd) as [k [M [Hk [Hst Hzp]]]].
    destruct (@elimination_state_exact _ c k M H0 Hst ltac:(lia))
      as [HM [HZ [HD _]]].
    assert (HlenM : length M = c) by apply HM.
    destruct (@kernel_vector M c k ltac:(lia) HZ HD) as [z [Hzk Hker]].
    { intros i Hi. apply zero_pivot_column; [exact Hzp | lia]. }
    exists z. split.
    + apply (normal_kernel z HA HB Hr Hc).
      apply (elimination_state_kernel_back H0 Hst); [lia | exact Hker].
    + exists k. split; [lia|]. rewrite Hzk. discriminate.
  - intros [z [Hker [j [Hj Hzj]]]].
    destruct (solve_outcomes B HA Hr Hc (proj1 HB)) as [Hs | [xs Hs]];
      [exact Hs|].
    exfalso. rewrite Hsolve in Hs.
    destruct (diagonalize (normal_system A B)) as [Md | e] eqn:Hd;
      [|discriminate].
    cbn [bind] in Hs. injection Hs as <-.
    destruct (diagonalize_substitute_exact H0 Hc Hd) as [_ [Hsat Huniq]].
    apply (normal_kernel z HA HB Hr Hc) in Hker.
    set (xs := extractX (substitute Md)) in *.
    assert (Hy : sat (normal_system A B) c (fun j => vec xs j + z j)).
    { intros i Hi. unfold row_eq.
      rewrite (@big_sum_ext _
                 (fun j => mget (normal_system A B) i j * vec xs j
                           + mget (normal_system A B) i j * z j))
        by (intros b _; ring).
      rewrite big_sum_plus, (Hsat i Hi), (Hker i Hi). ring. }
    apply Hzj.
    pose proof (Huniq _ Hy j Hj) as E. cbv beta in E.
    transitivity (vec xs j + z j - vec xs j); [ring|].
    rewrite E. ring.
Qed.

Lemma X6_solve_singular_iff_dependent_witness :
  solve exact_dependent exact_column_two = Err Singular
  <-> dependent exact_dependent 2 2.
Proof.
  apply X6_solve_singular_iff_dependent; [| |lia|lia].
  - split; [reflexivity|]. intros row [<- | [<- | []]]; reflexivity.
  - split; [reflexivity|]. intros row [<- | [<- | []]]; reflexivity.
Defined.

End ExactDependent.

(** * Further properties of the parser *)

(** ** The yield check *)

Lemma findIndex_none {A} (p : A -> bool) (l : list A) :
  findIndex p l = None <-> filter p l = [].
Proof.
  induction l as [|x l IH]; simpl; [tauto|].
  destruct (p x); [split; discriminate|].
  destruct (findIndex p l); [|tauto].
  split; [discriminate|]. intros Hf. apply IH in Hf. discriminate.
Qed.

Lemma findLastIndex_none {A} (p : A -> bool) (l : list A) :
  findLastIndex p l = None <-> filter p l = [].
Proof.
  induction l as [|x l IH]; simpl; [tauto|].
  destruct (findLastIndex p l).
  - split; [discriminate|]. intros Hf.
    destruct (p x); [discriminate|]. apply IH in Hf. discriminate.
  - destruct (p x); [split; discriminate|]. exact IH.
Qed.

(** The first and the last index of a match are the same one exactly
    when there is one match. *)
Lemma findIndex_last {A} (p : A -> bool) (l : list A) i :
  findIndex p l = Some i ->
  exists j, findLastIndex p l = Some j
            /\ (j = i <-> length (filter p l) = 1)
            /\ 1 <= length (filter p l).
Proof.
  revert i. induction l as [|x l IH]; intros i Hi; simpl in *;
    [discriminate|].
  destruct (p x) eqn:Hp.
  - injection Hi as <-. simpl.
    destruct (findLastIndex p l) as [j|] eqn:Hl.
    + exists (S j). split; [reflexivity|]. split; [|lia].
      assert (filter p l <> []).
      { intros Hf. apply findLastIndex_none in Hf. congruence. }
      destruct (filter p l); [congruence|]. simpl. split; [discriminate | lia].
    + exists 0. split; [reflexivity|]. apply findLastIndex_none in Hl.
      rewrite Hl. simpl. split; [tauto | lia].
  - destruct (findIndex p l) as [i'|] eqn:Hf; [|discriminate].
    injection Hi as <-.
    destruct (IH i' eq_refl) as [j [Hj [Hiff Hge]]].
    rewrite Hj. exists (S j). split; [reflexivity|].
    split; [|exact Hge]. rewrite <- Hiff. split; [intros E | intros ->]; lia.
Qed.

(** The three outcomes of [mustHaveOneYield]. *)
Lemma yield_cases (ast : list Match) :
  (count_yield ast = 0 /\ mustHaveOneYield ast = Err MissingYield)
  \/ (count_yield ast = 1 /\ mustHaveOneYield ast = Ok tt
      /\ exists index, indexOfYield ast = Some index)
  \/ (2 <= count_yield ast /\ mustHaveOneYield ast = Err DuplicateYield).
Proof.
  unfold mustHaveOneYield, indexOfYield, count_yield.
  destruct (findIndex is_yield ast) as [i|] eqn:Hf.
  - destruct (findIndex_last _ _ Hf) as [j [Hj [Hiff Hge]]].
    rewrite Hj. destruct (Nat.eqb_spec j i) as [E | E].
    + right. left. split; [tauto|]. split; [reflexivity|].
      exists i. reflexivity.
    + right. right. split; [|reflexivity].
      assert (length (filter is_yield ast) <> 1) by tauto. lia.
  - left. apply findIndex_none in Hf. rewrite Hf. split; reflexivity.
Qed.

(** X7: [mustHaveOneYield] passes exactly when the AST has one yield
    token; it raises 'Equation must have one yield' exactly when it has
    none, and 'Equation must have only one yield' exactly when it has two
    or more. *)
Theorem X7_one_yield (ast : list Match) :
  (mustHaveOneYield ast = Ok tt <-> count_yield ast = 1)
  /\ (mustHaveOneYield ast = Err MissingYield <-> count_yield ast = 0)
  /\ (mustHaveOneYield ast = Err DuplicateYield <-> 2 <= count_yield ast).
Proof.
  destruct (yield_cases ast) as [[Hc He] | [[Hc [He _]] | [Hc He]]];
    rewrite He; repeat split; intros; try discriminate; try lia;
    reflexivity.
Qed.

(** ** The errors of [compute] *)

Section BuilderRect.
Context {R : Type} `{JSNumber R}.

(** The system of [makeAandB] is well formed: as many rows in [B] as in
    [A], at least one, each row of [A] of the same length, at least one. *)
Lemma makeAandB_rect (left right : list (AbstractToken R)) :
  exists r c,
    0 < r /\ 0 < c
    /\ rect (fst (makeAandB left right)) r c
    /\ length (snd (makeAandB left right)) = r
    /\ c = Nat.max 1 (length left + length right).
Proof.
  destruct (list_eq_dec (fun a b : nat => Nat.eq_dec a b)
              (map (fun _ => 0) (left ++ right)) []) as [Hempty | Hne].
  - assert (left = [] /\ right = []) as [-> ->].
    { destruct left; [|discriminate]. destruct right; [|discriminate].
      split; reflexivity. }
    exists 1, 1. split; [lia|]. split; [lia|].
    split; [|split; reflexivity].
    split; [reflexivity|]. intros row [<- | []]. reflexivity.
  - assert (Hne' : left ++ right <> [])
      by (intros E; rewrite E in Hne; apply Hne; reflexivity).
    unfold makeAandB. rewrite forEach_extract_spec.
    fold (pinned (left ++ right)).
    set (elements := all_keys (left ++ right) []).
    set (n := length elements).
    set (index := fst (pinned (left ++ right))).
    set (m := length left + length right).
    set (row := fun i : nat =>
                  map (fun t => left_entry t (nth i elements undefined_key))
                    left
                    ++ map (fun t => right_entry t
                                       (nth i elements undefined_key))
                         right).
    set (A0 := map row (seq 0 (n + 1))).
    assert (Hm : 0 < m).
    { unfold m. rewrite <- length_app.
      destruct (left ++ right); [congruence | simpl; lia]. }
    assert (Hidx : index < m).
    { unfold index, m. rewrite <- length_app. apply pinned_bound.
      exact Hne'. }
    assert (HlenA0 : length A0 = n + 1)
      by (unfold A0; rewrite length_map, length_seq; reflexivity).
    assert (Hrow : forall i, length (row i) = m).
    { intros i. unfold row. rewrite length_app, !length_map. reflexivity. }
    assert (HnthA0 : forall i, i < n + 1 -> nth i A0 [] = row i).
    { intros i Hi. unfold A0. apply nth_map_seq. exact Hi. }
    exists (n + 1), m. split; [lia|]. split; [exact Hm|]. simpl fst. simpl snd.
    split; [|split].
    + split; [rewrite length_array_set; lia|].
      intros r Hr. apply (In_nth _ _ []) in Hr as [i [Hi <-]].
      rewrite length_array_set in Hi by lia.
      rewrite nth_array_set by lia.
      destruct (i =? n).
      * rewrite length_array_set; rewrite HnthA0 by lia; rewrite Hrow;
          [reflexivity | exact Hidx].
      * rewrite HnthA0 by lia. apply Hrow.
    + rewrite length_app, repeat_length. simpl. reflexivity.
    + lia.
Qed.

Lemma solve_error_singular (A B : list (list R)) r c e :
  rect A r c -> 0 < r -> 0 < c -> length B = r ->
  solve A B = Err e -> e = Singular.
Proof.
  intros HA Hr Hc HB Hs.
  destruct (solve_front B HA Hr Hc HB) as [_ [_ Hsolve]].
  rewrite Hsolve in Hs. unfold diagonalize in Hs.
  destruct (diagonalize_from _ _ _ _) as [M | e'] eqn:Hd; [discriminate|].
  apply diagonalize_from_error in Hd. simpl in Hs. congruence.
Qed.


End BuilderRect.

Lemma validators_errors (left right : list AbstractTok) :
  (forall e, mustHaveTheSameElements left right = Err e ->
             e = ElementMismatch)
  /\ (forall e, mustHaveLessThanTwoCoefficient left right = Err e ->
                e = TooManyDefault)
  /\ (mustHaveLessThanTwoCoefficient left right = Err TooManyDefault
      <-> 2 <= length (filter has_default (left ++ right))).
Proof.
  split; [|split].
  - intros e. unfold mustHaveTheSameElements.
    destruct (delete_all _ _) as [remaining found].
    destruct (if 0 <? length remaining then true else found); congruence.
  - intros e. unfold mustHaveLessThanTwoCoefficient.
    destruct (1 <? _); congruence.
  - unfold mustHaveLessThanTwoCoefficient.
    destruct (1 <? _) eqn:E.
    + apply Nat.ltb_lt in E. split; [intros _; exact E | reflexivity].
    + apply Nat.ltb_ge in E. split; [discriminate|]. intros Hn. exfalso.
      exact (Nat.lt_irrefl _ (Nat.lt_le_trans _ _ _ Hn E)).
Qed.

(** With its one yield at [index], [compute] is the two other checks,
    the builder and the solver on the two sides. *)
Lemma compute_steps (ast : list Match) (index : nat) :
  mustHaveOneYield ast = Ok tt -> indexOfYield ast = Some index ->
  compute ast
  = (do _ <- mustHaveTheSameElements (left_side ast index)
               (right_side ast index);
     do _ <- mustHaveLessThanTwoCoefficient (left_side ast index)
               (right_side ast index);
     do x <- solve (fst (makeAandB (left_side ast index)
                          (right_side ast index)))
               (snd (makeAandB (left_side ast index) (right_side ast index)));
     Ok (mkComputed (map round4 x)
           (write_back ast (map (fun tok => simplifyCompound tok false) ast)
              0 index 0 (map round4 x))
           (stringify
              (write_back ast
                 (map (fun tok => simplifyCompound tok false) ast)
                 0 index 0 (map round4 x))))).
Proof.
  intros Hy Hi. unfold compute. rewrite Hy, Hi. cbn [bind]. cbv zeta.
  fold (left_side ast index). fold (right_side ast index).
  destruct (mustHaveTheSameElements _ _) as [[]|e]; [|reflexivity].
  cbn [bind].
  destruct (mustHaveLessThanTwoCoefficient _ _) as [[]|e]; [|reflexivity].
  cbn [bind].
  destruct (makeAandB (left_side ast index) (right_side ast index))
    as [A B]. reflexivity.
Qed.

(** X8: the errors of [compute], in the order of its checks.  It raises
    the missing yield exactly when the AST has no yield token and the
    duplicate yield exactly when it has two or more; with one yield, it
    raises the default-coefficient error exactly when the two sides have
    the same elements and two or more compounds declare a coefficient;
    and it raises nothing but these, the element mismatch and the singular
    matrix: the dimension errors of the solver never come out of it. *)
Theorem X8_compute_errors (ast : list Match) :
  (compute ast = Err MissingYield <-> count_yield ast = 0)
  /\ (compute ast = Err DuplicateYield <-> 2 <= count_yield ast)
  /\ (compute ast = Err TooManyDefault
      <-> exists index,
            count_yield ast = 1 /\ indexOfYield ast = Some index
            /\ mustHaveTheSameElements (left_side ast index)
                 (right_side ast index) = Ok tt
            /\ 2 <= length (filter has_default (sides_of ast index)))
  /\ (forall e, compute ast = Err e -> compute_error e).
Proof.
  destruct (yield_cases ast) as [[Hc He] | [[Hc [He [index Hi]]] | [Hc He]]].
  - assert (E : compute ast = Err MissingYield)
      by (unfold compute; rewrite He; reflexivity).
    rewrite E. split; [tauto|]. split; [split; [discriminate | lia]|].
    split.
    + split; [discriminate | intros [i [H1 _]]; lia].
    + intros e [= <-]. exact I.
  - rewrite (compute_steps _ He Hi).
    destruct (validators_errors (left_side ast index) (right_side ast index))
      as [Hse [Hlt Htoo]].
    destruct (makeAandB_rect (left_side ast index) (right_side ast index))
      as [r [c [Hr [Hcc [HA [HB _]]]]]].
    destruct (mustHaveTheSameElements (left_side ast index)
                (right_side ast index)) as [[]|e1] eqn:E1; cbn [bind].
    + destruct (mustHaveLessThanTwoCoefficient (left_side ast index)
                  (right_side ast index)) as [[]|e2] eqn:E2; cbn [bind].
      * destruct (solve _ _) as [x|e3] eqn:E3; cbn [bind].
        -- split; [split; [discriminate | lia]|].
           split; [split; [discriminate | lia]|].
           split; [|discriminate].
           split; [discriminate|].
           intros [i [_ [Hi' [_ Hn]]]].
           assert (i = index) by congruence. subst i.
           apply Htoo in Hn. discriminate.
        -- assert (e3 = Singular)
             by exact (solve_error_singular _ HA Hr Hcc HB E3).
           subst e3.
           split; [split; [discriminate | lia]|].
           split; [split; [discriminate | lia]|].
           split; [|intros e [= <-]; exact I].
           split; [discriminate|].
           intros [i [_ [Hi' [_ Hn]]]].
           assert (i = index) by congruence. subst i.
           apply Htoo in Hn. discriminate.
      * assert (e2 = TooManyDefault) by (apply Hlt; reflexivity). subst e2.
        split; [split; [discriminate | lia]|].
        split; [split; [discriminate | lia]|].
        split; [|intros e [= <-]; exact I].
        split; [|reflexivity].
        intros _. exists index. split; [exact Hc|]. split; [exact Hi|].
        split; [exact E1|]. apply Htoo. reflexivity.
    + assert (e1 = ElementMismatch) by (apply Hse; reflexivity). subst e1.
      split; [split; [discriminate | lia]|].
      split; [split; [discriminate | lia]|].
      split; [|intros e [= <-]; exact I].
      split; [discriminate|].
      intros [i [_ [Hi' [Hs _]]]].
      assert (i = index) by congruence. subst i. congruence.
  - assert (E : compute ast = Err DuplicateYield)
      by (unfold compute; rewrite He; reflexivity).
    rewrite E. split; [split; [discriminate | lia]|]. split; [tauto|].
    split.
    + split; [discriminate | intros [i [H1 _]]; lia].
    + intros e [= <-]. exact I.
Qed.

(** ** The result of [compute] *)





(** ** Simplified compounds *)

Section ObjectKeys.
Context {R : Type}.

Lemma prop_set_keys_in (l : list (jsstring * R)) k v :
  In k (keys l) -> keys (prop_set l k v) = keys l.
Proof.
  induction l as [|[k' w] l IH]; intros Hin; [destruct Hin|].
  simpl. destruct (JsString.eqb k' k) eqn:E; [reflexivity|].
  simpl. f_equal. apply IH. destruct Hin as [Hk | Hin]; [|exact Hin].
  simpl in Hk. subst k'. rewrite eqb_refl in E. discriminate.
Qed.

Lemma prop_set_keys_new (l : list (jsstring * R)) k v :
  ~ In k (keys l) -> keys (prop_set l k v) = keys l ++ [k].
Proof.
  induction l as [|[k' w] l IH]; intros Hin; [reflexivity|].
  simpl. destruct (JsString.eqb k' k) eqn:E.
  - apply eqb_eq in E. subst k'. exfalso. apply Hin. left. reflexivity.
  - simpl. f_equal. apply IH. intros H. apply Hin. right. exact H.
Qed.

Lemma prop_set_keys (l : list (jsstring * R)) k v :
  keys (prop_set l k v) = keys l
  \/ (~ In k (keys l) /\ keys (prop_set l k v) = keys l ++ [k]).
Proof.
  destruct (in_dec (list_eq_dec N.eq_dec) k (keys l)) as [Hin | Hin].
  - left. apply prop_set_keys_in. exact Hin.
  - right. split; [exact Hin | apply prop_set_keys_new; exact Hin].
Qed.

Lemma prop_set_In (l : list (jsstring * R)) k v x :
  In x (keys (prop_set l k v)) <-> In x (keys l) \/ x = k.
Proof.
  destruct (in_dec (list_eq_dec N.eq_dec) k (keys l)) as [Hin | Hin].
  - rewrite (prop_set_keys_in _ _ v Hin). split; [auto|].
    intros [H | ->]; assumption.
  - rewrite (prop_set_keys_new _ _ v Hin), in_app_iff. simpl. intuition.
Qed.

Lemma prop_set_NoDup (l : list (jsstring * R)) k v :
  NoDup (keys l) -> NoDup (keys (prop_set l k v)).
Proof.
  intros Hnd. destruct (prop_set_keys l k v) as [-> | [Hin ->]];
    [exact Hnd|].
  apply NoDup_app; [exact Hnd | constructor; [intros [] | constructor]|].
  intros x Hx [<- | []]. exact (Hin Hx).
Qed.

Lemma prop_set_head (l : list (jsstring * R)) k v k0 rest :
  keys l = k0 :: rest -> exists rest', keys (prop_set l k v) = k0 :: rest'.
Proof.
  intros Hk. destruct (prop_set_keys l k v) as [-> | [_ ->]]; rewrite Hk.
  - exists rest. reflexivity.
  - exists (rest ++ [k]). reflexivity.
Qed.

End ObjectKeys.

Lemma merge_counts_keys count : forall entries acc,
  (forall x, In x (keys (merge_counts count acc entries))
             <-> In x (keys acc) \/ (In x (keys entries) /\ x <> CHARGE_key))
  /\ (NoDup (keys acc) -> NoDup (keys (merge_counts count acc entries)))
  /\ (forall k0 rest, keys acc = k0 :: rest ->
        exists rest', keys (merge_counts count acc entries) = k0 :: rest').
Proof.
  unfold merge_counts.
  induction entries as [|[elm v] entries IH]; intros acc; simpl.
  - split; [intros x; tauto|]. split; [auto|].
    intros k0 rest Hk. exists rest. exact Hk.
  - destruct (JsString.eqb elm CHARGE_key) eqn:E.
    + apply eqb_eq in E. subst elm.
      destruct (IH acc) as [Hin [Hnd Hhd]].
      split; [|split; assumption].
      intros x. rewrite Hin. intuition congruence.
    + apply eqb_neq in E.
      assert (Hstep : exists w,
                (match prop_get acc elm with
                 | Some old => prop_set acc elm (Double.add old (Double.mul count v))
                 | None => prop_set acc elm (Double.mul count v)
                 end) = prop_set acc elm w).
      { destruct (prop_get acc elm); eexists; reflexivity. }
      destruct Hstep as [w ->].
      destruct (IH (prop_set acc elm w)) as [Hin [Hnd Hhd]].
      split; [|split].
      * intros x. rewrite Hin, prop_set_In. intuition congruence.
      * intros Hacc. apply Hnd, prop_set_NoDup, Hacc.
      * intros k0 rest Hk.
        destruct (prop_set_head _ elm w Hk) as [rest' Hk'].
        exact (Hhd _ _ Hk').
Qed.

Lemma simplify_none tok branch :
  simplifyCompound tok branch = None <->
  ELEMENT tok = None /\ BRACKET tok = None /\ FREE_CHARGE tok = None.
Proof.
  destruct tok as [s y [e|] [[raw|items]|] c ch [f|]]; simpl;
    split; try discriminate; try tauto;
    try (intros [? [? ?]]; discriminate).
Qed.

Lemma symbols_in_body s y items c ch f :
  symbols_in (mkMatch s y None (Some (inr items)) c ch f)
  = flat_map symbols_in items.
Proof.
  simpl. induction items as [|item rest IH]; [reflexivity|].
  simpl. rewrite IH. reflexivity.
Qed.

Lemma simplify_body s y items c ch f branch :
  simplifyCompound (mkMatch s y None (Some (inr items)) c ch f) branch
  = Some (mkAbstract
            (merge_items
               (if branch then or_else c Double.one else Double.one) items
               (prop_set [(CHARGE_key, Double.zero)] CHARGE_key
                  (or_else ch Double.zero)))
            (match c with
             | Some v => if negb branch && Double.truthy v then Some v
                         else None
             | None => None
             end)).
Proof.
  cbn [simplifyCompound]. f_equal. f_equal. unfold merge_items.
  generalize (prop_set [(CHARGE_key, Double.zero)] CHARGE_key
                (or_else ch Double.zero)).
  induction items as [|item rest IH]; intros acc; [reflexivity|].
  cbn [fold_left]. destruct (simplifyCompound item true); apply IH.
Qed.

Lemma some_inj {A} (x y : A) : Some x = Some y -> y = x.
Proof. congruence. Qed.

Lemma simplify_element s y element b c ch f branch :
  simplifyCompound (mkMatch s y (Some element) b c ch f) branch
  = Some (mkAbstract
            (prop_set
               (prop_set [(CHARGE_key, Double.zero)] element
                  (or_else c Double.one))
               CHARGE_key (or_else ch Double.zero))
            None).
Proof. reflexivity. Qed.

Lemma simplify_free_charge s y c ch f branch :
  simplifyCompound (mkMatch s y None None c ch (Some f)) branch
  = Some (mkAbstract (prop_set [(CHARGE_key, Double.zero)] CHARGE_key f)
            None).
Proof. reflexivity. Qed.

(** The keys of a simplified compound: ["CHARGE"] first, no key twice,
    and besides ["CHARGE"] the element symbols of the token. *)
Lemma simplified_keys : forall tok branch a,
  simplifyCompound tok branch = Some a ->
  (exists rest, keys (props a) = CHARGE_key :: rest)
  /\ NoDup (keys (props a))
  /\ (forall x, x <> CHARGE_key ->
        (In x (keys (props a)) <-> In x (symbols_in tok))).
Proof.
  induction tok as [s y e b c ch f IH] using Match_nested_ind.
  intros branch a Ha.
  assert (Hbase : forall w : Double.double,
            keys (prop_set [(CHARGE_key, Double.zero)] CHARGE_key w)
            = [CHARGE_key]).
  { intros w. cbn [prop_set]. rewrite eqb_refl. reflexivity. }
  destruct e as [element|].
  - rewrite simplify_element in Ha. apply some_inj in Ha. subst a.
    cbv beta iota delta [props].
    set (a1 := prop_set [(CHARGE_key, Double.zero)] element
                 (or_else c Double.one)).
    assert (H1 : (element = CHARGE_key /\ keys a1 = [CHARGE_key])
                 \/ (element <> CHARGE_key
                     /\ keys a1 = [CHARGE_key; element])).
    { unfold a1. simpl. destruct (JsString.eqb CHARGE_key element) eqn:E.
      - left. apply eqb_eq in E. split; [congruence | reflexivity].
      - right. apply eqb_neq in E. split; [congruence | reflexivity]. }
    assert (H2 : keys (prop_set a1 CHARGE_key (or_else ch Double.zero))
                 = keys a1).
    { apply prop_set_keys_in.
      destruct H1 as [[_ ->] | [_ ->]]; left; reflexivity. }
    rewrite H2. cbn [symbols_in].
    destruct H1 as [[He ->] | [Hne ->]].
    + split; [exists []; reflexivity|].
      split; [constructor; [intros [] | constructor]|].
      intros x Hx. simpl. intuition congruence.
    + split; [exists [element]; reflexivity|].
      split.
      * constructor; [intros [E | []]; congruence|].
        constructor; [intros [] | constructor].
      * intros x Hx. simpl. intuition congruence.
  - destruct b as [[raw | items]|].
    + rewrite (@simplify_raw_formula (mkMatch s y None (Some (inl raw)) c ch f)
                 raw branch eq_refl eq_refl) in Ha.
      apply some_inj in Ha. subst a.
      cbv beta iota delta [props CHARGE].
      change (keys [(CHARGE_key, or_else ch Double.zero)])
        with [CHARGE_key]. cbn [symbols_in].
      split; [exists []; reflexivity|].
      split; [constructor; [intros [] | constructor]|].
      intros x Hx. simpl. intuition congruence.
    + rewrite simplify_body in Ha. apply some_inj in Ha. subst a.
      cbv beta iota delta [props].
      rewrite symbols_in_body. unfold merge_items.
      set (count := if branch then or_else c Double.one else Double.one).
      generalize (Hbase (or_else ch Double.zero)).
      generalize (prop_set [(CHARGE_key, Double.zero)] CHARGE_key
                    (or_else ch Double.zero)).
      assert (Hgen : forall acc rest0,
                keys acc = CHARGE_key :: rest0 -> NoDup (keys acc) ->
                let res :=
                  fold_left
                    (fun acc item =>
                       match simplifyCompound item true with
                       | Some abs => merge_counts count acc (props abs)
                       | None => acc
                       end) items acc in
                (exists rest, keys res = CHARGE_key :: rest)
                /\ NoDup (keys res)
                /\ (forall x, x <> CHARGE_key ->
                      (In x (keys res)
                       <-> In x (keys acc) \/ In x (flat_map symbols_in items)))).
      { clear Hbase. induction items as [|item rest IHitems];
          intros acc rest0 Hhd Hnd; cbn [fold_left flat_map].
        - split; [exists rest0; exact Hhd|]. split; [exact Hnd|].
          intros x Hx. simpl. tauto.
        - inversion IH as [|? ? Hitem Hrest]; subst.
          destruct (simplifyCompound item true) as [abs|] eqn:Hs.
          + destruct (Hitem _ _ Hs) as [_ [_ Hsym]].
            destruct (merge_counts_keys count (props abs) acc)
              as [Hin [Hnd' Hhd']].
            destruct (Hhd' _ _ Hhd) as [rest1 Hhd1].
            destruct (IHitems Hrest _ _ Hhd1 (Hnd' Hnd))
              as [Hh [Hn Hi]].
            split; [exact Hh|]. split; [exact Hn|].
            intros x Hx. rewrite (Hi x Hx), Hin, in_app_iff.
            rewrite <- (Hsym x Hx). intuition.
          + destruct (IHitems Hrest _ _ Hhd Hnd) as [Hh [Hn Hi]].
            split; [exact Hh|]. split; [exact Hn|].
            intros x Hx. rewrite (Hi x Hx), in_app_iff.
            assert (Hnone : symbols_in item = []).
            { apply simplify_none in Hs as [He [Hb _]].
              destruct item as [? ? e' b' ? ? ?]. simpl in He, Hb.
              subst e' b'. reflexivity. }
            rewrite Hnone. simpl. tauto. }
      intros acc Hacc.
      destruct (Hgen acc [] Hacc) as [Hh [Hn Hi]].
      { rewrite Hacc. constructor; [intros [] | constructor]. }
      split; [exact Hh|]. split; [exact Hn|].
      intros x Hx. rewrite (Hi x Hx), Hacc. simpl. intuition congruence.
    + destruct f as [f|]; [|discriminate].
      rewrite simplify_free_charge in Ha.
      apply some_inj in Ha. subst a.
      cbv beta iota delta [props]. rewrite Hbase. cbn [symbols_in].
      split; [exists []; reflexivity|].
      split; [constructor; [intros [] | constructor]|].
      intros x Hx. simpl. intuition congruence.
Qed.




(** * Further properties of the scanner *)

Lemma opt_inv a s n c s' n' c' :
  matches (Opt a) s n c s' n' c' ->
  matches a s n c s' n' c' \/ (s' = s /\ n' = n /\ c' = c).
Proof. inversion 1; subst; auto. Qed.

Lemma matches_mono r s n c s' n' c' :
  matches r s n c s' n' c' -> n <= n'.
Proof.
  intros Hm. apply matches_suffix in Hm as [pre [_ ->]]. lia.
Qed.

(** No alternative of the expression matches the empty string. *)
Lemma pattern_progress s n c s' n' c' :
  matches pattern s n c s' n' c' -> n < n'.
Proof.
  unfold pattern. intros Hm.
  apply alt_inv in Hm as [Hm | Hm].
  { apply group_inv in Hm as [c1 [Hm _]].
    apply chr_inv in Hm as [x [_ [-> _]]]. lia. }
  apply alt_inv in Hm as [Hm | Hm].
  { unfold alt_formula in Hm.
    apply seq_inv in Hm as [s1 [n1 [c1 [H1 Hm]]]].
    apply seq_inv in Hm as [s2 [n2 [c2 [H2 Hm]]]].
    apply matches_mono in H1. apply matches_mono in Hm.
    apply chr_inv in H2 as [x [_ [-> _]]]. lia. }
  apply alt_inv in Hm as [Hm | Hm].
  { unfold alt_element in Hm.
    apply seq_inv in Hm as [s1 [n1 [c1 [H1 Hm]]]].
    apply seq_inv in Hm as [s2 [n2 [c2 [H2 Hm]]]].
    apply matches_mono in H1. apply matches_mono in Hm.
    apply group_inv in H2 as [c3 [H2 _]].
    apply seq_inv in H2 as [s3 [n3 [c4 [H2 H3]]]].
    apply matches_mono in H3.
    apply chr_inv in H2 as [x [_ [-> _]]]. lia. }
  apply alt_inv in Hm as [Hm | Hm].
  { apply group_inv in Hm as [c1 [Hm _]].
    unfold NumberPattern in Hm.
    apply seq_inv in Hm as [s1 [n1 [c2 [H1 Hm]]]]. apply matches_mono in H1.
    apply seq_inv in Hm as [s2 [n2 [c3 [H2 Hm]]]]. apply matches_mono in H2.
    apply seq_inv in Hm as [s3 [n3 [c4 [H3 Hm]]]]. apply matches_mono in H3.
    apply seq_inv in Hm as [s4 [n4 [c5 [H4 Hm]]]]. apply matches_mono in H4.
    apply seq_inv in Hm as [s5 [n5 [c6 [H5 Hm]]]]. apply matches_mono in H5.
    apply seq_inv in Hm as [s6 [n6 [c7 [H6 Hm]]]]. apply matches_mono in H6.
    apply seq_inv in Hm as [s7 [n7 [c8 [H7 Hm]]]].
    apply matches_mono in Hm.
    apply chr_inv in H7 as [x [_ [-> _]]]. lia. }
  apply group_inv in Hm as [c1 [Hm _]].
  apply chr_inv in Hm as [x [_ [-> _]]]. lia.
Qed.

(** ** The fields of a token, from the groups *)

Lemma SUM_assign_group c m g :
  SUM (assign_group c m g)
  = match g with
    | G_SUM =>
        match SUM m with
        | Some b => Some b
        | None => match lookup c G_SUM with
                  | Some (x :: v) => Some (x :: v)
                  | _ => None
                  end
        end
    | _ => SUM m
    end.
Proof.
  unfold assign_group. destruct m as [[s|] y e [b|] cn ch fc];
    destruct g; destruct (lookup c _) as [[|x v]|]; reflexivity.
Qed.

Lemma YIELD_assign_group c m g :
  YIELD (assign_group c m g)
  = match g with
    | G_YIELD =>
        match YIELD m with
        | Some b => Some b
        | None => match lookup c G_YIELD with
                  | Some (x :: v) => Some (x :: v)
                  | _ => None
                  end
        end
    | _ => YIELD m
    end.
Proof.
  unfold assign_group. destruct m as [s [y|] e [b|] cn ch fc];
    destruct g; destruct (lookup c _) as [[|x v]|]; reflexivity.
Qed.

Lemma FREE_CHARGE_assign_group c m g :
  FREE_CHARGE (assign_group c m g)
  = match g with
    | G_FREE_CHARGE =>
        match lookup c G_FREE_CHARGE with
        | Some (x :: v) => merge (FREE_CHARGE m) (x :: v)
        | _ => FREE_CHARGE m
        end
    | _ => FREE_CHARGE m
    end.
Proof.
  unfold assign_group. destruct m as [s y e [b|] cn ch fc];
    destruct g; destruct (lookup c _) as [[|x v]|]; reflexivity.
Qed.

Lemma COUNT_assign_group c m g :
  COUNT (assign_group c m g)
  = match key_of g with
    | K_COUNT =>
        match lookup c g with
        | Some (x :: v) => merge (COUNT m) (x :: v)
        | _ => COUNT m
        end
    | _ => COUNT m
    end.
Proof.
  unfold assign_group. destruct m as [s y e [b|] cn ch fc];
    destruct g; destruct (lookup c _) as [[|x v]|]; reflexivity.
Qed.

Lemma CHARGE_assign_group c m g :
  CHARGE (assign_group c m g)
  = match key_of g with
    | K_CHARGE =>
        match lookup c g with
        | Some (x :: v) => merge (CHARGE m) (x :: v)
        | _ => CHARGE m
        end
    | _ => CHARGE m
    end.
Proof.
  unfold assign_group. destruct m as [s y e [b|] cn ch fc];
    destruct g; destruct (lookup c _) as [[|x v]|]; reflexivity.
Qed.

Lemma SUM_build_match c :
  SUM (build_match c)
  = match lookup c G_SUM with
    | Some (x :: v) => Some (x :: v)
    | _ => None
    end.
Proof.
  unfold build_match, all_groups. simpl fold_left.
  repeat (rewrite SUM_assign_group; cbv beta iota). reflexivity.
Qed.

Lemma YIELD_build_match c :
  YIELD (build_match c)
  = match lookup c G_YIELD with
    | Some (x :: v) => Some (x :: v)
    | _ => None
    end.
Proof.
  unfold build_match, all_groups. simpl fold_left.
  repeat (rewrite YIELD_assign_group; cbv beta iota). reflexivity.
Qed.

Lemma FREE_CHARGE_build_match c :
  FREE_CHARGE (build_match c)
  = match lookup c G_FREE_CHARGE with
    | Some (x :: v) => Some (to_number (x :: v))
    | _ => None
    end.
Proof.
  unfold build_match, all_groups. simpl fold_left.
  repeat (rewrite FREE_CHARGE_assign_group; cbv beta iota).
  destruct (lookup c G_FREE_CHARGE) as [[|x v]|]; reflexivity.
Qed.

Lemma COUNT_build_match_none c :
  lookup c G_FRM_MULT_A = None -> lookup c G_FRM_MULT_B = None ->
  lookup c G_ELM_MULT_A = None -> lookup c G_ELM_MULT_B = None ->
  COUNT (build_match c) = None.
Proof.
  intros H1 H2 H3 H4. unfold build_match, all_groups. simpl fold_left.
  repeat (rewrite COUNT_assign_group; cbv beta iota delta [key_of];
          rewrite ?H1, ?H2, ?H3, ?H4).
  reflexivity.
Qed.

Lemma CHARGE_build_match_none c :
  lookup c G_FRM_CHARGE = None -> lookup c G_ELM_CHARGE = None ->
  CHARGE (build_match c) = None.
Proof.
  intros H1 H2. unfold build_match, all_groups. simpl fold_left.
  repeat (rewrite CHARGE_assign_group; cbv beta iota delta [key_of];
          rewrite ?H1, ?H2).
  reflexivity.
Qed.

(** A group that an expression does not have is not set by its match. *)
Lemma unset_group r s n s' n' c' g :
  matches r s n [] s' n' c' ->
  (if in_dec group_eq_dec g (groups_of r) then true else false) = false ->
  lookup c' g = None.
Proof.
  intros Hm Hg.
  rewrite (@matches_lookup_other _ _ _ _ _ _ _ g Hm);
    [reflexivity | apply not_in_groups; exact Hg].
Qed.

Ltac unset Hm := apply (unset_group _ Hm); vm_compute; reflexivity.

Lemma element_capture s n c s' n' c' :
  matches (Group G_ELEMENT (Chr cls_letter ;; Opt (Chr cls_letter))%re)
    s n c s' n' c' ->
  exists e, lookup c' G_ELEMENT = Some e /\ is_symbol e.
Proof.
  intros Hm. apply group_inv in Hm as [c1 [Hm ->]].
  apply seq_inv in Hm as [s1 [n1 [c2 [H1 H2]]]].
  apply chr_inv in H1 as [x [-> [-> [-> Hx]]]].
  cbn [lookup]. destruct (group_eq_dec G_ELEMENT G_ELEMENT); [|congruence].
  eexists. split; [reflexivity|].
  apply opt_inv in H2 as [H2 | [-> [-> ->]]].
  - apply chr_inv in H2 as [y [-> [-> [-> Hy]]]].
    replace (S (S n) - n) with 2 by lia. right. exists x, y.
    split; [reflexivity|]. split; assumption.
  - replace (S n - n) with 1 by lia. left. exists x.
    split; [reflexivity | exact Hx].
Qed.

(** The token of a match of the expression is of one kind at most. *)
Lemma pattern_token_ok s s' n' c' :
  matches pattern s 0 [] s' n' c' -> token_ok (build_match c').
Proof.
  unfold pattern, token_ok, kinds. intros Hm.
  rewrite SUM_build_match, YIELD_build_match, ELEMENT_build_match,
    BRACKET_build_match, FREE_CHARGE_build_match.
  apply alt_inv in Hm as [Hm | Hm].
  { (* a sum *)
    assert (H2 : lookup c' G_YIELD = None) by unset Hm.
    assert (H3 : lookup c' G_ELEMENT = None) by unset Hm.
    assert (H4 : lookup c' G_BRACKET = None) by unset Hm.
    assert (H5 : lookup c' G_FREE_CHARGE = None) by unset Hm.
    assert (H6 : COUNT (build_match c') = None)
      by (apply COUNT_build_match_none; unset Hm).
    assert (H7 : CHARGE (build_match c') = None)
      by (apply CHARGE_build_match_none; unset Hm).
    rewrite H2, H3, H4, H5, H6, H7.
    apply group_inv in Hm as [c1 [Hm ->]].
    apply chr_inv in Hm as [x [-> [-> [-> Hx]]]].
    cbn [lookup]. destruct (group_eq_dec G_SUM G_SUM); [|congruence].
    cbn [firstn Nat.sub has].
    split; [simpl; lia|]. split.
    - intros y [= <-]. unfold cls_plus, is_char in Hx.
      apply N.eqb_eq in Hx. subst x. reflexivity.
    - repeat split; try discriminate. }
  apply alt_inv in Hm as [Hm | Hm].
  { (* a formula *)
    assert (H1 : lookup c' G_SUM = None) by unset Hm.
    assert (H2 : lookup c' G_YIELD = None) by unset Hm.
    assert (H3 : lookup c' G_ELEMENT = None) by unset Hm.
    assert (H5 : lookup c' G_FREE_CHARGE = None) by unset Hm.
    rewrite H1, H2, H3, H5. cbn [has].
    split; [destruct (lookup c' G_BRACKET) as [[|x v]|]; simpl; lia|].
    repeat split; try discriminate. }
  apply alt_inv in Hm as [Hm | Hm].
  { (* an element *)
    assert (H1 : lookup c' G_SUM = None) by unset Hm.
    assert (H2 : lookup c' G_YIELD = None) by unset Hm.
    assert (H4 : lookup c' G_BRACKET = None) by unset Hm.
    assert (H5 : lookup c' G_FREE_CHARGE = None) by unset Hm.
    rewrite H1, H2, H4, H5. cbn [has].
    split; [destruct (lookup c' G_ELEMENT) as [[|x v]|]; simpl; lia|].
    split; [discriminate|]. split; [discriminate|].
    split; [|repeat split].
    unfold alt_element in Hm.
    apply seq_inv in Hm as [s1 [n1 [c1 [_ Hm]]]].
    apply seq_inv in Hm as [s2 [n2 [c2 [Hg Hm]]]].
    apply element_capture in Hg as [e [He Hsym]].
    rewrite (@matches_lookup_other _ _ _ _ _ _ _ G_ELEMENT Hm)
      by (apply not_in_groups; vm_compute; reflexivity).
    rewrite He. intros x Hx.
    destruct e as [|y v]; [discriminate|]. injection Hx as <-. exact Hsym. }
  apply alt_inv in Hm as [Hm | Hm].
  { (* a free charge *)
    assert (H1 : lookup c' G_SUM = None) by unset Hm.
    assert (H2 : lookup c' G_YIELD = None) by unset Hm.
    assert (H3 : lookup c' G_ELEMENT = None) by unset Hm.
    assert (H4 : lookup c' G_BRACKET = None) by unset Hm.
    assert (H6 : COUNT (build_match c') = None)
      by (apply COUNT_build_match_none; unset Hm).
    assert (H7 : CHARGE (build_match c') = None)
      by (apply CHARGE_build_match_none; unset Hm).
    rewrite H1, H2, H3, H4, H6, H7. cbn [has].
    split; [destruct (lookup c' G_FREE_CHARGE) as [[|x v]|]; simpl; lia|].
    repeat split; try discriminate. }
  (* a yield *)
  assert (H1 : lookup c' G_SUM = None) by unset Hm.
  assert (H3 : lookup c' G_ELEMENT = None) by unset Hm.
  assert (H4 : lookup c' G_BRACKET = None) by unset Hm.
  assert (H5 : lookup c' G_FREE_CHARGE = None) by unset Hm.
  assert (H6 : COUNT (build_match c') = None)
    by (apply COUNT_build_match_none; unset Hm).
  assert (H7 : CHARGE (build_match c') = None)
    by (apply CHARGE_build_match_none; unset Hm).
  rewrite H1, H3, H4, H5, H6, H7.
  apply group_inv in Hm as [c1 [Hm ->]].
  apply chr_inv in Hm as [x [-> [-> [-> Hx]]]].
  cbn [lookup]. destruct (group_eq_dec G_YIELD G_YIELD); [|congruence].
  cbn [firstn Nat.sub has].
  split; [simpl; lia|]. split; [discriminate|]. split.
  - intros y [= <-]. unfold cls_yield, is_char in Hx.
    apply N.eqb_eq in Hx. subst x. reflexivity.
  - repeat split; try discriminate.
Qed.

Lemma scanned_ok_body (body : list Match) :
  (fix all (l : list Match) : Prop :=
     match l with
     | [] => True
     | t :: r => scanned_ok t /\ all r
     end) body
  <-> Forall scanned_ok body.
Proof.
  induction body as [|t r IH]; [split; [constructor | exact (fun _ => I)]|].
  rewrite IH. split.
  - intros [Ht Hr]. constructor; assumption.
  - intros Hf. inversion Hf; subst. split; assumption.
Qed.

Lemma token_ok_set_BRACKET m b :
  BRACKET m <> None -> token_ok m -> token_ok (set_BRACKET m b).
Proof.
  intros Hb. unfold token_ok, kinds. destruct m as [s y e [b0|] c ch f];
    [|exfalso; apply Hb; reflexivity]. exact (fun H => H).
Qed.

Lemma scan_loop_ok : forall fuel str lastIndex acc ast,
  Forall scanned_ok acc ->
  scan_loop fuel str lastIndex acc = Some ast ->
  Forall scanned_ok ast.
Proof.
  induction fuel as [|f IH]; intros str lastIndex acc ast Hacc Hs;
    [discriminate|].
  cbn [scan_loop] in Hs.
  destruct (exec pattern str lastIndex) as [[[index last] groups]|] eqn:He.
  2:{ injection Hs as <-. exact Hacc. }
  cbv zeta in Hs.
  destruct (scan_bracket (fun raw => scan_loop f raw 0 []) (build_match groups))
    as [m'|] eqn:Hb; [|discriminate].
  assert (Hm' : scanned_ok m').
  { apply exec_inv in He as [s0 [s' [Hm _]]].
    pose proof (pattern_token_ok Hm) as Hok.
    unfold scan_bracket in Hb.
    pose proof (BRACKET_build_match groups) as Hbr.
    destruct (BRACKET (build_match groups)) as [[raw | body]|] eqn:Eb.
    - destruct (Nat.ltb_spec 2 (length raw)) as [Hlong | Hshort].
      + destruct (scan_loop f raw 0 []) as [body|] eqn:Hrec; [|discriminate].
        injection Hb as <-.
        apply (IH _ _ _ _ (Forall_nil _)) in Hrec.
        assert (Htok : token_ok (set_BRACKET (build_match groups) (inr body)))
          by (apply token_ok_set_BRACKET; [congruence | exact Hok]).
        destruct (build_match groups) as [s y e b c ch fc].
        cbn [set_BRACKET SUM YIELD ELEMENT COUNT CHARGE FREE_CHARGE] in *.
        cbn [scanned_ok]. split; [exact Htok|].
        apply scanned_ok_body. exact Hrec.
      + injection Hb as <-.
        destruct (build_match groups) as [s y e b c ch fc] eqn:Em.
        cbn [BRACKET] in Eb. subst b.
        cbn [scanned_ok]. split; [exact Hok|].
        destruct (lookup groups G_BRACKET) as [[|x v]|]; try discriminate.
        injection Hbr as ->. simpl in *. lia.
    - destruct (lookup groups G_BRACKET) as [[|x v]|]; discriminate.
    - injection Hb as <-.
      destruct (build_match groups) as [s y e b c ch fc] eqn:Em.
      cbn [BRACKET] in Eb. subst b.
      cbn [scanned_ok]. split; [exact Hok | exact I]. }
  eapply IH; [|exact Hs].
  apply Forall_app. split; [exact Hacc|].
  constructor; [exact Hm' | constructor].
Qed.


(** X12: no match of the expression of [scan] is empty: the end of a
    match is past its start, so that the guard against zero-width matches
    never moves [lastIndex]. *)
Theorem X12_scan_match_nonempty (str : jsstring) (lastIndex : nat)
  (index last : nat) (groups : caps) :
  exec pattern str lastIndex = Some (index, last, groups) ->
  index < last /\ advance index last = last.
Proof.
  intros He. apply exec_inv in He as [s0 [s' [Hm [_ [Hle _]]]]].
  apply pattern_progress in Hm.
  assert (Hlt : index < last) by lia. split; [exact Hlt|].
  unfold advance. destruct (Nat.eqb_spec index last); [lia | reflexivity].
Qed.

Lemma X12_scan_match_nonempty_witness :
  exists index last groups,
    exec pattern water 0 = Some (index, last, groups)
    /\ index < last /\ advance index last = last.
Proof.
  do 3 eexists. split; [vm_compute; reflexivity|].
  eapply (@X12_scan_match_nonempty water 0). vm_compute. reflexivity.
Defined.

(** ** The compounds of a scanned equation *)

Lemma scanned_symbols : forall tok,
  scanned_ok tok -> Forall is_symbol (symbols_in tok).
Proof.
  induction tok as [s y e b c ch f IH] using Match_nested_ind.
  intros [Htok Hbody]. destruct e as [element|].
  - cbn [symbols_in]. constructor; [|constructor].
    apply Htok. reflexivity.
  - destruct b as [[raw | items]|]; cbn [symbols_in]; try constructor.
    apply scanned_ok_body in Hbody.
    induction items as [|item rest IHr]; [constructor|].
    inversion IH; subst. inversion Hbody; subst.
    apply Forall_app. split; [auto | apply IHr; assumption].
Qed.

Lemma defined_In {A} (l : list (option A)) x :
  In x (defined l) <-> In (Some x) l.
Proof.
  induction l as [|[a|] l IH]; simpl; [tauto | | ].
  - rewrite IH. split; intros [E | H]; auto; left; congruence.
  - rewrite IH. split; [auto | intros [E | H]; [discriminate | exact H]].
Qed.

Lemma In_firstn {A} n (l : list A) x : In x (firstn n l) -> In x l.
Proof.
  intros H. rewrite <- (firstn_skipn n l). apply in_or_app. left. exact H.
Qed.

Lemma In_skipn {A} n (l : list A) x : In x (skipn n l) -> In x l.
Proof.
  intros H. rewrite <- (firstn_skipn n l). apply in_or_app. right. exact H.
Qed.

Lemma sides_of_In ast index comp :
  In comp (sides_of ast index) ->
  exists tok, In tok ast /\ simplifyCompound tok false = Some comp.
Proof.
  unfold sides_of, left_side, right_side. rewrite in_app_iff, !defined_In.
  intros [H | H].
  - apply In_firstn in H.
    apply in_map_iff in H as [tok [Ht Hin]]. exists tok. auto.
  - apply In_skipn in H.
    apply in_map_iff in H as [tok [Ht Hin]]. exists tok. auto.
Qed.

Lemma prop_get_none {R} (l : list (jsstring * R)) key :
  ~ In key (keys l) -> prop_get l key = None.
Proof.
  induction l as [|[k v] l IH]; intros Hn; [reflexivity|].
  simpl. destruct (JsString.eqb k key) eqn:E.
  - apply eqb_eq in E. subst k. exfalso. apply Hn. left. reflexivity.
  - apply IH. intros H. apply Hn. right. exact H.
Qed.

Lemma symbol_not_undefined key : is_symbol key -> key <> undefined_key.
Proof.
  intros [[c [-> _]] | [c [d [-> _]]]]; discriminate.
Qed.

(** X13: the compounds of the two sides of a scanned equation have no
    other keys than ["CHARGE"] and element symbols of one letter or two;
    none has a key named ["undefined"], the key with which [makeAandB]
    reads its last row. *)
Theorem X13_scanned_compounds (str : jsstring) (ast : list Match)
  (index : nat) (comp : AbstractTok) :
  scan str = Some ast -> In comp (sides_of ast index) ->
  (forall key, In key (keys (props comp)) ->
               key = CHARGE_key \/ is_symbol key)
  /\ get comp undefined_key = None.
Proof.
  intros Hs Hin.
  apply (scan_loop_ok _ _ _ (Forall_nil _)) in Hs.
  apply sides_of_In in Hin as [tok [Htok Hsim]].
  rewrite Forall_forall in Hs. specialize (Hs tok Htok).
  apply scanned_symbols in Hs. rewrite Forall_forall in Hs.
  destruct (simplified_keys _ _ Hsim) as [_ [_ Hk]].
  assert (Hkeys : forall key, In key (keys (props comp)) ->
                              key = CHARGE_key \/ is_symbol key).
  { intros key Hkey.
    destruct (list_eq_dec N.eq_dec key CHARGE_key) as [E | E];
      [left; exact E | right].
    apply Hs. apply Hk; assumption. }
  split; [exact Hkeys|].
  apply prop_get_none. intros Hu.
  destruct (Hkeys _ Hu) as [E | Hsym]; [discriminate E|].
  exact (symbol_not_undefined Hsym eq_refl).
Qed.

Lemma X13_scanned_compounds_witness :
  exists ast comp,
    scan water = Some ast /\ nth_error (sides_of ast 3) 0 = Some comp
    /\ (forall key, In key (keys (props comp)) ->
                    key = CHARGE_key \/ is_symbol key)
    /\ get comp undefined_key = None.
Proof.
  do 2 eexists. split; [vm_compute; reflexivity|].
  split; [vm_compute; reflexivity|].
  eapply (@X13_scanned_compounds water _ 3); [vm_compute; reflexivity|].
  left. reflexivity.
Defined.

(** * The editor *)

Section EditorLists.
Import Editor.
Context {A : Type}.

Lemma slice_to (l : list A) (c : Z) :
  (0 <= c <= Z.of_nat (length l))%Z ->
  slice l 0 (Some c) = firstn (Z.to_nat c) l.
Proof.
  intros Hc. unfold slice.
  replace (0 <? 0)%Z with false by reflexivity.
  destruct (c <? 0)%Z eqn:E; [apply Z.ltb_lt in E; lia|].
  rewrite Z.min_l by lia. rewrite Z.min_l by lia.
  cbn [Z.to_nat skipn]. f_equal. lia.
Qed.

Lemma slice_from (l : list A) (c : Z) :
  (0 <= c <= Z.of_nat (length l))%Z ->
  slice l c None = skipn (Z.to_nat c) l.
Proof.
  intros Hc. unfold slice.
  destruct (c <? 0)%Z eqn:E; [apply Z.ltb_lt in E; lia|].
  rewrite Z.min_l by lia.
  apply firstn_all2. rewrite length_skipn. lia.
Qed.

Lemma last_app_nonempty (a b : list A) d :
  b <> [] -> last (a ++ b) d = last b d.
Proof.
  intros Hb. induction a as [|x a IH]; [reflexivity|].
  cbn [app]. destruct (a ++ b) eqn:E.
  - destruct a; [simpl in E; contradiction | discriminate].
  - cbn [last]. exact IH.
Qed.

Lemma skipn_nonempty (l : list A) n : (n < length l)%nat -> skipn n l <> [].
Proof.
  intros Hn E. apply (f_equal (@length A)) in E.
  rewrite length_skipn in E. simpl in E. lia.
Qed.

Lemma last_skipn (l : list A) n d :
  (n < length l)%nat -> last (skipn n l) d = last l d.
Proof.
  intros Hn. rewrite <- (firstn_skipn n l) at 2.
  symmetry. apply last_app_nonempty. apply skipn_nonempty. exact Hn.
Qed.

(** The array with [x] put before the item of index [n]. *)
Lemma last_insert (l : list A) n x d :
  (n < length l)%nat ->
  last (firstn n l ++ [x] ++ skipn n l) d = last l d.
Proof.
  intros Hn. rewrite app_assoc.
  rewrite last_app_nonempty by (apply skipn_nonempty; exact Hn).
  apply last_skipn. exact Hn.
Qed.

Lemma length_insert (l : list A) n x :
  (n <= length l)%nat ->
  length (firstn n l ++ [x] ++ skipn n l) = S (length l).
Proof.
  intros Hn. rewrite !length_app, length_firstn, length_skipn. simpl. lia.
Qed.

(** The array without the item of index [n]. *)
Lemma last_remove (l : list A) n d :
  (S n < length l)%nat ->
  last (firstn n l ++ skipn (S n) l) d = last l d.
Proof.
  intros Hn.
  rewrite last_app_nonempty by (apply skipn_nonempty; exact Hn).
  apply last_skipn. exact Hn.
Qed.

Lemma length_remove (l : list A) n :
  (n < length l)%nat ->
  length (firstn n l ++ skipn (S n) l) = pred (length l).
Proof.
  intros Hn. rewrite length_app, length_firstn, length_skipn. lia.
Qed.

Lemma remove_insert (l : list A) n x :
  (n <= length l)%nat ->
  let l' := firstn n l ++ [x] ++ skipn n l in
  firstn n l' ++ skipn (S n) l' = l.
Proof.
  intros Hn l'. subst l'.
  assert (Hl : length (firstn n l) = n) by (rewrite length_firstn; lia).
  rewrite firstn_app, Hl, Nat.sub_diag. cbn [firstn].
  rewrite app_nil_r, firstn_firstn, Nat.min_id.
  rewrite skipn_app, Hl.
  replace (S n - n)%nat with 1%nat by lia.
  rewrite skipn_all2 by lia. cbn [app skipn].
  apply firstn_skipn.
Qed.

End EditorLists.

Section EditorSetters.
Import Editor.

Lemma command_stored (w : World) :
  on_command (state w) -> command w = command_ (state w).
Proof.
  intros [Hc _]. unfold command.
  destruct (command_ (state w)); [simpl in Hc; lia | reflexivity].
Qed.

Lemma keeps_refl (w : World) : on_command (state w) -> keeps w w.
Proof.
  intros H. split; [exact H|]. exists []. rewrite app_nil_r.
  split; [reflexivity | constructor].
Qed.

Lemma keeps_trans (w1 w2 w3 : World) :
  keeps w1 w2 -> keeps w2 w3 -> keeps w1 w3.
Proof.
  intros [_ [n1 [E1 F1]]] [H3 [n2 [E2 F2]]]. split; [exact H3|].
  exists (n1 ++ n2). rewrite E2, E1, app_assoc. split; [reflexivity|].
  apply Forall_app. split; assumption.
Qed.

Lemma keeps_dispatch (w : World) (ev : Event.t) :
  on_command (state w) -> keeps w (dispatchEvent w ev).
Proof.
  intros H. split; [exact H|]. exists [(ev, state w)].
  split; [reflexivity|]. constructor; [exact H | constructor].
Qed.

Lemma on_command_setCursor (w : World) (idx : Z) :
  on_command (state w) -> on_command (state (setCursor w idx)).
Proof.
  intros [Hc Hl]. unfold setCursor, on_command. cbn.
  split; [|exact Hl].
  destruct (idx <=? 0)%Z eqn:E1;
    [|apply Z.leb_gt in E1];
    match goal with
    | |- context [(?a >? ?b)%Z] =>
        destruct (Z.gtb_spec a b)
    end; lia.
Qed.

Lemma keeps_setCursor (w : World) (idx : Z) :
  on_command (state w) -> keeps w (setCursor w idx).
Proof.
  intros H. pose proof (on_command_setCursor w idx H) as H'.
  split; [exact H'|].
  exists [(Event.cursormove, state (setCursor w idx))].
  split; [reflexivity|]. constructor; [exact H' | constructor].
Qed.

(** The cursor that [setCursor] stores. *)
Lemma cursor_setCursor (w : World) (idx : Z) :
  cursor (setCursor w idx)
  = Z.min (Z.max idx 0) (Z.of_nat (length (command_ (state w))) - 1).
Proof.
  unfold setCursor, cursor. cbn.
  destruct (idx <=? 0)%Z eqn:E1;
    [apply Z.leb_le in E1 | apply Z.leb_gt in E1];
    match goal with
    | |- context [(?a >? ?b)%Z] =>
        destruct (Z.gtb_spec a b)
    end; lia.
Qed.

Lemma command_setCursor (w : World) (idx : Z) :
  command_ (state (setCursor w idx)) = command_ (state w).
Proof. reflexivity. Qed.

Lemma keeps_setCommand (w : World) (cmd : list jsstring) :
  (0 <= cursor w < Z.of_nat (length cmd))%Z -> last cmd [] = js " " ->
  keeps w (setCommand w cmd).
Proof.
  intros Hc Hl.
  assert (H' : on_command (state (setCommand w cmd))) by (split; assumption).
  split; [exact H'|].
  exists [(Event.command, state (setCommand w cmd))].
  split; [reflexivity|]. constructor; [exact H' | constructor].
Qed.

Lemma keeps_setCurrentElement (w : World) (key : TableItem) :
  on_command (state w) -> keeps w (setCurrentElement w key).
Proof.
  intros H. destruct key as [k|]; [|apply keeps_refl; exact H].
  split; [exact H|].
  exists [(Event.beforeelementchange (currentElement w), state w);
          (Event.elementchange k, state w)].
  split; [cbn; rewrite <- app_assoc; reflexivity|].
  constructor; [exact H|]. constructor; [exact H | constructor].
Qed.

Lemma keeps_setFocusArea (w : World) (type : TYPE.t) :
  on_command (state w) -> keeps w (setFocusArea w type).
Proof.
  intros H. split; [exact H|].
  exists [(Event.focusareachange type, state (setFocusArea w type))].
  split; [reflexivity|]. constructor; [exact H | constructor].
Qed.

Lemma keeps_setShift (w : World) (b : bool) :
  on_command (state w) -> keeps w (setShift w b).
Proof.
  intros H. split; [exact H|].
  exists [(Event.shift b, state (setShift w b))].
  split; [reflexivity|]. constructor; [exact H | constructor].
Qed.

Lemma keeps_setResult (w : World) (txt : jsstring) :
  on_command (state w) -> keeps w (setResult w txt).
Proof.
  intros H. split; [exact H|]. exists []. rewrite app_nil_r.
  split; [reflexivity | constructor].
Qed.

Lemma keeps_compute_command (w : World) :
  on_command (state w) -> keeps w (fst (compute_command w)).
Proof.
  intros H. unfold compute_command.
  destruct (scan (concat (command w))) as [ast|];
    [|apply keeps_refl; exact H].
  destruct (compute ast) as [c | e]; cbn [fst returned].
  - eapply keeps_trans; [apply keeps_setResult; exact H|].
    apply keeps_dispatch. exact H.
  - destruct (announced e);
      [apply keeps_dispatch | apply keeps_refl]; exact H.
Qed.

Lemma keeps_handleAllClear (w : World) :
  on_command (state w) -> keeps w (handleAllClear w).
Proof.
  intros H. unfold handleAllClear.
  eapply keeps_trans; [apply keeps_setCursor; exact H|].
  apply keeps_setCommand; [|reflexivity].
  rewrite cursor_setCursor. destruct H as [Hc _].
  cbn [length]. lia.
Qed.

(** The command with [key] written at the cursor. *)
Lemma keeps_write (w : World) (key : jsstring) :
  on_command (state w) ->
  keeps w
    (setCommand w
       (slice (command w) 0 (Some (cursor w)) ++ [key]
          ++ slice (command w) (cursor w) None)).
Proof.
  intros H. pose proof H as [Hc Hl].
  rewrite command_stored by exact H.
  change (cursor w) with (cursor_ (state w)).
  rewrite slice_to, slice_from by lia.
  apply keeps_setCommand.
  - rewrite length_insert by lia. change (cursor w) with (cursor_ (state w)).
    lia.
  - rewrite last_insert by lia. exact Hl.
Qed.

Lemma keeps_defaultCallbackFn (w : World) (btn : TableItem) :
  on_command (state w) -> keeps w (defaultCallbackFn w btn).
Proof.
  intros H. unfold defaultCallbackFn.
  destruct (negb (isElement btn || isKey btn || isShift btn));
    [apply keeps_refl; exact H|].
  assert (Hshift : forall key,
             keeps w (setShift (dispatchShift w key) false)).
  { intros key. unfold dispatchShift.
    assert (H1 : keeps w (dispatchEvent w (Event.SHIFT key)))
      by (apply keeps_dispatch; exact H).
    assert (H2 : keeps w
                   (if JsString.eqb key (js "0")
                    then handleAllClear (dispatchEvent w (Event.SHIFT key))
                    else if JsString.eqb key (js "1")
                         then fst (handleCompution
                                     (dispatchEvent w (Event.SHIFT key)))
                         else dispatchEvent w (Event.SHIFT key))).
    { destruct (JsString.eqb key (js "0")).
      - eapply keeps_trans; [exact H1|].
        apply keeps_handleAllClear. exact H.
      - destruct (JsString.eqb key (js "1")); [|exact H1].
        eapply keeps_trans; [exact H1|].
        apply keeps_compute_command. exact H. }
    eapply keeps_trans; [exact H2|].
    apply keeps_setShift. exact (proj1 H2). }
  assert (Hwrite : forall w1 key n,
             keeps w w1 ->
             keeps w
               (setCursor
                  (setCommand w1
                     (slice (command w1) 0 (Some (cursor w1)) ++ [key]
                        ++ slice (command w1) (cursor w1) None))
                  (cursor
                     (setCommand w1
                        (slice (command w1) 0 (Some (cursor w1)) ++ [key]
                           ++ slice (command w1) (cursor w1) None)) + n))).
  { intros w1 key n H1.
    eapply keeps_trans; [exact H1|].
    pose proof (keeps_write w1 key (proj1 H1)) as H2.
    eapply keeps_trans; [exact H2|].
    apply keeps_setCursor. exact (proj1 H2). }
  destruct btn as [[key | key | key | |]|]; try (apply keeps_refl; exact H);
    destruct (shift w); try apply Hshift.
  - cbn [isElement type TYPE.eqb].
    apply Hwrite. apply keeps_setCurrentElement. exact H.
  - cbn [isElement type TYPE.eqb]. apply Hwrite. apply keeps_refl. exact H.
  - cbn [isElement type TYPE.eqb]. apply Hwrite. apply keeps_refl. exact H.
Qed.

Lemma keeps_cb_del (w : World) :
  on_command (state w) -> keeps w (fst (cb_del w)).
Proof.
  intros H. unfold cb_del.
  destruct ((length (command w) =? 1)%nat
            && JsString.eqb (nth 0 (command w) []) (js " ")) eqn:Eg;
    [apply keeps_refl; exact H|].
  cbn [fst returned].
  (* the command has two items at least *)
  assert (Hlen : (2 <= length (command_ (state w)))%nat).
  { pose proof H as [Hc Hl]. rewrite command_stored in Eg by exact H.
    destruct (command_ (state w)) as [|x [|y r]]; simpl in *; try lia.
    subst x. discriminate Eg. }
  set (w1 := if (cursor w >? 0)%Z then setCursor w (cursor w - 1) else w).
  assert (H1 : keeps w w1).
  { subst w1. destruct (cursor w >? 0)%Z;
      [apply keeps_setCursor | apply keeps_refl]; exact H. }
  assert (Hcmd : command_ (state w1) = command_ (state w)).
  { subst w1. destruct (cursor w >? 0)%Z; reflexivity. }
  assert (Hcur : (0 <= cursor w1
                  < Z.of_nat (length (command_ (state w))) - 1)%Z).
  { subst w1. pose proof H as [Hc _].
    destruct (Z.gtb_spec (cursor w) 0) as [Hg | Hg].
    - rewrite cursor_setCursor. unfold cursor in *. lia.
    - unfold cursor in *. lia. }
  rewrite (command_stored w1 (proj1 H1)), Hcmd.
  rewrite slice_to, slice_from by lia.
  set (newCommand :=
         firstn (Z.to_nat (cursor w1)) (command_ (state w))
           ++ skipn (Z.to_nat (cursor w1 + 1)) (command_ (state w))).
  assert (Hnew : length newCommand = pred (length (command_ (state w)))).
  { subst newCommand.
    replace (Z.to_nat (cursor w1 + 1)) with (S (Z.to_nat (cursor w1)))
      by lia.
    apply length_remove. lia. }
  destruct (Z.geb_spec (cursor w1) (Z.of_nat (length newCommand)));
    [lia|].
  eapply keeps_trans; [exact H1|].
  apply keeps_setCommand; [lia|].
  subst newCommand.
  replace (Z.to_nat (cursor w1 + 1)) with (S (Z.to_nat (cursor w1))) by lia.
  rewrite last_remove by lia. exact (proj2 H).
Qed.

Lemma keeps_cb_space (w : World) :
  on_command (state w) -> keeps w (fst (cb_space w)).
Proof.
  intros H. unfold cb_space. cbn [fst returned].
  pose proof (keeps_write w (js " ") H) as H1.
  eapply keeps_trans; [exact H1|].
  apply keeps_setCursor. exact (proj1 H1).
Qed.

Lemma keeps_cbFn (w : World) (btn : Item) (cb : World -> outcome) :
  on_command (state w) -> cbFn btn = Some cb -> keeps w (fst (cb w)).
Proof.
  intros H Hcb.
  assert (Hset : forall x, keeps w (setCurrentElement w x))
    by (intros x; apply keeps_setCurrentElement; exact H).
  destruct btn as [key | key | key | |]; try discriminate.
  - unfold cbFn in Hcb.
    repeat match type of Hcb with
           | (if ?c then _ else _) = _ => destruct c
           end; try discriminate; injection Hcb as <-.
    + unfold cb_enter. destruct (focusArea w); cbn [fst returned];
        try (apply keeps_refl; exact H).
      * apply keeps_defaultCallbackFn. exact H.
      * apply keeps_compute_command. exact H.
    + unfold cb_up. destruct (getElementIndex (currentElement w)) as [i j].
      destruct (row_at (i - 1)) as [row|]; [|apply keeps_refl; exact H].
      match goal with
      | |- context [if ?c then _ else _] => destruct c
      end; cbn [fst returned]; [|apply keeps_refl; exact H].
      eapply keeps_trans; [apply Hset|].
      apply keeps_setFocusArea. exact (proj1 (Hset _)).
    + apply keeps_cb_del. exact H.
    + apply keeps_cb_space. exact H.
    + unfold cb_left. destruct (TYPE.eqb (focusArea w) TYPE.CONSOLE);
        [apply keeps_setCursor; exact H|].
      destruct (getElementIndex (currentElement w)) as [i j].
      destruct (row_at i) as [row|]; [|apply keeps_refl; exact H].
      match goal with
      | |- context [if ?c then _ else _] => destruct c
      end; cbn [fst returned]; [apply Hset | apply keeps_refl; exact H].
    + unfold cb_down. destruct (getElementIndex (currentElement w)) as [i j].
      destruct (row_at (i + 1)) as [row|]; [|apply keeps_refl; exact H].
      match goal with
      | |- context [if ?c then _ else _] => destruct c
      end; cbn [fst returned]; [|apply keeps_refl; exact H].
      pose proof (keeps_setFocusArea w TYPE.ELEMENT H) as H1.
      eapply keeps_trans; [exact H1|].
      apply keeps_setCurrentElement. exact (proj1 H1).
    + unfold cb_right. destruct (TYPE.eqb (focusArea w) TYPE.CONSOLE);
        [apply keeps_setCursor; exact H|].
      destruct (getElementIndex (currentElement w)) as [i j].
      destruct (row_at i) as [row|]; [|apply keeps_refl; exact H].
      match goal with
      | |- context [if ?c then _ else _] => destruct c
      end; cbn [fst returned]; [apply Hset | apply keeps_refl; exact H].
  - injection Hcb as <-. apply keeps_setShift. exact H.
Qed.

Lemma keeps_handle (w : World) (i : input) :
  on_command (state w) -> keeps w (fst (handle w i)).
Proof.
  intros H. destruct i as [i j | i j | i j]; cbn [handle].
  - unfold handlePointerDown. destruct (cell i j) as [v|];
      [|apply keeps_refl; exact H].
    destruct (isShift (Some v)).
    { destruct (cbFn v) as [cb|] eqn:Ecb;
        [eapply keeps_cbFn; eassumption | apply keeps_refl; exact H]. }
    destruct (isKey (Some v)); [apply keeps_dispatch; exact H|].
    destruct (isElement (Some v)); [apply keeps_dispatch; exact H|].
    destruct (isConsole (Some v));
      [apply keeps_setFocusArea | apply keeps_refl]; exact H.
  - unfold handlePointerUp. destruct (cell i j) as [v|];
      [|apply keeps_refl; exact H].
    destruct (isShift (Some v)); [apply keeps_refl; exact H|].
    destruct (isKey (Some v)); [apply keeps_dispatch; exact H|].
    destruct (isElement (Some v)).
    { cbn [fst returned].
      eapply keeps_trans; [apply keeps_setFocusArea; exact H|].
      apply keeps_dispatch. exact H. }
    destruct (isConsole (Some v));
      [apply keeps_setFocusArea | apply keeps_refl]; exact H.
  - unfold call. destruct (cell i j) as [v|];
      [|apply keeps_refl; exact H].
    destruct (isKey (Some v) || isElement (Some v));
      [|apply keeps_refl; exact H].
    destruct (cbFn v) as [cb|] eqn:Ecb;
      [eapply keeps_cbFn; eassumption|].
    apply keeps_defaultCallbackFn. exact H.
Qed.

Lemma keeps_run (inputs : list input) (w : World) :
  on_command (state w) -> keeps w (run w inputs).
Proof.
  revert w. induction inputs as [|i inputs IH]; intros w H.
  - apply keeps_refl. exact H.
  - cbn [run fold_left].
    pose proof (keeps_handle w i H) as H1.
    eapply keeps_trans; [exact H1|]. apply IH. exact (proj1 H1).
Qed.

End EditorSetters.

(** X14: from a state whose cursor is on an item of the command and whose
    command ends with a blank, whatever the pointer does, the cursor stays
    on an item of the command and the command keeps its last blank: in the
    state that is reached, and in the state that the listeners of every
    event dispatched on the way see. *)
Theorem X14_cursor_on_command (w : Editor.World)
  (inputs : list Editor.input) :
  on_command (Editor.state w) ->
  on_command (Editor.state (Editor.run w inputs))
  /\ forall ev s,
       In (ev, s) (Editor.dispatched (Editor.run w inputs)) ->
       In (ev, s) (Editor.dispatched w) \/ on_command s.
Proof.
  intros H. destruct (keeps_run inputs w H) as [H1 [new [E F]]].
  split; [exact H1|]. intros ev s Hin.
  rewrite E in Hin. apply in_app_or in Hin as [Hin | Hin];
    [left; exact Hin | right].
  rewrite Forall_forall in F. exact (F _ Hin).
Qed.

Lemma X14_cursor_on_command_witness :
  on_command
    (Editor.state
       (Editor.run Editor.initial
          [Editor.Call 0 0; Editor.Call 8 17; Editor.Call 9 17]))
  /\ forall ev s,
       In (ev, s)
         (Editor.dispatched
            (Editor.run Editor.initial
               [Editor.Call 0 0; Editor.Call 8 17; Editor.Call 9 17])) ->
       In (ev, s) (Editor.dispatched Editor.initial) \/ on_command s.
Proof.
  apply X14_cursor_on_command.
  split; [vm_compute; split; [discriminate | reflexivity] | reflexivity].
Defined.

Section EditorTable.
Import Editor.

Lemma all_cells_spec (p : nat -> nat -> Item -> bool) :
  all_cells p = true ->
  forall i j x, cell i j = Some x -> p i j x = true.
Proof.
  intros Hp i j x Hx. unfold all_cells in Hp.
  rewrite forallb_forall in Hp.
  assert (Hi : i < 10).
  { destruct (Nat.lt_ge_cases i 10) as [Hi | Hi]; [exact Hi|].
    unfold cell in Hx. rewrite (nth_overflow table) in Hx by exact Hi.
    destruct j; discriminate Hx. }
  assert (Hj : j < 18).
  { destruct (Nat.lt_ge_cases j 18) as [Hj | Hj]; [exact Hj|].
    unfold cell in Hx. rewrite nth_overflow in Hx; [discriminate Hx|].
    do 10 (destruct i as [|i]; [exact Hj|]). lia. }
  specialize (Hp i (proj2 (in_seq 10 0 i) ltac:(lia))).
  rewrite forallb_forall in Hp.
  specialize (Hp j (proj2 (in_seq 18 0 j) ltac:(lia))).
  rewrite Hx in Hp. exact Hp.
Qed.

Lemma same_item_eq (a b : Item) : same_item a b = true -> a = b.
Proof.
  destruct a, b; simpl; intros H; try discriminate; try reflexivity;
    apply eqb_eq in H; subst; reflexivity.
Qed.

(** [getElementIndex] finds every element of the table where it is. *)
Lemma element_index (i j : nat) (x : Item) :
  cell i j = Some x -> isElement (Some x) = true ->
  getElementIndex x = (Z.of_nat i, Z.of_nat j).
Proof.
  intros Hx He.
  assert (Hp : all_cells
                 (fun i j x =>
                    negb (isElement (Some x))
                    || (let '(a, b) := getElementIndex x in
                        (a =? Z.of_nat i)%Z && (b =? Z.of_nat j)%Z)) = true)
    by (vm_compute; reflexivity).
  pose proof (all_cells_spec _ Hp _ _ Hx) as H. cbv beta in H.
  rewrite He in H. cbn [negb orb] in H.
  destruct (getElementIndex x) as [a b].
  apply andb_prop in H as [Ha Hb].
  apply Z.eqb_eq in Ha, Hb. subst. reflexivity.
Qed.

(** The elements of the table are in its rows 0 to 8. *)
Lemma element_row (i j : nat) (x : Item) :
  cell i j = Some x -> isElement (Some x) = true -> i <= 8.
Proof.
  intros Hx He.
  assert (Hp : all_cells
                 (fun i j x => negb (isElement (Some x)) || (i <=? 8))
               = true)
    by (vm_compute; reflexivity).
  pose proof (all_cells_spec _ Hp _ _ Hx) as H. cbv beta in H.
  rewrite He in H. cbn [negb orb] in H. apply Nat.leb_le in H. exact H.
Qed.

(** The elements of its first row are H and He. *)
Lemma element_first_row (j : nat) (x : Item) :
  cell 0 j = Some x -> isElement (Some x) = true ->
  x = TableElement (js "H") \/ x = TableElement (js "He").
Proof.
  intros Hx He.
  assert (Hp : all_cells
                 (fun i j x =>
                    negb (isElement (Some x)) || negb (i =? 0)
                    || same_item x (TableElement (js "H"))
                    || same_item x (TableElement (js "He"))) = true)
    by (vm_compute; reflexivity).
  pose proof (all_cells_spec _ Hp _ _ Hx) as H. cbv beta in H.
  rewrite He in H. cbn [negb orb Nat.eqb] in H.
  apply orb_prop in H as [H | H]; apply same_item_eq in H; auto.
Qed.

Lemma row_at_cell (i j : Z) (row : list TableItem) (x : Item) :
  row_at i = Some row -> cell_at row j = Some x ->
  (0 <= i)%Z /\ (0 <= j)%Z /\ cell (Z.to_nat i) (Z.to_nat j) = Some x.
Proof.
  unfold row_at, cell_at, cell. intros Hr Hc.
  destruct (Z.ltb_spec i 0); [discriminate|].
  destruct (Z.ltb_spec j 0); [discriminate|].
  repeat split; try assumption.
  rewrite (nth_error_nth _ _ _ Hr). exact Hc.
Qed.

Lemma row_at_some (i : Z) :
  (0 <= i <= 9)%Z -> exists row, row_at i = Some row.
Proof.
  intros Hi. unfold row_at.
  destruct (Z.ltb_spec i 0); [lia|].
  destruct (nth_error table (Z.to_nat i)) as [row|] eqn:E;
    [exists row; reflexivity|].
  apply nth_error_None in E. change (length table) with 10 in E. lia.
Qed.

End EditorTable.

Section EditorCurrent.
Import Editor.

Lemma moves_same (w w' : World) :
  currentElement w' = currentElement w -> moves w w'.
Proof. intros H. left. exact H. Qed.

Lemma moves_trans (w1 w2 w3 : World) :
  moves w1 w2 -> moves w2 w3 -> moves w1 w3.
Proof.
  intros H12 [H23 | H23]; [|right; exact H23].
  destruct H12 as [H12 | H12]; [left; congruence|].
  right. rewrite H23. exact H12.
Qed.

Lemma moves_set (w : World) (x : Item) :
  element_cell x -> moves w (setCurrentElement w (Some x)).
Proof. intros H. right. exact H. Qed.

Lemma current_compute_command (w : World) :
  currentElement (fst (compute_command w)) = currentElement w.
Proof.
  unfold compute_command.
  destruct (scan (concat (command w))) as [ast|]; [|reflexivity].
  destruct (compute ast) as [c | e]; [reflexivity|].
  destruct (announced e); reflexivity.
Qed.

Lemma current_dispatchShift (w : World) (key : jsstring) :
  currentElement (dispatchShift w key) = currentElement w.
Proof.
  unfold dispatchShift.
  destruct (JsString.eqb key (js "0")); [reflexivity|].
  destruct (JsString.eqb key (js "1")); [|reflexivity].
  unfold handleCompution. rewrite current_compute_command. reflexivity.
Qed.

(** What [defaultCallbackFn] leaves as the current element: the one it
    found, or its button when that is an element. *)
Lemma current_defaultCallbackFn (w : World) (btn : TableItem) :
  currentElement (defaultCallbackFn w btn) = currentElement w
  \/ (isElement btn = true
      /\ btn = Some (currentElement (defaultCallbackFn w btn))).
Proof.
  unfold defaultCallbackFn.
  destruct (negb (isElement btn || isKey btn || isShift btn));
    [left; reflexivity|].
  destruct btn as [[key | key | key | |]|]; try (left; reflexivity);
    destruct (shift w);
    try (left; exact (current_dispatchShift w key));
    try (left; reflexivity).
  right. split; reflexivity.
Qed.

Lemma moves_arrow (w : World) (i j : Z) (row : list TableItem) :
  row_at i = Some row -> isElement (cell_at row j) = true ->
  moves w (setCurrentElement w (cell_at row j)).
Proof.
  intros Hr He. destruct (cell_at row j) as [x|] eqn:Ex; [|discriminate].
  apply moves_set.
  destruct (row_at_cell _ _ Hr Ex) as [_ [_ Hc]].
  exists (Z.to_nat i), (Z.to_nat j). split; assumption.
Qed.

Lemma moves_cbFn (w : World) (btn : Item) (cb : World -> outcome) :
  cbFn btn = Some cb -> moves w (fst (cb w)).
Proof.
  intros Hcb.
  destruct btn as [key | key | key | |]; try discriminate.
  - unfold cbFn in Hcb.
    repeat match type of Hcb with
           | (if ?c then _ else _) = _ => destruct c
           end; try discriminate; injection Hcb as <-.
    + unfold cb_enter. destruct (focusArea w); cbn [fst returned];
        try (left; reflexivity).
      * destruct (current_defaultCallbackFn w (Some (currentElement w)))
          as [H | [_ H]]; [left; exact H|].
        left. injection H as H. symmetry. exact H.
      * left. apply current_compute_command.
    + unfold cb_up. destruct (getElementIndex (currentElement w)) as [i j].
      destruct (row_at (i - 1)) as [row|] eqn:Er; [|left; reflexivity].
      destruct (negb (i =? 0)%Z); cbn [andb]; [|left; reflexivity].
      destruct (cell_at row j) as [x|] eqn:Ex; cbn [andb];
        [|left; reflexivity].
      destruct (isElement (Some x)) eqn:Ee; [|left; reflexivity].
      cbn [fst returned].
      apply (@moves_trans _ (setCurrentElement w (Some x)));
        [|left; reflexivity].
      rewrite <- Ex. eapply moves_arrow; [exact Er|].
      rewrite Ex. exact Ee.
    + unfold cb_del.
      match goal with
      | |- context [if ?c then _ else _] => destruct c
      end; [left; reflexivity|].
      cbn [fst returned].
      repeat match goal with
             | |- context [if ?c then _ else _] => destruct c
             end; left; reflexivity.
    + left. reflexivity.
    + unfold cb_left. destruct (TYPE.eqb (focusArea w) TYPE.CONSOLE);
        [left; reflexivity|].
      destruct (getElementIndex (currentElement w)) as [i j].
      destruct (row_at i) as [row|] eqn:Er; [|left; reflexivity].
      destruct (has_key row (j - 1)); cbn [andb]; [|left; reflexivity].
      destruct (isElement (cell_at row (j - 1))) eqn:Ee;
        [|left; reflexivity].
      cbn [fst returned]. eapply moves_arrow; eassumption.
    + unfold cb_down. destruct (getElementIndex (currentElement w)) as [i j].
      destruct (row_at (i + 1)) as [row|] eqn:Er; [|left; reflexivity].
      destruct (isElement (cell_at row j)) eqn:Ee; [|left; reflexivity].
      cbn [fst returned].
      apply (@moves_trans _ (setFocusArea w TYPE.ELEMENT));
        [left; reflexivity|].
      eapply moves_arrow; eassumption.
    + unfold cb_right. destruct (TYPE.eqb (focusArea w) TYPE.CONSOLE);
        [left; reflexivity|].
      destruct (getElementIndex (currentElement w)) as [i j].
      destruct (row_at i) as [row|] eqn:Er; [|left; reflexivity].
      destruct (has_key row (j + 1)); cbn [andb]; [|left; reflexivity].
      destruct (isElement (cell_at row (j + 1))) eqn:Ee;
        [|left; reflexivity].
      cbn [fst returned]. eapply moves_arrow; eassumption.
  - injection Hcb as <-. left. reflexivity.
Qed.

Lemma moves_handle (w : World) (i : input) : moves w (fst (handle w i)).
Proof.
  destruct i as [i j | i j | i j]; cbn [handle].
  - unfold handlePointerDown. destruct (cell i j) as [v|];
      [|left; reflexivity].
    destruct (isShift (Some v)).
    { destruct (cbFn v) as [cb|] eqn:Ecb;
        [eapply moves_cbFn; eassumption | left; reflexivity]. }
    repeat match goal with
           | |- context [if ?c then _ else _] => destruct c
           end; left; reflexivity.
  - unfold handlePointerUp. destruct (cell i j) as [v|];
      [|left; reflexivity].
    repeat match goal with
           | |- context [if ?c then _ else _] => destruct c
           end; left; reflexivity.
  - unfold call. destruct (cell i j) as [v|] eqn:Ev; [|left; reflexivity].
    destruct (isKey (Some v) || isElement (Some v));
      [|left; reflexivity].
    destruct (cbFn v) as [cb|] eqn:Ecb;
      [eapply moves_cbFn; eassumption|].
    cbn [fst returned].
    destruct (current_defaultCallbackFn w (Some v)) as [H | [He H]];
      [left; exact H|].
    right. injection H as H. rewrite <- H.
    exists i, j. split; assumption.
Qed.

Lemma moves_run (inputs : list input) (w : World) :
  moves w (run w inputs).
Proof.
  revert w. induction inputs as [|i inputs IH]; intros w.
  - left. reflexivity.
  - cbn [run fold_left]. eapply moves_trans; [apply moves_handle|].
    apply IH.
Qed.

End EditorCurrent.

(** X15: the current element stays an element of the table, whatever the
    pointer does: an item of a cell of its rows 0 to 8, for which
    [getElementIndex] returns the place of that cell and never falls back
    on [[0, 0]]. *)
Theorem X15_current_element (w : Editor.World)
  (inputs : list Editor.input) :
  element_cell (Editor.currentElement w) ->
  exists i j,
    Editor.cell i j = Some (Editor.currentElement (Editor.run w inputs))
    /\ Editor.isElement (Editor.cell i j) = true
    /\ Editor.getElementIndex (Editor.currentElement (Editor.run w inputs))
       = (Z.of_nat i, Z.of_nat j)
    /\ i <= 8.
Proof.
  intros H.
  assert (H' : element_cell (Editor.currentElement (Editor.run w inputs))).
  { destruct (moves_run inputs w) as [E | E]; [rewrite E|]; assumption. }
  destruct H' as [i [j [Hc He]]]. exists i, j.
  split; [exact Hc|]. split; [rewrite Hc; exact He|].
  split; [exact (element_index _ _ Hc He) | exact (element_row _ _ Hc He)].
Qed.

Lemma X15_current_element_witness :
  exists i j,
    Editor.cell i j
    = Some (Editor.currentElement
              (Editor.run Editor.initial
                 [Editor.PointerUp 5 6; Editor.Call 8 16; Editor.Call 9 17]))
    /\ Editor.isElement (Editor.cell i j) = true
    /\ Editor.getElementIndex
         (Editor.currentElement
            (Editor.run Editor.initial
               [Editor.PointerUp 5 6; Editor.Call 8 16; Editor.Call 9 17]))
       = (Z.of_nat i, Z.of_nat j)
    /\ i <= 8.
Proof.
  apply X15_current_element.
  exists 5, 6. split; reflexivity.
Defined.

Section EditorThrown.
Import Editor.

Lemma thrown_compute_command (w : World) (t : thrown) :
  snd (compute_command w) = Some t
  <-> exists ast e,
        scan (concat (command w)) = Some ast /\ compute ast = Err e
        /\ t = Raised e.
Proof.
  unfold compute_command. split.
  - destruct (scan (concat (command w))) as [ast|]; [|discriminate].
    destruct (compute ast) as [c | e] eqn:Ec; [discriminate|].
    cbn [snd]. intros [= <-]. exists ast, e. auto.
  - intros [ast [e [-> [-> ->]]]]. reflexivity.
Qed.

(** The rows that the arrows read from the place of an element. *)
Lemma arrows_rows (x : Item) (i j : Z) :
  element_cell x -> getElementIndex x = (i, j) ->
  (exists row, row_at i = Some row)
  /\ (exists row, row_at (i + 1) = Some row)
  /\ (row_at (i - 1) = None ->
      x = TableElement (js "H") \/ x = TableElement (js "He")).
Proof.
  intros [a [b [Hc He]]] Hi.
  rewrite (element_index _ _ Hc He) in Hi. injection Hi as <- <-.
  pose proof (element_row _ _ Hc He) as Ha.
  split; [apply row_at_some; lia|].
  split; [apply row_at_some; lia|].
  intros Hn. destruct a as [|a].
  - exact (element_first_row _ Hc He).
  - destruct (@row_at_some (Z.of_nat (S a) - 1)) as [row Hr]; [lia|].
    congruence.
Qed.

Lemma thrown_cbFn (w : World) (key : jsstring) (cb : World -> outcome)
  (t : thrown) :
  element_cell (currentElement w) ->
  cbFn (TableKey key) = Some cb -> snd (cb w) = Some t ->
  (key = js "↑" /\ t = TypeError
   /\ (currentElement w = TableElement (js "H")
       \/ currentElement w = TableElement (js "He")))
  \/ (key = js "ENTER" /\ focusArea w = TYPE.CONSOLE
      /\ exists ast e,
           scan (concat (command w)) = Some ast /\ compute ast = Err e
           /\ t = Raised e).
Proof.
  intros Hel Hcb Ht. unfold cbFn in Hcb.
  destruct (JsString.eqb key (js "ENTER")) eqn:E1.
  { injection Hcb as <-. apply eqb_eq in E1. right.
    unfold cb_enter in Ht. destruct (focusArea w) eqn:Ef;
      try discriminate Ht.
    split; [exact E1|]. split; [reflexivity|].
    apply thrown_compute_command. exact Ht. }
  destruct (JsString.eqb key (js "↑")) eqn:E2.
  { injection Hcb as <-. apply eqb_eq in E2. left.
    unfold cb_up in Ht.
    destruct (getElementIndex (currentElement w)) as [i j] eqn:Ei.
    destruct (arrows_rows Hel Ei) as [_ [_ Hup]].
    destruct (row_at (i - 1)) as [row|].
    - match type of Ht with
      | context [if ?c then _ else _] => destruct c
      end; discriminate Ht.
    - injection Ht as <-. auto. }
  destruct (JsString.eqb key (js "DEL")).
  { injection Hcb as <-. unfold cb_del in Ht.
    repeat match type of Ht with
           | context [if ?c then _ else _] => destruct c
           end; discriminate Ht. }
  destruct (JsString.eqb key (js "[-]"));
    [injection Hcb as <-; discriminate Ht|].
  destruct (JsString.eqb key (js "←")).
  { injection Hcb as <-. unfold cb_left in Ht.
    destruct (TYPE.eqb (focusArea w) TYPE.CONSOLE); [discriminate Ht|].
    destruct (getElementIndex (currentElement w)) as [i j] eqn:Ei.
    destruct (arrows_rows Hel Ei) as [[row Hr] _]. rewrite Hr in Ht.
    match type of Ht with
    | context [if ?c then _ else _] => destruct c
    end; discriminate Ht. }
  destruct (JsString.eqb key (js "↓")).
  { injection Hcb as <-. unfold cb_down in Ht.
    destruct (getElementIndex (currentElement w)) as [i j] eqn:Ei.
    destruct (arrows_rows Hel Ei) as [_ [[row Hr] _]]. rewrite Hr in Ht.
    match type of Ht with
    | context [if ?c then _ else _] => destruct c
    end; discriminate Ht. }
  destruct (JsString.eqb key (js "→")); [|discriminate Hcb].
  injection Hcb as <-. unfold cb_right in Ht.
  destruct (TYPE.eqb (focusArea w) TYPE.CONSOLE); [discriminate Ht|].
  destruct (getElementIndex (currentElement w)) as [i j] eqn:Ei.
  destruct (arrows_rows Hel Ei) as [[row Hr] _]. rewrite Hr in Ht.
  match type of Ht with
  | context [if ?c then _ else _] => destruct c
  end; discriminate Ht.
Qed.

End EditorThrown.

(** X16: what a handler throws, the current element being an element of
    the table.  A call of the callback of [↑] throws a [TypeError] exactly
    when the current element is H or He, the elements of the first row;
    a call of the callback of [ENTER] throws the exception of [compute]
    exactly when the focus is on the console and [compute] fails on the
    scanned command; and nothing else throws: no other key, no pointer
    event, and no key pressed under the shift, whose listeners keep their
    exceptions. *)
Theorem X16_thrown (w : Editor.World) (i : Editor.input)
  (t : Editor.thrown) :
  element_cell (Editor.currentElement w) ->
  snd (Editor.handle w i) = Some t
  <-> (exists a b,
         i = Editor.Call a b /\ button_at a b "↑"
         /\ t = Editor.TypeError
         /\ (Editor.currentElement w = Editor.TableElement (js "H")
             \/ Editor.currentElement w = Editor.TableElement (js "He")))
      \/ (exists a b ast e,
            i = Editor.Call a b /\ button_at a b "ENTER"
            /\ Editor.focusArea w = Editor.TYPE.CONSOLE
            /\ scan (concat (Editor.command w)) = Some ast
            /\ compute ast = Err e /\ t = Editor.Raised e).
Proof.
  intros Hel. split.
  - destruct i as [a b | a b | a b]; cbn [Editor.handle].
    + unfold Editor.handlePointerDown.
      destruct (Editor.cell a b) as [[key | key | key | |]|];
        intros Ht; discriminate Ht.
    + unfold Editor.handlePointerUp.
      destruct (Editor.cell a b) as [[key | key | key | |]|];
        intros Ht; discriminate Ht.
    + unfold Editor.call.
      destruct (Editor.cell a b) as [[key | key | key | |]|] eqn:Ec;
        intros Ht; try discriminate Ht.
      cbn [Editor.isKey Editor.isElement Editor.type Editor.TYPE.eqb orb]
        in Ht.
      destruct (Editor.cbFn (Editor.TableKey key)) as [cb|] eqn:Ecb;
        [|discriminate Ht].
      destruct (@thrown_cbFn w key cb t Hel Ecb Ht)
        as [[-> [-> Hc]] | [-> [Hf [ast [e [Hs [He ->]]]]]]].
      * left. exists a, b. repeat split; try assumption; reflexivity.
      * right. exists a, b, ast, e.
        repeat split; try assumption; reflexivity.
  - intros [[a [b [-> [Hb [-> Hc]]]]]
           | [a [b [ast [e [-> [Hb [Hf [Hs [He ->]]]]]]]]]];
      cbn [Editor.handle]; unfold Editor.call, button_at in *;
      rewrite Hb.
    + change (snd (Editor.cb_up w) = Some Editor.TypeError).
      unfold Editor.cb_up. destruct Hc as [-> | ->]; reflexivity.
    + change (snd (Editor.cb_enter w)
              = Some (Editor.Raised e)).
      unfold Editor.cb_enter. rewrite Hf.
      apply thrown_compute_command. exists ast, e. auto.
Qed.

Lemma X16_thrown_witness :
  snd (Editor.handle (Editor.run Editor.initial [Editor.Call 0 0])
         (Editor.Call 8 16)) = Some Editor.TypeError
  <-> (exists a b,
         Editor.Call 8 16 = Editor.Call a b /\ button_at a b "↑"
         /\ Editor.TypeError = Editor.TypeError
         /\ (Editor.currentElement
               (Editor.run Editor.initial [Editor.Call 0 0])
             = Editor.TableElement (js "H")
             \/ Editor.currentElement
                  (Editor.run Editor.initial [Editor.Call 0 0])
                = Editor.TableElement (js "He")))
      \/ (exists a b ast e,
            Editor.Call 8 16 = Editor.Call a b /\ button_at a b "ENTER"
            /\ Editor.focusArea
                 (Editor.run Editor.initial [Editor.Call 0 0])
               = Editor.TYPE.CONSOLE
            /\ scan
                 (concat
                    (Editor.command
                       (Editor.run Editor.initial [Editor.Call 0 0])))
               = Some ast
            /\ compute ast = Err e /\ Editor.TypeError = Editor.Raised e).
Proof.
  apply X16_thrown.
  exists 0, 0. split; vm_compute; reflexivity.
Defined.

Section EditorTyping.
Import Editor.

Lemma state_setCursor (w : World) (idx : Z) :
  state (setCursor w idx)
  = mkState (command_ (state w))
      (Z.min (Z.max idx 0) (Z.of_nat (length (command_ (state w))) - 1))
      (currentElement_ (state w)) (focusArea_ (state w)) (shift_ (state w))
      (result_ (state w)).
Proof.
  pose proof (cursor_setCursor w idx) as H. unfold cursor in H.
  rewrite <- H. reflexivity.
Qed.

(** A key written at the cursor, the cursor then moved by [n]. *)
Lemma state_write (w : World) (key : jsstring) (n : Z) :
  on_command (state w) -> (0 < n)%Z ->
  let w1 :=
    setCommand w
      (slice (command w) 0 (Some (cursor w)) ++ [key]
         ++ slice (command w) (cursor w) None) in
  let c := Z.to_nat (cursor_ (state w)) in
  state (setCursor w1 (cursor w1 + n))
  = mkState
      (firstn c (command_ (state w)) ++ [key]
         ++ skipn c (command_ (state w)))
      (Z.min (cursor_ (state w) + n)
         (Z.of_nat (length (command_ (state w)))))
      (currentElement_ (state w)) (focusArea_ (state w)) (shift_ (state w))
      [].
Proof.
  intros H Hn w1 c. pose proof H as [Hc Hl].
  rewrite state_setCursor. subst w1.
  rewrite (command_stored w H).
  change (cursor w) with (cursor_ (state w)).
  rewrite slice_to, slice_from by lia. fold c.
  cbn [setCommand dispatchEvent state command_ cursor_ currentElement_
       focusArea_ shift_ result_ cursor].
  rewrite length_insert by lia. f_equal. lia.
Qed.

Lemma typed_cbFn (key text : jsstring) :
  typed (Some (TableKey key)) = Some text ->
  (cbFn (TableKey key) = None /\ text = key)
  \/ (cbFn (TableKey key) = Some cb_space /\ text = js " ").
Proof.
  unfold typed. destruct (JsString.eqb key (js "[-]")) eqn:E.
  - intros [= <-]. right. apply eqb_eq in E. subst key.
    split; reflexivity.
  - destruct (cbFn (TableKey key)); [discriminate|].
    intros [= <-]. left. split; reflexivity.
Qed.

(** The state after the call of the callback of a cell that writes. *)
Lemma state_call_typed (w : World) (i j : nat) (key : jsstring) :
  on_command (state w) -> shift w = false ->
  typed (cell i j) = Some key ->
  let c := Z.to_nat (cursor_ (state w)) in
  state (fst (call w i j))
  = mkState
      (firstn c (command_ (state w)) ++ [key]
         ++ skipn c (command_ (state w)))
      (Z.min (cursor_ (state w) + (if isElement (cell i j) then 2 else 1))
         (Z.of_nat (length (command_ (state w)))))
      (match cell i j with
       | Some (TableElement k) => TableElement k
       | _ => currentElement_ (state w)
       end)
      (focusArea_ (state w)) false [].
Proof.
  intros H Hs Ht c. unfold call.
  destruct (cell i j) as [[k | k | k | |]|]; try discriminate Ht.
  - injection Ht as ->.
    cbn [isKey isElement type TYPE.eqb orb cbFn fst returned].
    unfold defaultCallbackFn.
    cbn [isKey isElement isShift type TYPE.eqb orb negb].
    rewrite Hs.
    pose proof (@state_write (setCurrentElement w (Some (TableElement key)))
                  key 2 H ltac:(lia)) as E.
    cbv zeta in E. rewrite E. unfold shift in Hs.
    cbn [setCurrentElement dispatchEvent state command_ cursor_
         currentElement_ focusArea_ shift_ result_].
    rewrite Hs. reflexivity.
  - cbn [isKey isElement type TYPE.eqb orb].
    destruct (typed_cbFn _ Ht) as [[Ecb ->] | [Ecb ->]]; rewrite Ecb;
      cbn [fst returned].
    + unfold defaultCallbackFn.
      cbn [isKey isElement isShift type TYPE.eqb orb negb].
      rewrite Hs.
      pose proof (@state_write w k 1 H ltac:(lia)) as E.
      cbv zeta in E. rewrite E. unfold shift in Hs. rewrite Hs.
      reflexivity.
    + unfold cb_space. cbn [fst returned].
      pose proof (@state_write w (js " ") 1 H ltac:(lia)) as E.
      cbv zeta in E. rewrite E. unfold shift in Hs. rewrite Hs.
      reflexivity.
Qed.

(** The state after [DEL] on a command of two items at least: the item
    before the cursor is gone, or the first item when the cursor is on
    it. *)
Lemma state_cb_del (w : World) :
  on_command (state w) -> (2 <= length (command_ (state w)))%nat ->
  let c := Z.max (cursor_ (state w) - 1) 0 in
  state (fst (cb_del w))
  = mkState
      (firstn (Z.to_nat c) (command_ (state w))
         ++ skipn (S (Z.to_nat c)) (command_ (state w)))
      c (currentElement_ (state w)) (focusArea_ (state w))
      (shift_ (state w)) [].
Proof.
  intros H Hlen c. pose proof H as [Hc Hl]. unfold cb_del.
  rewrite (command_stored w H).
  replace ((length (command_ (state w)) =? 1)%nat) with false
    by (symmetry; apply Nat.eqb_neq; lia).
  cbn [andb fst returned].
  set (w1 := if (cursor w >? 0)%Z then setCursor w (cursor w - 1) else w).
  assert (H1 : on_command (state w1)).
  { subst w1. destruct (cursor w >? 0)%Z;
      [apply on_command_setCursor|]; exact H. }
  assert (Hcmd : command_ (state w1) = command_ (state w)).
  { subst w1. destruct (cursor w >? 0)%Z; reflexivity. }
  assert (Hs1 : state w1
                = mkState (command_ (state w)) c (currentElement_ (state w))
                    (focusArea_ (state w)) (shift_ (state w))
                    (result_ (state w))).
  { subst w1 c. unfold cursor.
    destruct (Z.gtb_spec (cursor_ (state w)) 0) as [Hg | Hg].
    - rewrite state_setCursor. f_equal. lia.
    - replace (Z.max (cursor_ (state w) - 1) 0) with (cursor_ (state w))
        by lia.
      destruct (state w); reflexivity. }
  assert (Hcur : cursor w1 = c) by (unfold cursor; rewrite Hs1; reflexivity).
  assert (Hc' : (0 <= c < Z.of_nat (length (command_ (state w))) - 1)%Z)
    by (subst c; lia).
  rewrite (command_stored w1 H1), Hcmd, Hcur.
  rewrite slice_to, slice_from by lia.
  replace (Z.to_nat (c + 1)) with (S (Z.to_nat c)) by lia.
  rewrite length_remove by lia.
  destruct (Z.geb_spec c (Z.of_nat (pred (length (command_ (state w))))));
    [lia|].
  unfold setCommand. cbn [dispatchEvent state]. rewrite Hs1. reflexivity.
Qed.

Lemma button_call (w : World) (a b : nat) (key : jsstring)
  (cb : World -> outcome) :
  cell a b = Some (TableKey key) -> cbFn (TableKey key) = Some cb ->
  call w a b = cb w.
Proof.
  intros Hc Hcb. unfold call. rewrite Hc.
  cbn [isKey isElement type TYPE.eqb orb]. rewrite Hcb. reflexivity.
Qed.

Lemma skipn_insert (l : list jsstring) (n : nat) (x : jsstring) :
  (n <= length l)%nat ->
  let l' := firstn n l ++ [x] ++ skipn n l in
  firstn (S n) l' = firstn n l ++ [x]
  /\ skipn (S (S n)) l' = skipn (S n) l.
Proof.
  intros Hn l'. subst l'.
  assert (Hl : length (firstn n l) = n) by (rewrite length_firstn; lia).
  split.
  - rewrite app_assoc.
    assert (Hx : length (firstn n l ++ [x]) = S n)
      by (rewrite length_app, Hl; cbn [length]; lia).
    rewrite firstn_app, Hx, Nat.sub_diag, firstn_O, app_nil_r.
    apply firstn_all2. rewrite Hx. lia.
  - rewrite skipn_app, Hl.
    rewrite skipn_all2 by lia.
    replace (S (S n) - n)%nat with 2%nat by lia.
    change (skipn 2 ([x] ++ skipn n l)) with (skipn 1 (skipn n l)).
    rewrite skipn_skipn. reflexivity.
Qed.

Lemma skipn_last (l : list jsstring) (d : jsstring) :
  l <> [] -> skipn (pred (length l)) l = [last l d].
Proof.
  intros Hl. rewrite (app_removelast_last d Hl) at 2.
  rewrite skipn_app.
  assert (E : length (removelast l) = pred (length l)).
  { rewrite (app_removelast_last d Hl) at 2.
    rewrite length_app. cbn [length]. lia. }
  rewrite <- E, skipn_all, Nat.sub_diag. reflexivity.
Qed.

End EditorTyping.

(** X17: a key that writes (a button without a callback of its own, or
    [[-]] for a blank) followed by [DEL] leaves the command and the cursor
    as they were; of the state only the stored result changes, which is
    cleared. *)
Theorem X17_write_then_delete (w : Editor.World) (i j a b : nat)
  (key : jsstring) :
  on_command (Editor.state w) -> Editor.shift w = false ->
  typed (Editor.cell i j) = Some key ->
  Editor.isElement (Editor.cell i j) = false ->
  button_at a b "DEL" ->
  Editor.state (Editor.run w [Editor.Call i j; Editor.Call a b])
  = Editor.state (Editor.setResult w []).
Proof.
  intros H Hs Ht He Hb. cbn [Editor.run fold_left Editor.handle].
  pose proof (@state_call_typed w i j key H Hs Ht) as E1. cbv zeta in E1.
  rewrite He in E1.
  pose proof (proj1 (keeps_handle w (Editor.Call i j) H)) as H1.
  cbn [Editor.handle] in H1.
  set (w1 := fst (Editor.call w i j)) in *.
  rewrite (@button_call w1 a b (js "DEL") Editor.cb_del Hb eq_refl).
  destruct H as [Hc Hl].
  assert (Hlen : length (Editor.command_ (Editor.state w1))
                 = S (length (Editor.command_ (Editor.state w)))).
  { rewrite E1. cbn [Editor.command_]. apply length_insert. lia. }
  rewrite (state_cb_del w1 H1) by lia.
  cbv zeta. rewrite E1.
  cbn [Editor.command_ Editor.cursor_ Editor.currentElement_
       Editor.focusArea_ Editor.shift_ Editor.result_].
  replace (Z.max
             (Z.min (Editor.cursor_ (Editor.state w) + 1)
                (Z.of_nat (length (Editor.command_ (Editor.state w)))) - 1)
             0)
    with (Editor.cursor_ (Editor.state w)) by lia.
  rewrite remove_insert by lia.
  assert (Em : match Editor.cell i j with
               | Some (Editor.TableElement k) => Editor.TableElement k
               | _ => Editor.currentElement_ (Editor.state w)
               end = Editor.currentElement_ (Editor.state w)).
  { destruct (Editor.cell i j) as [[k | k | k | |]|]; try reflexivity.
    discriminate He. }
  rewrite Em. unfold Editor.shift in Hs.
  unfold Editor.setResult. cbn [Editor.state]. rewrite Hs. reflexivity.
Qed.

Lemma X17_write_then_delete_witness :
  Editor.state
    (Editor.run Editor.initial [Editor.Call 9 5; Editor.Call 8 17])
  = Editor.state (Editor.setResult Editor.initial []).
Proof.
  apply (@X17_write_then_delete Editor.initial 9 5 8 17 (js "2")).
  - split; [vm_compute; split; [discriminate | reflexivity] | reflexivity].
  - reflexivity.
  - reflexivity.
  - reflexivity.
  - reflexivity.
Defined.

(** X18: an element followed by [DEL].  The element becomes the current
    element.  With the cursor on the last item of the command, the command
    and the cursor are as before the two keys.  With the cursor before
    it, the cursor has passed two items: the element stays in the command
    and the item that was under the cursor is the one deleted. *)
Theorem X18_element_then_delete (w : Editor.World) (i j a b : nat)
  (key : jsstring) :
  on_command (Editor.state w) -> Editor.shift w = false ->
  Editor.cell i j = Some (Editor.TableElement key) ->
  button_at a b "DEL" ->
  let w' := Editor.run w [Editor.Call i j; Editor.Call a b] in
  let cmd := Editor.command_ (Editor.state w) in
  let c := Editor.cursor_ (Editor.state w) in
  Editor.currentElement w' = Editor.TableElement key
  /\ (c = (Z.of_nat (length cmd) - 1)%Z ->
      Editor.command_ (Editor.state w') = cmd /\ Editor.cursor w' = c)
  /\ ((c < Z.of_nat (length cmd) - 1)%Z ->
      Editor.command_ (Editor.state w')
      = firstn (Z.to_nat c) cmd ++ [key] ++ skipn (S (Z.to_nat c)) cmd
      /\ Editor.cursor w' = (c + 1)%Z).
Proof.
  intros H Hs Hcell Hb w' cmd c. subst w'.
  cbn [Editor.run fold_left Editor.handle].
  assert (Ht : typed (Editor.cell i j) = Some key)
    by (rewrite Hcell; reflexivity).
  pose proof (@state_call_typed w i j key H Hs Ht) as E1. cbv zeta in E1.
  rewrite Hcell in E1. cbn [Editor.isElement Editor.type Editor.TYPE.eqb]
    in E1.
  pose proof (proj1 (keeps_handle w (Editor.Call i j) H)) as H1.
  cbn [Editor.handle] in H1.
  set (w1 := fst (Editor.call w i j)) in *.
  rewrite (@button_call w1 a b (js "DEL") Editor.cb_del Hb eq_refl).
  destruct H as [Hc Hl]. fold cmd c in Hc, E1.
  assert (Hlen : length (Editor.command_ (Editor.state w1))
                 = S (length cmd)).
  { rewrite E1. cbn [Editor.command_]. apply length_insert. lia. }
  pose proof (state_cb_del w1 H1 ltac:(lia)) as E2. cbv zeta in E2.
  unfold Editor.currentElement, Editor.cursor. rewrite E2, E1.
  cbn [Editor.command_ Editor.cursor_ Editor.currentElement_
       Editor.focusArea_ Editor.shift_ Editor.result_].
  split; [reflexivity|]. split; intros Hcur.
  - replace (Z.max (Z.min (c + 2) (Z.of_nat (length cmd)) - 1) 0)
      with c by lia.
    split; [|reflexivity]. apply remove_insert. lia.
  - replace (Z.max (Z.min (c + 2) (Z.of_nat (length cmd)) - 1) 0)
      with (c + 1)%Z by lia.
    split; [|reflexivity].
    replace (Z.to_nat (c + 1)) with (S (Z.to_nat c)) by lia.
    destruct (@skipn_insert cmd (Z.to_nat c) key ltac:(lia)) as [E3 E4].
    cbv zeta in E3, E4. rewrite E3, E4, <- app_assoc. reflexivity.
Qed.

Lemma X18_element_then_delete_witness :
  let w' := Editor.run Editor.initial [Editor.Call 0 0; Editor.Call 8 17] in
  let cmd := Editor.command_ (Editor.state Editor.initial) in
  let c := Editor.cursor_ (Editor.state Editor.initial) in
  Editor.currentElement w' = Editor.TableElement (js "H")
  /\ (c = (Z.of_nat (length cmd) - 1)%Z ->
      Editor.command_ (Editor.state w') = cmd /\ Editor.cursor w' = c)
  /\ ((c < Z.of_nat (length cmd) - 1)%Z ->
      Editor.command_ (Editor.state w')
      = firstn (Z.to_nat c) cmd ++ [js "H"] ++ skipn (S (Z.to_nat c)) cmd
      /\ Editor.cursor w' = (c + 1)%Z).
Proof.
  apply (@X18_element_then_delete Editor.initial 0 0 8 17 (js "H")).
  - split; [vm_compute; split; [discriminate | reflexivity] | reflexivity].
  - reflexivity.
  - reflexivity.
  - reflexivity.
Defined.

Section EditorTypingEnd.
Import Editor.

Lemma typing_at_end (cells : list (nat * nat)) (keys : list jsstring) :
  Forall2 (fun c key => typed (cell (fst c) (snd c)) = Some key) cells keys ->
  forall w : World,
    on_command (state w) -> shift w = false ->
    cursor w = (Z.of_nat (length (command_ (state w))) - 1)%Z ->
    command_ (state (run w (calls cells)))
    = removelast (command_ (state w)) ++ keys ++ [js " "]
    /\ cursor (run w (calls cells))
       = (Z.of_nat (length (command_ (state (run w (calls cells))))) - 1)%Z
    /\ shift (run w (calls cells)) = false.
Proof.
  induction 1 as [|[i j] key cells keys Ht _ IH]; intros w H Hs Hcur.
  - cbn [calls map run fold_left app]. destruct H as [Hc Hl].
    split; [|split; assumption].
    rewrite <- Hl. apply app_removelast_last.
    intros E. rewrite E in Hc. simpl in Hc. lia.
  - change (calls ((i, j) :: cells)) with (Call i j :: calls cells).
    change (run w (Call i j :: calls cells))
      with (run (fst (call w i j)) (calls cells)).
    cbn [fst snd] in Ht.
    pose proof (@state_call_typed w i j key H Hs Ht) as E1. cbv zeta in E1.
    pose proof (proj1 (keeps_handle w (Call i j) H)) as H1.
    cbn [handle] in H1.
    set (w1 := fst (call w i j)) in *.
    pose proof H as [Hc Hl]. unfold cursor in Hcur.
    assert (Hne : command_ (state w) <> []).
    { intros E. rewrite E in Hc. simpl in Hc. lia. }
    assert (Hcmd : command_ (state w1)
                   = removelast (command_ (state w)) ++ [key] ++ [js " "]).
    { rewrite E1. cbn [command_].
      replace (Z.to_nat (cursor_ (state w)))
        with (pred (length (command_ (state w)))) by lia.
      rewrite (skipn_last [] Hne), Hl.
      rewrite <- removelast_firstn_len. reflexivity. }
    assert (Hlen : length (command_ (state w1))
                   = S (length (command_ (state w)))).
    { rewrite E1. cbn [command_]. apply length_insert. lia. }
    destruct (IH w1 H1) as [I1 [I2 I3]].
    + unfold shift. rewrite E1. reflexivity.
    + unfold cursor. rewrite Hlen. rewrite E1. cbn [cursor_].
      destruct (isElement (cell i j)); lia.
    + split; [|split; assumption].
      rewrite I1, Hcmd.
      rewrite (app_assoc (removelast (command_ (state w))) [key] [js " "]).
      rewrite removelast_last, <- app_assoc. reflexivity.
Qed.

End EditorTypingEnd.

(** X19: typing at the end of the command appends.  With the cursor on the
    last item of the command, the calls of any cells that write (elements,
    buttons without a callback of their own, [[-]]) put their keys, in
    their order, before the last blank of the command, and leave the
    cursor on that blank. *)
Theorem X19_typing_appends (w : Editor.World) (cells : list (nat * nat))
  (keys : list jsstring) :
  on_command (Editor.state w) -> Editor.shift w = false ->
  Editor.cursor w
  = (Z.of_nat (length (Editor.command_ (Editor.state w))) - 1)%Z ->
  Forall2 (fun c key => typed (Editor.cell (fst c) (snd c)) = Some key)
    cells keys ->
  let w' := Editor.run w (calls cells) in
  Editor.command_ (Editor.state w')
  = removelast (Editor.command_ (Editor.state w)) ++ keys ++ [js " "]
  /\ Editor.cursor w'
     = (Z.of_nat (length (Editor.command_ (Editor.state w'))) - 1)%Z.
Proof.
  intros H Hs Hcur Hcells w'. subst w'.
  destruct (typing_at_end Hcells w H Hs Hcur) as [E1 [E2 _]].
  split; assumption.
Qed.

Lemma X19_typing_appends_witness :
  let w := Editor.run Editor.initial
             [Editor.PointerDown 0 1; Editor.Call 9 3] in
  let w' := Editor.run w (calls [(0, 0); (9, 5); (9, 14)]) in
  Editor.command_ (Editor.state w')
  = removelast (Editor.command_ (Editor.state w))
      ++ [js "H"; js "2"; js " "] ++ [js " "]
  /\ Editor.cursor w'
     = (Z.of_nat (length (Editor.command_ (Editor.state w'))) - 1)%Z.
Proof.
  apply (@X19_typing_appends
           (Editor.run Editor.initial
              [Editor.PointerDown 0 1; Editor.Call 9 3])
           [(0, 0); (9, 5); (9, 14)] [js "H"; js "2"; js " "]).
  - split; [vm_compute; split; [discriminate | reflexivity]
           | vm_compute; reflexivity].
  - vm_compute. reflexivity.
  - vm_compute. reflexivity.
  - repeat constructor.
Defined.

(** * The texts of [stringify] *)

Lemma subscript_chars (s : jsstring) :
  forallb is_subscript (flat_map subscript s) = true.
Proof.
  induction s as [|c s IH]; [reflexivity|].
  cbn [flat_map]. rewrite forallb_app, IH, andb_true_r.
  unfold subscript, Double.is_digit, is_subscript.
  destruct ((48 <=? c) && (c <=? 57))%N eqn:E.
  - apply andb_prop in E as [E1 E2].
    apply N.leb_le in E1, E2. cbn [forallb]. rewrite andb_true_r.
    apply orb_true_intro. left. apply andb_true_intro.
    split; apply N.leb_le; lia.
  - destruct (c =? 46)%N; reflexivity.
Qed.

Lemma to_string_neg (x : Double.double) :
  Double.to_string (Double.neg x) = Double.to_string x
  \/ Double.to_string (Double.neg x) = Double.c_minus :: Double.to_string x
  \/ Double.to_string x
     = Double.c_minus :: Double.to_string (Double.neg x).
Proof.
  destruct x as [s | s | | s m e]; cbn.
  - left. reflexivity.
  - destruct s; [right; right | right; left]; reflexivity.
  - left. reflexivity.
  - destruct s; [right; right | right; left]; reflexivity.
Qed.

(** X20: [num2sub] gives subscript digits and dots only, whatever the
    number: it drops the sign, so that a number and its opposite have the
    same subscript, and the letters and the sign of an exponent or of
    [Infinity] and [NaN]. *)
Theorem X20_subscript_drops_sign (n : Double.double) :
  forallb is_subscript (num2sub n) = true
  /\ num2sub (Double.neg n) = num2sub n.
Proof.
  split; [apply subscript_chars|].
  unfold num2sub.
  destruct (to_string_neg n) as [E | [E | E]]; rewrite E; reflexivity.
Qed.

(** X21: [num2super] of a number above zero is the sign [⁺] followed by
    the superscript digits of its text, and [num2super] of its opposite is
    the sign [⁻] followed by the same digits. *)
Theorem X21_superscript_sign (n : Double.double) :
  Double.gtb n Double.zero = true ->
  num2super n = js "⁺" ++ super_digits n
  /\ num2super (Double.neg n) = js "⁻" ++ super_digits n.
Proof.
  intros Hg. unfold num2super, super_digits.
  destruct n as [s | s | | s m e]; try discriminate Hg;
    destruct s; try discriminate Hg; split; reflexivity.
Qed.

Lemma X21_superscript_sign_witness :
  num2super (Double.of_Z 2) = js "⁺" ++ super_digits (Double.of_Z 2)
  /\ num2super (Double.neg (Double.of_Z 2))
     = js "⁻" ++ super_digits (Double.of_Z 2).
Proof. apply X21_superscript_sign. reflexivity. Defined.

(** The text of one token in [stringify]. *)
Lemma stringify_one (tok : Match) :
  stringify [tok] = render_token tok ++ js " ".
Proof. rewrite stringify_flat. cbn [flat_map]. apply app_nil_r. Qed.

(** X22: [stringify] goes token by token: the text of two lists of tokens
    one after the other is the text of the first followed by the text of
    the second, and the text of every token ends with a blank, so that the
    text is empty for the empty list only. *)
Theorem X22_stringify_tokens (a b : list Match) :
  stringify (a ++ b) = stringify a ++ stringify b
  /\ (forall tok, exists txt, stringify [tok] = txt ++ js " ")
  /\ (stringify a = [] <-> a = []).
Proof.
  split; [rewrite !stringify_flat; apply flat_map_app|].
  split; [intros tok; exists (render_token tok); apply stringify_one|].
  split; [|intros ->; reflexivity].
  destruct a as [|tok a]; [reflexivity|].
  rewrite stringify_flat. cbn [flat_map]. intros E.
  apply app_eq_nil in E as [E _]. apply app_eq_nil in E as [_ E].
  discriminate E.
Qed.

(** X23: in a formula, a nested bracket without an element and without a
    truthy count (as [scan] gives for a bracket that no multiplier
    follows) leaves no trace in the text: the formula reads as if the
    nested bracket were not in its body. *)
Theorem X23_uncounted_bracket (pre post : list Match) (obj : Match)
  (count charge : option Double.double) (main : bool) :
  uncounted obj ->
  stringifyFormula (formula_of (pre ++ obj :: post) count charge) main
  = stringifyFormula (formula_of (pre ++ post) count charge) main.
Proof.
  intros [Hb [He Hc]]. unfold formula_of. cbn [stringifyFormula].
  f_equal. f_equal.
  induction pre as [|p pre IH].
  - cbn [app]. rewrite He. cbn [has app].
    destruct (BRACKET obj) as [b|]; [|contradiction Hb; reflexivity].
    cbn [has]. destruct (COUNT obj) as [c|]; [rewrite Hc|]; reflexivity.
  - cbn [app]. rewrite IH. reflexivity.
Qed.

Lemma X23_uncounted_bracket_witness :
  stringifyFormula
    (formula_of
       ([element_token (js "Na") None]
          ++ formula_of [element_token (js "O") None;
                         element_token (js "H") None] None None
          :: [])
       None None) true
  = stringifyFormula
      (formula_of ([element_token (js "Na") None] ++ []) None None) true.
Proof.
  apply X23_uncounted_bracket.
  split; [discriminate|]. split; [reflexivity | exact I].
Defined.

(** * Meshes *)

Section MeshProofs.
Import Mesh.

Lemma set_at_fits (target source : list N) (offset : nat) :
  offset + length source <= length target ->
  set_at target source offset
  = Some (firstn offset target ++ source
            ++ skipn (offset + length source) target).
Proof.
  intros H. unfold set_at.
  destruct (Nat.ltb_spec (length target) (offset + length source));
    [lia | reflexivity].
Qed.

Lemma set_rows_spec (T w off : nat) :
  off + w <= T ->
  forall arr m : TwoDimUint8,
    length arr <= length m ->
    (forall r, In r arr -> length r = T) ->
    (forall r, In r m -> length r = w) ->
    exists arr',
      set_rows arr m off = Returned arr'
      /\ length arr' = length arr
      /\ forall i, i < length arr ->
           nth i arr' []
           = firstn off (nth i arr []) ++ nth i m []
               ++ skipn (off + w) (nth i arr []).
Proof.
  intros Hw. induction arr as [|target arr IH]; intros m Hlen Ha Hm.
  - exists []. split; [reflexivity|]. split; [reflexivity|].
    intros i Hi. simpl in Hi. lia.
  - destruct m as [|source m]; [simpl in Hlen; lia|].
    cbn [set_rows].
    assert (Hs : length source = w) by (apply Hm; left; reflexivity).
    assert (Ht : length target = T) by (apply Ha; left; reflexivity).
    rewrite set_at_fits by lia.
    destruct (IH m) as [rest [E [L Hn]]].
    + simpl in Hlen. lia.
    + intros r Hr. apply Ha. right. exact Hr.
    + intros r Hr. apply Hm. right. exact Hr.
    + rewrite E. eexists. split; [reflexivity|].
      split; [simpl; rewrite L; reflexivity|].
      intros [|i] Hi; [rewrite Hs; reflexivity|].
      cbn [nth]. apply Hn. simpl in Hi. lia.
Qed.

Lemma set_rows_short (T w off : nat) :
  off + w <= T ->
  forall arr m : TwoDimUint8,
    length m < length arr ->
    (forall r, In r arr -> length r = T) ->
    (forall r, In r m -> length r = w) ->
    set_rows arr m off = Thrown TypeError.
Proof.
  intros Hw. induction arr as [|target arr IH]; intros m Hlen Ha Hm.
  - simpl in Hlen. lia.
  - destruct m as [|source m]; [reflexivity|].
    cbn [set_rows].
    assert (Hs : length source = w) by (apply Hm; left; reflexivity).
    assert (Ht : length target = T) by (apply Ha; left; reflexivity).
    rewrite set_at_fits by lia.
    rewrite IH; [reflexivity | simpl in Hlen; lia | |].
    + intros r Hr. apply Ha. right. exact Hr.
    + intros r Hr. apply Hm. right. exact Hr.
Qed.

Lemma widths_uniform (mat : list TwoDimUint8) :
  Forall uniform mat ->
  widths mat = Some (map (fun m => length (nth 0 m [])) mat).
Proof.
  induction 1 as [|m mat [Hm _] _ IH]; [reflexivity|].
  cbn [widths map]. destruct m as [|r m]; [contradiction Hm; reflexivity|].
  rewrite IH. reflexivity.
Qed.

Lemma widths_none (mat : list TwoDimUint8) :
  In [] mat -> widths mat = None.
Proof.
  induction mat as [|m mat IH]; intros H; [destruct H|].
  cbn [widths]. destruct H as [-> | H]; [reflexivity|].
  destruct m; [reflexivity|]. rewrite (IH H). reflexivity.
Qed.

Lemma fold_add (l : list nat) (a : nat) :
  fold_left Nat.add l a = a + fold_left Nat.add l 0.
Proof.
  revert a. induction l as [|x l IH]; intros a; cbn [fold_left]; [lia|].
  rewrite (IH (a + x)), (IH (0 + x)). lia.
Qed.

Lemma skipn_repeat {A} (x : A) (n m : nat) :
  skipn n (repeat x m) = repeat x (m - n).
Proof.
  revert m. induction n as [|n IH]; intros m.
  - rewrite Nat.sub_0_r. reflexivity.
  - destruct m as [|m]; [reflexivity|]. cbn [repeat skipn]. apply IH.
Qed.

Lemma concat_from_spec (rows : nat) (mat : list TwoDimUint8) :
  Forall uniform mat ->
  forall (l offset T : nat) (arr : TwoDimUint8) (done : nat -> list N),
    T = offset + l
        + fold_left Nat.add (map (fun m => length (nth 0 m [])) mat) 0 ->
    length arr = rows ->
    written T (offset + l) arr done ->
    (Forall (fun m => rows <= length m) mat ->
     exists arr',
       concat_from mat (l :: map (fun m => length (nth 0 m [])) mat)
         offset arr = Returned arr'
       /\ length arr' = rows
       /\ forall i, i < rows ->
            nth i arr' [] = done i ++ joined_row mat i)
    /\ (~ Forall (fun m => rows <= length m) mat ->
        concat_from mat (l :: map (fun m => length (nth 0 m [])) mat)
          offset arr = Thrown TypeError).
Proof.
  induction 1 as [|m mat [Hne Hu] Hrest IH];
    intros l offset T arr done HT Hlen [Hlens Hw].
  - split.
    + intros _. exists arr. split; [reflexivity|]. split; [exact Hlen|].
      intros i Hi. unfold joined_row. cbn [map concat].
      rewrite app_nil_r. cbn [map fold_left] in HT.
      destruct (Hw i ltac:(lia)) as [E _]. rewrite <- E.
      rewrite firstn_all2; [reflexivity|].
      rewrite (Hlens (nth i arr [])); [lia|]. apply nth_In. lia.
    + intros Hn. contradiction Hn. constructor.
  - cbn [map] in *. cbn [fold_left] in HT. rewrite fold_add in HT.
    set (w := length (nth 0 m [])) in *.
    set (rest := map (fun m0 : TwoDimUint8 => length (nth 0 m0 [])) mat)
      in *.
    cbn [concat_from].
    destruct (Nat.le_gt_cases rows (length m)) as [Hm | Hm].
    + destruct (@set_rows_spec T w (offset + l) ltac:(lia) arr m)
        as [arr1 [E1 [L1 N1]]]; [lia | exact Hlens | exact Hu|].
      rewrite E1.
      assert (W1 : written T (offset + l + w) arr1
                     (fun i => done i ++ nth i m [])).
      { split.
        - intros r Hr. apply (In_nth _ _ []) in Hr as [i [Hi <-]].
          rewrite N1 by lia.
          assert (Hr : length (nth i arr []) = T)
            by (apply Hlens; apply nth_In; lia).
          rewrite !length_app, length_firstn, length_skipn, Hr.
          rewrite (Hu (nth i m [])) by (apply nth_In; lia). fold w. lia.
        - intros i Hi. rewrite N1 by lia.
          destruct (Hw i ltac:(lia)) as [F S].
          assert (Hr : length (nth i arr []) = T)
            by (apply Hlens; apply nth_In; lia).
          assert (Hf : length (firstn (offset + l) (nth i arr []))
                       = offset + l) by (rewrite length_firstn; lia).
          assert (Hmi : length (nth i m []) = w)
            by (apply Hu; apply nth_In; lia).
          rewrite app_assoc. split.
          + rewrite firstn_app.
            rewrite length_app, Hf, Hmi, Nat.sub_diag, firstn_O, app_nil_r.
            rewrite firstn_all2 by (rewrite length_app, Hf, Hmi; lia).
            rewrite F. reflexivity.
          + rewrite skipn_app.
            rewrite length_app, Hf, Hmi, Nat.sub_diag.
            rewrite skipn_all2 by (rewrite length_app, Hf, Hmi; lia).
            cbn [skipn app].
            rewrite Nat.add_comm, <- skipn_skipn, S, skipn_repeat.
            f_equal. lia. }
      destruct (IH w (offset + l) T arr1 (fun i => done i ++ nth i m []))
        as [IHok IHerr]; [lia | lia | exact W1|].
      split.
      * intros Hall. inversion Hall as [|? ? _ Hall']; subst.
        destruct (IHok Hall') as [arr' [E [L N]]].
        exists arr'. split; [exact E|]. split; [exact L|].
        intros i Hi. rewrite (N i Hi). unfold joined_row. cbn [map concat].
        rewrite app_assoc. reflexivity.
      * intros Hn. apply IHerr. intros Hall'. apply Hn.
        constructor; assumption.
    + split.
      * intros Hall. inversion Hall; subst. lia.
      * intros _.
        rewrite (@set_rows_short T w (offset + l) ltac:(lia) arr m);
          [reflexivity | lia | exact Hlens | exact Hu].
Qed.

End MeshProofs.

(** X24: [horConcat] on matrices that each have a first row and rows of
    one width.  When none has fewer rows than the first matrix, it returns
    a matrix of as many rows as the first, whose row [i] is the rows [i]
    of the matrices one after the other; otherwise it throws a
    [TypeError]. *)
Theorem X24_horConcat_rows (first : Mesh.TwoDimUint8)
  (rest : list Mesh.TwoDimUint8) :
  Forall uniform (first :: rest) ->
  (Forall (fun m => length first <= length m) (first :: rest) ->
   exists arr,
     Mesh.horConcat (first :: rest) = Mesh.Returned arr
     /\ length arr = length first
     /\ forall i, i < length first ->
          nth i arr [] = joined_row (first :: rest) i)
  /\ (~ Forall (fun m => length first <= length m) (first :: rest) ->
      Mesh.horConcat (first :: rest) = Mesh.Thrown Mesh.TypeError).
Proof.
  intros Hu. unfold Mesh.horConcat.
  rewrite (widths_uniform Hu). cbv zeta.
  set (len := map (fun m : Mesh.TwoDimUint8 => length (nth 0 m []))
                (first :: rest)).
  set (T := fold_left Nat.add len 0).
  apply (@concat_from_spec (length first) (first :: rest) Hu 0 0 T
           (repeat (repeat 0%N T) (length first)) (fun _ => [])).
  - reflexivity.
  - apply repeat_length.
  - split.
    + intros r Hr. apply repeat_spec in Hr. subst r. apply repeat_length.
    + intros i Hi. rewrite repeat_length in Hi.
      rewrite nth_repeat_lt by exact Hi. cbn [Nat.add firstn skipn].
      split; [reflexivity|]. f_equal. lia.
Qed.

Lemma X24_horConcat_rows_witness :
  (Forall (fun m => length mesh_a <= length m) [mesh_a; mesh_b] ->
   exists arr,
     Mesh.horConcat [mesh_a; mesh_b] = Mesh.Returned arr
     /\ length arr = length mesh_a
     /\ forall i, i < length mesh_a ->
          nth i arr [] = joined_row [mesh_a; mesh_b] i)
  /\ (~ Forall (fun m => length mesh_a <= length m) [mesh_a; mesh_b] ->
      Mesh.horConcat [mesh_a; mesh_b] = Mesh.Thrown Mesh.TypeError).
Proof.
  apply X24_horConcat_rows.
  repeat constructor; try discriminate;
    intros r [<- | [<- | []]]; reflexivity.
Defined.

(** * Lines *)

Section LinesProofs.
Import Lines.

Lemma currSize_push (meshSizes chunk : list nat) (idx : nat) :
  currSize meshSizes (chunk ++ [idx])
  = currSize meshSizes chunk + nth idx meshSizes 0.
Proof. unfold currSize. rewrite fold_left_app. reflexivity. Qed.

Lemma split_loop_spec (meshSizes : list nat) (todo : nat) :
  forall (done : list (list nat)) (chunk : list nat) (currIdx : nat),
    concat (done ++ [chunk]) = seq 0 currIdx ->
    Forall (fits meshSizes) done ->
    (length chunk <= 1 \/ currSize meshSizes chunk < 307) ->
    concat (split_loop meshSizes todo done chunk currIdx)
    = seq 0 (currIdx + todo)
    /\ Forall (fits meshSizes)
         (split_loop meshSizes todo done chunk currIdx).
Proof.
  induction todo as [|todo IH]; intros done chunk currIdx Hc Hd Hk.
  - cbn [split_loop]. rewrite Nat.add_0_r.
    destruct chunk as [|x chunk]; cbn [length Nat.eqb].
    + rewrite concat_app in Hc. cbn [concat] in Hc.
      rewrite app_nil_r in Hc. split; assumption.
    + split; [exact Hc|]. apply Forall_app. split; [exact Hd|].
      constructor; [|constructor]. intros H2.
      destruct Hk as [Hk | Hk]; [lia | exact Hk].
  - cbn [split_loop].
    replace (currIdx + S todo) with (S currIdx + todo) by lia.
    change (15 * (nmc + 1) - 1 - 7) with 307.
    destruct (Nat.ltb_spec
                (currSize meshSizes chunk + nth currIdx meshSizes 0) 307)
      as [Hlt | Hge].
    + apply IH.
      * rewrite concat_app in *. cbn [concat] in *.
        rewrite app_nil_r in *. rewrite app_assoc, Hc.
        rewrite seq_S. reflexivity.
      * exact Hd.
      * right. rewrite currSize_push. exact Hlt.
    + apply IH.
      * rewrite concat_app. cbn [concat]. rewrite Hc.
        rewrite seq_S. reflexivity.
      * apply Forall_app. split; [exact Hd|].
        constructor; [|constructor]. intros H2.
        destruct Hk as [Hk | Hk]; [lia | exact Hk].
      * left. cbn [length]. lia.
Qed.

Lemma findIndex_some {A} (p : A -> bool) (l : list A) (k : nat) :
  findIndex p l = Some k ->
  exists x, nth_error l k = Some x /\ p x = true.
Proof.
  revert k. induction l as [|x l IH]; intros k; [discriminate|].
  cbn [findIndex]. destruct (p x) eqn:E.
  - intros [= <-]. exists x. split; [reflexivity | exact E].
  - destruct (findIndex p l) as [i|]; [|discriminate].
    intros [= <-]. apply (IH i). reflexivity.
Qed.

Lemma findIndex_exists {A} (p : A -> bool) (l : list A) (x : A) :
  In x l -> p x = true -> exists k, findIndex p l = Some k.
Proof.
  intros Hin Hp. destruct (findIndex p l) as [k|] eqn:E;
    [exists k; reflexivity|].
  apply findIndex_none in E.
  assert (Hf : In x (filter p l)) by (apply filter_In; split; assumption).
  rewrite E in Hf. destruct Hf.
Qed.

End LinesProofs.

(** X25: the lines of the console.  [drawConsole] puts the index of every
    mesh in one line, the indices in their order; a line of more than one
    mesh takes less than 307 columns; and the line of the cursor, which
    [drawConsole] reads without a test, exists exactly when the cursor is
    the index of a mesh, and holds that index. *)
Theorem X25_console_chunks (meshSizes : list nat) (cursor : Z) :
  concat (Lines.chunks meshSizes) = seq 0 (length meshSizes)
  /\ Forall (fits meshSizes) (Lines.chunks meshSizes)
  /\ ((0 <= cursor < Z.of_nat (length meshSizes))%Z
      <-> exists k chunk,
            Lines.chunkToView (Lines.chunks meshSizes) cursor = Some k
            /\ nth_error (Lines.chunks meshSizes) k = Some chunk
            /\ In (Z.to_nat cursor) chunk).
Proof.
  destruct (@split_loop_spec meshSizes (length meshSizes) [] [] 0)
    as [Hc Hf]; [reflexivity | constructor | left; simpl; lia|].
  fold (Lines.chunks meshSizes) in Hc, Hf. cbn [Nat.add] in Hc.
  split; [exact Hc|]. split; [exact Hf|].
  assert (Hin : forall idx,
             (exists chunk, In chunk (Lines.chunks meshSizes)
                            /\ In idx chunk)
             <-> idx < length meshSizes).
  { intros idx. rewrite <- in_concat, Hc, in_seq. lia. }
  unfold Lines.chunkToView. split.
  - intros Hcur.
    destruct (proj2 (Hin (Z.to_nat cursor)) ltac:(lia)) as [chunk [H1 H2]].
    assert (Hp : existsb (fun idx => (Z.of_nat idx =? cursor)%Z) chunk
                 = true).
    { apply existsb_exists. exists (Z.to_nat cursor).
      split; [exact H2 | apply Z.eqb_eq; lia]. }
    destruct (findIndex_exists _ _ _ H1 Hp) as [k Hk].
    destruct (findIndex_some _ _ Hk) as [c [Hn Hpc]].
    exists k, c. split; [exact Hk|]. split; [exact Hn|].
    apply existsb_exists in Hpc as [idx [Hi He]].
    apply Z.eqb_eq in He. subst cursor. rewrite Nat2Z.id. exact Hi.
  - intros [k [chunk [Hk [Hn Hi]]]].
    destruct (findIndex_some _ _ Hk) as [c [Hn' Hpc]].
    apply existsb_exists in Hpc as [idx [Hidx He]].
    apply Z.eqb_eq in He. subst cursor.
    assert (idx < length meshSizes).
    { apply Hin. exists c. split; [|exact Hidx].
      eapply nth_error_In. exact Hn'. }
    lia.
Qed.

Section OutputProofs.
Import Mesh Lines.

Lemma line_columns_push (line : list TwoDimUint8) (mat : TwoDimUint8) :
  line_columns (line ++ [mat]) = line_columns line + columns mat.
Proof. unfold line_columns. rewrite fold_left_app. reflexivity. Qed.

Lemma widths_columns (meshes : list TwoDimUint8) :
  Forall (fun mat => mat <> []) meshes ->
  widths meshes = Some (map columns meshes).
Proof.
  induction 1 as [|m meshes Hm _ IH]; [reflexivity|].
  cbn [widths map]. destruct m as [|r m]; [contradiction Hm; reflexivity|].
  rewrite IH. reflexivity.
Qed.

Lemma tl_app_nonempty {A} (l l' : list A) :
  l <> [] -> tl (l ++ l') = tl l ++ l'.
Proof. destruct l; [intros H; contradiction H|]; reflexivity. Qed.

Lemma hd_app_nonempty {A} (l l' : list A) (d : A) :
  l <> [] -> hd d (l ++ l') = hd d l.
Proof. destruct l; [intros H; contradiction H|]; reflexivity. Qed.

Lemma segment_loop_spec (meshes : list TwoDimUint8) :
  forall (lines : list (list TwoDimUint8)) (current : list TwoDimUint8),
    Forall fits_output lines ->
    (length current <= 1 \/ line_columns current < 209) ->
    (forall line, In line (tl (lines ++ [current])) -> line <> []) ->
    let out := segment_loop meshes (map columns meshes) lines current
                 (line_columns current) in
    concat out = concat (lines ++ [current]) ++ meshes
    /\ Forall fits_output out
    /\ (forall line, In line (tl out) -> line <> [])
    /\ (lines <> [] -> hd [] out = hd [] lines)
    /\ (lines = [] -> current <> [] -> hd [] out <> []).
Proof.
  induction meshes as [|mat meshes IH];
    intros lines current Hf Hk Hn out; subst out.
  - cbn [map segment_loop]. rewrite app_nil_r.
    split; [reflexivity|]. split.
    { apply Forall_app. split; [exact Hf|]. constructor; [|constructor].
      intros H2. destruct Hk as [Hk | Hk]; [lia | exact Hk]. }
    split; [exact Hn|]. split.
    + intros Hl. apply hd_app_nonempty. exact Hl.
    + intros -> Hc. exact Hc.
  - cbn [map segment_loop].
    change (10 * (nmc + 1) - 1) with 209.
    destruct (Nat.ltb_spec (line_columns current + columns mat) 209)
      as [Hlt | Hge].
    + rewrite <- line_columns_push.
      destruct (IH lines (current ++ [mat])) as [I1 [I2 [I3 [I4 I5]]]].
      * exact Hf.
      * right. rewrite line_columns_push. exact Hlt.
      * intros line Hl. destruct lines as [|l lines]; [destruct Hl|].
        cbn [app tl] in Hl, Hn. apply in_app_or in Hl as [Hl | Hl].
        -- apply Hn. apply in_or_app. left. exact Hl.
        -- destruct Hl as [<- | []]. destruct current; discriminate.
      * split.
        { rewrite I1, !concat_app. cbn [concat].
          rewrite !app_nil_r, <- !app_assoc. reflexivity. }
        split; [exact I2|]. split; [exact I3|]. split; [exact I4|].
        intros Hl _. apply I5; [exact Hl|]. destruct current; discriminate.
    + assert (E : columns mat = line_columns [mat]) by reflexivity.
      rewrite E.
      destruct (IH (lines ++ [current]) [mat]) as [I1 [I2 [I3 [I4 _]]]].
      * apply Forall_app. split; [exact Hf|]. constructor; [|constructor].
        intros H2. destruct Hk as [Hk | Hk]; [lia | exact Hk].
      * left. cbn [length]. lia.
      * intros line Hl.
        rewrite tl_app_nonempty in Hl by (destruct lines; discriminate).
        apply in_app_or in Hl as [Hl | Hl]; [apply Hn; exact Hl|].
        destruct Hl as [<- | []]. discriminate.
      * split.
        { rewrite I1, !concat_app. cbn [concat].
          rewrite !app_nil_r, <- !app_assoc. reflexivity. }
        split; [exact I2|]. split; [exact I3|].
        assert (Hne : lines ++ [current] <> [])
          by (destruct lines; discriminate).
        specialize (I4 Hne). split.
        -- intros Hl. rewrite I4. apply hd_app_nonempty. exact Hl.
        -- intros -> Hc. rewrite I4. exact Hc.
Qed.

End OutputProofs.

(** X26: the lines of the output.  On meshes that each have a first row,
    [drawOutput] splits the meshes of the words into lines that hold them
    all, in their order; a line of more than one mesh takes less than 209
    columns; no line after the first is empty; and the first line is
    empty, which [drawOutput] reads as an output without words, exactly
    when there is no mesh or the first mesh takes 209 columns or more. *)
Theorem X26_output_lines (meshes : list Mesh.TwoDimUint8) :
  Forall (fun mat => mat <> []) meshes ->
  exists lines,
    Lines.segmented_lines meshes = Some lines
    /\ concat lines = meshes
    /\ Forall fits_output lines
    /\ (forall line, In line (tl lines) -> line <> [])
    /\ (hd [] lines = []
        <-> meshes = [] \/ 209 <= columns (hd [] meshes)).
Proof.
  intros Hm. unfold Lines.segmented_lines.
  rewrite (widths_columns Hm). eexists. split; [reflexivity|].
  destruct meshes as [|mat meshes].
  - cbn. split; [reflexivity|]. split.
    + constructor; [|constructor]. intros H. simpl in H. lia.
    + split; [intros line []|]. split; [left; reflexivity | reflexivity].
  - cbn [map Lines.segment_loop Nat.add hd app].
    change (10 * (Lines.nmc + 1) - 1) with 209.
    destruct (Nat.ltb_spec (columns mat) 209) as [Hlt | Hge].
    + destruct (@segment_loop_spec meshes [] [mat])
        as [I1 [I2 [I3 [_ I5]]]].
      * constructor.
      * left. cbn [length]. lia.
      * intros line [].
      * change (line_columns [mat]) with (columns mat) in *.
        split; [rewrite I1; reflexivity|]. split; [exact I2|].
        split; [exact I3|]. split.
        -- intros E. exfalso. apply (I5 eq_refl); [discriminate | exact E].
        -- intros [E | E]; [discriminate E | lia].
    + destruct (@segment_loop_spec meshes [[]] [mat])
        as [I1 [I2 [I3 [I4 _]]]].
      * constructor; [|constructor]. intros H. simpl in H. lia.
      * left. cbn [length]. lia.
      * intros line [<- | []]. discriminate.
      * change (line_columns [mat]) with (columns mat) in *.
        split; [rewrite I1; reflexivity|]. split; [exact I2|].
        split; [exact I3|]. split.
        -- intros _. right. exact Hge.
        -- intros _. apply I4. discriminate.
Qed.

Lemma X26_output_lines_witness :
  exists lines,
    Lines.segmented_lines [mesh_a; mesh_b] = Some lines
    /\ concat lines = [mesh_a; mesh_b]
    /\ Forall fits_output lines
    /\ (forall line, In line (tl lines) -> line <> [])
    /\ (hd [] lines = []
        <-> [mesh_a; mesh_b] = [] \/ 209 <= columns (hd [] [mesh_a; mesh_b])).
Proof.
  apply X26_output_lines. repeat constructor; discriminate.
Defined.

(** * Padding and colours *)

Section PaddingProofs.
Import Mesh.

Lemma new_row_some (n : Z) :
  (0 <= n)%Z -> new_row n = Some (repeat 0%N (Z.to_nat n)).
Proof.
  intros H. unfold new_row. destruct (Z.ltb_spec n 0); [lia | reflexivity].
Qed.

Lemma new_rows_repeat (n count : Z) :
  (0 <= n)%Z -> (0 <= count)%Z ->
  new_rows n count
  = Returned (repeat (repeat 0%N (Z.to_nat n)) (Z.to_nat count)).
Proof.
  intros Hn Hc. unfold new_rows. destruct (Z.ltb_spec 0 count).
  - rewrite new_row_some by exact Hn. reflexivity.
  - replace count with 0%Z by lia. reflexivity.
Qed.

Lemma firstn_repeat {A} (x : A) (n m : nat) :
  n <= m -> firstn n (repeat x m) = repeat x n.
Proof.
  revert m. induction n as [|n IH]; intros m H; [reflexivity|].
  destruct m as [|m]; [lia|]. cbn [repeat firstn]. rewrite IH by lia.
  reflexivity.
Qed.

Lemma pad_rows_spec (n left : nat) (w : nat) (mat : TwoDimUint8) :
  (forall r, In r mat -> length r = w) -> left + w <= n ->
  pad_rows mat (Z.of_nat n) (Z.of_nat left)
  = Returned
      (map (fun r => repeat 0%N left ++ r ++ repeat 0%N (n - w - left))
         mat).
Proof.
  intros Hw Hn. induction mat as [|temp mat IH]; [reflexivity|].
  cbn [pad_rows map]. rewrite new_row_some by lia.
  destruct (Z.ltb_spec (Z.of_nat left) 0); [lia|].
  rewrite !Nat2Z.id.
  assert (Ht : length temp = w) by (apply Hw; left; reflexivity).
  rewrite set_at_fits by (rewrite repeat_length; lia).
  rewrite IH by (intros r Hr; apply Hw; right; exact Hr).
  rewrite firstn_repeat by lia. rewrite skipn_repeat, Ht.
  replace (n - (left + w)) with (n - w - left) by lia. reflexivity.
Qed.

End PaddingProofs.

(** X27: [makeRectangle] on a matrix of [nR] rows of [nC] columns each,
    asked for no less than it has ([nR <= h], [nC <= w] once the span of
    the item is taken into account).  When [h] is [nR] and [w] is [nC] the
    matrix stays as it is, whatever the span.  Otherwise the matrix
    becomes one of [h] rows of [w] columns with the old one in its
    middle, zeros around it. *)
Theorem X27_makeRectangle_centres (mat : Mesh.TwoDimUint8) (h w : nat)
  (span : option Z) :
  one_width mat ->
  length mat <= h ->
  (Z.of_nat (length (nth 0 mat [])) <= spanned (Z.of_nat w) span)%Z ->
  let w' := Z.to_nat (spanned (Z.of_nat w) span) in
  let out := if (h =? length mat) && (w =? length (nth 0 mat []))
             then mat else centred mat h w' in
  Mesh.makeRectangle mat (Z.of_nat h) (Z.of_nat w) span = Mesh.Returned out
  /\ ((h =? length mat) && (w =? length (nth 0 mat [])) = false ->
      length out = h /\ forall r, In r out -> length r = w').
Proof.
  intros Hu Hh Hw w' out. subst out.
  set (nR := length mat) in *. set (nC := length (nth 0 mat [])) in *.
  assert (HnC : match mat with
                | r :: _ => Z.of_nat (length r)
                | [] => 0%Z
                end = Z.of_nat nC)
    by (subst nC; destruct mat; reflexivity).
  unfold Mesh.makeRectangle. fold nR. rewrite HnC.
  fold (spanned (Z.of_nat w) span).
  assert (Hs : spanned (Z.of_nat w) span = Z.of_nat w') by (subst w'; lia).
  rewrite Hs in *.
  replace ((Z.of_nat h =? Z.of_nat nR)%Z) with (h =? nR)
    by (destruct (Nat.eqb_spec h nR), (Z.eqb_spec (Z.of_nat h) (Z.of_nat nR));
        try reflexivity; lia).
  replace ((Z.of_nat w =? Z.of_nat nC)%Z) with (w =? nC)
    by (destruct (Nat.eqb_spec w nC), (Z.eqb_spec (Z.of_nat w) (Z.of_nat nC));
        try reflexivity; lia).
  destruct ((h =? nR) && (w =? nC)) eqn:Eq.
  { split; [reflexivity | discriminate]. }
  destruct (Z.ltb_spec (Z.of_nat h) (Z.of_nat nR)); [lia|].
  destruct (Z.ltb_spec (Z.of_nat w') (Z.of_nat nC)); [lia|].
  cbn [orb].
  assert (Hcent : Mesh.addPadding mat
                    ((Z.of_nat w' - Z.of_nat nC) / 2)
                    ((Z.of_nat h - Z.of_nat nR) / 2)
                    (- ((Z.of_nat nC - Z.of_nat w') / 2))
                    (- ((Z.of_nat nR - Z.of_nat h) / 2))
                  = Mesh.Returned (centred mat h w')).
  { unfold Mesh.addPadding.
    set (left := ((Z.of_nat w' - Z.of_nat nC) / 2)%Z).
    set (right := (- ((Z.of_nat nC - Z.of_nat w') / 2))%Z).
    set (top := ((Z.of_nat h - Z.of_nat nR) / 2)%Z).
    set (bottom := (- ((Z.of_nat nR - Z.of_nat h) / 2))%Z).
    assert (Hl : left = Z.of_nat ((w' - nC) / 2)).
    { subst left. rewrite Nat2Z.inj_div, Nat2Z.inj_sub by lia.
      reflexivity. }
    assert (Ht : top = Z.of_nat ((h - nR) / 2)).
    { subst top. rewrite Nat2Z.inj_div, Nat2Z.inj_sub by lia.
      reflexivity. }
    assert (Hr : (left + right = Z.of_nat w' - Z.of_nat nC)%Z).
    { subst left right. Z.div_mod_to_equations. lia. }
    assert (Hb : (top + bottom = Z.of_nat h - Z.of_nat nR)%Z).
    { subst top bottom. Z.div_mod_to_equations. lia. }
    assert (Hl0 : (0 <= left)%Z) by (rewrite Hl; lia).
    assert (Ht0 : (0 <= top)%Z) by (rewrite Ht; lia).
    assert (Hr0 : (0 <= right)%Z).
    { subst right. Z.div_mod_to_equations. lia. }
    assert (Hb0 : (0 <= bottom)%Z).
    { subst bottom. Z.div_mod_to_equations. lia. }
    assert (Hle : (w' - nC) / 2 <= w' - nC)
      by (apply Nat.Div0.div_le_upper_bound; lia).
    assert (Hn : match mat with
                 | r :: _ => (Z.of_nat (length r) + left + right)%Z
                 | [] => (left + right)%Z
                 end = Z.of_nat w').
    { destruct mat as [|r mat].
      - subst nC. cbn [nth length] in *. lia.
      - subst nC. cbn [nth] in *. lia. }
    rewrite Hn. rewrite Hl at 1.
    rewrite (@pad_rows_spec w' ((w' - nC) / 2) nC mat Hu) by lia.
    rewrite !new_rows_repeat by lia.
    rewrite !Nat2Z.id. unfold centred. fold nR nC.
    replace (Z.to_nat top) with ((h - nR) / 2) by lia.
    replace (Z.to_nat bottom) with (h - nR - (h - nR) / 2) by lia.
    reflexivity. }
  split; [exact Hcent|]. intros _.
  unfold centred. fold nR nC. split.
  - rewrite !length_app, !repeat_length, length_map. fold nR.
    assert ((h - nR) / 2 <= h - nR)
      by (apply Nat.Div0.div_le_upper_bound; lia).
    lia.
  - intros r Hr.
    assert (Hle : (w' - nC) / 2 <= w' - nC)
      by (apply Nat.Div0.div_le_upper_bound; lia).
    apply in_app_or in Hr as [Hr | Hr];
      [apply repeat_spec in Hr; subst r; apply repeat_length|].
    apply in_app_or in Hr as [Hr | Hr];
      [|apply repeat_spec in Hr; subst r; apply repeat_length].
    apply in_map_iff in Hr as [r0 [<- Hr0]].
    rewrite !length_app, !repeat_length, (Hu r0 Hr0). fold nC. lia.
Qed.

Lemma X27_makeRectangle_centres_witness :
  let w' := Z.to_nat (spanned (Z.of_nat 5) None) in
  let out := if (4 =? length mesh_a) && (5 =? length (nth 0 mesh_a []))
             then mesh_a else centred mesh_a 4 w' in
  Mesh.makeRectangle mesh_a (Z.of_nat 4) (Z.of_nat 5) None
  = Mesh.Returned out
  /\ ((4 =? length mesh_a) && (5 =? length (nth 0 mesh_a [])) = false ->
      length out = 4 /\ forall r, In r out -> length r = w').
Proof.
  apply (@X27_makeRectangle_centres mesh_a 4 5 None).
  - intros r [<- | [<- | []]]; reflexivity.
  - simpl. lia.
  - simpl. lia.
Defined.

Section InvertProofs.
Import Mesh.

Lemma invert_row_full (row : list N) :
  invert_row (length row) row
  = map (fun c => if (c =? 0)%N then 1%N else 0%N) row.
Proof.
  unfold invert_row. rewrite firstn_all, skipn_all. apply app_nil_r.
Qed.

Lemma invert_rows (n : nat) (mat : TwoDimUint8) :
  (forall r, In r mat -> length r = n) ->
  map (invert_row n) mat
  = map (map (fun c => if (c =? 0)%N then 1%N else 0%N)) mat.
Proof.
  intros H. apply map_ext_in. intros r Hr. rewrite <- (H r Hr).
  apply invert_row_full.
Qed.

Lemma invertColor_rows (n : nat) (mat : TwoDimUint8) :
  mat <> [] -> (forall r, In r mat -> length r = n) ->
  invertColor mat
  = Returned (map (map (fun c => if (c =? 0)%N then 1%N else 0%N)) mat).
Proof.
  intros Hne H. destruct mat as [|first rest];
    [contradiction Hne; reflexivity|].
  unfold invertColor. rewrite (H first) by (left; reflexivity).
  rewrite (invert_rows _ H). reflexivity.
Qed.

End InvertProofs.

(** X28: [invertColor] on a matrix with a first row, rows of one width
    and cells that are 0 or 1: every cell becomes the other of 0 and 1,
    the matrix keeps its rows and their widths, and [invertColor] once
    more gives the matrix back. *)
Theorem X28_invertColor_twice (mat : Mesh.TwoDimUint8) :
  mat <> [] -> one_width mat -> binary mat ->
  exists out,
    Mesh.invertColor mat = Mesh.Returned out
    /\ Mesh.invertColor out = Mesh.Returned mat
    /\ length out = length mat
    /\ forall i j, i < length mat -> j < length (nth i mat []) ->
         length (nth i out []) = length (nth i mat [])
         /\ nth j (nth i out []) 0%N = (1 - nth j (nth i mat []) 0)%N.
Proof.
  intros Hne Hu Hb.
  set (inv := fun c : N => if (c =? 0)%N then 1%N else 0%N).
  exists (map (map inv) mat).
  split; [exact (invertColor_rows Hne Hu)|]. split.
  - assert (E : map (map inv) (map (map inv) mat) = mat).
    { rewrite map_map. rewrite <- (map_id mat) at 2.
      apply map_ext_in. intros r Hr. rewrite map_map.
      rewrite <- (map_id r) at 2. apply map_ext_in. intros c Hc.
      subst inv. cbv beta.
      destruct (Hb r c Hr Hc) as [-> | ->]; reflexivity. }
    rewrite (@invertColor_rows (length (nth 0 mat [])) (map (map inv) mat)).
    + fold inv. rewrite E. reflexivity.
    + destruct mat; [contradiction Hne; reflexivity | discriminate].
    + intros r Hr. apply in_map_iff in Hr as [r0 [<- Hr0]].
      rewrite length_map. apply Hu. exact Hr0.
  - split; [apply length_map|]. intros i j Hi Hj.
    assert (Hr : nth i (map (map inv) mat) [] = map inv (nth i mat []))
      by (rewrite <- (map_nth (map inv)); reflexivity).
    rewrite Hr. split; [apply length_map|].
    assert (Hc : nth j (map inv (nth i mat [])) 0%N
                 = inv (nth j (nth i mat []) 0%N)).
    { rewrite (nth_indep _ 0%N (inv 0%N)) by (rewrite length_map; exact Hj).
      apply map_nth. }
    rewrite Hc. subst inv. cbv beta.
    destruct (Hb (nth i mat []) (nth j (nth i mat []) 0%N)) as [-> | ->];
      try reflexivity; apply nth_In; assumption.
Qed.

Lemma X28_invertColor_twice_witness :
  exists out,
    Mesh.invertColor [[1; 0]; [0; 0]]%N = Mesh.Returned out
    /\ Mesh.invertColor out = Mesh.Returned [[1; 0]; [0; 0]]%N
    /\ length out = length [[1; 0]; [0; 0]]%N
    /\ forall i j, i < length [[1; 0]; [0; 0]]%N ->
         j < length (nth i [[1; 0]; [0; 0]]%N []) ->
         length (nth i out []) = length (nth i [[1; 0]; [0; 0]]%N [])
         /\ nth j (nth i out []) 0%N
            = (1 - nth j (nth i [[1; 0]; [0; 0]]%N []) 0)%N.
Proof.
  apply X28_invertColor_twice.
  - discriminate.
  - intros r [<- | [<- | []]]; reflexivity.
  - intros r c [<- | [<- | []]] Hc; simpl in Hc;
      repeat (destruct Hc as [<- | Hc]; [auto|]); destruct Hc.
Defined.

(** * Arrows and shift *)

Section ArrowProofs.
Import Editor.

Lemma cell_bounds (i j : nat) (x : Item) :
  cell i j = Some x -> i < 10 /\ j < 18.
Proof.
  intros Hx.
  assert (Hp : all_cells (fun i j _ => (i <? 10) && (j <? 18)) = true)
    by (vm_compute; reflexivity).
  pose proof (all_cells_spec _ Hp _ _ Hx) as H. cbv beta in H.
  apply andb_prop in H as [H1 H2].
  apply Nat.ltb_lt in H1, H2. split; assumption.
Qed.

Lemma row_at_nat (i : nat) :
  i < 10 -> row_at (Z.of_nat i) = Some (nth i table [])
            /\ length (nth i table []) = 18.
Proof.
  intros Hi. unfold row_at.
  destruct (Z.ltb_spec (Z.of_nat i) 0); [lia|]. rewrite Nat2Z.id.
  do 10 (destruct i as [|i]; [split; reflexivity|]). lia.
Qed.

Lemma cell_at_nat (i j : nat) :
  cell_at (nth i table []) (Z.of_nat j) = cell i j.
Proof.
  unfold cell_at, cell.
  destruct (Z.ltb_spec (Z.of_nat j) 0); [lia|]. rewrite Nat2Z.id.
  reflexivity.
Qed.

Lemma row_at_over (i : nat) : 10 <= i -> row_at (Z.of_nat i) = None.
Proof.
  intros Hi. unfold row_at.
  destruct (Z.ltb_spec (Z.of_nat i) 0); [lia|]. rewrite Nat2Z.id.
  apply nth_error_None. exact Hi.
Qed.

Lemma cell_over (i j : nat) : 10 <= i -> cell i j = None.
Proof.
  intros Hi. unfold cell. rewrite (nth_overflow table) by exact Hi.
  destruct j; reflexivity.
Qed.

(** The current element after the callback of an arrow, the focus being
    on the table. *)
Lemma arrow_moves (w : World) (arrow : string) (a b i j : nat)
  (cb : World -> outcome) :
  In arrow ["←"; "→"; "↑"; "↓"]%string ->
  focusArea w = TYPE.ELEMENT ->
  cell i j = Some (currentElement w) ->
  isElement (cell i j) = true ->
  cbFn (TableKey (js arrow)) = Some cb ->
  focusArea (fst (cb w)) = TYPE.ELEMENT
  /\ currentElement (fst (cb w))
     = match neighbour arrow i j with
       | Some x => x
       | None => currentElement w
       end.
Proof.
  intros Ha Hf Hc He Hcb.
  assert (Hidx : getElementIndex (currentElement w)
                 = (Z.of_nat i, Z.of_nat j)).
  { apply element_index; [exact Hc|]. rewrite <- Hc. exact He. }
  destruct (cell_bounds _ _ Hc) as [Hi Hj].
  destruct (row_at_nat Hi) as [Hrow Hlen].
  destruct Ha as [<- | [<- | [<- | [<- | []]]]];
    injection Hcb as <-; unfold neighbour;
    cbv beta iota delta [String.eqb Ascii.eqb Bool.eqb].
  - (* left *)
    unfold cb_left. rewrite Hf. cbn [TYPE.eqb]. rewrite Hidx, Hrow.
    unfold has_key. rewrite Hlen.
    destruct j as [|j'].
    + cbn. split; [exact Hf | reflexivity].
    + replace (Z.of_nat (S j') - 1)%Z with (Z.of_nat j') by lia.
      rewrite cell_at_nat.
      destruct (Z.leb_spec 0 (Z.of_nat j')); [|lia].
      destruct (Z.ltb_spec (Z.of_nat j') (Z.of_nat 18)); [|lia].
      cbn [andb].
      destruct (isElement (cell i j')) eqn:E; [|split; [exact Hf|reflexivity]].
      destruct (cell i j') as [x|]; [|discriminate E].
      split; [exact Hf | reflexivity].
  - (* right *)
    unfold cb_right. rewrite Hf. cbn [TYPE.eqb]. rewrite Hidx, Hrow.
    unfold has_key. rewrite Hlen.
    replace (Z.of_nat j + 1)%Z with (Z.of_nat (S j)) by lia.
    rewrite cell_at_nat.
    destruct (isElement (cell i (S j))) eqn:E.
    + destruct (cell i (S j)) as [x|] eqn:Ex; [|discriminate E].
      destruct (cell_bounds _ _ Ex) as [_ Hj'].
      destruct (Z.leb_spec 0 (Z.of_nat (S j))); [|lia].
      destruct (Z.ltb_spec (Z.of_nat (S j)) (Z.of_nat 18)); [|lia].
      split; [exact Hf | reflexivity].
    + rewrite andb_false_r. split; [exact Hf | reflexivity].
  - (* up *)
    unfold cb_up. rewrite Hidx.
    destruct i as [|i'].
    + cbn. split; [exact Hf | reflexivity].
    + replace (Z.of_nat (S i') - 1)%Z with (Z.of_nat i') by lia.
      destruct (@row_at_nat i' ltac:(lia)) as [Hrow' _]. rewrite Hrow'.
      rewrite cell_at_nat.
      destruct (Z.eqb_spec (Z.of_nat (S i')) 0); [lia|]. cbn [negb andb].
      destruct (cell i' j) as [x|] eqn:Ex; [|split; [exact Hf|reflexivity]].
      destruct (isElement (Some x)) eqn:E;
        [|split; [exact Hf | reflexivity]].
      split; reflexivity.
  - (* down *)
    unfold cb_down. rewrite Hidx.
    replace (Z.of_nat i + 1)%Z with (Z.of_nat (S i)) by lia.
    destruct (Nat.lt_ge_cases (S i) 10) as [Hi' | Hi'].
    + destruct (row_at_nat Hi') as [Hrow' _]. rewrite Hrow'.
      rewrite cell_at_nat.
      destruct (isElement (cell (S i) j)) eqn:E;
        [|split; [exact Hf | reflexivity]].
      destruct (cell (S i) j) as [x|]; [|discriminate E].
      split; reflexivity.
    + rewrite (row_at_over Hi'), (cell_over j Hi').
      split; [exact Hf | reflexivity].
Qed.

End ArrowProofs.

Section ArrowBack.
Import Editor.

Lemma neighbour_back (there back : string) (i j : nat) (x x' : Item) :
  In (there, back) opposite_arrows ->
  cell i j = Some x -> isElement (cell i j) = true ->
  neighbour there i j = Some x' ->
  exists i' j',
    cell i' j' = Some x' /\ isElement (cell i' j') = true
    /\ neighbour back i' j' = Some x.
Proof.
  intros Hp Hc He Hn.
  destruct Hp as [E | [E | [E | [E | []]]]]; injection E as <- <-;
    unfold neighbour in *;
    cbv beta iota delta [String.eqb Ascii.eqb Bool.eqb] in *.
  - destruct j as [|j']; [discriminate Hn|].
    destruct (isElement (cell i j')) eqn:E1; [|discriminate Hn].
    exists i, j'. rewrite He, E1, Hc. auto.
  - destruct (isElement (cell i (S j))) eqn:E1; [|discriminate Hn].
    exists i, (S j). rewrite He, E1, Hc. auto.
  - destruct i as [|i']; [discriminate Hn|].
    destruct (isElement (cell i' j)) eqn:E1; [|discriminate Hn].
    exists i', j. rewrite He, E1, Hc. auto.
  - destruct (isElement (cell (S i) j)) eqn:E1; [|discriminate Hn].
    exists (S i), j. rewrite He, E1, Hc. auto.
Qed.

Lemma opposite_arrows_keys (there back : string) :
  In (there, back) opposite_arrows ->
  In there ["←"; "→"; "↑"; "↓"]%string
  /\ In back ["←"; "→"; "↑"; "↓"]%string
  /\ (exists cb, cbFn (TableKey (js there)) = Some cb)
  /\ (exists cb, cbFn (TableKey (js back)) = Some cb).
Proof.
  intros [E | [E | [E | [E | []]]]]; injection E as <- <-;
    (split; [simpl; tauto|]); (split; [simpl; tauto|]);
    split; eexists; reflexivity.
Qed.

End ArrowBack.

(** X29: with the focus on the table, the arrows undo each other: when
    the callback of an arrow has changed the current element, the
    callback of the opposite arrow makes the former element current
    again. *)
Theorem X29_arrows_undo (w : Editor.World) (there back : string)
  (a b c d : nat) :
  element_cell (Editor.currentElement w) ->
  Editor.focusArea w = Editor.TYPE.ELEMENT ->
  In (there, back) opposite_arrows ->
  button_at a b there -> button_at c d back ->
  Editor.currentElement (Editor.run w [Editor.Call a b])
  <> Editor.currentElement w ->
  Editor.currentElement
    (Editor.run w [Editor.Call a b; Editor.Call c d])
  = Editor.currentElement w.
Proof.
  intros [i [j [Hc He]]] Hf Hp Ha Hb Hmoved.
  destruct (opposite_arrows_keys Hp) as [H1 [H2 [[cb1 E1] [cb2 E2]]]].
  cbn [Editor.run fold_left Editor.handle] in *.
  rewrite (@button_call w a b (js there) cb1 Ha E1) in *.
  assert (He' : Editor.isElement (Editor.cell i j) = true)
    by (rewrite Hc; exact He).
  destruct (@arrow_moves w there a b i j cb1 H1 Hf Hc He' E1) as [Hf1 Hm1].
  destruct (neighbour there i j) as [x'|] eqn:En;
    [|contradiction Hmoved].
  destruct (@neighbour_back there back i j _ x' Hp Hc He' En)
    as [i' [j' [Hc' [He'' Hback]]]].
  rewrite (@button_call (fst (cb1 w)) c d (js back) cb2 Hb E2).
  rewrite <- Hm1 in Hc'.
  destruct (@arrow_moves (fst (cb1 w)) back c d i' j' cb2 H2 Hf1 Hc' He'' E2)
    as [_ Hm2].
  rewrite Hm2, Hback. reflexivity.
Qed.

Lemma X29_arrows_undo_witness :
  Editor.currentElement
    (Editor.run (Editor.run Editor.initial [Editor.PointerUp 5 6])
       [Editor.Call 9 15; Editor.Call 9 17])
  = Editor.currentElement
      (Editor.run Editor.initial [Editor.PointerUp 5 6]).
Proof.
  apply (@X29_arrows_undo
           (Editor.run Editor.initial [Editor.PointerUp 5 6])
           "←" "→" 9 15 9 17).
  - exists 5, 6. split; reflexivity.
  - reflexivity.
  - left. reflexivity.
  - reflexivity.
  - reflexivity.
  - vm_compute. discriminate.
Defined.

(** X30: a button pressed under the shift writes nothing.  The call of
    an element or of a key without a callback of its own, the shift being
    held, releases the shift and leaves the current element and the
    focus as they are; the command and the cursor stay as they are unless
    the key is [0], which clears the command; and the stored result stays
    as it is unless the key is [0] or [1]. *)
Theorem X30_shift_writes_nothing (w : Editor.World) (i j : nat)
  (key : jsstring) :
  on_command (Editor.state w) -> Editor.shift w = true ->
  Editor.cell i j = Some (Editor.TableElement key)
  \/ (Editor.cell i j = Some (Editor.TableKey key)
      /\ Editor.cbFn (Editor.TableKey key) = None) ->
  let w' := Editor.run w [Editor.Call i j] in
  Editor.shift w' = false
  /\ Editor.currentElement w' = Editor.currentElement w
  /\ Editor.focusArea w' = Editor.focusArea w
  /\ (key = js "0" ->
      Editor.command_ (Editor.state w') = [js " "]
      /\ Editor.cursor w' = 0%Z)
  /\ (key <> js "0" ->
      Editor.command_ (Editor.state w')
      = Editor.command_ (Editor.state w)
      /\ Editor.cursor w' = Editor.cursor w)
  /\ (key <> js "0" -> key <> js "1" ->
      Editor.result w' = Editor.result w).
Proof.
  intros H Hs Hcell w'. subst w'.
  cbn [Editor.run fold_left Editor.handle].
  assert (E : fst (Editor.call w i j)
              = Editor.setShift (Editor.dispatchShift w key) false).
  { unfold Editor.call.
    destruct Hcell as [Hc | [Hc Hcb]]; rewrite Hc;
      cbn [Editor.isKey Editor.isElement Editor.type Editor.TYPE.eqb orb];
      [cbn [Editor.cbFn] | rewrite Hcb];
      cbn [fst Editor.returned]; unfold Editor.defaultCallbackFn;
      cbn [Editor.isKey Editor.isElement Editor.isShift Editor.type
           Editor.TYPE.eqb orb negb];
      rewrite Hs; reflexivity. }
  rewrite E. clear E. unfold Editor.dispatchShift.
  destruct (JsString.eqb key (js "0")) eqn:E0.
  - apply eqb_eq in E0. subst key.
    split; [reflexivity|]. split; [reflexivity|]. split; [reflexivity|].
    split; [|split; [intros Hn; contradiction Hn; reflexivity
                    |intros Hn; contradiction Hn; reflexivity]].
    intros _. split; [reflexivity|].
    unfold Editor.handleAllClear.
    change (Editor.cursor
              (Editor.setShift
                 (Editor.setCommand
                    (Editor.setCursor
                       (Editor.dispatchEvent w (Editor.Event.SHIFT (js "0")))
                       0)
                    [js " "]) false))
      with (Editor.cursor
              (Editor.setCursor
                 (Editor.dispatchEvent w (Editor.Event.SHIFT (js "0"))) 0)).
    rewrite cursor_setCursor. destruct H as [Hc _].
    change (Editor.command_
              (Editor.state
                 (Editor.dispatchEvent w (Editor.Event.SHIFT (js "0")))))
      with (Editor.command_ (Editor.state w)).
    lia.
  - assert (N0 : key <> js "0").
    { intros ->. vm_compute in E0. discriminate E0. }
    destruct (JsString.eqb key (js "1")) eqn:E1.
    + apply eqb_eq in E1. subst key.
      unfold Editor.handleCompution, Editor.compute_command.
      destruct (scan _) as [ast|];
        [destruct (compute ast) as [cc | e];
         [|destruct (Editor.announced e)]|];
        (split; [reflexivity|]); (split; [reflexivity|]);
        (split; [reflexivity|]);
        (split; [intros Hn; discriminate Hn|]);
        (split; [intros _; split; reflexivity|]);
        intros _ Hn; contradiction Hn; reflexivity.
    + split; [reflexivity|]. split; [reflexivity|]. split; [reflexivity|].
      split; [intros Hn; contradiction (N0 Hn)|].
      split; [intros _; split; reflexivity|]. intros _ _. reflexivity.
Qed.

Lemma X30_shift_writes_nothing_witness :
  let w := Editor.run Editor.initial [Editor.PointerDown 0 1] in
  let w' := Editor.run w [Editor.Call 9 5] in
  Editor.shift w' = false
  /\ Editor.currentElement w' = Editor.currentElement w
  /\ Editor.focusArea w' = Editor.focusArea w
  /\ (js "2" = js "0" ->
      Editor.command_ (Editor.state w') = [js " "]
      /\ Editor.cursor w' = 0%Z)
  /\ (js "2" <> js "0" ->
      Editor.command_ (Editor.state w')
      = Editor.command_ (Editor.state w)
      /\ Editor.cursor w' = Editor.cursor w)
  /\ (js "2" <> js "0" -> js "2" <> js "1" ->
      Editor.result w' = Editor.result w).
Proof.
  apply (@X30_shift_writes_nothing
           (Editor.run Editor.initial [Editor.PointerDown 0 1]) 9 5
           (js "2")).
  - split; [vm_compute; split; [discriminate | reflexivity] | reflexivity].
  - reflexivity.
  - right. split; reflexivity.
Defined.
